(** * A segregated free-list allocator (mm.c): model and verification

    The development embeds the allocator of [mm.c] over a byte-addressed
    memory and proves properties of its size-class map, its free-list
    index, its placement engine, its coalescer and its heap extender.

    Conventions of the model (LP64, little endian, as the source assumes
    with [__builtin_clzl] and a 48-byte overhead per block):
    - [size_t] values are integers reduced modulo [2^64];
    - [int] values are integers reduced to the signed 32-bit range;
    - pointers are integers (byte addresses); [NULL] is [0] and pointer
      arithmetic is integer arithmetic;
    - memory is a total map from byte addresses to bytes; a multi-byte
      object is stored least significant byte first;
    - what C leaves undefined (an index outside [flp_list], a count of
      leading zeros of [0], a dereference of [NULL], a loop that has not
      ended when the fuel is spent) is the result [None]. *)

From stdpp Require Import base tactics numbers option list.

Local Open Scope Z_scope.

(** ** Machine integers *)

Definition size_t (x : Z) : Z := x mod 2 ^ 64.

(** Conversion to [int]: reduction to the signed 32-bit range. *)
Definition int (x : Z) : Z := (x + 2 ^ 31) mod 2 ^ 32 - 2 ^ 31.

(** Conversion to [long]: reduction to the signed 64-bit range. *)
Definition long (x : Z) : Z := (x + 2 ^ 63) mod 2 ^ 64 - 2 ^ 63.

Definition NULL : Z := 0.

(** ** Byte-addressed memory *)

Definition memory : Type := Z → Z.

Definition load8 (m : memory) (a : Z) : Z := m a mod 256.

Definition store8 (m : memory) (a v : Z) : memory :=
  λ x, if decide (x = a) then v mod 256 else m x.

(** Little-endian objects of [n] bytes. *)
Fixpoint load_le (n : nat) (m : memory) (a : Z) : Z :=
  match n with
  | O => 0
  | S k => load8 m a + 256 * load_le k m (a + 1)
  end.

Fixpoint store_le (n : nat) (m : memory) (a v : Z) : memory :=
  match n with
  | O => m
  | S k => store_le k (store8 m a v) (a + 1) (v / 256)
  end.

Definition load64 : memory → Z → Z := load_le 8.
Definition store64 : memory → Z → Z → memory := store_le 8.

(** A [bool] occupies one byte; any non-zero byte reads as [true]. *)
Definition load_bool (m : memory) (a : Z) : bool :=
  if decide (load8 m a = 0) then false else true.
Definition store_bool (m : memory) (a : Z) (b : bool) : memory :=
  store8 m a (if b then 1 else 0).

(** Modelled from the spec: [mem_memcpy] and [mem_memset] of memlib, with
    the meaning of [memcpy] and [memset] of the C library. *)
Definition memcpy (m : memory) (dst src n : Z) : memory :=
  λ x, if decide (dst ≤ x < dst + n) then m (src + (x - dst)) else m x.
Definition memset (m : memory) (dst c n : Z) : memory :=
  λ x, if decide (dst ≤ x < dst + n) then c mod 256 else m x.

(** ** Constants of mm.c *)

Definition ALIGNMENT : Z := 16.
Definition MINCLASSSIZE : Z := 48.
Definition SHIFT : Z := 5.
Definition CLASSNUM : Z := 16.
Definition CHUNKSIZE : Z := 2048.

(** [struct header { size_t size; bool freed; header *next; header *prev; }]
    and [struct footer { size_t size; bool freed; }] under LP64. *)
Definition off_size : Z := 0.
Definition off_freed : Z := 8.
Definition off_next : Z := 16.
Definition off_prev : Z := 24.
Definition HSIZE : Z := 32.
Definition FSIZE : Z := 16.

(** ** Allocator state: the globals of mm.c, the memory and the host heap *)

Record state : Type := mkState {
  mem : memory;
  mem_brk : Z;          (* host: current break *)
  mem_max_addr : Z;     (* host: the break may not pass this address *)
  flp_list : list Z;
  frees : Z;
  mallocs : Z;
  extends : Z;
  heap : Z;
  end_ : Z;
  heap_brk : Z
}.

Definition set_mem (m : memory) (s : state) : state :=
  mkState m (mem_brk s) (mem_max_addr s) (flp_list s) (frees s) (mallocs s)
    (extends s) (heap s) (end_ s) (heap_brk s).
Definition set_mem_brk (v : Z) (s : state) : state :=
  mkState (mem s) v (mem_max_addr s) (flp_list s) (frees s) (mallocs s)
    (extends s) (heap s) (end_ s) (heap_brk s).
Definition set_flp_list (l : list Z) (s : state) : state :=
  mkState (mem s) (mem_brk s) (mem_max_addr s) l (frees s) (mallocs s)
    (extends s) (heap s) (end_ s) (heap_brk s).
Definition set_frees (v : Z) (s : state) : state :=
  mkState (mem s) (mem_brk s) (mem_max_addr s) (flp_list s) v (mallocs s)
    (extends s) (heap s) (end_ s) (heap_brk s).
Definition set_mallocs (v : Z) (s : state) : state :=
  mkState (mem s) (mem_brk s) (mem_max_addr s) (flp_list s) (frees s) v
    (extends s) (heap s) (end_ s) (heap_brk s).
Definition set_extends (v : Z) (s : state) : state :=
  mkState (mem s) (mem_brk s) (mem_max_addr s) (flp_list s) (frees s) (mallocs s)
    v (heap s) (end_ s) (heap_brk s).
Definition set_heap (v : Z) (s : state) : state :=
  mkState (mem s) (mem_brk s) (mem_max_addr s) (flp_list s) (frees s) (mallocs s)
    (extends s) v (end_ s) (heap_brk s).
Definition set_end (v : Z) (s : state) : state :=
  mkState (mem s) (mem_brk s) (mem_max_addr s) (flp_list s) (frees s) (mallocs s)
    (extends s) (heap s) v (heap_brk s).
Definition set_heap_brk (v : Z) (s : state) : state :=
  mkState (mem s) (mem_brk s) (mem_max_addr s) (flp_list s) (frees s) (mallocs s)
    (extends s) (heap s) (end_ s) v.

(** Field accessors. *)
Definition get_size (s : state) (p : Z) : Z := load64 (mem s) (p + off_size).
Definition get_freed (s : state) (p : Z) : bool := load_bool (mem s) (p + off_freed).
Definition get_next (s : state) (p : Z) : Z := load64 (mem s) (p + off_next).
Definition get_prev (s : state) (p : Z) : Z := load64 (mem s) (p + off_prev).

Definition put_size (p v : Z) (s : state) : state :=
  set_mem (store64 (mem s) (p + off_size) v) s.
Definition put_freed (p : Z) (b : bool) (s : state) : state :=
  set_mem (store_bool (mem s) (p + off_freed) b) s.
Definition put_next (p v : Z) (s : state) : state :=
  set_mem (store64 (mem s) (p + off_next) v) s.
Definition put_prev (p v : Z) (s : state) : state :=
  set_mem (store64 (mem s) (p + off_prev) v) s.

(** [flp_list[c]], defined for [0 <= c < CLASSNUM] only. *)
Definition flp_get (s : state) (c : Z) : option Z :=
  if decide (0 ≤ c) then flp_list s !! Z.to_nat c else None.
Definition flp_set (c v : Z) (s : state) : option state :=
  if decide (0 ≤ c < Z.of_nat (length (flp_list s)))
  then Some (set_flp_list (<[Z.to_nat c := v]> (flp_list s)) s)
  else None.

(** ** The host heap primitive *)

(** The failure sentinel of the host, [(void * )-1]. *)
Definition SBRK_FAIL : Z := 2 ^ 64 - 1.

(** Modelled from the spec: [mem_sbrk] of memlib. It extends the heap by
    exactly [incr] bytes and returns the start of the new region, which is
    contiguous with the previous extension; when the request cannot be
    satisfied it returns the sentinel [(void * )-1] and changes nothing. *)
Definition mem_sbrk (incr : Z) (s : state) : Z * state :=
  if decide (mem_brk s + incr ≤ mem_max_addr s)
  then (mem_brk s, set_mem_brk (mem_brk s + incr) s)
  else (SBRK_FAIL, s).

(** ** Helpers of mm.c *)

Definition align (x : Z) : Z :=
  size_t (ALIGNMENT * (size_t (x + ALIGNMENT - 1) / ALIGNMENT)).

(** [__builtin_clzl]: the number of leading zero bits of a 64-bit word,
    undefined at [0]. *)
Fixpoint clz_from (n : nat) (s : Z) : Z :=
  match n with
  | O => 0
  | S k => if Z.testbit s (Z.of_nat k) then 0 else 1 + clz_from k s
  end.

Definition clzl (s : Z) : option Z :=
  if decide (s = 0) then None else Some (clz_from 64 s).

Definition log2Floor (s : Z) : option Z :=
  c ← clzl s; Some (int (Z.lxor (8 * 8 - 1) c)).

Definition max (s1 s2 : Z) : Z := if decide (s1 >= s2) then s1 else s2.

Definition map_to_class (size : Z) : option Z :=
  class ← log2Floor size;
  let actual := int (class - SHIFT) in
  Some (if decide (actual > CLASSNUM - 1) then CLASSNUM - 1 else actual).

Definition init_classes (s : state) : state :=
  set_flp_list (replicate (Z.to_nat CLASSNUM) NULL) s.

Definition prev_blk (s : state) (block : Z) : Z :=
  let prev_footer := block - FSIZE in
  if decide (prev_footer < heap s) then NULL
  else block - get_size s prev_footer.

Definition next_blk (s : state) (block : Z) : Z :=
  if decide (block = NULL) then NULL
  else
    let next_header := block + get_size s block in
    if decide (next_header >= end_ s) then NULL
    else block + get_size s block.

Definition get_footer (s : state) (block : Z) : Z :=
  block + get_size s block - FSIZE.

Definition get_header (s : state) (block : Z) : Z :=
  block - get_size s block + FSIZE.

Definition alloc_size (size : Z) : Z :=
  align (size_t (size_t (size + HSIZE) + FSIZE)).

Fixpoint get_count_loop (fuel : nat) (s : state) (curr ct : Z) : option Z :=
  match fuel with
  | O => None
  | S k =>
      if decide (curr ≠ NULL)
      then get_count_loop k s (get_next s curr) (int (ct + 1))
      else Some ct
  end.

Definition get_count (fuel : nat) (s : state) (class : Z) : option Z :=
  curr ← flp_get s class; get_count_loop fuel s curr 0.

Definition del_fl_seg (block size : Z) (s : state) : option state :=
  let s := set_frees (int (frees s - 1)) s in
  class ← map_to_class (get_size s block);
  let prev := get_prev s block in
  let next := get_next s block in
  let s := put_prev block NULL s in
  let s := put_next block NULL s in
  s ← (if decide (prev = NULL) then flp_set class next s
       else Some (put_next prev next s));
  Some (if decide (next ≠ NULL) then put_prev next prev s else s).

Definition add_fl_seg (block size : Z) (s : state) : option state :=
  let s := set_frees (int (frees s + 1)) s in
  class ← map_to_class size;
  prev_head ← flp_get s class;
  let s := put_prev block NULL s in
  let s := put_next block prev_head s in
  s ← flp_set class block s;
  Some (if decide (prev_head ≠ NULL) then put_prev prev_head block s else s).

Definition set_free (block : Z) (freed : bool) (s : state) : state :=
  let foot := get_footer s block in
  let s := put_freed block freed s in
  put_freed foot freed s.

Definition set_size (block size : Z) (s : state) : state :=
  let s := put_size block size s in
  let foot := get_footer s block in
  put_size foot size s.

(** ** Initialisation *)

(** [*(char * )p]: a signed byte. *)
Definition load_char (m : memory) (a : Z) : Z :=
  let b := load8 m a in if decide (b < 128) then b else b - 256.

(** A read of a [char] through a pointer that [mem_sbrk] returned. The
    bytes below the break are the host's and can be read; the failure
    sentinel [(void * )-1] is the last address and is not below the break,
    so the read through it is undefined. *)
Definition read_char (s : state) (a : Z) : option Z :=
  if decide (a < mem_brk s) then Some (load_char (mem s) a) else None.

Definition mm_init (s : state) : option (bool * state) :=
  let s := init_classes s in
  let s := set_frees 0 s in
  let s := set_mallocs 0 s in
  let s := set_extends 0 s in
  let s := set_end NULL s in
  let s := set_heap_brk NULL s in
  let init_size := alloc_size CHUNKSIZE in
  let '(p, s) := mem_sbrk init_size s in
  let s := set_heap_brk p s in
  let s := set_end (heap_brk s + init_size) s in
  first ← read_char s (heap_brk s);
  if decide (first = -1) then Some (false, s)
  else
    let s := set_heap (heap_brk s) s in
    let s := set_size (heap s) init_size s in
    let s := set_free (heap s) true s in
    let s := put_next (heap s) NULL s in
    let s := put_prev (heap s) NULL s in
    s ← add_fl_seg (heap s) init_size s;
    Some (true, s).

(** ** Placement *)

(** The inner [while] loop of [find_fit_seg]: first fit in one bucket;
    [NULL] when the bucket is exhausted. *)
Fixpoint find_fit_in (fuel : nat) (s : state) (curr_block asize : Z) : option Z :=
  match fuel with
  | O => None
  | S k =>
      if decide (curr_block ≠ NULL) then
        if decide (get_size s curr_block >= asize) then Some curr_block
        else find_fit_in k s (get_next s curr_block) asize
      else Some NULL
  end.

(** The outer [for] loop, with [n] the number of classes left to visit. *)
Fixpoint find_fit_from (n fuel : nat) (s : state) (class asize : Z) : option Z :=
  match n with
  | O => Some NULL
  | S n' =>
      curr_block ← flp_get s class;
      r ← find_fit_in fuel s curr_block asize;
      if decide (r ≠ NULL) then Some r
      else find_fit_from n' fuel s (class + 1) asize
  end.

Definition find_fit_seg (fuel : nat) (asize : Z) (s : state) : option Z :=
  starting_class ← map_to_class asize;
  find_fit_from (Z.to_nat (CLASSNUM - starting_class)) fuel s starting_class asize.

Definition split_block (free_block len : Z) (s : state) : option state :=
  let new_size := len in
  let old_size := get_size s free_block in
  let size_remain := size_t (old_size - new_size) in
  if decide (size_remain < size_t (HSIZE + FSIZE)) then
    s ← del_fl_seg free_block old_size s;
    Some (set_free free_block false s)
  else
    s ← del_fl_seg free_block old_size s;
    let s := set_size free_block new_size s in
    let s := set_free free_block false s in
    let new_block := next_blk s free_block in
    if decide (new_block = NULL) then None
    else
      let s := set_size new_block size_remain s in
      let s := set_free new_block true s in
      add_fl_seg new_block size_remain s.

(** ** Coalescing *)

Definition coalesce (free_block : Z) (s : state) : option (Z * state) :=
  let prev_block := prev_blk s free_block in
  let next_block := next_blk s free_block in
  let prev_free := bool_decide (prev_block ≠ NULL) && get_freed s prev_block in
  let next_free := bool_decide (next_block ≠ NULL) && get_freed s next_block in
  if negb prev_free && negb next_free then
    let new_size := get_size s free_block in
    s ← add_fl_seg free_block new_size s;
    Some (free_block, s)
  else if prev_free && negb next_free then
    let new_size := size_t (get_size s prev_block + get_size s free_block) in
    s ← del_fl_seg prev_block (get_size s prev_block) s;
    let free_block := prev_block in
    let s := set_size free_block new_size s in
    let s := set_free free_block true s in
    s ← add_fl_seg free_block new_size s;
    Some (free_block, s)
  else if negb prev_free && next_free then
    let new_size := size_t (get_size s free_block + get_size s next_block) in
    s ← del_fl_seg next_block (get_size s next_block) s;
    let s := set_size free_block new_size s in
    let s := set_free free_block true s in
    s ← add_fl_seg free_block new_size s;
    Some (free_block, s)
  else
    let new_size :=
      size_t (size_t (get_size s prev_block + get_size s free_block)
              + get_size s next_block) in
    s ← del_fl_seg next_block (get_size s next_block) s;
    let free_block := prev_block in
    s ← del_fl_seg free_block (get_size s prev_block) s;
    let s := set_size free_block new_size s in
    let s := set_free free_block true s in
    s ← add_fl_seg free_block new_size s;
    Some (free_block, s).

(** ** Heap extension *)

Definition extend_heap (size : Z) (s : state) : option (Z * state) :=
  let s := set_extends (int (extends s + 1)) s in
  let '(block, s) := mem_sbrk size s in
  if decide (block = SBRK_FAIL) then Some (NULL, s)
  else
    let s := set_heap_brk block s in
    let hblock := block in
    let s := set_size hblock size s in
    let s := set_free hblock true s in
    let s := set_end (block + size) s in
    coalesce hblock s.

(** The size [malloc] asks [extend_heap] for when no free block fits. *)
Definition extend_size (actual_size : Z) (s : state) : option Z :=
  let last_block := prev_blk s (end_ s) in
  if decide (last_block = NULL) then None
  else if get_freed s last_block
       then Some (size_t (actual_size - get_size s last_block))
       else Some (max actual_size CHUNKSIZE).

(** ** The public operations *)

Definition malloc (fuel : nat) (size : Z) (s : state) : option (Z * state) :=
  let s := set_mallocs (int (mallocs s + 1)) s in
  if decide (size = 0) then Some (NULL, s)
  else
    let actual_size := alloc_size size in
    fit_block ← find_fit_seg fuel actual_size s;
    if decide (fit_block ≠ NULL) then
      s ← split_block fit_block actual_size s;
      Some (fit_block + HSIZE, s)
    else
      ext ← extend_size actual_size s;
      '(new_block, s) ← extend_heap ext s;
      if decide (new_block = NULL) then Some (NULL, s)
      else
        s ← split_block new_block actual_size s;
        Some (new_block + HSIZE, s).

Fixpoint get_FL_count_from (n fuel : nat) (s : state) (class ct : Z) : option Z :=
  match n with
  | O => Some ct
  | S n' =>
      c ← get_count fuel s class;
      get_FL_count_from n' fuel s (class + 1) (int (ct + c))
  end.

Definition get_FL_count (fuel : nat) (s : state) : option Z :=
  get_FL_count_from (Z.to_nat CLASSNUM) fuel s 0 0.

Definition free (ptr : Z) (s : state) : option state :=
  let block := ptr - HSIZE in
  if decide (ptr = NULL) then Some s
  else
    let s := set_free block true s in
    '(_, s) ← coalesce block s;
    Some s.

Definition realloc (fuel : nat) (oldptr size : Z) (s : state) : option (Z * state) :=
  if decide (int size < 0) then Some (NULL, s)
  else if decide (size = 0) then
    s ← free oldptr s; Some (NULL, s)
  else if decide (oldptr = NULL) then malloc fuel size s
  else
    let old_block := oldptr - HSIZE in
    let oldsize := get_size s old_block in
    let newsize := alloc_size size in
    if decide (newsize = oldsize) then Some (oldptr, s)
    else if decide (newsize < oldsize) then
      '(newptr, s) ← malloc fuel size s;
      if decide (newptr = NULL) then Some (NULL, s)
      else
        let s := set_mem (memcpy (mem s) newptr oldptr
                            (size_t (size_t (newsize - HSIZE) - FSIZE))) s in
        s ← free oldptr s;
        Some (newptr, s)
    else
      '(newptr, s) ← malloc fuel size s;
      if decide (newptr = NULL) then Some (NULL, s)
      else
        let payload_size := size_t (size_t (oldsize - HSIZE) - FSIZE) in
        let s := set_mem (memcpy (mem s) newptr oldptr payload_size) s in
        s ← free oldptr s;
        Some (newptr, s).

Definition calloc (fuel : nat) (nmemb size : Z) (s : state) : option (Z * state) :=
  let size := size_t (size * nmemb) in
  '(ptr, s) ← malloc fuel size s;
  if decide (ptr ≠ NULL)
  then Some (ptr, set_mem (memset (mem s) ptr 0 size) s)
  else Some (ptr, s).

(** ** The heap checker *)

(** [in_heap]. Modelled from the spec: the bounds [mem_heap_lo()] and
    [mem_heap_hi()] that the host reports are the parameters [lo] and
    [hi]. *)
Definition in_heap (lo hi p : Z) : bool :=
  bool_decide (p ≤ hi) && bool_decide (p >= lo).

Definition aligned (p : Z) : bool :=
  let ip := size_t p in bool_decide (align ip = ip).

Definition check_free_block (s : state) (block : Z) : bool :=
  get_freed s block.

Definition correct_class (s : state) (block curr_class : Z) : option bool :=
  class ← map_to_class (get_size s block);
  Some (bool_decide (curr_class = class)).

Definition hf_consistency (s : state) (block : Z) : bool :=
  if decide (block = NULL) then false
  else
    let block_foot := get_footer s block in
    if decide (block_foot = NULL) then false
    else bool_decide (get_size s block = get_size s block_foot)
         && bool_decide (get_freed s block = get_freed s block_foot).

Definition correct_coal (s : state) (block : Z) : bool :=
  if negb (get_freed s block) then true
  else
    let prev := prev_blk s block in
    let next := next_blk s block in
    if bool_decide (prev ≠ NULL) && get_freed s prev then false
    else if bool_decide (next ≠ NULL) && get_freed s next then false
    else true.

(** The [while] loop of [mm_checkheap] over one bucket. *)
Fixpoint check_list (fuel : nat) (s : state) (curr class : Z) : option bool :=
  match fuel with
  | O => None
  | S k =>
      if decide (curr ≠ NULL) then
        if negb (check_free_block s curr) then Some false
        else
          ok ← correct_class s curr class;
          if negb ok then Some false
          else if negb (hf_consistency s curr) then Some false
          else check_list k s (get_next s curr) class
      else Some true
  end.

(** The [for] loop over the classes, with [n] the number of classes left. *)
Fixpoint check_classes (n fuel : nat) (s : state) (class : Z) : option bool :=
  match n with
  | O => Some true
  | S n' =>
      curr ← flp_get s class;
      ok ← check_list fuel s curr class;
      if (ok : bool) then check_classes n' fuel s (class + 1) else Some false
  end.

(** The [while] loop over the blocks of the heap. *)
Fixpoint check_blocks (fuel : nat) (lo hi : Z) (s : state) (current : Z)
  : option bool :=
  match fuel with
  | O => None
  | S k =>
      if bool_decide (current ≠ NULL) && bool_decide (current < end_ s) then
        if negb (in_heap lo hi current) then Some false
        else if negb (aligned current) then Some false
        else if negb (correct_coal s current) then Some false
        else check_blocks k lo hi s (next_blk s current)
      else Some true
  end.

(** [mm_checkheap]; the line number and the messages are left out. *)
Definition mm_checkheap (lo hi : Z) (fuel : nat) (s : state) : option bool :=
  ct ← get_FL_count fuel s;
  if decide (frees s ≠ ct) then Some false
  else
    ok ← check_classes (Z.to_nat CLASSNUM) fuel s 0;
    if negb ok then Some false
    else check_blocks fuel lo hi s (heap s).


(** * The abstract view of the heap and of the index *)

(** A block of the heap: its address, its size and its [freed] flag. *)
Abbreviation blk := (Z * Z * bool)%type.
Definition blk_addr (x : blk) : Z := x.1.1.
Definition blk_size (x : blk) : Z := x.1.2.
Definition blk_freed (x : blk) : bool := x.2.

(** The blocks of [H] tile the addresses from [a] to [e]. *)
Fixpoint chain (a : Z) (H : list blk) (e : Z) : Prop :=
  match H with
  | [] => a = e
  | x :: H' => blk_addr x = a ∧ chain (a + blk_size x) H' e
  end.

Definition size_ok (x : blk) : Prop :=
  0 < blk_size x ∧ blk_size x mod 16 = 0.

(** Header and footer of a block hold its size and its flag. *)
Definition tags_ok (m : memory) (x : blk) : Prop :=
  load64 m (blk_addr x + off_size) = blk_size x ∧
  load_bool m (blk_addr x + off_freed) = blk_freed x ∧
  load64 m (blk_addr x + blk_size x - FSIZE + off_size) = blk_size x ∧
  load_bool m (blk_addr x + blk_size x - FSIZE + off_freed) = blk_freed x.

(** A doubly-linked list segment in memory: from [h], whose predecessor
    is [p], through the blocks of [L], to the pointer [t]. *)
Fixpoint dseg (m : memory) (h p : Z) (L : list Z) (t : Z) : Prop :=
  match L with
  | [] => h = t
  | b :: L' =>
      h = b ∧ b ≠ NULL ∧ load64 m (b + off_prev) = p ∧
      dseg m (load64 m (b + off_next)) b L' t
  end.

(** Every member of bucket [k] is a free block of class [k]. *)
Definition indexed (H : list blk) (Ls : list (list Z)) : Prop :=
  ∀ (k : nat) L b, Ls !! k = Some L → b ∈ L →
    ∃ sz, (b, sz, true) ∈ H ∧ MINCLASSSIZE ≤ sz ∧
          map_to_class sz = Some (Z.of_nat k).

(** [x] is a member of bucket [k]. *)
Definition members (Ls : list (list Z)) (k : nat) (x : Z) : Prop :=
  ∃ L, Ls !! k = Some L ∧ x ∈ L.

(** The state [s] holds the blocks [H] and the sixteen buckets [Ls]. *)
Record Repr (s : state) (H : list blk) (Ls : list (list Z)) : Prop := mkRepr {
  R_heap : 0 < heap s;
  R_end : end_ s = mem_brk s;
  R_brk : mem_brk s ≤ mem_max_addr s;
  R_max : mem_max_addr s < 2 ^ 64 - 1;
  R_chain : chain (heap s) H (end_ s);
  R_size : Forall size_ok H;
  R_tags : Forall (tags_ok (mem s)) H;
  R_lists : Forall2 (λ h L, dseg (mem s) h NULL L NULL) (flp_list s) Ls;
  R_len : length (flp_list s) = Z.to_nat CLASSNUM;
  R_nodup : Forall NoDup Ls;
  R_idx : indexed H Ls;
  R_frees : frees s = int (Z.of_nat (length (concat Ls)))
}.

(** Every free block is a member of the bucket of its class. *)
Definition all_indexed (H : list blk) (Ls : list (list Z)) : Prop :=
  ∀ b sz, (b, sz, true) ∈ H →
    ∃ k : nat, map_to_class sz = Some (Z.of_nat k) ∧ members Ls k b.

(** No free block starts where another free block ends. *)
Definition no_adjacent_free (H : list blk) : Prop :=
  ∀ x y, x ∈ H → y ∈ H → blk_addr y = blk_addr x + blk_size x →
    ¬ (blk_freed x = true ∧ blk_freed y = true).

(** The invariant of the allocator between two public calls. *)
Record Inv (s : state) (H : list blk) (Ls : list (list Z)) : Prop := mkInv {
  I_repr : Repr s H Ls;
  I_all : all_indexed H Ls;
  I_adj : no_adjacent_free H;
  I_min : Forall (λ x, MINCLASSSIZE ≤ blk_size x) H;
  I_nonempty : H ≠ []
}.

(** * Reference definitions, written from the documented behaviour *)

Definition clamp (x lo hi : Z) : Z := Z.max lo (Z.min x hi).

(** The documented class of a size: [clamp(floor(log2 S) - 5, 0, 15)]. *)
Definition class_of_spec (S : Z) : Z := clamp (Z.log2 S - 5) 0 15.

(** The documented minimum block size: header, footer and a 16-byte
    payload, rounded up to the alignment. *)
Definition min_block_spec : Z := align (HSIZE + FSIZE + 16).

(** ** Concrete states used as examples *)

(** A host whose heap starts at address 4096, may grow by one mebibyte
    and holds zeros. *)
Definition host0 : state :=
  mkState (λ _, 0) 4096 (4096 + 1048576) [] 0 0 0 0 0 0.

(** The same host with every byte of memory set to [0xFF]. *)
Definition host_ff : state :=
  mkState (λ _, 255) 4096 (4096 + 1048576) [] 0 0 0 0 0 0.

(** A host with room for 1024 bytes only: less than the initial chunk. *)
Definition host_small : state :=
  mkState (λ _, 0) 4096 (4096 + 1024) [] 0 0 0 0 0 0.

(** The heap walk of the checker: the blocks met from [b] on, following
    [next_blk]. *)
Fixpoint heap_walk (fuel : nat) (s : state) (b : Z) : list blk :=
  match fuel with
  | O => []
  | S k =>
      if decide (b = NULL) then []
      else (b, get_size s b, get_freed s b) :: heap_walk k s (next_blk s b)
  end.

(** ** Frames *)

(** [m'] differs from [m] at most in the 8-byte fields at [w + o], for
    [(w, o)] in [Wr]. *)
Definition frame_on (m m' : memory) (Wr : list (Z * Z)) : Prop :=
  ∀ a, (∀ w o, (w, o) ∈ Wr → ¬ (w + o ≤ a < w + o + 8)) → m' a = m a.

(** [(w, o)] is a link field of a block of [H] that is large enough to be
    a member of the index. *)
Definition link_field (H : list blk) (wo : Z * Z) : Prop :=
  ∃ sz f, (wo.1, sz, f) ∈ H ∧ MINCLASSSIZE ≤ sz ∧
          (wo.2 = off_next ∨ wo.2 = off_prev).

Definition same_heap (s s' : state) : Prop :=
  heap s' = heap s ∧ end_ s' = end_ s ∧ mem_brk s' = mem_brk s ∧
  mem_max_addr s' = mem_max_addr s.

(** ** The coalescer, abstractly *)

(** The four cases of the coalescer on the blocks [H1] before and [H2]
    after the block [(c, cs)] being freed: the blocks that stay before, the
    surviving block, the blocks that stay after. *)
Definition coalesce_spec (H1 : list blk) (c cs : Z) (H2 : list blk)
  : list blk * blk * list blk :=
  let prev_free := match last H1 with Some p => blk_freed p | None => false end in
  let next_free := match head H2 with Some n => blk_freed n | None => false end in
  let p := default (c, 0, true) (last H1) in
  let n := default (c, 0, true) (head H2) in
  if negb prev_free && negb next_free then (H1, (c, cs, true), H2)
  else if prev_free && negb next_free then
    (removelast H1, (blk_addr p, blk_size p + cs, true), H2)
  else if negb prev_free && next_free then
    (H1, (c, cs + blk_size n, true), tail H2)
  else
    (removelast H1, (blk_addr p, blk_size p + cs + blk_size n, true), tail H2).

(** The state in which [coalesce] is called on the block at [c]: the
    invariant holds but for this block, which is marked free, is not in the
    index and may touch free blocks. *)
Record PreCoalesce (s : state) (H1 : list blk) (c cs : Z) (H2 : list blk)
    (Ls : list (list Z)) : Prop := mkPreCoalesce {
  PC_repr : Repr s (H1 ++ (c, cs, true) :: H2) Ls;
  PC_not : ∀ k, ¬ members Ls k c;
  PC_all : all_indexed (H1 ++ H2) Ls;
  PC_adj : no_adjacent_free (H1 ++ H2);
  PC_min : Forall (λ x, MINCLASSSIZE ≤ blk_size x) (H1 ++ H2);
  PC_size : MINCLASSSIZE ≤ cs ∨
            ∃ p, last H1 = Some p ∧ blk_freed p = true
}.

(** Two states that agree on everything the representation reads. *)
Definition same_core (s s' : state) : Prop :=
  mem s' = mem s ∧ mem_brk s' = mem_brk s ∧
  mem_max_addr s' = mem_max_addr s ∧ flp_list s' = flp_list s ∧
  frees s' = frees s ∧ heap s' = heap s ∧ end_ s' = end_ s.

(** ** The placement search, abstractly *)

(** The first block of [L] whose size is at least [asize]; [NULL] when
    there is none. *)
Fixpoint first_fit (s : state) (L : list Z) (asize : Z) : Z :=
  match L with
  | [] => NULL
  | x :: L' =>
      if decide (get_size s x >= asize) then x else first_fit s L' asize
  end.

(** The documented search: the buckets from [class_of(asize)] upward, each
    of them from head to tail. *)
Definition find_fit_spec (s : state) (Ls : list (list Z)) (asize : Z) : Z :=
  first_fit s (concat (drop (Z.to_nat (class_of_spec asize)) Ls)) asize.

(** The fuel is enough to walk any bucket to its end. *)
Definition enough_fuel (fuel : nat) (Ls : list (list Z)) : Prop :=
  Forall (λ L : list Z, (length L < fuel)%nat) Ls.

(** The state after a [malloc] that found no fit and could not extend the
    heap: the statistics have moved, nothing else has. *)
Definition malloc_failed (s : state) : state :=
  set_extends (int (extends s + 1)) (set_mallocs (int (mallocs s + 1)) s).

(** [malloc size] misses in the index and the host refuses the extension. *)
Definition extension_fails (fuel : nat) (size : Z) (s : state) : Prop :=
  find_fit_seg fuel (alloc_size size) s = Some NULL ∧
  ∃ ext, extend_size (alloc_size size) s = Some ext ∧
         (mem_sbrk ext s).1 = SBRK_FAIL.

(** A host on which [mm_init] can run: the break is not the null address,
    the initial chunk fits, and no address is the failure sentinel. *)
Definition host_ok (s : state) : Prop :=
  0 < mem_brk s ∧
  mem_brk s + alloc_size CHUNKSIZE ≤ mem_max_addr s ∧
  mem_max_addr s < 2 ^ 64 - 1.

(** The sum of the sizes of a run of blocks. *)
Definition total_size (M : list blk) : Z :=
  foldr (λ x acc, blk_size x + acc) 0 M.

(** The payload of the block whose payload pointer is [p]. *)
Definition payload_size (s : state) (p : Z) : Z :=
  get_size s (p - HSIZE) - HSIZE - FSIZE.

(** ** The states an application can reach *)

(** Every outstanding payload pointer is the payload of an allocated block. *)
Definition alloc_ok (A : list Z) (H : list blk) : Prop :=
  ∀ q, q ∈ A → ∃ sz, (q - HSIZE, sz, false) ∈ H.

(** The outstanding pointers after [realloc oldptr size] returned
    [newptr] from the state [s]. *)
Definition realloc_live (s : state) (A : list Z) (oldptr size newptr : Z)
  : list Z :=
  if decide (int size < 0) then A
  else if decide (size = 0) then filter (λ q, q ≠ oldptr) A
  else if decide (oldptr = NULL) then
    if decide (newptr = NULL) then A else newptr :: A
  else if decide (alloc_size size = get_size s (oldptr - HSIZE)) then A
  else if decide (newptr = NULL) then A
  else filter (λ q, q ≠ oldptr) (newptr :: A).

(** [reachable s A]: the application has reached the state [s] and holds the
    payload pointers [A]. It starts with a successful [mm_init], requests
    sizes that [alloc_size] can hold, frees and reallocates pointers it
    holds, and writes inside the payloads it holds. *)
Inductive reachable : state → list Z → Prop :=
| reach_init s0 s :
    host_ok s0 → mm_init s0 = Some (true, s) → reachable s []
| reach_malloc s A fuel n p s' :
    reachable s A → 0 ≤ n → n + 63 < 2 ^ 64 →
    malloc fuel n s = Some (p, s') →
    reachable s' (if decide (p = NULL) then A else p :: A)
| reach_free s A p s' :
    reachable s A → p = NULL ∨ p ∈ A →
    free p s = Some s' →
    reachable s' (filter (λ q, q ≠ p) A)
| reach_calloc s A fuel nmemb size p s' :
    reachable s A → size_t (size * nmemb) + 63 < 2 ^ 64 →
    calloc fuel nmemb size s = Some (p, s') →
    reachable s' (if decide (p = NULL) then A else p :: A)
| reach_realloc s A fuel oldptr size newptr s' :
    reachable s A → oldptr = NULL ∨ oldptr ∈ A →
    0 ≤ size → size + 63 < 2 ^ 64 →
    realloc fuel oldptr size s = Some (newptr, s') →
    reachable s' (realloc_live s A oldptr size newptr)
| reach_write s A p m' :
    reachable s A → p ∈ A →
    (∀ x, ¬ (p ≤ x < p + payload_size s p) → m' x = mem s x) →
    reachable (set_mem m' s) A.

(** ** Where the allocator writes *)

(** [x] is a byte of a free block of [H]. *)
Definition in_free (H : list blk) (x : Z) : Prop :=
  ∃ b sz, (b, sz, true) ∈ H ∧ b ≤ x < b + sz.

(** Every allocated block of the heap is held by the application. *)
Definition all_held (A : list Z) (H : list blk) : Prop :=
  ∀ b sz, (b, sz, false) ∈ H → b + HSIZE ∈ A.

(** ** Example runs *)

(** The state after [mm_init] on [host0]. *)
Definition st_init : state :=
  match mm_init host0 with Some (_, s) => s | None => host0 end.

(** The state after [mm_init(); malloc(100)] on [host0]. *)
Definition st_m : state :=
  match malloc 8 100 st_init with Some (_, s) => s | None => st_init end.

(** The heap after [mm_init()] and a split of the initial block at 2048
    bytes, and the pointer and the heap after [mm_init(); malloc(2000)]. *)
Definition split_at_2048 : option (list blk) :=
  '(_, s) ← mm_init host0;
  s ← split_block 4096 2048 s;
  Some (heap_walk 4 s (heap s)).

Definition malloc_2000 : option (Z * list blk) :=
  '(_, s) ← mm_init host0;
  '(p, s) ← malloc 8 2000 s;
  Some (p, heap_walk 4 s (heap s)).

(** The state after [mm_init(); a = malloc(16); malloc(16); free(a)]: a
    free block of 64 bytes at 4096 and a free block of 1968 bytes at 4224. *)
Definition st_two_free : option state :=
  '(_, s) ← mm_init host0;
  '(a, s) ← malloc 8 16 s;
  '(_, s) ← malloc 8 16 s;
  free a s.

(** The bucket heads before and after the block at 4224 is resized to 64
    bytes and then removed with its original size, 1968. *)
Definition del_after_resize : option (list Z * list Z) :=
  s ← st_two_free;
  s' ← del_fl_seg 4224 1968 (set_size 4224 64 s);
  Some (flp_list s, flp_list s').

(** The states after [mm_init(); malloc(100); malloc(200)], after
    [mm_init(); malloc(100); free] of the block, after
    [mm_init(); malloc(100); malloc(200); free] of the first block, after
    [mm_init(); malloc(100); calloc(10, 10)] and after
    [mm_init(); malloc(100); malloc(200); realloc] of the first block to
    500 bytes, all on [host0]. *)
Definition st_m2 : state :=
  match malloc 8 200 st_m with Some (_, s) => s | None => st_m end.

Definition st_f : state :=
  match free 4128 st_m with Some s => s | None => st_m end.

Definition st_f2 : state :=
  match free 4128 st_m2 with Some s => s | None => st_m2 end.



(** The state after [mm_init(); malloc(2040)] on [host0]: the request takes
    the whole initial block, so the last block of the heap is allocated. *)
Definition st_full : state :=
  match malloc 8 2040 st_init with Some (_, s) => s | None => st_init end.
(** * Properties of the memory model *)

Lemma load8_range m a : 0 ≤ load8 m a < 256.
Proof. unfold load8. apply Z.mod_pos_bound. lia. Qed.

Lemma load_le_range n m a : 0 ≤ load_le n m a < 256 ^ Z.of_nat n.
Proof.
  revert a. induction n as [|n IH]; intros a.
  - simpl. lia.
  - rewrite Nat2Z.inj_succ, Z.pow_succ_r by lia.
    cbn [load_le]. pose proof (load8_range m a). specialize (IH (a + 1)). lia.
Qed.

Lemma load64_range m a : 0 ≤ load64 m a < 2 ^ 64.
Proof. apply (load_le_range 8). Qed.

(** A load depends on the bytes of its range only. *)
Lemma load_le_ext n m m' a :
  (∀ x, a ≤ x < a + Z.of_nat n → m' x = m x) →
  load_le n m' a = load_le n m a.
Proof.
  revert a. induction n as [|n IH]; intros a Hx; [done|].
  cbn [load_le]. unfold load8. rewrite Hx by lia.
  rewrite IH; [done|]. intros x ?. apply Hx. lia.
Qed.

Lemma load64_ext m m' a :
  (∀ x, a ≤ x < a + 8 → m' x = m x) → load64 m' a = load64 m a.
Proof. intros. by apply (load_le_ext 8). Qed.

Lemma load_bool_ext m m' a : m' a = m a → load_bool m' a = load_bool m a.
Proof. unfold load_bool, load8. by intros ->. Qed.

(** A store changes the bytes of its range only. *)
Lemma store8_other m a v x : x ≠ a → store8 m a v x = m x.
Proof. unfold store8. intros. by rewrite decide_False. Qed.

Lemma store_le_other n m a v x :
  ¬ (a ≤ x < a + Z.of_nat n) → store_le n m a v x = m x.
Proof.
  revert m a v. induction n as [|n IH]; intros m a v Hx; [done|].
  cbn [store_le]. rewrite IH by lia. apply store8_other. lia.
Qed.

Lemma store64_other m a v x : ¬ (a ≤ x < a + 8) → store64 m a v x = m x.
Proof. apply (store_le_other 8). Qed.

Lemma store_bool_other m a b x : x ≠ a → store_bool m a b x = m x.
Proof. apply store8_other. Qed.

Lemma load8_store8 m a v : load8 (store8 m a v) a = v mod 256.
Proof.
  unfold load8, store8. rewrite decide_True by done.
  apply Z.mod_mod. lia.
Qed.

Lemma load_le_store_le n m a v :
  load_le n (store_le n m a v) a = v mod 256 ^ Z.of_nat n.
Proof.
  revert m a v. induction n as [|n IH]; intros m a v.
  - simpl. by rewrite Z.mod_1_r.
  - rewrite Nat2Z.inj_succ, Z.pow_succ_r by lia.
    cbn [load_le store_le]. rewrite IH.
    unfold load8. rewrite store_le_other by lia.
    unfold store8. rewrite decide_True by done.
    rewrite Z.mod_mod by lia.
    rewrite (Z.rem_mul_r v 256 (256 ^ Z.of_nat n)) by lia. lia.
Qed.

Lemma load64_store64 m a v : 0 ≤ v < 2 ^ 64 → load64 (store64 m a v) a = v.
Proof.
  intros. unfold load64, store64. rewrite load_le_store_le.
  apply Z.mod_small. done.
Qed.

Lemma load_bool_store_bool m a b : load_bool (store_bool m a b) a = b.
Proof.
  unfold load_bool, store_bool. rewrite load8_store8. by destruct b.
Qed.

Lemma load64_store64_ne m a v b :
  a + 8 ≤ b ∨ b + 8 ≤ a → load64 (store64 m a v) b = load64 m b.
Proof. intros. apply load64_ext. intros. apply store64_other. lia. Qed.

Lemma load64_store_bool_ne m a v b :
  a < b ∨ b + 8 ≤ a → load64 (store_bool m a v) b = load64 m b.
Proof. intros. apply load64_ext. intros. apply store_bool_other. lia. Qed.

Lemma load_bool_store64_ne m a v b :
  b < a ∨ a + 8 ≤ b → load_bool (store64 m a v) b = load_bool m b.
Proof. intros. apply load_bool_ext. apply store64_other. lia. Qed.

Lemma load_bool_store_bool_ne m a v b :
  a ≠ b → load_bool (store_bool m a v) b = load_bool m b.
Proof. intros. apply load_bool_ext. apply store_bool_other. done. Qed.

Lemma memcpy_other m dst src n x :
  ¬ (dst ≤ x < dst + n) → memcpy m dst src n x = m x.
Proof. unfold memcpy. intros. by rewrite decide_False. Qed.

Lemma memset_other m dst c n x :
  ¬ (dst ≤ x < dst + n) → memset m dst c n x = m x.
Proof. unfold memset. intros. by rewrite decide_False. Qed.

(** * Machine integers, alignment and the size-class map *)

(** Linear arithmetic with division and remainder by constants. *)
Ltac zlia := Z.div_mod_to_equations; lia.

Lemma int_small x : - 2 ^ 31 ≤ x < 2 ^ 31 → int x = x.
Proof. intros. unfold int. rewrite Z.mod_small; lia. Qed.

Lemma int_add_l x y : int (int x + y) = int (x + y).
Proof.
  unfold int.
  replace ((x + 2 ^ 31) mod 2 ^ 32 - 2 ^ 31 + y + 2 ^ 31)
    with ((x + 2 ^ 31) mod 2 ^ 32 + y) by lia.
  rewrite Zplus_mod_idemp_l. do 2 f_equal. lia.
Qed.

Lemma int_add_r x y : int (x + int y) = int (x + y).
Proof. rewrite Z.add_comm, int_add_l. f_equal. lia. Qed.

Lemma int_sub_l x y : int (int x - y) = int (x - y).
Proof. unfold Z.sub. apply int_add_l. Qed.

Lemma size_t_small x : 0 ≤ x < 2 ^ 64 → size_t x = x.
Proof. intros. unfold size_t. by apply Z.mod_small. Qed.

Lemma size_t_range x : 0 ≤ size_t x < 2 ^ 64.
Proof. unfold size_t. apply Z.mod_pos_bound. lia. Qed.

Lemma testbit_top s k :
  0 ≤ k → 0 ≤ s < 2 ^ (k + 1) → Z.testbit s k = true ↔ 2 ^ k ≤ s.
Proof.
  intros Hk Hs. rewrite Z.testbit_true by done.
  rewrite Z.pow_add_r in Hs by lia. change (2 ^ 1) with 2 in Hs.
  assert (0 < 2 ^ k) by (apply Z.pow_pos_nonneg; lia).
  assert (0 ≤ s / 2 ^ k < 2).
  { split; [apply Z.div_pos; lia|apply Z.div_lt_upper_bound; lia]. }
  rewrite Z.mod_small by lia.
  split; intros Hb.
  - pose proof (Z.mul_div_le s (2 ^ k)). lia.
  - assert (1 ≤ s / 2 ^ k); [|lia].
    apply Z.div_le_lower_bound; lia.
Qed.

Lemma clz_from_log2 n s :
  0 < s < 2 ^ Z.of_nat n → clz_from n s = Z.of_nat n - 1 - Z.log2 s.
Proof.
  induction n as [|n IH]; intros Hs.
  - simpl in Hs. lia.
  - cbn [clz_from].
    rewrite Nat2Z.inj_succ in *. unfold Z.succ in *.
    destruct (Z.testbit s (Z.of_nat n)) eqn:Hb.
    + apply testbit_top in Hb; [|lia|lia].
      rewrite (Z.log2_unique s (Z.of_nat n)); lia.
    + assert (¬ 2 ^ Z.of_nat n ≤ s).
      { intros Hle. apply testbit_top in Hle; [congruence|lia|lia]. }
      rewrite IH; lia.
Qed.

Lemma lxor_63 c : 0 ≤ c < 64 → Z.lxor 63 c = 63 - c.
Proof.
  intros Hc.
  assert (Hall : Forall (λ c, Z.lxor 63 c = 63 - c) (Z.of_nat <$> seq 0 64))
    by (by vm_compute; repeat constructor).
  rewrite Forall_forall in Hall. apply Hall.
  apply list_elem_of_fmap. exists (Z.to_nat c). split; [lia|].
  apply elem_of_seq. lia.
Qed.

Lemma log2_bounds s : 0 < s < 2 ^ 64 → 0 ≤ Z.log2 s < 64.
Proof.
  intros. split; [apply Z.log2_nonneg|]. apply Z.log2_lt_pow2; lia.
Qed.

Lemma log2Floor_spec s : 0 < s < 2 ^ 64 → log2Floor s = Some (Z.log2 s).
Proof.
  intros Hs. unfold log2Floor, clzl. rewrite decide_False by lia.
  rewrite (clz_from_log2 64) by (simpl; lia).
  pose proof (log2_bounds s Hs). cbn [mbind option_bind].
  change (8 * 8 - 1) with 63. rewrite lxor_63 by lia.
  rewrite int_small by lia. f_equal. lia.
Qed.

Lemma map_to_class_spec s :
  0 < s < 2 ^ 64 → map_to_class s = Some (Z.min (Z.log2 s - 5) 15).
Proof.
  intros Hs. unfold map_to_class. rewrite log2Floor_spec by done. simpl.
  pose proof (log2_bounds s Hs). unfold SHIFT, CLASSNUM.
  rewrite int_small by lia. case_decide; f_equal; lia.
Qed.

Lemma map_to_class_zero : map_to_class 0 = None.
Proof. reflexivity. Qed.

(** The class map is monotone. *)
Lemma map_to_class_mono s1 s2 c1 c2 :
  0 < s1 ≤ s2 → s2 < 2 ^ 64 →
  map_to_class s1 = Some c1 → map_to_class s2 = Some c2 → c1 ≤ c2.
Proof.
  intros ?? H1 H2. rewrite map_to_class_spec in H1, H2 by lia.
  simplify_eq. pose proof (Z.log2_le_mono s1 s2). lia.
Qed.

Lemma map_to_class_range s c :
  32 ≤ s < 2 ^ 64 → map_to_class s = Some c → 0 ≤ c < 16.
Proof.
  intros ? H1. rewrite map_to_class_spec in H1 by lia. simplify_eq.
  pose proof (Z.log2_le_mono 32 s). change (Z.log2 32) with 5 in *. lia.
Qed.

Lemma map_to_class_is_Some s :
  32 ≤ s < 2 ^ 64 → ∃ c, map_to_class s = Some c ∧ 0 ≤ c < 16.
Proof.
  intros. exists (Z.min (Z.log2 s - 5) 15).
  assert (Hc : map_to_class s = Some (Z.min (Z.log2 s - 5) 15))
    by (apply map_to_class_spec; lia).
  split; [done|]. by eapply map_to_class_range.
Qed.

(** Alignment. *)
Lemma align_spec x :
  0 ≤ x → x + 15 < 2 ^ 64 → align x = 16 * ((x + 15) / 16).
Proof.
  intros. unfold align, ALIGNMENT.
  replace (x + 16 - 1) with (x + 15) by lia.
  rewrite (size_t_small (x + 15)) by lia.
  apply size_t_small.
  pose proof (Z.mul_div_le (x + 15) 16). 
  assert (0 ≤ (x + 15) / 16) by (apply Z.div_pos; lia). lia.
Qed.

Lemma align_bounds x :
  0 ≤ x → x + 15 < 2 ^ 64 → x ≤ align x < x + 16 ∧ align x mod 16 = 0.
Proof.
  intros. rewrite align_spec by done.
  pose proof (Z.div_mod (x + 15) 16).
  pose proof (Z.mod_pos_bound (x + 15) 16).
  split; [lia|]. rewrite Z.mul_comm. apply Z.mod_mul. lia.
Qed.

Lemma alloc_size_bounds n :
  0 ≤ n → n + 63 < 2 ^ 64 →
  n + 48 ≤ alloc_size n < n + 64 ∧ alloc_size n mod 16 = 0.
Proof.
  intros. unfold alloc_size, HSIZE, FSIZE.
  rewrite (size_t_small (n + 32)) by lia.
  rewrite (size_t_small (n + 32 + 16)) by lia.
  pose proof (align_bounds (n + 32 + 16)). lia.
Qed.

Lemma alloc_size_CHUNKSIZE : alloc_size CHUNKSIZE = 2096.
Proof. reflexivity. Qed.

Lemma mod16_cases sz : 0 < sz → sz mod 16 = 0 → sz = 16 ∨ 32 ≤ sz.
Proof. zlia. Qed.

(** * Chains of blocks *)

Ltac unfold_consts :=
  unfold MINCLASSSIZE, HSIZE, FSIZE, off_size, off_freed, off_next, off_prev,
    CHUNKSIZE, CLASSNUM, NULL, SBRK_FAIL, blk_addr, blk_size, blk_freed in *;
  simpl fst in *; simpl snd in *.

Ltac clia := unfold_consts; zlia.

Lemma chain_app a H1 H2 e :
  chain a (H1 ++ H2) e ↔ ∃ mid, chain a H1 mid ∧ chain mid H2 e.
Proof.
  revert a. induction H1 as [|x H1 IH]; intros a; simpl.
  - split; [intros; eauto|intros (? & -> & ?); done].
  - rewrite IH. split.
    + intros (? & mid & ? & ?). eauto.
    + intros (mid & (? & ?) & ?). eauto.
Qed.

Lemma chain_det a H e e' : chain a H e → chain a H e' → e = e'.
Proof.
  revert a. induction H as [|x H IH]; intros a; simpl; [congruence|].
  intros [_ ?] [_ ?]. eauto.
Qed.

Lemma chain_le a H e : Forall size_ok H → chain a H e → a ≤ e.
Proof.
  revert a. induction H as [|x H IH]; intros a HF; simpl; [lia|].
  inversion_clear HF as [|?? [? _] ?]. intros [_ Hc].
  apply IH in Hc; [lia|done].
Qed.

(** Where a block of the chain lies. *)
Lemma chain_elem a H e x :
  Forall size_ok H → chain a H e → x ∈ H →
  ∃ H1 H2, H = H1 ++ x :: H2 ∧ chain a H1 (blk_addr x) ∧
           chain (blk_addr x + blk_size x) H2 e ∧
           a ≤ blk_addr x ∧ blk_addr x + blk_size x ≤ e.
Proof.
  intros HF Hc Hx. apply list_elem_of_split in Hx as (H1 & H2 & ->).
  exists H1, H2. split; [done|].
  apply chain_app in Hc as (mid & Hc1 & Hc2). simpl in Hc2.
  destruct Hc2 as [<- Hc2].
  apply Forall_app in HF as [HF1 HF2].
  inversion_clear HF2 as [|?? _ HF3].
  apply chain_le in Hc1 as ?; [|done]. apply chain_le in Hc2 as ?; [|done].
  done.
Qed.

(** Two blocks of a chain are the same block or do not overlap. *)
Lemma chain_disjoint a H e x y :
  Forall size_ok H → chain a H e → x ∈ H → y ∈ H →
  x = y ∨ blk_addr x + blk_size x ≤ blk_addr y
        ∨ blk_addr y + blk_size y ≤ blk_addr x.
Proof.
  intros HF Hc Hx Hy.
  destruct (chain_elem a H e x HF Hc Hx) as (H1 & H2 & -> & Hc1 & Hc2 & ? & ?).
  apply Forall_app in HF as [HF1 HF2].
  inversion_clear HF2 as [|?? Hsx HF3].
  apply elem_of_app in Hy as [Hy|Hy].
  - destruct (chain_elem _ _ _ y HF1 Hc1 Hy) as (_ & _ & _ & _ & _ & ? & ?).
    right; right. done.
  - apply elem_of_cons in Hy as [->|Hy]; [by left|].
    destruct (chain_elem _ _ _ y HF3 Hc2 Hy) as (_ & _ & _ & _ & _ & ? & ?).
    right; left. done.
Qed.

(** The address determines the block. *)
Lemma chain_addr_inj a H e x y :
  Forall size_ok H → chain a H e → x ∈ H → y ∈ H →
  blk_addr x = blk_addr y → x = y.
Proof.
  intros HF Hc Hx Hy Heq.
  destruct (chain_disjoint a H e x y HF Hc Hx Hy) as [?|Hd]; [done|].
  rewrite Forall_forall in HF.
  destruct (HF x Hx), (HF y Hy). lia.
Qed.

(** * Doubly-linked segments *)

Lemma dseg_ext m m' h p L t :
  (∀ b, b ∈ L → load64 m' (b + off_next) = load64 m (b + off_next) ∧
                 load64 m' (b + off_prev) = load64 m (b + off_prev)) →
  dseg m h p L t → dseg m' h p L t.
Proof.
  revert h p. induction L as [|b L IH]; intros h p Hm; simpl; [done|].
  intros (-> & ? & ? & Hd).
  destruct (Hm b) as [Hn Hp]; [left|].
  rewrite Hn, Hp. repeat split; try done.
  apply IH; [|done]. intros. apply Hm. by right.
Qed.

Lemma dseg_app m h p L1 L2 t :
  dseg m h p (L1 ++ L2) t ↔
  ∃ mid, dseg m h p L1 mid ∧ dseg m mid (default p (last L1)) L2 t.
Proof.
  revert h p. induction L1 as [|b L1 IH]; intros h p; simpl.
  - split; [eauto|]. by intros (? & -> & ?).
  - rewrite IH. 
    assert (default p (last (b :: L1)) = default b (last L1)) as ->.
    { destruct L1 as [|z L1]; [done|]. rewrite last_cons_cons.
      destruct (last (z :: L1)) eqn:E; [done|]. by apply last_None in E. }
    split.
    + intros (-> & ? & ? & mid & ? & ?). eauto 10.
    + intros (mid & (-> & ? & ? & ?) & ?). eauto 10.
Qed.

Lemma dseg_no_null m h p L t : dseg m h p L t → NULL ∉ L.
Proof.
  revert h p. induction L as [|b L IH]; intros h p; simpl.
  - intros _. apply not_elem_of_nil.
  - intros (-> & ? & ? & Hd). apply not_elem_of_cons. split; [done|].
    by eapply IH.
Qed.

Lemma dseg_head m h p L : dseg m h p L NULL → h = default NULL (head L).
Proof. destruct L; simpl; [done|]. by intros (-> & _). Qed.

(** Projections of updated states. *)
Ltac st_simpl :=
  cbn [mem mem_brk mem_max_addr flp_list frees mallocs extends heap end_
       heap_brk set_mem set_mem_brk set_flp_list set_frees set_mallocs
       set_extends set_heap set_end set_heap_brk put_size put_freed put_next
       put_prev] in *.

(** * Writing the boundary tags *)

Ltac mem_simp :=
  repeat first
    [ rewrite load64_store64 by clia
    | rewrite load_bool_store_bool
    | rewrite load64_store64_ne by clia
    | rewrite load64_store_bool_ne by clia
    | rewrite load_bool_store64_ne by clia
    | rewrite load_bool_store_bool_ne by clia ].

(** [set_size] then [set_free], as every caller does, write consistent
    tags and touch the header and the footer of the block only. *)
Lemma retag_mem b n f s :
  0 < n < 2 ^ 64 → n mod 16 = 0 →
  let s' := set_free b f (set_size b n s) in
  tags_ok (mem s') (b, n, f) ∧
  (∀ x, ¬ (b ≤ x < b + n) → mem s' x = mem s x) ∧
  s' = set_mem (mem s') s.
Proof.
  intros Hn Hmod s'. subst s'.
  unfold set_free, set_size, get_footer, put_size, put_freed, get_size.
  cbn [mem set_mem].
  assert (Hcases : n = 16 ∨ 32 ≤ n) by zlia.
  replace (b + off_size) with b by clia.
  rewrite load64_store64 by lia.
  replace (b + n - FSIZE + off_size) with (b + n - 16) by clia.
  assert (Hsz : load64 (store64 (store64 (mem s) b n) (b + n - 16) n) b = n).
  { destruct Hcases as [->|?].
    - replace (b + 16 - 16) with b by lia. by rewrite load64_store64 by lia.
    - rewrite load64_store64_ne by lia. by rewrite load64_store64 by lia. }
  rewrite Hsz.
  split; [|split; [|done]].
  - unfold tags_ok. unfold_consts.
    replace (b + 0) with b by lia.
    replace (b + n - 16 + 0) with (b + n - 16) by lia.
    destruct Hcases as [->|?].
    + replace (b + 16 - 16) with b by lia.
      mem_simp. done.
    + mem_simp. done.
  - intros x Hx. unfold_consts.
    rewrite !store_bool_other by lia.
    rewrite !store64_other by lia. done.
Qed.

Lemma tags_ok_ext m m' x :
  size_ok x →
  (∀ a, blk_addr x ≤ a < blk_addr x + blk_size x → m' a = m a) →
  tags_ok m x → tags_ok m' x.
Proof.
  intros [Hpos Hmod] Hm (H1 & H2 & H3 & H4).
  assert (16 ≤ blk_size x) by zlia.
  unfold tags_ok.
  rewrite (load64_ext m m'), (load_bool_ext m m'), (load64_ext m m'),
    (load_bool_ext m m'); [done|..]; intros; apply Hm; clia.
Qed.

Lemma elem_of_app3 {A} (x : A) l1 l2 l3 :
  x ∈ l1 ++ l2 ++ l3 ↔ x ∈ l1 ∨ x ∈ l2 ∨ x ∈ l3.
Proof. by rewrite !elem_of_app. Qed.

Lemma size_ok_16 x : size_ok x → 16 ≤ blk_size x.
Proof. intros [??]. zlia. Qed.

(** The three parts of a heap around a run of blocks. *)
Lemma chain_three a H1 M H2 e b e' :
  chain a (H1 ++ M ++ H2) e → chain a H1 b → chain b M e' →
  chain e' H2 e.
Proof.
  intros Hc H1c HMc.
  apply chain_app in Hc as (mid & Hc1 & Hc).
  assert (mid = b) as -> by (by eapply chain_det).
  apply chain_app in Hc as (mid & Hc2 & Hc).
  assert (mid = e') as -> by (by eapply chain_det).
  done.
Qed.

(** The members of the index lie in the heap. *)
Lemma Repr_member s H Ls L b :
  Repr s H Ls → L ∈ Ls → b ∈ L →
  ∃ sz, (b, sz, true) ∈ H ∧ 48 ≤ sz ∧
        heap s ≤ b ∧ b + sz ≤ end_ s.
Proof.
  intros HR HL Hb. apply list_elem_of_lookup in HL as [k Hk].
  destruct (R_idx _ _ _ HR k L b Hk Hb) as (sz & Hin & Hsz & _).
  exists sz. split; [done|]. split; [done|].
  destruct (chain_elem _ _ _ _ (R_size _ _ _ HR) (R_chain _ _ _ HR) Hin)
    as (_ & _ & _ & _ & _ & ? & ?).
  done.
Qed.

(** Replacing a run of blocks, none of them in the index, by another run
    over the same addresses. *)
Lemma Repr_replace s m' H1 M M' H2 Ls b e' :
  Repr s (H1 ++ M ++ H2) Ls →
  chain (heap s) H1 b → chain b M e' → chain b M' e' →
  Forall size_ok M' → Forall (tags_ok m') M' →
  (∀ x, ¬ (b ≤ x < e') → m' x = mem s x) →
  (∀ x L, x ∈ M → L ∈ Ls → blk_addr x ∉ L) →
  Repr (set_mem m' s) (H1 ++ M' ++ H2) Ls.
Proof.
  intros HR Hc1 HcM HcM' HszM' HtM' Hm Hnot.
  pose proof (R_chain _ _ _ HR) as Hc.
  pose proof (chain_three _ _ _ _ _ _ _ Hc Hc1 HcM) as Hc2.
  pose proof (R_size _ _ _ HR) as Hsz.
  apply Forall_app in Hsz as [Hsz1 Hsz].
  apply Forall_app in Hsz as [HszM Hsz2].
  pose proof (R_tags _ _ _ HR) as Ht.
  apply Forall_app in Ht as [Ht1 Ht].
  apply Forall_app in Ht as [HtM Ht2].
  assert (Hout : ∀ x, x ∈ H1 ++ H2 → size_ok x ∧
            (blk_addr x + blk_size x ≤ b ∨ e' ≤ blk_addr x)).
  { intros x [Hx|Hx]%elem_of_app.
    - destruct (chain_elem _ _ _ _ Hsz1 Hc1 Hx) as (_ & _ & _ & _ & _ & ? & ?).
      rewrite Forall_forall in Hsz1. split; [by apply Hsz1|by left].
    - destruct (chain_elem _ _ _ _ Hsz2 Hc2 Hx) as (_ & _ & _ & _ & _ & ? & ?).
      rewrite Forall_forall in Hsz2. split; [by apply Hsz2|by right]. }
  assert (Hmem : ∀ L x, L ∈ Ls → x ∈ L →
            ∃ sz, (x, sz, true) ∈ H1 ++ H2 ∧ 48 ≤ sz).
  { intros L x HL Hx.
    destruct (Repr_member _ _ _ _ _ HR HL Hx) as (sz & Hin & ? & _).
    exists sz. split; [|done].
    rewrite !elem_of_app in Hin. rewrite elem_of_app.
    destruct Hin as [?|[HinM|?]]; [by left| |by right].
    exfalso. by apply (Hnot _ _ HinM HL). }
  constructor; cbn [heap end_ mem_brk mem_max_addr mem flp_list frees set_mem];
    try apply HR.
  - apply chain_app. exists b. split; [done|].
    apply chain_app. exists e'. done.
  - rewrite !Forall_app. done.
  - rewrite !Forall_app. split_and!; [|done|].
    + rewrite Forall_forall in Ht1 |- *. intros x Hx.
      destruct (Hout x) as [? ?]; [apply elem_of_app; by left|].
      apply (tags_ok_ext (mem s)); [done| |by apply Ht1].
      intros a ?. apply Hm. pose proof (size_ok_16 x). 
      destruct (chain_elem _ _ _ _ Hsz1 Hc1 Hx) as (_ & _ & _ & _ & _ & ? & ?).
      lia.
    + rewrite Forall_forall in Ht2 |- *. intros x Hx.
      apply (tags_ok_ext (mem s)); [by eapply Forall_forall in Hsz2| |by apply Ht2].
      intros a ?. apply Hm.
      destruct (chain_elem _ _ _ _ Hsz2 Hc2 Hx) as (_ & _ & _ & _ & _ & ? & ?).
      lia.
  - pose proof (R_lists _ _ _ HR) as HL.
    apply Forall2_same_length_lookup in HL as [Hlen HL].
    apply Forall2_same_length_lookup. split; [done|].
    intros i h L Hh HLi. apply (dseg_ext (mem s)); [|by eapply HL].
    intros x Hx.
    destruct (Hmem L x) as (sz & Hin & ?); [by eapply list_elem_of_lookup_2|done|].
    destruct (Hout _ Hin) as [_ Hd].
    split; apply load64_ext; intros; apply Hm; clia.
  - intros k L x Hk Hx.
    destruct (R_idx _ _ _ HR k L x Hk Hx) as (sz & Hin & ? & ?).
    destruct (Hmem L x) as (sz' & Hin' & ?); [by eapply list_elem_of_lookup_2|done|].
    assert ((x, sz', true) = (x, sz, true)).
    { eapply (chain_addr_inj _ _ _ _ _ (R_size _ _ _ HR) Hc); [|done|done].
      apply elem_of_app3. apply elem_of_app in Hin'. tauto. }
    simplify_eq. exists sz. split; [|done].
    apply elem_of_app3. apply elem_of_app in Hin'. tauto.
Qed.

(** * Unlinking from a doubly-linked list *)

Lemma dseg_tail m m' prev next b L2 :
  dseg m next b L2 NULL →
  (∀ x, x ∈ L2 → x ≠ prev →
        load64 m' (x + off_next) = load64 m (x + off_next)) →
  (∀ x, x ∈ L2 → x ≠ next →
        load64 m' (x + off_prev) = load64 m (x + off_prev)) →
  (next ≠ NULL → load64 m' (next + off_prev) = prev) →
  prev ∉ L2 → NoDup L2 →
  dseg m' next prev L2 NULL.
Proof.
  intros Hd Hn Hp Hnp Hprev Hnd.
  destruct L2 as [|nx L2']; simpl in *; [done|].
  destruct Hd as (-> & Hnx & Hpx & Hd).
  apply not_elem_of_cons in Hprev as [? ?].
  apply NoDup_cons in Hnd as [? ?].
  split_and!; [done|done|by apply Hnp|].
  rewrite Hn; [|by left|done].
  apply (dseg_ext m); [|done].
  intros x Hx. split.
  - apply Hn; [by right|]. intros ->. done.
  - apply Hp; [by right|]. intros ->. done.
Qed.

Lemma dseg_unlink m m' h L1 b L2 :
  NoDup (L1 ++ b :: L2) →
  dseg m h NULL (L1 ++ b :: L2) NULL →
  let prev := load64 m (b + off_prev) in
  let next := load64 m (b + off_next) in
  (∀ x, x ∈ L1 ++ L2 → x ≠ prev →
        load64 m' (x + off_next) = load64 m (x + off_next)) →
  (∀ x, x ∈ L1 ++ L2 → x ≠ next →
        load64 m' (x + off_prev) = load64 m (x + off_prev)) →
  (prev ≠ NULL → load64 m' (prev + off_next) = next) →
  (next ≠ NULL → load64 m' (next + off_prev) = prev) →
  prev = default NULL (last L1) ∧ next = default NULL (head L2) ∧
  dseg m' (if decide (prev = NULL) then next else h) NULL (L1 ++ L2) NULL.
Proof.
  intros Hnd Hd prev next Hn Hp Hpn Hnp.
  pose proof (dseg_no_null _ _ _ _ _ Hd) as Hnull.
  apply dseg_app in Hd as (mid & Hd1 & Hd2). simpl in Hd2.
  destruct Hd2 as (-> & Hb & Hprev & Hd2).
  fold prev in Hprev. fold next in Hd2.
  apply NoDup_app in Hnd as (Hnd1 & Hnd12 & Hnd2).
  apply NoDup_cons in Hnd2 as [HbL2 Hnd2].
  assert (Hnext : next = default NULL (head L2)) by (by eapply dseg_head).
  assert (HprevL2 : prev ∉ L2).
  { rewrite Hprev. destruct (last L1) as [pv|] eqn:Hlast; simpl.
    - apply last_Some in Hlast as [L1' ->]. intros Hin.
      apply (Hnd12 pv); [apply elem_of_app; right; by left|by right].
    - intros Hin. apply Hnull. apply elem_of_app. right. by right. }
  assert (Htail : dseg m' next prev L2 NULL).
  { eapply dseg_tail; try done.
    - intros. apply Hn; [apply elem_of_app; by right|done].
    - intros. apply Hp; [apply elem_of_app; by right|done]. }
  split; [done|]. split; [done|].
  apply dseg_app. exists next. rewrite <- Hprev. split; [|done].
  destruct (last L1) as [pv|] eqn:Hlast; simpl in Hprev.
  - apply last_Some in Hlast as [L1' ->].
    assert (prev ≠ NULL).
    { rewrite Hprev. intros ->. apply Hnull.
      rewrite <- app_assoc. apply elem_of_app. right. by left. }
    rewrite decide_False by done.
    apply dseg_app in Hd1 as (mid & Hd1 & Hd1'). simpl in Hd1'.
    destruct Hd1' as (-> & Hpv & Hpp & Hpn').
    apply NoDup_app in Hnd1 as (Hnd1 & Hnd1' & _).
    assert (HnextL1 : ∀ x, x ∈ L1' ++ [pv] → x ≠ next).
    { intros x Hx ->. destruct L2 as [|nx L2']; simpl in Hnext.
      - rewrite Hnext in Hx. apply Hnull. apply elem_of_app. by left.
      - rewrite Hnext in Hx. apply (Hnd12 nx Hx). right. by left. }
    apply dseg_app. exists pv. split.
    + apply (dseg_ext m); [|done]. intros x Hx. split.
      * apply Hn; [apply elem_of_app; left; apply elem_of_app; by left|].
        rewrite Hprev. intros ->. apply (Hnd1' pv Hx). by left.
      * apply Hp; [apply elem_of_app; left; apply elem_of_app; by left|].
        apply HnextL1. apply elem_of_app. by left.
    + simpl. split_and!; [done|done| |].
      * rewrite Hp; [done|apply elem_of_app; left; apply elem_of_app; right; by left|].
        apply HnextL1. apply elem_of_app. right. by left.
      * rewrite <- Hprev. by apply Hpn.
  - apply last_None in Hlast as ->. simpl in *.
    rewrite decide_True by done. done.
Qed.

(** * Frames of the link fields *)

Lemma frame_tags s H Ls Wr m' :
  Repr s H Ls → Forall (link_field H) Wr → frame_on (mem s) m' Wr →
  Forall (tags_ok m') H.
Proof.
  intros HR HW Hfr. pose proof (R_tags _ _ _ HR) as Ht.
  pose proof (R_size _ _ _ HR) as Hsz.
  rewrite Forall_forall in Ht. rewrite Forall_forall in HW.
  rewrite Forall_forall in Hsz. rewrite Forall_forall. intros y Hy.
  specialize (Ht y Hy). pose proof (size_ok_16 y (Hsz y Hy)).
  assert (Hb : ∀ a, blk_addr y ≤ a < blk_addr y + 9 ∨
                blk_addr y + blk_size y - 16 ≤ a < blk_addr y + blk_size y - 7 →
                m' a = mem s a).
  { intros a Ha. apply Hfr. intros w o Hw.
    destruct (HW _ Hw) as (sz & f & Hin & ? & Ho). simpl in Hin, Ho.
    destruct (chain_disjoint _ _ _ y (w, sz, f) (R_size _ _ _ HR)
                (R_chain _ _ _ HR) Hy Hin) as [->|Hd]; clia. }
  destruct Ht as (H1 & H2 & H3 & H4). unfold tags_ok.
  rewrite (load64_ext (mem s) m'), (load_bool_ext (mem s) m'),
    (load64_ext (mem s) m'), (load_bool_ext (mem s) m'); [done|..];
    intros; apply Hb; clia.
Qed.

Lemma frame_field s H Ls Wr m' x o szx fx :
  Repr s H Ls → Forall (link_field H) Wr → frame_on (mem s) m' Wr →
  (x, szx, fx) ∈ H → o = off_next ∨ o = off_prev → (x, o) ∉ Wr →
  load64 m' (x + o) = load64 (mem s) (x + o).
Proof.
  intros HR HW Hfr Hx Ho Hnot.
  pose proof (R_size _ _ _ HR) as Hsz.
  rewrite Forall_forall in HW. rewrite Forall_forall in Hsz.
  pose proof (size_ok_16 _ (Hsz _ Hx)).
  apply load64_ext. intros a Ha. apply Hfr. intros w o' Hw.
  destruct (HW _ Hw) as (sz & f & Hin & ? & Ho'). simpl in Hin, Ho'.
  destruct (chain_disjoint _ _ _ (x, szx, fx) (w, sz, f) (R_size _ _ _ HR)
              (R_chain _ _ _ HR) Hx Hin) as [Heq|Hd].
  - simplify_eq. assert (o ≠ o') by (intros ->; done). clia.
  - clia.
Qed.

(** Members of different buckets are different blocks. *)
Lemma Repr_bucket_inj s H Ls (i j : nat) Li Lj x :
  Repr s H Ls → Ls !! i = Some Li → Ls !! j = Some Lj →
  x ∈ Li → x ∈ Lj → i = j.
Proof.
  intros HR Hi Hj Hxi Hxj.
  destruct (R_idx _ _ _ HR i Li x Hi Hxi) as (sz & Hin & _ & Hc).
  destruct (R_idx _ _ _ HR j Lj x Hj Hxj) as (sz' & Hin' & _ & Hc').
  assert ((x, sz, true) = (x, sz', true)).
  { by eapply (chain_addr_inj _ _ _ _ _ (R_size _ _ _ HR) (R_chain _ _ _ HR)). }
  simplify_eq. lia.
Qed.

Lemma concat_insert_length (Ls : list (list Z)) (k : nat) L L' :
  Ls !! k = Some L →
  Z.of_nat (length (concat (<[k := L']> Ls))) =
  Z.of_nat (length (concat Ls)) - Z.of_nat (length L) + Z.of_nat (length L').
Proof.
  revert k. induction Ls as [|L0 Ls IH]; intros [|k] Hk; simplify_eq/=.
  - rewrite !length_app. lia.
  - pose proof (IH k Hk). rewrite !length_app. lia.
Qed.

Lemma Repr_addr_range s H Ls x :
  Repr s H Ls → x ∈ H →
  0 < blk_addr x ∧ blk_addr x + blk_size x < 2 ^ 64 - 1 ∧
  heap s ≤ blk_addr x ∧ blk_addr x + blk_size x ≤ end_ s ∧
  16 ≤ blk_size x.
Proof.
  intros HR Hx.
  destruct (chain_elem _ _ _ _ (R_size _ _ _ HR) (R_chain _ _ _ HR) Hx)
    as (_ & _ & _ & _ & _ & ? & ?).
  pose proof (R_heap _ _ _ HR). pose proof (R_end _ _ _ HR).
  pose proof (R_brk _ _ _ HR). pose proof (R_max _ _ _ HR).
  pose proof (R_size _ _ _ HR) as Hsz. rewrite Forall_forall in Hsz.
  pose proof (size_ok_16 _ (Hsz _ Hx)). lia.
Qed.

(** * Removing a block from the index *)

Lemma del_fl_seg_eq size s b (k : nat) :
  map_to_class (load64 (mem s) (b + off_size)) = Some (Z.of_nat k) →
  (k < length (flp_list s))%nat →
  let prev := load64 (mem s) (b + off_prev) in
  let next := load64 (mem s) (b + off_next) in
  let m2 := store64 (store64 (mem s) (b + off_prev) NULL) (b + off_next) NULL in
  let m3 := if decide (prev = NULL) then m2
            else store64 m2 (prev + off_next) next in
  let m4 := if decide (next ≠ NULL) then store64 m3 (next + off_prev) prev
            else m3 in
  let fl := if decide (prev = NULL) then <[k := next]> (flp_list s)
            else flp_list s in
  del_fl_seg b size s =
  Some (set_mem m4 (set_flp_list fl (set_frees (int (frees s - 1)) s))).
Proof.
  intros Hc Hk prev next m2 m3 m4 fl.
  unfold del_fl_seg, get_size, get_prev, get_next. cbn [mem set_frees].
  rewrite Hc. cbn [mbind option_bind].
  fold prev next. subst m4 m3 fl.
  destruct (decide (prev = NULL)) as [Hp|Hp].
  - unfold flp_set. st_simpl.
    rewrite decide_True by lia. cbn [mbind option_bind].
    rewrite Nat2Z.id. by destruct (decide (next ≠ NULL)).
  - cbn [mbind option_bind]. by destruct (decide (next ≠ NULL)).
Qed.

Lemma dseg_mid m h L1 b L2 :
  dseg m h NULL (L1 ++ b :: L2) NULL →
  load64 m (b + off_prev) = default NULL (last L1) ∧
  load64 m (b + off_next) = default NULL (head L2).
Proof.
  intros Hd. apply dseg_app in Hd as (mid & Hd1 & Hd2). simpl in Hd2.
  destruct Hd2 as (-> & Hb & Hprev & Hd2).
  split; [done|]. by eapply dseg_head.
Qed.

Lemma last_elem_of {A} (l : list A) x : last l = Some x → x ∈ l.
Proof. intros [l' ->]%last_Some. apply elem_of_app. right. by left. Qed.

Lemma head_elem_of {A} (l : list A) x : head l = Some x → x ∈ l.
Proof. destruct l; intros; simplify_eq/=. by left. Qed.

Lemma Repr_del s H Ls (k : nat) L1 b L2 size :
  Repr s H Ls → Ls !! k = Some (L1 ++ b :: L2) →
  ∃ s', del_fl_seg b size s = Some s' ∧
        Repr s' H (<[k := L1 ++ L2]> Ls) ∧ same_heap s s'.
Proof.
  intros HR Hk.
  pose proof (R_lists _ _ _ HR) as HL.
  destruct (Forall2_lookup_r _ _ _ _ _ HL Hk) as (h & Hh & Hd).
  assert (Hmem : ∀ x, x ∈ L1 ++ b :: L2 →
            ∃ sz, (x, sz, true) ∈ H ∧ MINCLASSSIZE ≤ sz ∧
                  map_to_class sz = Some (Z.of_nat k)).
  { intros x Hx. by eapply (R_idx _ _ _ HR). }
  assert (Hbm : b ∈ L1 ++ b :: L2) by (apply elem_of_app; right; left).
  destruct (Hmem b Hbm) as (sz & Hin & Hsz & Hc).
  pose proof (R_tags _ _ _ HR) as Ht. rewrite Forall_forall in Ht.
  destruct (Ht _ Hin) as (Hsize & _). cbn [blk_addr blk_size fst snd] in Hsize.
  pose proof (lookup_lt_Some _ _ _ Hh) as Hklt.
  rewrite (del_fl_seg_eq size s b k) by (by rewrite ?Hsize).
  set (prev := load64 (mem s) (b + off_prev)).
  set (next := load64 (mem s) (b + off_next)).
  set (m2 := store64 (store64 (mem s) (b + off_prev) NULL) (b + off_next) NULL).
  set (m3 := if decide (prev = NULL) then m2
             else store64 m2 (prev + off_next) next).
  set (m4 := if decide (next ≠ NULL) then store64 m3 (next + off_prev) prev
             else m3).
  set (fl := if decide (prev = NULL) then <[k := next]> (flp_list s)
             else flp_list s).
  eexists. split; [done|].
  pose proof (R_nodup _ _ _ HR) as Hnd. rewrite Forall_forall in Hnd.
  assert (HndL : NoDup (L1 ++ b :: L2)).
  { apply Hnd. by eapply list_elem_of_lookup_2. }
  destruct (dseg_mid _ _ _ _ _ Hd) as [Hprev Hnext]. fold prev in Hprev.
  fold next in Hnext.
  assert (HprevL : prev ≠ NULL → prev ∈ L1).
  { rewrite Hprev. destruct (last L1) eqn:E; simpl; [|done].
    intros _. by apply last_elem_of. }
  assert (HnextL : next ≠ NULL → next ∈ L2).
  { rewrite Hnext. destruct (head L2) eqn:E; simpl; [|done].
    intros _. by apply head_elem_of. }
  pose proof HndL as HndL'.
  apply NoDup_app in HndL' as (Hnd1 & Hnd12 & Hnd2).
  apply NoDup_cons in Hnd2 as [HbL2 Hnd2].
  assert (HbL1 : b ∉ L1) by (intros ?; eapply Hnd12; [done|by left]).
  set (Wr := [(b, off_prev); (b, off_next)] ++
             (if decide (prev = NULL) then [] else [(prev, off_next)]) ++
             (if decide (next ≠ NULL) then [(next, off_prev)] else [])).
  assert (HWm : ∀ w o, (w, o) ∈ Wr →
            w ∈ L1 ++ b :: L2 ∧
            ((w, o) = (b, off_prev) ∨ (w, o) = (b, off_next) ∨
             (w ∈ L1 ∧ w = prev ∧ o = off_next) ∨
             (w ∈ L2 ∧ w = next ∧ o = off_prev))).
  { intros w o. unfold Wr. intros [Hw|Hw]%elem_of_app.
    - apply elem_of_cons in Hw as [[= -> ->]|Hw]; [split; [done|by left]|].
      apply list_elem_of_singleton in Hw as [= -> ->].
      split; [done|right; by left].
    - apply elem_of_app in Hw as [Hw|Hw].
      + destruct (decide (prev = NULL)); [by apply elem_of_nil in Hw|].
        apply list_elem_of_singleton in Hw as [= -> ->].
        split; [apply elem_of_app; left; by apply HprevL|].
        right. right. left. split_and!; [by apply HprevL|done..].
      + destruct (decide (next ≠ NULL)); [|by apply elem_of_nil in Hw].
        apply list_elem_of_singleton in Hw as [= -> ->].
        split; [apply elem_of_app; right; right; by apply HnextL|].
        right. right. right. split_and!; [by apply HnextL|done..]. }
  assert (HW : Forall (link_field H) Wr).
  { apply Forall_forall. intros [w o] Hw.
    destruct (HWm w o Hw) as [Hwm Ho].
    destruct (Hmem w Hwm) as (szw & Hinw & ? & _).
    exists szw, true. simpl. split; [done|]. split; [done|].
    destruct Ho as [[= _ ->]|[[= _ ->]|[(_ & _ & ->)|(_ & _ & ->)]]]; auto. }
  assert (Hfr : frame_on (mem s) m4 Wr).
  { intros a Ha. unfold m4, m3, m2, Wr in *.
    destruct (decide (next ≠ NULL)), (decide (prev = NULL));
      rewrite ?store64_other; try done;
      try (apply Ha; rewrite !elem_of_app, !elem_of_cons; tauto). }
  assert (Hrange_prev : 0 ≤ prev < 2 ^ 64) by apply load64_range.
  assert (Hrange_next : 0 ≤ next < 2 ^ 64) by apply load64_range.
  assert (Ha : ∀ x, x ∈ L1 ++ L2 → x ≠ prev →
            load64 m4 (x + off_next) = load64 (mem s) (x + off_next)).
  { intros x Hx Hxp.
    assert (Hxm : x ∈ L1 ++ b :: L2).
    { apply elem_of_app in Hx as [?|?]; apply elem_of_app; [by left|].
      right. by right. }
    destruct (Hmem x Hxm) as (szx & Hinx & _).
    eapply (frame_field _ _ _ Wr); try done; [by left|].
    intros Hw. destruct (HWm _ _ Hw) as [_ Ho].
    destruct Ho as [[= _ ?]|[[= -> ]|[(_ & ? & _)|(_ & _ & ?)]]];
      [|done|clia].
    apply elem_of_app in Hx as [?|?]; done. }
  assert (Hb : ∀ x, x ∈ L1 ++ L2 → x ≠ next →
            load64 m4 (x + off_prev) = load64 (mem s) (x + off_prev)).
  { intros x Hx Hxp.
    assert (Hxm : x ∈ L1 ++ b :: L2).
    { apply elem_of_app in Hx as [?|?]; apply elem_of_app; [by left|].
      right. by right. }
    destruct (Hmem x Hxm) as (szx & Hinx & _).
    eapply (frame_field _ _ _ Wr); try done; [by right|].
    intros Hw. destruct (HWm _ _ Hw) as [_ Ho].
    destruct Ho as [[= ->]|[[= _ ?]|[(_ & _ & ?)|(_ & ? & _)]]];
      [|clia|done].
    apply elem_of_app in Hx as [?|?]; done. }
  assert (Hneq : prev ≠ NULL → next ≠ NULL →
            prev + 48 ≤ next ∨ next + 48 ≤ prev).
  { intros Hp Hn.
    assert (prev ∈ L1 ++ b :: L2) as Hpm
      by (apply elem_of_app; left; by apply HprevL).
    assert (next ∈ L1 ++ b :: L2) as Hnm
      by (apply elem_of_app; right; right; by apply HnextL).
    destruct (Hmem _ Hpm) as (szp & Hinp & ? & _).
    destruct (Hmem _ Hnm) as (szn & Hinn & ? & _).
    destruct (chain_disjoint _ _ _ _ _ (R_size _ _ _ HR) (R_chain _ _ _ HR)
                Hinp Hinn) as [[= Heq _]|Hdj]; [|clia].
    exfalso. eapply Hnd12; [by apply HprevL|].
    right. rewrite Heq. by apply HnextL. }
  assert (Hcc : prev ≠ NULL → load64 m4 (prev + off_next) = next).
  { intros Hp. unfold m4, m3. rewrite (decide_False _ _ Hp).
    destruct (decide (next ≠ NULL)) as [Hn|Hn].
    - destruct (Hneq Hp Hn).
      + rewrite load64_store64_ne by clia. by rewrite load64_store64.
      + rewrite load64_store64_ne by clia. by rewrite load64_store64.
    - by rewrite load64_store64. }
  assert (Hdd : next ≠ NULL → load64 m4 (next + off_prev) = prev).
  { intros Hn. unfold m4. rewrite (decide_True _ _ Hn).
    by rewrite load64_store64. }
  pose proof (dseg_unlink (mem s) m4 h L1 b L2 HndL Hd Ha Hb Hcc Hdd) as Hnew.
  cbv zeta in Hnew. fold prev next in Hnew. apply proj2, proj2 in Hnew.
  pose proof (Forall2_length _ _ _ HL) as Hlen.
  split; [|done].
  constructor; st_simpl; try apply HR.
  - by eapply frame_tags.
  - apply Forall2_same_length_lookup. split.
    { rewrite length_insert. unfold fl. case_decide; by rewrite ?length_insert. }
    intros i h' L' Hh' HL'.
    destruct (decide (i = k)) as [->|Hik].
    + rewrite list_lookup_insert_eq in HL' by (by eapply lookup_lt_Some).
      apply (inj Some) in HL' as <-. unfold fl in Hh'.
      destruct (decide (prev = NULL)).
      * rewrite list_lookup_insert_eq in Hh' by done.
        by apply (inj Some) in Hh' as <-.
      * rewrite Hh in Hh'. by apply (inj Some) in Hh' as <-.
    + rewrite list_lookup_insert_ne in HL' by done.
      assert (Hh2 : flp_list s !! i = Some h').
      { unfold fl in Hh'. case_decide; [|done].
        by rewrite list_lookup_insert_ne in Hh' by done. }
      pose proof (Forall2_lookup_lr _ _ _ _ _ _ HL Hh2 HL') as Hold.
      cbv beta in Hold.
      apply (dseg_ext (mem s)); [|done].
      intros x Hx.
      destruct (R_idx _ _ _ HR i L' x HL' Hx) as (szx & Hinx & _).
      assert (Hxk : x ∉ L1 ++ b :: L2).
      { intros Hxk. apply Hik. by eapply Repr_bucket_inj. }
      split; eapply (frame_field _ _ _ Wr); try done; auto;
        intros Hw; by destruct (HWm _ _ Hw) as [? _].
  - unfold fl. case_decide; by rewrite ?length_insert; apply HR.
  - apply Forall_insert; [apply HR|].
    apply NoDup_app. split_and!; [done| |done].
    intros x Hx1 Hx2. apply (Hnd12 x Hx1). by right.
  - intros i L' x HL' Hx.
    destruct (decide (i = k)) as [->|Hik].
    + rewrite list_lookup_insert_eq in HL' by (by eapply lookup_lt_Some).
      apply (inj Some) in HL' as <-. apply Hmem.
      apply elem_of_app in Hx as [?|?]; apply elem_of_app; [by left|].
      right. by right.
    + rewrite list_lookup_insert_ne in HL' by done.
      by eapply (R_idx _ _ _ HR).
  - rewrite (R_frees _ _ _ HR), int_sub_l. f_equal.
    rewrite (concat_insert_length _ _ _ _ Hk). rewrite !length_app. simpl.
    lia.
Qed.

(** * Inserting a block into the index *)

Lemma add_fl_seg_eq b size s (k : nat) h :
  map_to_class size = Some (Z.of_nat k) → flp_list s !! k = Some h →
  let m2 := store64 (store64 (mem s) (b + off_prev) NULL) (b + off_next) h in
  let m3 := if decide (h ≠ NULL) then store64 m2 (h + off_prev) b else m2 in
  add_fl_seg b size s =
  Some (set_mem m3 (set_flp_list (<[k := b]> (flp_list s))
                                 (set_frees (int (frees s + 1)) s))).
Proof.
  intros Hc Hh m2 m3. pose proof (lookup_lt_Some _ _ _ Hh).
  unfold add_fl_seg, flp_get, flp_set. rewrite Hc. cbn [mbind option_bind].
  st_simpl. rewrite decide_True by lia. rewrite Nat2Z.id, Hh.
  cbn [mbind option_bind]. rewrite decide_True by lia.
  cbn [mbind option_bind]. subst m3 m2.
  by destruct (decide (h ≠ NULL)).
Qed.

Lemma Repr_add s H Ls b sz :
  Repr s H Ls → (b, sz, true) ∈ H → MINCLASSSIZE ≤ sz →
  (∀ L', L' ∈ Ls → b ∉ L') →
  ∃ (k : nat) L s',
    map_to_class sz = Some (Z.of_nat k) ∧ Ls !! k = Some L ∧
    add_fl_seg b sz s = Some s' ∧
    Repr s' H (<[k := b :: L]> Ls) ∧ same_heap s s'.
Proof.
  intros HR Hin Hsz Hnot.
  destruct (Repr_addr_range _ _ _ _ HR Hin) as (Hb0 & Hbmax & _).
  cbn [blk_addr blk_size fst snd] in *.
  destruct (map_to_class_is_Some sz) as (c & Hc & Hcr); [clia|].
  pose proof (R_lists _ _ _ HR) as HL.
  pose proof (R_len _ _ _ HR) as Hlen.
  pose proof (Forall2_length _ _ _ HL) as HlenL.
  destruct (lookup_lt_is_Some_2 (flp_list s) (Z.to_nat c)) as [h Hh];
    [rewrite Hlen; clia|].
  destruct (Forall2_lookup_l _ _ _ _ _ HL Hh) as (L & HLk & Hd).
  exists (Z.to_nat c), L.
  rewrite Z2Nat.id by lia.
  rewrite (add_fl_seg_eq b sz s (Z.to_nat c) h) by (by rewrite ?Z2Nat.id by lia).
  set (k := Z.to_nat c) in *.
  set (m2 := store64 (store64 (mem s) (b + off_prev) NULL) (b + off_next) h).
  set (m3 := if decide (h ≠ NULL) then store64 m2 (h + off_prev) b else m2).
  eexists. split_and!; [done|done|done| |done].
  assert (HLin : L ∈ Ls) by (by eapply list_elem_of_lookup_2).
  assert (HbL : b ∉ L) by (by apply Hnot).
  assert (Hmem : ∀ x, x ∈ L →
            ∃ szx, (x, szx, true) ∈ H ∧ MINCLASSSIZE ≤ szx).
  { intros x Hx. destruct (R_idx _ _ _ HR k L x HLk Hx) as (szx & ? & ? & _).
    eauto. }
  pose proof (dseg_head _ _ _ _ Hd) as Hhead.
  assert (HhL : h ≠ NULL → h ∈ L).
  { rewrite Hhead. destruct (head L) eqn:E; simpl; [|done].
    intros _. by apply head_elem_of. }
  assert (Hhr : 0 ≤ h < 2 ^ 64).
  { destruct (decide (h = NULL)) as [->|Hn]; [clia|].
    destruct (Hmem h (HhL Hn)) as (szh & Hinh & _).
    destruct (Repr_addr_range _ _ _ _ HR Hinh) as (? & ? & ? & ? & ?).
    clia. }
  assert (Hhb : h ≠ b) by (intros ->; apply HbL, HhL; clia).
  assert (Hdisj : h ≠ NULL → h + 48 ≤ b ∨ b + 48 ≤ h).
  { intros Hn. destruct (Hmem h (HhL Hn)) as (szh & Hinh & ?).
    destruct (chain_disjoint _ _ _ _ _ (R_size _ _ _ HR) (R_chain _ _ _ HR)
                Hinh Hin) as [[= ? _]|Hdj]; [done|clia]. }
  set (Wr := [(b, off_prev); (b, off_next)] ++
             (if decide (h ≠ NULL) then [(h, off_prev)] else [])).
  assert (HWm : ∀ w o, (w, o) ∈ Wr →
            (w, o) = (b, off_prev) ∨ (w, o) = (b, off_next) ∨
            (h ≠ NULL ∧ w = h ∧ o = off_prev)).
  { intros w o. unfold Wr. intros [Hw|Hw]%elem_of_app.
    - apply elem_of_cons in Hw as [?|Hw]; [by left|].
      apply list_elem_of_singleton in Hw. right. by left.
    - destruct (decide (h ≠ NULL)); [|by apply elem_of_nil in Hw].
      apply list_elem_of_singleton in Hw as [= -> ->]. right. by right. }
  assert (HW : Forall (link_field H) Wr).
  { apply Forall_forall. intros [w o] Hw.
    destruct (HWm w o Hw) as [[= -> ->]|[[= -> ->]|(Hn & -> & ->)]].
    - exists sz, true. simpl. auto.
    - exists sz, true. simpl. auto.
    - destruct (Hmem h (HhL Hn)) as (szh & Hinh & ?).
      exists szh, true. simpl. auto. }
  assert (Hfr : frame_on (mem s) m3 Wr).
  { intros a Ha. unfold m3, m2, Wr in *.
    destruct (decide (h ≠ NULL));
      rewrite ?store64_other; try done;
      try (apply Ha; rewrite !elem_of_app, !elem_of_cons; tauto). }
  assert (Hfield : ∀ x szx o, (x, szx, true) ∈ H → x ≠ b →
            (o = off_next ∨ (o = off_prev ∧ x ≠ h)) →
            load64 m3 (x + o) = load64 (mem s) (x + o)).
  { intros x szx o Hinx Hxb Ho.
    eapply (frame_field _ _ _ Wr); try done; [tauto|].
    intros Hw.
    destruct (HWm _ _ Hw) as [[= ? ?]|[[= ? ?]|(Hn & ? & ?)]]; try done.
    destruct Ho as [->|[_ ?]]; [clia|done]. }
  assert (Hnew : dseg m3 b NULL (b :: L) NULL).
  { simpl. split_and!; [done|clia| |].
    - unfold m3, m2. destruct (decide (h ≠ NULL)) as [Hn|Hn].
      + destruct (Hdisj Hn); rewrite load64_store64_ne by clia;
          rewrite load64_store64_ne by clia; by rewrite load64_store64 by clia.
      + rewrite load64_store64_ne by clia. by rewrite load64_store64 by clia.
    - assert (Hnx : load64 m3 (b + off_next) = h).
      { unfold m3, m2. destruct (decide (h ≠ NULL)) as [Hn|Hn].
        - destruct (Hdisj Hn); rewrite load64_store64_ne by clia;
            by rewrite load64_store64.
        - by rewrite load64_store64. }
      rewrite Hnx. destruct L as [|h0 L']; [done|].
      simpl in Hhead. subst h0. simpl in Hd.
      destruct Hd as (_ & Hn & Hp & Hd).
      pose proof (R_nodup _ _ _ HR) as Hnd. rewrite Forall_forall in Hnd.
      specialize (Hnd _ HLin). apply NoDup_cons in Hnd as [HhL' _].
      simpl. split_and!; [done|done| |].
      + unfold m3. rewrite decide_True by done.
        rewrite load64_store64; [done|clia].
      + destruct (Hmem h) as (szh & Hinh & _); [by left|].
        rewrite (Hfield h szh off_next) by auto.
        apply (dseg_ext (mem s)); [|done].
        intros x Hx. destruct (Hmem x) as (szx & Hinx & _); [by right|].
        assert (x ≠ b) by (intros ->; apply HbL; by right).
        assert (x ≠ h) by (intros ->; done).
        split; eapply Hfield; eauto. }
  constructor; st_simpl; try apply HR.
  - by eapply frame_tags.
  - apply Forall2_same_length_lookup. split.
    { by rewrite !length_insert. }
    intros i h' L' Hh' HL'.
    destruct (decide (i = k)) as [->|Hik].
    + rewrite list_lookup_insert_eq in HL' by (by eapply lookup_lt_Some).
      rewrite list_lookup_insert_eq in Hh' by (by eapply lookup_lt_Some).
      apply (inj Some) in HL' as <-. by apply (inj Some) in Hh' as <-.
    + rewrite list_lookup_insert_ne in HL' by done.
      rewrite list_lookup_insert_ne in Hh' by done.
      pose proof (Forall2_lookup_lr _ _ _ _ _ _ HL Hh' HL') as Hold.
      cbv beta in Hold.
      apply (dseg_ext (mem s)); [|done].
      intros x Hx.
      destruct (R_idx _ _ _ HR i L' x HL' Hx) as (szx & Hinx & _).
      assert (HL'in : L' ∈ Ls) by (by eapply list_elem_of_lookup_2).
      assert (x ≠ b) by (intros ->; by apply (Hnot L')).
      assert (x ≠ h).
      { intros ->. apply Hik.
        eapply (Repr_bucket_inj _ _ _ i k L' L h); try done.
        apply HhL. intros ->. by apply (dseg_no_null _ _ _ _ _ Hold). }
      split; eapply Hfield; eauto.
  - rewrite length_insert. apply HR.
  - apply Forall_insert; [apply HR|].
    apply NoDup_cons. split; [done|].
    pose proof (R_nodup _ _ _ HR) as Hnd. rewrite Forall_forall in Hnd.
    by apply Hnd.
  - intros i L' x HL' Hx.
    destruct (decide (i = k)) as [->|Hik].
    + rewrite list_lookup_insert_eq in HL' by (by eapply lookup_lt_Some).
      apply (inj Some) in HL' as <-.
      apply elem_of_cons in Hx as [->|Hx].
      * exists sz. split_and!; [done|done|]. unfold k. by rewrite Z2Nat.id by lia.
      * by eapply (R_idx _ _ _ HR).
    + rewrite list_lookup_insert_ne in HL' by done.
      by eapply (R_idx _ _ _ HR).
  - rewrite (R_frees _ _ _ HR), int_add_l. f_equal.
    rewrite (concat_insert_length _ _ _ _ HLk). simpl. lia.
Qed.

(** * Reading the heap through the representation *)

Lemma Repr_tags s H Ls b sz f :
  Repr s H Ls → (b, sz, f) ∈ H →
  get_size s b = sz ∧ get_freed s b = f ∧
  get_size s (b + sz - FSIZE) = sz ∧ get_freed s (b + sz - FSIZE) = f.
Proof.
  intros HR Hin. pose proof (R_tags _ _ _ HR) as Ht.
  rewrite Forall_forall in Ht. apply (Ht _ Hin).
Qed.

Lemma Repr_next_blk s H1 x H2 Ls :
  Repr s (H1 ++ x :: H2) Ls →
  next_blk s (blk_addr x) = default NULL (blk_addr <$> head H2) ∧
  default (end_ s) (blk_addr <$> head H2) = blk_addr x + blk_size x.
Proof.
  intros HR.
  assert (Hx : x ∈ H1 ++ x :: H2) by (apply elem_of_app; right; left).
  destruct (Repr_addr_range _ _ _ _ HR Hx) as (? & ? & ? & ? & ?).
  destruct x as [[b sz] f]. cbn [blk_addr blk_size fst snd] in *.
  destruct (Repr_tags _ _ _ _ _ _ HR Hx) as (Hsz & _).
  pose proof (R_chain _ _ _ HR) as Hc.
  apply chain_app in Hc as (mid & Hc1 & Hc2). simpl in Hc2.
  destruct Hc2 as [Hmid Hc2]. cbn [blk_addr blk_size fst snd] in *. subst mid.
  unfold next_blk. rewrite decide_False by clia. rewrite Hsz.
  destruct H2 as [|y H2]; simpl in *.
  - rewrite decide_True by lia. done.
  - destruct Hc2 as [Hy Hc2].
    assert (Hyin : y ∈ H1 ++ (b, sz, f) :: y :: H2).
    { apply elem_of_app; right; right; left. }
    destruct (Repr_addr_range _ _ _ _ HR Hyin) as (? & ? & ? & ? & ?).
    rewrite decide_False by lia. done.
Qed.

Lemma Repr_prev_blk s H1 H2 Ls b :
  Repr s (H1 ++ H2) Ls → chain (heap s) H1 b →
  prev_blk s b = default NULL (blk_addr <$> last H1).
Proof.
  intros HR Hc1. unfold prev_blk.
  destruct (last H1) as [y|] eqn:Hlast; simpl.
  - apply last_Some in Hlast as [H1' ->].
    assert (Hy : y ∈ (H1' ++ [y]) ++ H2).
    { apply elem_of_app; left. apply elem_of_app; right; left. }
    destruct (Repr_addr_range _ _ _ _ HR Hy) as (? & ? & ? & ? & ?).
    apply chain_app in Hc1 as (mid & Hc1 & Hc1'). simpl in Hc1'.
    destruct Hc1' as [Hmid Hb]. subst mid.
    destruct y as [[p ps] pf]. cbn [blk_addr blk_size fst snd] in *.
    destruct (Repr_tags _ _ _ _ _ _ HR Hy) as (_ & _ & Hsz & _).
    rewrite decide_False by clia.
    replace (b - FSIZE) with (p + ps - FSIZE) by lia. rewrite Hsz. lia.
  - apply last_None in Hlast as ->. simpl in Hc1. subst b.
    rewrite decide_True by clia. done.
Qed.

(** * Writing the flag alone *)

Lemma set_free_mem b sz f0 f s :
  tags_ok (mem s) (b, sz, f0) → size_ok (b, sz, f0) →
  let s' := set_free b f s in
  tags_ok (mem s') (b, sz, f) ∧
  (∀ x, ¬ (b ≤ x < b + sz) → mem s' x = mem s x) ∧
  s' = set_mem (mem s') s.
Proof.
  intros (Hs1 & _ & Hs2 & _) Hok s'. subst s'.
  pose proof (size_ok_16 _ Hok) as H16. destruct Hok as [_ Hmod].
  cbn [blk_addr blk_size fst snd] in *.
  unfold set_free, get_footer, put_freed, get_size. st_simpl.
  rewrite Hs1.
  assert (Hcases : sz = 16 ∨ 32 ≤ sz) by zlia.
  pose proof (load64_range (mem s) (b + off_size)).
  split; [|split; [|done]].
  - unfold tags_ok. cbn [blk_addr blk_size blk_freed fst snd].
    destruct Hcases as [->|?].
    + replace (b + 16 - FSIZE + off_freed) with (b + off_freed) by clia.
      mem_simp. rewrite Hs1, Hs2. done.
    + mem_simp. rewrite Hs1, Hs2. done.
  - intros x Hx. rewrite !store_bool_other by clia. done.
Qed.

(** * Membership after a removal and after an insertion *)

Lemma Repr_del_members s H Ls b size :
  Repr s H Ls → (∃ k, members Ls k b) →
  ∃ s' Ls', del_fl_seg b size s = Some s' ∧ Repr s' H Ls' ∧ same_heap s s' ∧
            length Ls' = length Ls ∧
            ∀ k x, members Ls' k x ↔ members Ls k x ∧ x ≠ b.
Proof.
  intros HR (k & L & Hk & Hb).
  apply list_elem_of_split in Hb as (L1 & L2 & ->).
  destruct (Repr_del _ _ _ _ _ _ _ size HR Hk) as (s' & Hdel & HR' & Hsame).
  exists s', (<[k := L1 ++ L2]> Ls). split_and!; try done.
  { by rewrite length_insert. }
  pose proof (R_nodup _ _ _ HR) as Hnd. rewrite Forall_forall in Hnd.
  assert (HndL : NoDup (L1 ++ b :: L2)).
  { apply Hnd. by eapply list_elem_of_lookup_2. }
  apply NoDup_app in HndL as (Hnd1 & Hnd12 & Hnd2).
  apply NoDup_cons in Hnd2 as [HbL2 Hnd2].
  intros i x. unfold members.
  destruct (decide (i = k)) as [->|Hik].
  - rewrite list_lookup_insert_eq by (by eapply lookup_lt_Some). split.
    + intros (L & [= <-] & Hx). split.
      * exists (L1 ++ b :: L2). split; [done|].
        apply elem_of_app in Hx as [?|?]; apply elem_of_app; [by left|].
        right. by right.
      * intros ->. apply elem_of_app in Hx as [Hx|Hx]; [|done].
        apply (Hnd12 b Hx). by left.
    + intros [(L & HL & Hx) Hne]. rewrite Hk in HL.
      apply (inj Some) in HL as <-.
      exists (L1 ++ L2). split; [done|].
      apply elem_of_app in Hx as [?|Hx]; apply elem_of_app; [by left|].
      apply elem_of_cons in Hx as [?|?]; [done|by right].
  - rewrite list_lookup_insert_ne by done. split.
    + intros (L & HL & Hx). split; [by exists L|].
      intros ->. apply Hik.
      eapply (Repr_bucket_inj _ _ _ i k _ _ b HR); try done.
      apply elem_of_app; right; left.
    + intros [(L & HL & Hx) _]. by exists L.
Qed.

Lemma Repr_add_members s H Ls b sz :
  Repr s H Ls → (b, sz, true) ∈ H → MINCLASSSIZE ≤ sz →
  (∀ k, ¬ members Ls k b) →
  ∃ s' Ls', add_fl_seg b sz s = Some s' ∧ Repr s' H Ls' ∧ same_heap s s' ∧
            length Ls' = length Ls ∧
            ∀ k x, members Ls' k x ↔
                   members Ls k x ∨
                   (x = b ∧ map_to_class sz = Some (Z.of_nat k)).
Proof.
  intros HR Hin Hsz Hnot.
  destruct (Repr_add s H Ls b sz HR Hin Hsz)
    as (k & L & s' & Hc & Hk & Hadd & HR' & Hsame).
  { intros L' [i Hi]%list_elem_of_lookup Hb. apply (Hnot i). by exists L'. }
  exists s', (<[k := b :: L]> Ls). split_and!; try done.
  { by rewrite length_insert. }
  intros i x. unfold members.
  destruct (decide (i = k)) as [->|Hik].
  - rewrite list_lookup_insert_eq by (by eapply lookup_lt_Some). split.
    + intros (L' & [= <-] & Hx).
      apply elem_of_cons in Hx as [->|Hx]; [by right|].
      left. by exists L.
    + intros [(L' & HL' & Hx)|[-> _]].
      * rewrite Hk in HL'. apply (inj Some) in HL' as <-.
        exists (b :: L). split; [done|]. by right.
      * exists (b :: L). split; [done|]. by left.
  - rewrite list_lookup_insert_ne by done. split.
    + intros (L' & HL' & Hx). left. by exists L'.
    + intros [?|[-> Hc']]; [done|].
      rewrite Hc in Hc'. apply (inj Some) in Hc'. lia.
Qed.

(** * Merging a run of blocks and inserting the result *)

Lemma same_heap_refl s : same_heap s s.
Proof. by repeat split. Qed.

Lemma same_heap_trans s1 s2 s3 :
  same_heap s1 s2 → same_heap s2 s3 → same_heap s1 s3.
Proof. unfold same_heap. intros (?&?&?&?) (?&?&?&?). split_and!; congruence. Qed.

Lemma same_heap_set_mem m s : same_heap s (set_mem m s).
Proof. by repeat split. Qed.

Lemma chain_total_mod r M e' :
  chain r M e' → Forall size_ok M → (e' - r) mod 16 = 0 ∧ r ≤ e'.
Proof.
  revert r. induction M as [|x M IH]; intros r Hc HF; simpl in Hc.
  - subst. replace (e' - e') with 0 by lia. done.
  - destruct Hc as [_ Hc]. inversion_clear HF as [|?? [? ?] HF'].
    destruct (IH _ Hc HF'). split; [zlia|lia].
Qed.

Lemma chain_head r M e' x : chain r M e' → head M = Some x → blk_addr x = r.
Proof. destruct M; intros Hc [= ->]. by destruct Hc. Qed.

Lemma merge_insert s H1 M H2 Ls r e' :
  Repr s (H1 ++ M ++ H2) Ls → chain (heap s) H1 r → chain r M e' → M ≠ [] →
  (∀ x k, x ∈ M → ¬ members Ls k (blk_addr x)) →
  MINCLASSSIZE ≤ e' - r →
  ∃ s' Ls',
    add_fl_seg r (e' - r) (set_free r true (set_size r (e' - r) s)) = Some s' ∧
    Repr s' (H1 ++ (r, e' - r, true) :: H2) Ls' ∧ same_heap s s' ∧
    length Ls' = length Ls ∧
    ∀ k x, members Ls' k x ↔
           members Ls k x ∨
           (x = r ∧ map_to_class (e' - r) = Some (Z.of_nat k)).
Proof.
  intros HR Hc1 HcM Hne Hnot Hmin.
  pose proof (R_chain _ _ _ HR) as Hc.
  pose proof (chain_three _ _ _ _ _ _ _ Hc Hc1 HcM) as Hc2.
  pose proof (R_size _ _ _ HR) as Hsz.
  apply Forall_app in Hsz as [Hsz1 Hsz].
  apply Forall_app in Hsz as [HszM Hsz2].
  destruct (chain_total_mod _ _ _ HcM HszM) as [Hmod _].
  pose proof (chain_le _ _ _ Hsz2 Hc2). pose proof (chain_le _ _ _ Hsz1 Hc1).
  pose proof (R_heap _ _ _ HR). pose proof (R_end _ _ _ HR).
  pose proof (R_brk _ _ _ HR). pose proof (R_max _ _ _ HR).
  set (total := e' - r) in *.
  assert (Htot : 0 < total < 2 ^ 64) by clia.
  destruct (retag_mem r total true s Htot Hmod) as (Htags & Hout & Heq).
  set (s2 := set_free r true (set_size r total s)) in *.
  rewrite Heq.
  assert (HR2 : Repr (set_mem (mem s2) s) (H1 ++ [(r, total, true)] ++ H2) Ls).
  { apply (Repr_replace s (mem s2) H1 M [(r, total, true)] H2 Ls r e' HR Hc1 HcM).
    - simpl. split; [done|]. unfold total. cbn [blk_size fst snd]. lia.
    - constructor; [|done]. split; cbn [blk_size fst snd]; [lia|done].
    - by constructor.
    - intros x Hx. apply Hout. lia.
    - intros x L Hx [k Hk]%list_elem_of_lookup Hin.
      apply (Hnot x k Hx). by exists L. }
  destruct (Repr_add_members _ _ _ r total HR2) as (s' & Ls' & Hadd & HR' & Hsame & Hlen & Hmem).
  - apply elem_of_app. right. by left.
  - done.
  - intros k. destruct M as [|x0 M']; [done|].
    destruct HcM as [<- _]. apply Hnot. by left.
  - exists s', Ls'. split_and!; done.
Qed.

(** * Positions in a chain *)

Lemma chain_elem_before a H e x :
  Forall size_ok H → chain a H e → x ∈ H →
  blk_addr x + blk_size x = e → last H = Some x.
Proof.
  intros HF Hc Hx He.
  destruct (chain_elem _ _ _ _ HF Hc Hx) as (G1 & G2 & -> & Hc1 & Hc2 & _).
  destruct G2 as [|y G2].
  - by rewrite last_snoc.
  - exfalso. simpl in Hc2. destruct Hc2 as [Hy Hc2].
    apply Forall_app in HF as [_ HF]. inversion_clear HF as [|?? _ HF'].
    inversion_clear HF' as [|?? [? _] HF''].
    pose proof (chain_le _ _ _ HF'' Hc2). lia.
Qed.

Lemma chain_elem_first a H e x :
  Forall size_ok H → chain a H e → x ∈ H → blk_addr x = a → head H = Some x.
Proof.
  intros HF Hc Hx Ha.
  destruct (chain_elem _ _ _ _ HF Hc Hx) as (G1 & G2 & -> & Hc1 & Hc2 & _).
  destruct G1 as [|y G1]; [done|].
  exfalso. simpl in Hc1. destruct Hc1 as [Hy Hc1].
  apply Forall_app in HF as [HF _]. inversion_clear HF as [|?? [? _] HF'].
  pose proof (chain_le _ _ _ HF' Hc1). lia.
Qed.

Lemma chain_elem_range a H e x :
  Forall size_ok H → chain a H e → x ∈ H →
  a ≤ blk_addr x ∧ blk_addr x + blk_size x ≤ e ∧ 16 ≤ blk_size x.
Proof.
  intros HF Hc Hx.
  destruct (chain_elem _ _ _ _ HF Hc Hx) as (_ & _ & _ & _ & _ & ? & ?).
  rewrite Forall_forall in HF. pose proof (size_ok_16 _ (HF _ Hx)). done.
Qed.

(** * The invariant after a merge *)

Lemma Inv_merged s' H1' P c cs N H2' Ls Ls' r e' :
  Forall (λ x, blk_freed x = true) (P ++ N) →
  match last H1' with Some x => blk_freed x = false | None => True end →
  match head H2' with Some x => blk_freed x = false | None => True end →
  all_indexed ((H1' ++ P) ++ (N ++ H2')) Ls →
  no_adjacent_free ((H1' ++ P) ++ (N ++ H2')) →
  Forall (λ x, MINCLASSSIZE ≤ blk_size x) ((H1' ++ P) ++ (N ++ H2')) →
  chain r (P ++ (c, cs, true) :: N) e' →
  Forall size_ok (P ++ (c, cs, true) :: N) →
  Repr s' (H1' ++ (r, e' - r, true) :: H2') Ls' →
  (∀ k x, members Ls' k x ↔
          (members Ls k x ∧ ∀ y, y ∈ P ++ N → x ≠ blk_addr y) ∨
          (x = r ∧ map_to_class (e' - r) = Some (Z.of_nat k))) →
  MINCLASSSIZE ≤ e' - r →
  Inv s' (H1' ++ (r, e' - r, true) :: H2') Ls'.
Proof.
  intros Hfree HmaxL HmaxR Hall Hadj Hmin HcM HszM HR Hmem Htot.
  pose proof (R_chain _ _ _ HR) as Hc.
  pose proof (R_size _ _ _ HR) as Hsz.
  apply chain_app in Hc as (mid & Hc1 & Hc2). simpl in Hc2.
  destruct Hc2 as [Hmid Hc2]. cbn [blk_addr blk_size fst snd] in *. subst mid.
  replace (r + (e' - r)) with e' in Hc2 by lia.
  apply Forall_app in Hsz as [Hsz1 Hsz2].
  inversion_clear Hsz2 as [|?? _ Hsz2'].
  assert (HM : ∀ y, y ∈ P ++ N → r ≤ blk_addr y ∧ blk_addr y < e').
  { intros y Hy.
    assert (Hy' : y ∈ P ++ (c, cs, true) :: N).
    { apply elem_of_app in Hy as [?|?]; apply elem_of_app; [by left|].
      right. by right. }
    destruct (chain_elem_range _ _ _ _ HszM HcM Hy') as (? & ? & ?). clia. }
  assert (Hout : ∀ x, x ∈ H1' ++ H2' →
            x ∈ (H1' ++ P) ++ (N ++ H2') ∧
            (blk_addr x + blk_size x ≤ r ∧ blk_addr x < r ∨ e' ≤ blk_addr x)).
  { intros x [Hx|Hx]%elem_of_app.
    - split; [apply elem_of_app; left; apply elem_of_app; by left|].
      destruct (chain_elem_range _ _ _ _ Hsz1 Hc1 Hx) as (? & ? & ?). clia.
    - split; [apply elem_of_app; right; apply elem_of_app; by right|].
      destruct (chain_elem_range _ _ _ _ Hsz2' Hc2 Hx) as (? & ? & ?). clia. }
  assert (Hcases : ∀ x, x ∈ H1' ++ (r, e' - r, true) :: H2' →
            x = (r, e' - r, true) ∨ x ∈ H1' ++ H2').
  { intros x [?|[?|?]%elem_of_cons]%elem_of_app; [right|by left|right];
      apply elem_of_app; auto. }
  pose proof (R_heap _ _ _ HR). pose proof (R_end _ _ _ HR).
  pose proof (R_brk _ _ _ HR). pose proof (R_max _ _ _ HR).
  pose proof (chain_le _ _ _ Hsz2' Hc2). pose proof (chain_le _ _ _ Hsz1 Hc1).
  constructor; [done| | | |].
  - intros b sz Hb. destruct (Hcases _ Hb) as [[= -> ->]|Hb'].
    + destruct (map_to_class_is_Some (e' - r)) as (k & Hk & ?); [clia|].
      exists (Z.to_nat k). rewrite Z2Nat.id by lia. split; [done|].
      apply Hmem. right. by rewrite Z2Nat.id by lia.
    + destruct (Hout _ Hb') as [Hin Hpos]. cbn [blk_addr blk_size fst snd] in *.
      destruct (Hall b sz Hin) as (k & Hk & Hm).
      exists k. split; [done|]. apply Hmem. left. split; [done|].
      intros y Hy. specialize (HM y Hy). clia.
  - intros x y Hx Hy Ha [Hfx Hfy].
    destruct (Hcases _ Hx) as [->|Hx'], (Hcases _ Hy) as [->|Hy'];
      cbn [blk_addr blk_size fst snd] in *.
    + clia.
    + replace (r + (e' - r)) with e' in Ha by lia.
      destruct (Hout _ Hy') as [_ Hpos].
      apply elem_of_app in Hy' as [Hy'|Hy'].
      * destruct (chain_elem_range _ _ _ _ Hsz1 Hc1 Hy') as (? & ? & ?). clia.
      * rewrite (chain_elem_first _ _ _ _ Hsz2' Hc2 Hy' Ha) in HmaxR. congruence.
    + destruct (Hout _ Hx') as [_ Hpos].
      apply elem_of_app in Hx' as [Hx'|Hx'].
      * rewrite (chain_elem_before _ _ _ _ Hsz1 Hc1 Hx') in HmaxL by clia.
        congruence.
      * destruct (chain_elem_range _ _ _ _ Hsz2' Hc2 Hx') as (? & ? & ?). clia.
    + destruct (Hout _ Hx') as [Hinx _], (Hout _ Hy') as [Hiny _].
      by apply (Hadj x y Hinx Hiny Ha).
  - apply Forall_forall. intros x Hx. destruct (Hcases _ Hx) as [->|Hx'].
    + done.
    + destruct (Hout _ Hx') as [Hin _]. rewrite Forall_forall in Hmin.
      by apply Hmin.
  - by destruct H1'.
Qed.

(** * The coalescer *)

Lemma Repr_chain_mid s H1 x H2 Ls :
  Repr s (H1 ++ x :: H2) Ls →
  chain (heap s) H1 (blk_addr x) ∧
  chain (blk_addr x + blk_size x) H2 (end_ s).
Proof.
  intros HR. pose proof (R_chain _ _ _ HR) as Hc.
  apply chain_app in Hc as (mid & Hc1 & Hc2). simpl in Hc2.
  destruct Hc2 as [-> Hc2]. done.
Qed.

Lemma coalesce_flags s H1 c cs H2 Ls :
  Repr s (H1 ++ (c, cs, true) :: H2) Ls →
  prev_blk s c = default NULL (blk_addr <$> last H1) ∧
  next_blk s c = default NULL (blk_addr <$> head H2) ∧
  bool_decide (prev_blk s c ≠ NULL) && get_freed s (prev_blk s c)
  = match last H1 with Some p => blk_freed p | None => false end ∧
  bool_decide (next_blk s c ≠ NULL) && get_freed s (next_blk s c)
  = match head H2 with Some n => blk_freed n | None => false end.
Proof.
  intros HR.
  destruct (Repr_chain_mid _ _ _ _ _ HR) as [Hc1 Hc2].
  cbn [blk_addr blk_size fst snd] in *.
  pose proof (Repr_prev_blk s H1 _ Ls c HR Hc1) as Hp.
  destruct (Repr_next_blk s H1 (c, cs, true) H2 Ls HR) as [Hn _].
  cbn [blk_addr blk_size fst snd] in *.
  rewrite Hp, Hn. split; [done|]. split; [done|]. split.
  - destruct (last H1) as [[[p ps] pf]|] eqn:Hl.
    + change (default NULL (blk_addr <$> Some (p, ps, pf))) with p.
      change (blk_freed (p, ps, pf)) with pf.
      assert (Hin : (p, ps, pf) ∈ H1 ++ (c, cs, true) :: H2).
      { apply elem_of_app. left. by apply last_elem_of. }
      destruct (Repr_addr_range _ _ _ _ HR Hin) as (? & _).
      destruct (Repr_tags _ _ _ _ _ _ HR Hin) as (_ & -> & _).
      cbn [blk_addr fst snd] in *. rewrite bool_decide_true by clia. done.
    + change (default NULL (blk_addr <$> None)) with NULL.
      by rewrite bool_decide_false by (by intros Hnn; apply Hnn).
  - destruct (head H2) as [[[n ns] nf]|] eqn:Hh.
    + change (default NULL (blk_addr <$> Some (n, ns, nf))) with n.
      change (blk_freed (n, ns, nf)) with nf.
      assert (Hin : (n, ns, nf) ∈ H1 ++ (c, cs, true) :: H2).
      { apply elem_of_app. right. right. by apply head_elem_of. }
      destruct (Repr_addr_range _ _ _ _ HR Hin) as (? & _).
      destruct (Repr_tags _ _ _ _ _ _ HR Hin) as (_ & -> & _).
      cbn [blk_addr fst snd] in *. rewrite bool_decide_true by clia. done.
    + change (default NULL (blk_addr <$> None)) with NULL.
      by rewrite bool_decide_false by (by intros Hnn; apply Hnn).
Qed.

(** Case 1: neither neighbour is free. *)
Lemma coalesce_none s H1 c cs H2 Ls :
  PreCoalesce s H1 c cs H2 Ls →
  match last H1 with Some p => blk_freed p | None => false end = false →
  match head H2 with Some n => blk_freed n | None => false end = false →
  ∃ s' Ls',
    coalesce c s = Some (c, s') ∧
    Inv s' (H1 ++ (c, cs, true) :: H2) Ls' ∧ same_heap s s' ∧
    ∀ k x, members Ls' k x ↔
           members Ls k x ∨ (x = c ∧ map_to_class cs = Some (Z.of_nat k)).
Proof.
  intros [HR Hnot Hall Hadj Hmin Hsize] Hpf Hnf.
  destruct (coalesce_flags _ _ _ _ _ _ HR) as (Hp & Hn & Hpf' & Hnf').
  unfold coalesce. cbv zeta. rewrite Hpf', Hnf', Hpf, Hnf. cbn [negb andb].
  assert (Hin : (c, cs, true) ∈ H1 ++ (c, cs, true) :: H2).
  { apply elem_of_app. right. by left. }
  destruct (Repr_tags _ _ _ _ _ _ HR Hin) as (-> & _).
  assert (Hcs : MINCLASSSIZE ≤ cs).
  { destruct Hsize as [?|(p & Hl & Hf)]; [done|]. rewrite Hl in Hpf. congruence. }
  destruct (Repr_add_members _ _ _ c cs HR Hin Hcs Hnot)
    as (s' & Ls' & Hadd & HR' & Hsame & Hlen & Hmem).
  exists s', Ls'. rewrite Hadd. cbn [mbind option_bind].
  split_and!; try done.
  destruct (Repr_chain_mid _ _ _ _ _ HR) as [Hc1 Hc2].
  cbn [blk_addr blk_size fst snd] in *.
  pose proof (R_size _ _ _ HR) as Hsz.
  apply Forall_app in Hsz as [Hsz1 Hsz2]. inversion_clear Hsz2 as [|?? Hszc Hsz2'].
  replace cs with (c + cs - c) at 1 by lia.
  replace cs with (c + cs - c) in HR', Hmem by lia.
  apply (Inv_merged s' H1 [] c cs [] H2 Ls Ls' c (c + cs)); rewrite ?app_nil_r;
    simpl; try done.
  - by destruct (last H1).
  - by destruct (head H2).
  - by constructor.
  - intros k x. rewrite Hmem. split.
    + intros [?|?]; [left|by right]. split; [done|]. by intros y ?%elem_of_nil.
    + intros [[? _]|?]; [by left|by right].
  - lia.
Qed.

Lemma adj_max_left a H1' p e X :
  chain a (H1' ++ [p]) e → no_adjacent_free ((H1' ++ [p]) ++ X) →
  blk_freed p = true →
  match last H1' with Some x => blk_freed x = false | None => True end.
Proof.
  intros Hc Hadj Hp. destruct (last H1') as [x|] eqn:Hl; [|done].
  apply last_Some in Hl as [G ->].
  apply chain_app in Hc as (mid & Hc1 & Hc2).
  apply chain_app in Hc1 as (mid' & _ & Hc1). simpl in Hc1, Hc2.
  destruct Hc1 as [<- <-]. destruct Hc2 as [Hpa _].
  destruct (blk_freed x) eqn:Hx; [|done]. exfalso.
  apply (Hadj x p); [| |done|done].
  - apply elem_of_app. left. apply elem_of_app. left. apply elem_of_app.
    right. by left.
  - apply elem_of_app. left. apply elem_of_app. right. by left.
Qed.

Lemma adj_max_right a n H2' e X :
  chain a (n :: H2') e → no_adjacent_free (X ++ n :: H2') →
  blk_freed n = true →
  match head H2' with Some x => blk_freed x = false | None => True end.
Proof.
  intros Hc Hadj Hn. destruct H2' as [|x H2']; [done|]. simpl in *.
  destruct Hc as [<- [Hx _]].
  destruct (blk_freed x) eqn:Hfx; [|done]. exfalso.
  apply (Hadj n x); [| |done|done].
  - apply elem_of_app. right. by left.
  - apply elem_of_app. right. right. by left.
Qed.

(** The end of every merging case: the neighbours [P] and [N] have left
    the index; the run is retagged as one block, which is inserted. *)
Lemma coalesce_finish s0 H1' P c cs N H2' Ls Ls0 r e' :
  all_indexed ((H1' ++ P) ++ (N ++ H2')) Ls →
  no_adjacent_free ((H1' ++ P) ++ (N ++ H2')) →
  Forall (λ x, MINCLASSSIZE ≤ blk_size x) ((H1' ++ P) ++ (N ++ H2')) →
  (∀ k, ¬ members Ls k c) →
  Forall (λ x, blk_freed x = true) (P ++ N) →
  match last H1' with Some x => blk_freed x = false | None => True end →
  match head H2' with Some x => blk_freed x = false | None => True end →
  Repr s0 (H1' ++ (P ++ (c, cs, true) :: N) ++ H2') Ls0 →
  (∀ k x, members Ls0 k x ↔
          members Ls k x ∧ ∀ y, y ∈ P ++ N → x ≠ blk_addr y) →
  chain r (P ++ (c, cs, true) :: N) e' →
  MINCLASSSIZE ≤ e' - r →
  ∃ s' Ls',
    add_fl_seg r (e' - r) (set_free r true (set_size r (e' - r) s0)) = Some s' ∧
    Inv s' (H1' ++ (r, e' - r, true) :: H2') Ls' ∧ same_heap s0 s' ∧
    ∀ k x, members Ls' k x ↔
           (members Ls k x ∧ ∀ y, y ∈ P ++ N → x ≠ blk_addr y) ∨
           (x = r ∧ map_to_class (e' - r) = Some (Z.of_nat k)).
Proof.
  intros Hall Hadj Hmin Hnot Hfree HmaxL HmaxR HR0 Hmem0 HcM Htot.
  pose proof (R_chain _ _ _ HR0) as Hc.
  apply chain_app in Hc as (mid & Hc1 & Hc2).
  apply chain_app in Hc2 as (mid' & HcM' & Hc2).
  assert (mid = r) as ->.
  { destruct P as [|x P]; simpl in HcM, HcM'; destruct HcM, HcM'; congruence. }
  assert (mid' = e') as -> by (by eapply chain_det).
  pose proof (R_size _ _ _ HR0) as Hsz.
  apply Forall_app in Hsz as [Hsz1 Hsz].
  apply Forall_app in Hsz as [HszM Hsz2].
  destruct (merge_insert s0 H1' (P ++ (c, cs, true) :: N) H2' Ls0 r e')
    as (s' & Ls' & Hadd & HR' & Hsame' & Hlen & Hmem'); try done.
  { by destruct P. }
  { intros x k [Hx|[->|Hx]%elem_of_cons]%elem_of_app Hm;
      apply Hmem0 in Hm as [Hm Hne].
    - apply (Hne x); [apply elem_of_app; by left|done].
    - by apply (Hnot k).
    - apply (Hne x); [apply elem_of_app; by right|done]. }
  exists s', Ls'. split_and!; try done.
  - eapply Inv_merged; try done.
    intros k x. rewrite Hmem', Hmem0. done.
  - intros k x. rewrite Hmem', Hmem0. done.
Qed.

Lemma chain_snoc a H x e :
  chain a (H ++ [x]) e → chain a H (blk_addr x) ∧ e = blk_addr x + blk_size x.
Proof.
  intros Hc. apply chain_app in Hc as (mid & Hc1 & Hc2). simpl in Hc2.
  destruct Hc2 as [-> <-]. done.
Qed.

(** Case 2: the previous block is free, the next one is not. *)
Lemma coalesce_prev s H1' p ps c cs H2 Ls :
  PreCoalesce s (H1' ++ [(p, ps, true)]) c cs H2 Ls →
  match head H2 with Some n => blk_freed n | None => false end = false →
  ∃ s' Ls',
    coalesce c s = Some (p, s') ∧
    Inv s' (H1' ++ (p, ps + cs, true) :: H2) Ls' ∧ same_heap s s' ∧
    ∀ k x, members Ls' k x ↔
           (members Ls k x ∧ x ≠ p) ∨
           (x = p ∧ map_to_class (ps + cs) = Some (Z.of_nat k)).
Proof.
  intros [HR Hnot Hall Hadj Hmin Hsize] Hnf.
  destruct (coalesce_flags _ _ _ _ _ _ HR) as (Hp & Hn & Hpf' & Hnf').
  rewrite last_snoc in Hp, Hpf'.
  change (default NULL (blk_addr <$> Some (p, ps, true))) with p in Hp.
  unfold coalesce. cbv zeta. rewrite Hpf', Hnf', Hnf, Hp.
  cbn [negb andb blk_freed snd].
  assert (Hpin : (p, ps, true) ∈ (H1' ++ [(p, ps, true)]) ++ (c, cs, true) :: H2).
  { apply elem_of_app. left. apply elem_of_app. right. by left. }
  assert (Hcin : (c, cs, true) ∈ (H1' ++ [(p, ps, true)]) ++ (c, cs, true) :: H2).
  { apply elem_of_app. right. by left. }
  destruct (Repr_tags _ _ _ _ _ _ HR Hpin) as (Hps & _).
  destruct (Repr_tags _ _ _ _ _ _ HR Hcin) as (Hcs & _).
  destruct (Repr_addr_range _ _ _ _ HR Hpin) as (? & ? & ? & ? & ?).
  destruct (Repr_addr_range _ _ _ _ HR Hcin) as (? & ? & ? & ? & ?).
  destruct (Repr_chain_mid _ _ _ _ _ HR) as [Hc1 Hc2].
  apply chain_snoc in Hc1 as Hc1'. destruct Hc1' as [Hc1' Hpc].
  cbn [blk_addr blk_size fst snd] in *.
  rewrite Hps, Hcs. rewrite (size_t_small (ps + cs)) by lia.
  destruct (Hall p ps) as (kp & _ & Hmp).
  { apply elem_of_app. left. apply elem_of_app. right. by left. }
  destruct (Repr_del_members s _ Ls p ps HR (ex_intro _ kp Hmp))
    as (s1 & Ls1 & Hdel & HR1 & Hsame1 & _ & Hmem1).
  rewrite Hdel. cbn [mbind option_bind].
  assert (Hps48 : MINCLASSSIZE ≤ ps).
  { rewrite Forall_forall in Hmin. apply (Hmin (p, ps, true)).
    apply elem_of_app. left. apply elem_of_app. right. by left. }
  destruct (coalesce_finish s1 H1' [(p, ps, true)] c cs [] H2 Ls Ls1 p (c + cs))
    as (s' & Ls' & Hadd & HI & Hsame' & Hmem'); try done.
  - by repeat constructor.
  - by eapply adj_max_left.
  - by destruct (head H2).
  - by rewrite <- !app_assoc in HR1.
  - intros k x. rewrite Hmem1. split.
    + intros [? ?]. split; [done|]. intros y ->%list_elem_of_singleton. done.
    + intros [? Hy]. split; [done|]. apply (Hy (p, ps, true)). by left.
  - simpl. cbn [blk_addr blk_size fst snd]. split_and!; [done|done|lia].
  - clia.
  - replace (c + cs - p) with (ps + cs) in * by lia.
    exists s', Ls'. rewrite Hadd. cbn [mbind option_bind].
    split_and!; [done|done|by eapply same_heap_trans|].
    intros k x. rewrite Hmem'. split.
    + intros [[? Hy]|?]; [left|by right]. split; [done|].
      apply (Hy (p, ps, true)). by left.
    + intros [[? ?]|?]; [left|by right]. split; [done|].
      intros y ->%list_elem_of_singleton. done.
Qed.

(** Case 3: the next block is free, the previous one is not. *)
Lemma coalesce_next s H1 c cs n ns H2' Ls :
  PreCoalesce s H1 c cs ((n, ns, true) :: H2') Ls →
  match last H1 with Some p => blk_freed p | None => false end = false →
  ∃ s' Ls',
    coalesce c s = Some (c, s') ∧
    Inv s' (H1 ++ (c, cs + ns, true) :: H2') Ls' ∧ same_heap s s' ∧
    ∀ k x, members Ls' k x ↔
           (members Ls k x ∧ x ≠ n) ∨
           (x = c ∧ map_to_class (cs + ns) = Some (Z.of_nat k)).
Proof.
  intros [HR Hnot Hall Hadj Hmin Hsize] Hpf.
  destruct (coalesce_flags _ _ _ _ _ _ HR) as (Hp & Hn & Hpf' & Hnf').
  change (default NULL (blk_addr <$> head ((n, ns, true) :: H2'))) with n in Hn.
  unfold coalesce. cbv zeta. rewrite Hpf', Hnf', Hpf, Hn.
  cbn [negb andb blk_freed snd head].
  assert (Hnin : (n, ns, true) ∈ H1 ++ (c, cs, true) :: (n, ns, true) :: H2').
  { apply elem_of_app. right. right. by left. }
  assert (Hcin : (c, cs, true) ∈ H1 ++ (c, cs, true) :: (n, ns, true) :: H2').
  { apply elem_of_app. right. by left. }
  destruct (Repr_tags _ _ _ _ _ _ HR Hnin) as (Hns & _).
  destruct (Repr_tags _ _ _ _ _ _ HR Hcin) as (Hcs & _).
  destruct (Repr_addr_range _ _ _ _ HR Hnin) as (? & ? & ? & ? & ?).
  destruct (Repr_addr_range _ _ _ _ HR Hcin) as (? & ? & ? & ? & ?).
  destruct (Repr_chain_mid _ _ _ _ _ HR) as [Hc1 Hc2].
  simpl in Hc2. destruct Hc2 as [Hnc Hc2].
  cbn [blk_addr blk_size fst snd] in *. rewrite <- Hnc in Hc2.
  rewrite Hns, Hcs. rewrite (size_t_small (cs + ns)) by lia.
  destruct (Hall n ns) as (kn & _ & Hmn).
  { apply elem_of_app. right. by left. }
  destruct (Repr_del_members s _ Ls n ns HR (ex_intro _ kn Hmn))
    as (s1 & Ls1 & Hdel & HR1 & Hsame1 & _ & Hmem1).
  rewrite Hdel. cbn [mbind option_bind].
  assert (Hns48 : MINCLASSSIZE ≤ ns).
  { rewrite Forall_forall in Hmin. apply (Hmin (n, ns, true)).
    apply elem_of_app. right. by left. }
  destruct (coalesce_finish s1 H1 [] c cs [(n, ns, true)] H2' Ls Ls1 c (n + ns))
    as (s' & Ls' & Hadd & HI & Hsame' & Hmem'); rewrite ?app_nil_r; try done.
  - by repeat constructor.
  - by destruct (last H1).
  - eapply (adj_max_right n (n, ns, true)); [|done|done].
    simpl. split; [done|]. exact Hc2.
  - intros k x. rewrite Hmem1. split.
    + intros [? ?]. split; [done|]. intros y ->%list_elem_of_singleton. done.
    + intros [? Hy]. split; [done|]. apply (Hy (n, ns, true)). by left.
  - simpl. cbn [blk_addr blk_size fst snd]. split_and!; lia.
  - clia.
  - replace (n + ns - c) with (cs + ns) in * by lia.
    exists s', Ls'. rewrite Hadd. cbn [mbind option_bind].
    split_and!; [done|done|by eapply same_heap_trans|].
    intros k x. rewrite Hmem'. split.
    + intros [[? Hy]|?]; [left|by right]. split; [done|].
      apply (Hy (n, ns, true)). by left.
    + intros [[? ?]|?]; [left|by right]. split; [done|].
      intros y ->%list_elem_of_singleton. done.
Qed.

(** Case 4: both neighbours are free. *)
Lemma coalesce_both s H1' p ps c cs n ns H2' Ls :
  PreCoalesce s (H1' ++ [(p, ps, true)]) c cs ((n, ns, true) :: H2') Ls →
  ∃ s' Ls',
    coalesce c s = Some (p, s') ∧
    Inv s' (H1' ++ (p, ps + cs + ns, true) :: H2') Ls' ∧ same_heap s s' ∧
    ∀ k x, members Ls' k x ↔
           (members Ls k x ∧ x ≠ p ∧ x ≠ n) ∨
           (x = p ∧ map_to_class (ps + cs + ns) = Some (Z.of_nat k)).
Proof.
  intros [HR Hnot Hall Hadj Hmin Hsize].
  destruct (coalesce_flags _ _ _ _ _ _ HR) as (Hp & Hn & Hpf' & Hnf').
  rewrite last_snoc in Hp, Hpf'.
  change (default NULL (blk_addr <$> Some (p, ps, true))) with p in Hp.
  change (default NULL (blk_addr <$> head ((n, ns, true) :: H2'))) with n in Hn.
  unfold coalesce. cbv zeta. rewrite Hpf', Hnf', Hp, Hn.
  cbn [negb andb blk_freed snd head].
  set (H := (H1' ++ [(p, ps, true)]) ++ (c, cs, true) :: (n, ns, true) :: H2') in *.
  assert (Hpin : (p, ps, true) ∈ H).
  { apply elem_of_app. left. apply elem_of_app. right. by left. }
  assert (Hcin : (c, cs, true) ∈ H).
  { apply elem_of_app. right. by left. }
  assert (Hnin : (n, ns, true) ∈ H).
  { apply elem_of_app. right. right. by left. }
  destruct (Repr_tags _ _ _ _ _ _ HR Hpin) as (Hps & _).
  destruct (Repr_tags _ _ _ _ _ _ HR Hcin) as (Hcs & _).
  destruct (Repr_tags _ _ _ _ _ _ HR Hnin) as (Hns & _).
  destruct (Repr_addr_range _ _ _ _ HR Hpin) as (? & ? & ? & ? & ?).
  destruct (Repr_addr_range _ _ _ _ HR Hcin) as (? & ? & ? & ? & ?).
  destruct (Repr_addr_range _ _ _ _ HR Hnin) as (? & ? & ? & ? & ?).
  destruct (Repr_chain_mid _ _ _ _ _ HR) as [Hc1 Hc2].
  apply chain_snoc in Hc1 as Hc1'. destruct Hc1' as [Hc1' Hpc].
  simpl in Hc2. destruct Hc2 as [Hnc Hc2].
  cbn [blk_addr blk_size fst snd] in *. rewrite <- Hnc in Hc2.
  rewrite Hps, Hcs, Hns. rewrite (size_t_small (ps + cs)) by lia.
  rewrite (size_t_small (ps + cs + ns)) by lia.
  destruct (Hall n ns) as (kn & _ & Hmn).
  { apply elem_of_app. right. by left. }
  destruct (Hall p ps) as (kp & _ & Hmp).
  { apply elem_of_app. left. apply elem_of_app. right. by left. }
  destruct (Repr_del_members s _ Ls n ns HR (ex_intro _ kn Hmn))
    as (s1 & Ls1 & Hdel1 & HR1 & Hsame1 & _ & Hmem1).
  rewrite Hdel1. cbn [mbind option_bind].
  assert (Hmp1 : members Ls1 kp p) by (apply Hmem1; split; [done|lia]).
  destruct (Repr_del_members s1 _ Ls1 p (get_size s1 p) HR1 (ex_intro _ kp Hmp1))
    as (s2 & Ls2 & Hdel2 & HR2 & Hsame2 & _ & Hmem2).
  rewrite Hdel2. cbn [mbind option_bind].
  assert (Hmin' : ∀ x, x ∈ (H1' ++ [(p, ps, true)]) ++ (n, ns, true) :: H2' →
            MINCLASSSIZE ≤ blk_size x) by (by apply Forall_forall).
  assert (Hps48 : MINCLASSSIZE ≤ ps).
  { apply (Hmin' (p, ps, true)).
    apply elem_of_app. left. apply elem_of_app. right. by left. }
  destruct (coalesce_finish s2 H1' [(p, ps, true)] c cs [(n, ns, true)] H2'
              Ls Ls2 p (n + ns))
    as (s' & Ls' & Hadd & HI & Hsame' & Hmem'); try done.
  - by repeat constructor.
  - by eapply adj_max_left.
  - eapply (adj_max_right n (n, ns, true)); [|done|done].
    simpl. split; [done|]. exact Hc2.
  - unfold H in HR2. by rewrite <- !app_assoc in HR2.
  - intros k x. rewrite Hmem2, Hmem1. split.
    + intros [[? ?] ?]. split; [done|].
      intros y [->|[->|?%elem_of_nil]%elem_of_cons]%elem_of_cons; done.
    + intros [? Hy]. split_and!; [done| |].
      * apply (Hy (n, ns, true)). right. by left.
      * apply (Hy (p, ps, true)). by left.
  - simpl. cbn [blk_addr blk_size fst snd]. split_and!; lia.
  - clia.
  - replace (n + ns - p) with (ps + cs + ns) in * by lia.
    exists s', Ls'. rewrite Hadd. cbn [mbind option_bind].
    split_and!; [done|done| |].
    { eapply same_heap_trans; [|done]. by eapply same_heap_trans. }
    intros k x. rewrite Hmem'. split.
    + intros [[? Hy]|?]; [left|by right]. split_and!; [done| |].
      * apply (Hy (p, ps, true)). by left.
      * apply (Hy (n, ns, true)). right. by left.
    + intros [(? & ? & ?)|?]; [left|by right]. split; [done|].
      intros y [->|[->|?%elem_of_nil]%elem_of_cons]%elem_of_cons; done.
Qed.

(** * The coalescer meets its abstract description *)

Lemma coalesce_correct s H1 c cs H2 Ls H1' r total f H2' :
  PreCoalesce s H1 c cs H2 Ls →
  coalesce_spec H1 c cs H2 = (H1', (r, total, f), H2') →
  ∃ s' Ls',
    coalesce c s = Some (r, s') ∧ f = true ∧
    Inv s' (H1' ++ (r, total, true) :: H2') Ls' ∧ same_heap s s' ∧
    (∀ k, members Ls' k r ↔ map_to_class total = Some (Z.of_nat k)) ∧
    (∀ k x, x ≠ r → members Ls' k x → members Ls k x) ∧
    (∀ x, blk_freed x = false → x ∈ H1' ++ H2' ↔ x ∈ H1 ++ H2).
Proof.
  intros HP Hspec. unfold coalesce_spec in Hspec.
  pose proof (PC_not _ _ _ _ _ _ HP) as Hnot.
  destruct (last H1) as [[[p ps] pf]|] eqn:Hl;
    [apply last_Some in Hl as [H1'' ->]; destruct pf|];
    (destruct H2 as [|[[n ns] nf] H2'']; [|destruct nf]);
    cbn [head negb andb blk_freed blk_addr blk_size fst snd from_option id tail]
      in Hspec;
    rewrite ?removelast_last in Hspec;
    injection Hspec as <- <- <- <- <-.
  - (* prev free, no next *)
    destruct (coalesce_prev _ _ _ _ _ _ _ _ HP) as (s' & Ls' & ? & ? & ? & Hm);
      [done|].
    exists s', Ls'. split_and!; try done.
    + intros k. rewrite Hm. split; [intros [[_ ?]|[_ ?]]; done|by right].
    + intros k x ? [[? _]|[? _]]%Hm; done.
    + intros x Hx. rewrite !elem_of_app, !elem_of_cons, elem_of_nil.
      split; [tauto|]. intros [[?|[->|[]]]|?]; [tauto|done|tauto].
  - (* prev free, next free *)
    destruct (coalesce_both _ _ _ _ _ _ _ _ _ _ HP) as (s' & Ls' & ? & ? & ? & Hm).
    exists s', Ls'. split_and!; try done.
    + intros k. rewrite Hm. split; [intros [(_ & ? & _)|[_ ?]]; done|by right].
    + intros k x ? [[? _]|[? _]]%Hm; done.
    + intros x Hx. rewrite !elem_of_app, !elem_of_cons, elem_of_nil.
      split; [tauto|]. intros [[?|[->|[]]]|[->|?]]; [tauto|done|done|tauto].
  - (* prev free, next allocated *)
    destruct (coalesce_prev _ _ _ _ _ _ _ _ HP) as (s' & Ls' & ? & ? & ? & Hm);
      [done|].
    exists s', Ls'. split_and!; try done.
    + intros k. rewrite Hm. split; [intros [[_ ?]|[_ ?]]; done|by right].
    + intros k x ? [[? _]|[? _]]%Hm; done.
    + intros x Hx. rewrite !elem_of_app, !elem_of_cons, elem_of_nil.
      split; [tauto|]. intros [[?|[->|[]]]|?]; [tauto|done|tauto].
  - (* prev allocated, no next *)
    destruct (coalesce_none s (H1'' ++ [(p, ps, false)]) c cs [] Ls HP)
      as (s' & Ls' & ? & ? & ? & Hm); [by rewrite last_snoc|done|].
    exists s', Ls'. split_and!; try done.
    + intros k. rewrite Hm. split; [intros [Hmm|[_ ?]]; [by apply Hnot in Hmm|done]|by right].
    + intros k x ? [?|[? _]]%Hm; done.
  - (* prev allocated, next free *)
    destruct (coalesce_next s (H1'' ++ [(p, ps, false)]) c cs n ns H2'' Ls HP)
      as (s' & Ls' & ? & ? & ? & Hm); [by rewrite last_snoc|].
    exists s', Ls'. split_and!; try done.
    + intros k. rewrite Hm. split; [intros [[Hmm _]|[_ ?]]; [by apply Hnot in Hmm|done]|by right].
    + intros k x ? [[? _]|[? _]]%Hm; done.
    + intros x Hx. rewrite !elem_of_app, !elem_of_cons.
      split; [tauto|]. intros [?|[->|?]]; [tauto|done|tauto].
  - (* prev allocated, next allocated *)
    destruct (coalesce_none s (H1'' ++ [(p, ps, false)]) c cs
                ((n, ns, false) :: H2'') Ls HP)
      as (s' & Ls' & ? & ? & ? & Hm); [by rewrite last_snoc|done|].
    exists s', Ls'. split_and!; try done.
    + intros k. rewrite Hm. split; [intros [Hmm|[_ ?]]; [by apply Hnot in Hmm|done]|by right].
    + intros k x ? [?|[? _]]%Hm; done.
  - (* no prev, no next *)
    destruct (coalesce_none s H1 c cs [] Ls HP)
      as (s' & Ls' & ? & ? & ? & Hm); [by rewrite Hl|done|].
    exists s', Ls'. split_and!; try done.
    + intros k. rewrite Hm. split; [intros [Hmm|[_ ?]]; [by apply Hnot in Hmm|done]|by right].
    + intros k x ? [?|[? _]]%Hm; done.
  - (* no prev, next free *)
    destruct (coalesce_next s H1 c cs n ns H2'' Ls HP)
      as (s' & Ls' & ? & ? & ? & Hm); [by rewrite Hl|].
    exists s', Ls'. split_and!; try done.
    + intros k. rewrite Hm. split; [intros [[Hmm _]|[_ ?]]; [by apply Hnot in Hmm|done]|by right].
    + intros k x ? [[? _]|[? _]]%Hm; done.
    + intros x Hx. rewrite !elem_of_app, !elem_of_cons.
      split; [tauto|]. intros [?|[->|?]]; [tauto|done|tauto].
  - (* no prev, next allocated *)
    destruct (coalesce_none s H1 c cs ((n, ns, false) :: H2'') Ls HP)
      as (s' & Ls' & ? & ? & ? & Hm); [by rewrite Hl|done|].
    exists s', Ls'. split_and!; try done.
    + intros k. rewrite Hm. split; [intros [Hmm|[_ ?]]; [by apply Hnot in Hmm|done]|by right].
    + intros k x ? [?|[? _]]%Hm; done.
Qed.

(** * States that differ in the statistics only *)

Lemma Repr_core s s' H Ls : same_core s s' → Repr s H Ls → Repr s' H Ls.
Proof.
  intros (Hm & Hb & Hx & Hf & Hfr & Hh & He) HR.
  constructor; rewrite ?Hm, ?Hb, ?Hx, ?Hf, ?Hfr, ?Hh, ?He; apply HR.
Qed.

Lemma Inv_core s s' H Ls : same_core s s' → Inv s H Ls → Inv s' H Ls.
Proof.
  intros Hc [HR ? ? ? ?]. constructor; try done. by eapply Repr_core.
Qed.

Lemma same_core_heap s s' : same_core s s' → same_heap s s'.
Proof. intros (Hm & Hb & Hx & Hf & Hfr & Hh & He). by repeat split. Qed.

Lemma Inv_not_member s H Ls b sz :
  Inv s H Ls → (b, sz, false) ∈ H → ∀ k, ¬ members Ls k b.
Proof.
  intros HI Hin k (L & Hk & Hb). pose proof (I_repr _ _ _ HI) as HR.
  destruct (R_idx _ _ _ HR k L b Hk Hb) as (sz' & Hin' & _).
  assert ((b, sz', true) = (b, sz, false)); [|done].
  by eapply (chain_addr_inj _ _ _ _ _ (R_size _ _ _ HR) (R_chain _ _ _ HR)).
Qed.

(** * free *)

Lemma Inv_PreCoalesce s m' H1 c sz f H2 Ls :
  Inv s (H1 ++ (c, sz, f) :: H2) Ls →
  (∀ k, ¬ members Ls k c) →
  tags_ok m' (c, sz, true) →
  (∀ x, ¬ (c ≤ x < c + sz) → m' x = mem s x) →
  PreCoalesce (set_mem m' s) H1 c sz H2 Ls.
Proof.
  intros [HR Hall Hadj Hmin Hne] Hnot Htags Hout.
  destruct (Repr_chain_mid _ _ _ _ _ HR) as [Hc1 Hc2].
  cbn [blk_addr blk_size fst snd] in *.
  pose proof (R_size _ _ _ HR) as Hsz.
  apply Forall_app in Hsz as [Hsz1 Hsz2]. inversion_clear Hsz2 as [|?? Hszc Hsz2'].
  assert (Hsub : ∀ x, x ∈ H1 ++ H2 → x ∈ H1 ++ (c, sz, f) :: H2).
  { intros x. rewrite !elem_of_app, elem_of_cons. tauto. }
  constructor.
  - apply (Repr_replace s m' H1 [(c, sz, f)] [(c, sz, true)] H2 Ls c (c + sz));
      try done.
    + by constructor.
    + by constructor.
    + intros x L ->%list_elem_of_singleton [k Hk]%list_elem_of_lookup Hin.
      apply (Hnot k). by exists L.
  - done.
  - intros b sz' Hb. apply Hall. by apply Hsub.
  - intros x y Hx Hy. apply Hadj; by apply Hsub.
  - rewrite Forall_forall in Hmin. apply Forall_forall. intros x Hx.
    by apply Hmin, Hsub.
  - left. rewrite Forall_forall in Hmin. apply (Hmin (c, sz, f)).
    apply elem_of_app. right. by left.
Qed.

Lemma free_correct s H Ls ptr sz :
  Inv s H Ls → (ptr - HSIZE, sz, false) ∈ H →
  ∃ H1 H2 s' Ls' H1' r total H2',
    H = H1 ++ (ptr - HSIZE, sz, false) :: H2 ∧
    coalesce_spec H1 (ptr - HSIZE) sz H2 = (H1', (r, total, true), H2') ∧
    free ptr s = Some s' ∧
    Inv s' (H1' ++ (r, total, true) :: H2') Ls' ∧ same_heap s s' ∧
    (∀ k, members Ls' k r ↔ map_to_class total = Some (Z.of_nat k)) ∧
    (∀ x, blk_freed x = false → x ∈ H1' ++ H2' ↔ x ∈ H1 ++ H2).
Proof.
  intros HI Hin. pose proof (I_repr _ _ _ HI) as HR.
  pose proof (Inv_not_member _ _ _ _ _ HI Hin) as Hnot.
  destruct (Repr_addr_range _ _ _ _ HR Hin) as (Hpos & _).
  pose proof (R_tags _ _ _ HR) as Ht. rewrite Forall_forall in Ht.
  pose proof (R_size _ _ _ HR) as Hsz. rewrite Forall_forall in Hsz.
  specialize (Ht _ Hin). specialize (Hsz _ Hin).
  apply list_elem_of_split in Hin as (H1 & H2 & ->).
  set (c := ptr - HSIZE) in *. cbn [blk_addr fst snd] in Hpos.
  destruct (set_free_mem c sz false true s Ht Hsz) as (Htags & Hout & Heq).
  destruct (coalesce_spec H1 c sz H2) as [[H1' [[r total] f]] H2'] eqn:Hspec.
  pose proof (Inv_PreCoalesce s _ H1 c sz false H2 Ls HI Hnot Htags Hout) as HP.
  rewrite <- Heq in HP.
  destruct (coalesce_correct _ _ _ _ _ _ _ _ _ _ _ HP Hspec)
    as (s' & Ls' & Hco & -> & HI' & Hsame & Hm & _ & Hal).
  exists H1, H2, s', Ls', H1', r, total, H2'.
  split_and!; try done.
  unfold free. rewrite decide_False by (unfold c in *; clia).
  fold c. rewrite Hco. done.
Qed.

(** * split_block *)

Lemma set_mem_set_mem m m' s : set_mem m (set_mem m' s) = set_mem m s.
Proof. done. Qed.

(** The blocks around a block of the heap. *)
Lemma Repr_around s H1 x H2 Ls y :
  Repr s (H1 ++ x :: H2) Ls → y ∈ H1 ++ H2 →
  y ∈ H1 ++ x :: H2 ∧ 16 ≤ blk_size y ∧
  (blk_addr y + blk_size y ≤ blk_addr x ∨
   blk_addr x + blk_size x ≤ blk_addr y).
Proof.
  intros HR Hy.
  destruct (Repr_chain_mid _ _ _ _ _ HR) as [Hc1 Hc2].
  pose proof (R_size _ _ _ HR) as Hsz.
  apply Forall_app in Hsz as [Hsz1 Hsz2]. inversion_clear Hsz2 as [|?? Hszc Hsz2'].
  apply elem_of_app in Hy as [Hy|Hy].
  - destruct (chain_elem_range _ _ _ _ Hsz1 Hc1 Hy) as (? & ? & ?).
    split; [apply elem_of_app; by left|]. split; [done|by left].
  - destruct (chain_elem_range _ _ _ _ Hsz2' Hc2 Hy) as (? & ? & ?).
    split; [apply elem_of_app; right; by right|]. split; [done|by right].
Qed.

Lemma elem_of_middle {A} (x : A) l1 M l2 :
  x ∈ l1 ++ M ++ l2 ↔ x ∈ M ∨ x ∈ l1 ++ l2.
Proof. rewrite !elem_of_app. tauto. Qed.

Lemma elem_of_pair {A} (x a b : A) : x ∈ [a; b] ↔ x = a ∨ x = b.
Proof. rewrite elem_of_cons, list_elem_of_singleton. done. Qed.

(** Case 1: the whole block is consumed. *)
Lemma split_consume s H1 b sz H2 Ls len :
  Inv s (H1 ++ (b, sz, true) :: H2) Ls →
  0 ≤ len ≤ sz → sz - len < HSIZE + FSIZE →
  ∃ s' Ls',
    split_block b len s = Some s' ∧ same_heap s s' ∧
    Inv s' (H1 ++ [(b, sz, false)] ++ H2) Ls'.
Proof.
  intros [HR Hall Hadj Hmin Hne] Hlen Hrem.
  assert (Hbin : (b, sz, true) ∈ H1 ++ (b, sz, true) :: H2).
  { apply elem_of_app. right. by left. }
  destruct (Repr_tags _ _ _ _ _ _ HR Hbin) as (Hsz & _).
  destruct (Repr_addr_range _ _ _ _ HR Hbin) as (? & ? & ? & ? & ?).
  cbn [blk_addr blk_size fst snd] in *.
  destruct (Hall b sz Hbin) as (kb & _ & Hmb).
  unfold split_block. rewrite Hsz. rewrite (size_t_small (sz - len)) by lia.
  rewrite (size_t_small (HSIZE + FSIZE)) by clia.
  rewrite decide_True by done.
  destruct (Repr_del_members s _ Ls b sz HR (ex_intro _ kb Hmb))
    as (s1 & Ls1 & Hdel & HR1 & Hsame1 & _ & Hmem1).
  rewrite Hdel. cbn [mbind option_bind].
  pose proof (R_tags _ _ _ HR1) as Ht. rewrite Forall_forall in Ht.
  pose proof (R_size _ _ _ HR1) as Hso. rewrite Forall_forall in Hso.
  destruct (set_free_mem b sz true false s1 (Ht _ Hbin) (Hso _ Hbin))
    as (Htags & Hout & Heq).
  destruct (Repr_chain_mid _ _ _ _ _ HR1) as [Hc1 Hc2].
  cbn [blk_addr blk_size fst snd] in *.
  exists (set_free b false s1), Ls1. split; [done|]. split.
  { eapply same_heap_trans; [done|]. rewrite Heq. apply same_heap_set_mem. }
  rewrite Heq.
  assert (HR2 : Repr (set_mem (mem (set_free b false s1)) s1)
                  (H1 ++ [(b, sz, false)] ++ H2) Ls1).
  { apply (Repr_replace s1 _ H1 [(b, sz, true)] [(b, sz, false)] H2 Ls1
             b (b + sz)); try done.
    - constructor; [|done]. exact (Hso _ Hbin).
    - by constructor.
    - intros x L ->%list_elem_of_singleton [k Hk]%list_elem_of_lookup Hin.
      assert (members Ls1 k b) as [_ ?]%Hmem1 by (by exists L). done. }
  constructor; [done| | | |by destruct H1].
  - intros x szx [[= ]%list_elem_of_singleton|Hx]%elem_of_middle.
    destruct (Repr_around _ _ _ _ _ _ HR Hx) as (Hin & ? & ?).
    destruct (Hall x szx Hin) as (k & Hk & Hm).
    exists k. split; [done|]. apply Hmem1. split; [done|].
    cbn [blk_addr blk_size fst snd] in *. lia.
  - intros x y [->%list_elem_of_singleton|Hx]%elem_of_middle
             [->%list_elem_of_singleton|Hy]%elem_of_middle Ha [Hfx Hfy];
      try done.
    destruct (Repr_around _ _ _ _ _ _ HR Hx) as (Hinx & _).
    destruct (Repr_around _ _ _ _ _ _ HR Hy) as (Hiny & _).
    by apply (Hadj x y).
  - rewrite Forall_forall in Hmin. apply Forall_forall.
    intros x [->%list_elem_of_singleton|Hx]%elem_of_middle.
    + by apply (Hmin (b, sz, true)).
    + destruct (Repr_around _ _ _ _ _ _ HR Hx) as (Hinx & _). by apply Hmin.
Qed.

(** Case 2: the block is cut in two and the remainder goes to the index. *)
Lemma split_carve s H1 b sz H2 Ls len :
  Inv s (H1 ++ (b, sz, true) :: H2) Ls →
  MINCLASSSIZE ≤ len → len mod 16 = 0 → HSIZE + FSIZE ≤ sz - len →
  ∃ s' Ls',
    split_block b len s = Some s' ∧ same_heap s s' ∧
    Inv s' (H1 ++ [(b, len, false); (b + len, sz - len, true)] ++ H2) Ls' ∧
    ∀ k x, members Ls' k x ↔
           (members Ls k x ∧ x ≠ b) ∨
           (x = b + len ∧ map_to_class (sz - len) = Some (Z.of_nat k)).
Proof.
  intros [HR Hall Hadj Hmin Hne] Hlen Hmod Hrem.
  assert (Hbin : (b, sz, true) ∈ H1 ++ (b, sz, true) :: H2).
  { apply elem_of_app. right. by left. }
  destruct (Repr_tags _ _ _ _ _ _ HR Hbin) as (Hsz & _).
  destruct (Repr_addr_range _ _ _ _ HR Hbin) as (? & ? & ? & ? & ?).
  pose proof (R_size _ _ _ HR) as Hso. rewrite Forall_forall in Hso.
  destruct (Hso _ Hbin) as [_ Hszmod].
  cbn [blk_addr blk_size fst snd] in *.
  destruct (Hall b sz Hbin) as (kb & _ & Hmb).
  unfold split_block. rewrite Hsz. rewrite (size_t_small (sz - len)) by clia.
  rewrite (size_t_small (HSIZE + FSIZE)) by clia.
  rewrite decide_False by lia.
  destruct (Repr_del_members s _ Ls b sz HR (ex_intro _ kb Hmb))
    as (s1 & Ls1 & Hdel & HR1 & Hsame1 & _ & Hmem1).
  rewrite Hdel. cbn [mbind option_bind].
  destruct Hsame1 as (Hh1 & He1 & Hb1 & Hx1).
  destruct (retag_mem b len false s1) as (Ht3 & Hout3 & Heq3); [clia|done|].
  remember (set_free b false (set_size b len s1)) as s3 eqn:E3.
  assert (Hnb : next_blk s3 b = b + len).
  { unfold next_blk, get_size. destruct Ht3 as (Hl & _).
    cbn [blk_addr blk_size fst snd] in Hl. rewrite Hl.
    rewrite decide_False by clia.
    rewrite Heq3. st_simpl. rewrite decide_False by clia. done. }
  rewrite Hnb. rewrite decide_False by clia.
  destruct (retag_mem (b + len) (sz - len) true s3) as (Ht5 & Hout5 & Heq5);
    [clia|zlia|].
  remember (set_free (b + len) true (set_size (b + len) (sz - len) s3)) as s5 eqn:E5.
  assert (Heq : s5 = set_mem (mem s5) s1).
  { rewrite Heq5. rewrite Heq3 at 1. done. }
  destruct (Repr_chain_mid _ _ _ _ _ HR1) as [Hc1 Hc2].
  cbn [blk_addr blk_size fst snd] in *.
  set (M' := [(b, len, false); (b + len, sz - len, true)]).
  assert (HR5 : Repr s5 (H1 ++ M' ++ H2) Ls1).
  { rewrite Heq.
    apply (Repr_replace s1 _ H1 [(b, sz, true)] M' H2 Ls1 b (b + sz)); try done.
    - simpl. cbn [blk_addr blk_size fst snd]. split_and!; lia.
    - repeat constructor; cbn [blk_size fst snd]; clia.
    - constructor; [|by constructor].
      apply (tags_ok_ext (mem s3)); [split; cbn [blk_size fst snd]; clia| |done].
      intros a Ha. cbn [blk_addr blk_size fst snd] in Ha. apply Hout5. lia.
    - intros x Hx. rewrite Hout5 by clia. apply Hout3. clia.
    - intros x L ->%list_elem_of_singleton [k Hk]%list_elem_of_lookup Hin.
      assert (members Ls1 k b) as [_ ?]%Hmem1 by (by exists L). done. }
  destruct (Repr_add_members s5 _ Ls1 (b + len) (sz - len) HR5)
    as (s' & Ls' & Hadd & HR' & Hsame' & _ & Hmem').
  { apply elem_of_middle. left. right. by left. }
  { clia. }
  { intros k [Hm _]%Hmem1. destruct Hm as (L & Hk & Hin).
    destruct (R_idx _ _ _ HR _ _ _ Hk Hin) as (sz' & Hin' & ? & _).
    destruct (chain_disjoint _ _ _ _ _ (R_size _ _ _ HR) (R_chain _ _ _ HR)
                Hin' Hbin) as [[= ? ?]|Hd]; clia. }
  exists s', Ls'. split; [done|]. split.
  { destruct Hsame' as (? & ? & ? & ?). rewrite Heq in *. st_simpl.
    unfold same_heap. split_and!; congruence. }
  assert (Hmm : ∀ k x, members Ls' k x ↔
            (members Ls k x ∧ x ≠ b) ∨
            (x = b + len ∧ map_to_class (sz - len) = Some (Z.of_nat k))).
  { intros k x. rewrite Hmem', Hmem1. done. }
  split; [|done].
  constructor; [done| | | |by destruct H1].
  - intros x szx [Hx|Hx]%elem_of_middle.
    + apply elem_of_pair in Hx as [[= ]|[= -> ->]].
      destruct (map_to_class_is_Some (sz - len)) as (k & Hk & ?); [clia|].
      exists (Z.to_nat k). rewrite Z2Nat.id by lia. split; [done|].
      apply Hmm. right. by rewrite Z2Nat.id by lia.
    + destruct (Repr_around _ _ _ _ _ _ HR Hx) as (Hin & ? & ?).
      destruct (Hall x szx Hin) as (k & Hk & Hm).
      exists k. split; [done|]. apply Hmm. left. split; [done|].
      cbn [blk_addr blk_size fst snd] in *. lia.
  - intros x y Hx Hy Ha [Hfx Hfy].
    apply elem_of_middle in Hx as [Hx|Hx]; apply elem_of_middle in Hy as [Hy|Hy].
    + apply elem_of_pair in Hx as [-> | ->]; [done|].
      apply elem_of_pair in Hy as [-> | ->]; [done|].
      cbn [blk_addr blk_size fst snd] in Ha. clia.
    + apply elem_of_pair in Hx as [-> | ->]; [done|].
      destruct (Repr_around _ _ _ _ _ _ HR Hy) as (Hiny & ? & ?).
      cbn [blk_addr blk_size fst snd] in *.
      apply (Hadj (b, sz, true) y Hbin Hiny); [|done].
      cbn [blk_addr blk_size fst snd]. lia.
    + apply elem_of_pair in Hy as [-> | ->]; [done|].
      destruct (Repr_around _ _ _ _ _ _ HR Hx) as (Hinx & ? & ?).
      cbn [blk_addr blk_size fst snd] in *. clia.
    + destruct (Repr_around _ _ _ _ _ _ HR Hx) as (Hinx & _).
      destruct (Repr_around _ _ _ _ _ _ HR Hy) as (Hiny & _).
      by apply (Hadj x y).
  - rewrite Forall_forall in Hmin. apply Forall_forall.
    intros x [Hx|Hx]%elem_of_middle.
    + apply elem_of_pair in Hx as [-> | ->];
        cbn [blk_size fst snd]; clia.
    + destruct (Repr_around _ _ _ _ _ _ HR Hx) as (Hinx & _). by apply Hmin.
Qed.

(** Both cases at once. *)
Lemma split_correct s H1 b sz H2 Ls len :
  Inv s (H1 ++ (b, sz, true) :: H2) Ls →
  MINCLASSSIZE ≤ len ≤ sz → len mod 16 = 0 →
  ∃ s' Ls',
    split_block b len s = Some s' ∧ same_heap s s' ∧
    Inv s' (H1 ++ (if decide (sz - len < HSIZE + FSIZE)
                   then [(b, sz, false)]
                   else [(b, len, false); (b + len, sz - len, true)]) ++ H2) Ls'.
Proof.
  intros HI Hlen Hmod. case_decide.
  - eapply split_consume; [done|clia|done].
  - destruct (split_carve s H1 b sz H2 Ls len) as (s' & Ls' & ? & ? & ? & _);
      [done|lia|done|lia|]. by exists s', Ls'.
Qed.

(** * find_fit_seg *)

Lemma find_fit_in_spec fuel s h p L asize :
  dseg (mem s) h p L NULL → (length L < fuel)%nat →
  find_fit_in fuel s h asize = Some (first_fit s L asize).
Proof.
  revert h p fuel. induction L as [|x L IH]; intros h p fuel Hd Hf.
  - simpl in Hd. subst h. destruct fuel; [simpl in Hf; lia|].
    cbn [find_fit_in first_fit].
    by rewrite decide_False by (by intros Hn; apply Hn).
  - destruct fuel; [simpl in Hf; lia|]. simpl in Hd, Hf.
    destruct Hd as (-> & Hn & _ & Hd).
    cbn [find_fit_in first_fit]. rewrite decide_True by done.
    case_decide; [done|]. eapply IH; [done|lia].
Qed.

Lemma first_fit_elem s L asize :
  first_fit s L asize ≠ NULL →
  first_fit s L asize ∈ L ∧ asize ≤ get_size s (first_fit s L asize).
Proof.
  induction L as [|x L IH]; simpl; [done|]. case_decide.
  - intros _. split; [by left|lia].
  - intros Hn. destruct (IH Hn). split; [by right|done].
Qed.

Lemma first_fit_NULL s L asize :
  NULL ∉ L →
  first_fit s L asize = NULL ↔ ∀ x, x ∈ L → get_size s x < asize.
Proof.
  induction L as [|x L IH]; intros Hnull.
  - simpl. split; [by intros _ x ?%elem_of_nil|done].
  - apply not_elem_of_cons in Hnull as [Hx HL]. simpl. case_decide.
    + split; [intros ->; done|]. intros Hall.
      specialize (Hall x). ospecialize* Hall; [by left|lia].
    + rewrite (IH HL). split.
      * intros Hall y [->|Hy]%elem_of_cons; [lia|by apply Hall].
      * intros Hall y Hy. apply Hall. by right.
Qed.

Lemma first_fit_app s L1 L2 asize :
  NULL ∉ L1 →
  first_fit s (L1 ++ L2) asize =
  if decide (first_fit s L1 asize ≠ NULL) then first_fit s L1 asize
  else first_fit s L2 asize.
Proof.
  induction L1 as [|x L1 IH]; intros Hnull; cbn [app first_fit].
  - by rewrite decide_False by (by intros Hn; apply Hn).
  - apply not_elem_of_cons in Hnull as [Hx HL].
    destruct (decide (get_size s x >= asize)) as [Hge|Hlt]; [|by apply IH].
    destruct (decide (x ≠ NULL)) as [?|Hn]; [done|]. by destruct Hn; intros ->.
Qed.

Lemma Repr_Ls_length s H Ls : Repr s H Ls → length Ls = Z.to_nat CLASSNUM.
Proof.
  intros HR. rewrite <- (R_len _ _ _ HR). symmetry.
  eapply Forall2_length, R_lists. done.
Qed.

Lemma find_fit_from_spec n fuel s Ls class asize :
  Forall2 (λ h L, dseg (mem s) h NULL L NULL) (flp_list s) Ls →
  enough_fuel fuel Ls → 0 ≤ class →
  class + Z.of_nat n = Z.of_nat (length Ls) →
  find_fit_from n fuel s class asize =
  Some (first_fit s (concat (drop (Z.to_nat class) Ls)) asize).
Proof.
  intros HL Hfuel. revert class. induction n as [|n IH]; intros class Hc Hn.
  - rewrite drop_ge by lia. done.
  - cbn [find_fit_from]. unfold flp_get. rewrite decide_True by done.
    pose proof (Forall2_length _ _ _ HL) as Hlen.
    destruct (lookup_lt_is_Some_2 (flp_list s) (Z.to_nat class)) as [h Hh]; [lia|].
    destruct (Forall2_lookup_l _ _ _ _ _ HL Hh) as (L & HLk & Hd).
    rewrite Hh. cbn [mbind option_bind].
    rewrite (find_fit_in_spec fuel s h NULL L asize Hd).
    2: { unfold enough_fuel in Hfuel. rewrite Forall_lookup in Hfuel.
         by eapply Hfuel. }
    cbn [mbind option_bind].
    rewrite (drop_S _ _ _ HLk). cbn [concat].
    rewrite first_fit_app by (by eapply dseg_no_null).
    case_decide; [done|].
    rewrite IH by lia.
    by replace (Z.to_nat (class + 1)) with (S (Z.to_nat class)) by lia.
Qed.

Lemma class_of_spec_range asize :
  32 ≤ asize < 2 ^ 64 →
  map_to_class asize = Some (class_of_spec asize) ∧
  0 ≤ class_of_spec asize < 16.
Proof.
  intros Ha. rewrite map_to_class_spec by lia.
  pose proof (Z.log2_le_mono 32 asize). change (Z.log2 32) with 5 in *.
  pose proof (log2_bounds asize).
  unfold class_of_spec, clamp. split; [f_equal|]; lia.
Qed.

(** [find_fit_seg] computes the documented search. *)
Lemma find_fit_seg_spec fuel s H Ls asize :
  Repr s H Ls → 32 ≤ asize < 2 ^ 64 → enough_fuel fuel Ls →
  find_fit_seg fuel asize s = Some (find_fit_spec s Ls asize).
Proof.
  intros HR Ha Hfuel. destruct (class_of_spec_range asize Ha) as [Hc Hr].
  unfold find_fit_seg. rewrite Hc. cbn [mbind option_bind].
  apply find_fit_from_spec; [apply HR|done|lia|].
  rewrite (Repr_Ls_length _ _ _ HR). unfold CLASSNUM. lia.
Qed.

Lemma elem_of_concat {A} (x : A) (ls : list (list A)) :
  x ∈ concat ls ↔ ∃ l, x ∈ l ∧ l ∈ ls.
Proof.
  induction ls as [|l ls IH]; simpl.
  - split; [by intros ?%elem_of_nil|]. by intros (l & _ & ?%elem_of_nil).
  - rewrite elem_of_app, IH. split.
    + intros [?|(l' & ? & ?)]; [exists l; split; [done|by left]|].
      exists l'. split; [done|by right].
    + intros (l' & ? & [->|?]%elem_of_cons); [by left|right; by exists l'].
Qed.

Lemma members_drop (Ls : list (list Z)) (c : nat) x :
  x ∈ concat (drop c Ls) ↔ ∃ k, (c ≤ k)%nat ∧ members Ls k x.
Proof.
  rewrite elem_of_concat. split.
  - intros (L & Hx & [i Hi]%list_elem_of_lookup).
    rewrite lookup_drop in Hi. exists (c + i)%nat. split; [lia|]. by exists L.
  - intros (k & Hk & L & HL & Hx). exists L. split; [done|].
    apply list_elem_of_lookup. exists (k - c)%nat. rewrite lookup_drop.
    by replace (c + (k - c))%nat with k by lia.
Qed.

(** The search misses exactly when no block of the index is large enough:
    the buckets below the starting class hold smaller blocks only. *)
Lemma find_fit_spec_NULL s H Ls asize :
  Repr s H Ls → 32 ≤ asize < 2 ^ 64 →
  find_fit_spec s Ls asize = NULL ↔
  ∀ k x, members Ls k x → get_size s x < asize.
Proof.
  intros HR Ha. destruct (class_of_spec_range asize Ha) as [Hc Hr].
  assert (Hmem : ∀ k x, members Ls k x →
            x ≠ NULL ∧ ∃ sz, get_size s x = sz ∧ 0 < sz < 2 ^ 64 ∧
                             map_to_class sz = Some (Z.of_nat k)).
  { intros k x (L & Hk & Hx).
    destruct (R_idx _ _ _ HR k L x Hk Hx) as (sz & Hin & ? & ?).
    destruct (Repr_addr_range _ _ _ _ HR Hin) as (? & ? & ? & ? & ?).
    destruct (Repr_tags _ _ _ _ _ _ HR Hin) as (? & _).
    cbn [blk_addr blk_size fst snd] in *.
    split; [clia|]. exists sz. split_and!; [done|clia|clia|done]. }
  unfold find_fit_spec. rewrite first_fit_NULL.
  2: { intros (k & _ & Hm)%members_drop. by destruct (Hmem _ _ Hm). }
  split.
  - intros Hall k x Hm.
    destruct (decide (Z.to_nat (class_of_spec asize) ≤ k)%nat) as [Hk|Hk].
    + apply Hall. apply members_drop. by exists k.
    + destruct (Hmem _ _ Hm) as (_ & sz & -> & ? & Hcl).
      destruct (decide (sz < asize)) as [?|Hge]; [done|]. exfalso.
      pose proof (map_to_class_mono asize sz _ _ ltac:(lia) ltac:(lia) Hc Hcl).
      lia.
  - intros Hall x (k & _ & Hm)%members_drop. by eapply Hall.
Qed.

(** * extend_heap *)

Lemma extend_heap_fail ext s :
  ¬ (mem_brk s + ext ≤ mem_max_addr s) →
  extend_heap ext s = Some (NULL, set_extends (int (extends s + 1)) s).
Proof.
  intros Hf. unfold extend_heap, mem_sbrk. st_simpl.
  rewrite decide_False by done. by rewrite decide_True by done.
Qed.

(** A fresh block at the end of the heap. *)
Lemma Repr_extend s m' H Ls ext :
  Repr s H Ls → 0 < ext → ext mod 16 = 0 →
  mem_brk s + ext ≤ mem_max_addr s →
  tags_ok m' (end_ s, ext, true) →
  (∀ x, ¬ (end_ s ≤ x < end_ s + ext) → m' x = mem s x) →
  Repr (set_end (end_ s + ext) (set_mem_brk (mem_brk s + ext) (set_mem m' s)))
       (H ++ [(end_ s, ext, true)]) Ls.
Proof.
  intros HR Hext Hmod Hbrk Htags Hout.
  pose proof (R_size _ _ _ HR) as Hsz. pose proof (R_chain _ _ _ HR) as Hc.
  pose proof (R_end _ _ _ HR) as He.
  constructor; st_simpl; try apply HR.
  - lia.
  - done.
  - apply chain_app. exists (end_ s). split; [done|]. simpl. done.
  - apply Forall_app. split; [done|]. by repeat constructor.
  - apply Forall_app. split; [|by constructor].
    pose proof (R_tags _ _ _ HR) as Ht. rewrite Forall_forall in Ht, Hsz.
    apply Forall_forall. intros x Hx.
    apply (tags_ok_ext (mem s)); [by apply Hsz| |by apply Ht].
    destruct (chain_elem_range _ _ _ _ (R_size _ _ _ HR) Hc Hx) as (? & ? & ?).
    intros a ?. apply Hout. lia.
  - pose proof (R_lists _ _ _ HR) as HL.
    apply Forall2_same_length_lookup in HL as [Hlen HL].
    apply Forall2_same_length_lookup. split; [done|].
    intros i h L Hh HLi. apply (dseg_ext (mem s)); [|by eapply HL].
    intros x Hx.
    destruct (Repr_member _ _ _ _ _ HR (list_elem_of_lookup_2 _ _ _ HLi) Hx)
      as (sz & _ & ? & ? & ?).
    split; apply load64_ext; intros; apply Hout; clia.
  - intros k L x Hk Hx.
    destruct (R_idx _ _ _ HR k L x Hk Hx) as (sz & Hin & ? & ?).
    exists sz. split; [|done]. apply elem_of_app. by left.
Qed.

Lemma extend_heap_correct s H Ls ext H1' r total f H2' :
  Inv s H Ls → 0 < ext → ext mod 16 = 0 →
  mem_brk s + ext ≤ mem_max_addr s →
  (MINCLASSSIZE ≤ ext ∨ ∃ p, last H = Some p ∧ blk_freed p = true) →
  coalesce_spec H (end_ s) ext [] = (H1', (r, total, f), H2') →
  ∃ s' Ls',
    extend_heap ext s = Some (r, s') ∧ f = true ∧ r ≠ NULL ∧
    Inv s' (H1' ++ (r, total, true) :: H2') Ls' ∧
    heap s' = heap s ∧ end_ s' = end_ s + ext ∧
    mem_brk s' = mem_brk s + ext ∧ mem_max_addr s' = mem_max_addr s ∧
    (∀ k, members Ls' k r ↔ map_to_class total = Some (Z.of_nat k)) ∧
    (∀ x, blk_freed x = false → x ∈ H1' ++ H2' ↔ x ∈ H).
Proof.
  intros HI Hext Hmod Hbrk Hsize Hspec.
  pose proof (I_repr _ _ _ HI) as HR.
  pose proof (R_end _ _ _ HR) as He. pose proof (R_max _ _ _ HR) as Hmax.
  pose proof (R_heap _ _ _ HR) as Hheap.
  pose proof (chain_le _ _ _ (R_size _ _ _ HR) (R_chain _ _ _ HR)) as Hle.
  unfold extend_heap, mem_sbrk. st_simpl.
  rewrite decide_True by done. rewrite decide_False by clia.
  set (s1 := set_heap_brk (mem_brk s)
               (set_mem_brk (mem_brk s + ext)
                  (set_extends (int (extends s + 1)) s))).
  destruct (retag_mem (mem_brk s) ext true s1) as (Htags & Hout & Heq);
    [clia|done|].
  remember (set_free (mem_brk s) true (set_size (mem_brk s) ext s1)) as s3 eqn:E3.
  set (s4 := set_end (mem_brk s + ext) s3).
  assert (Hcore : same_core
            (set_end (end_ s + ext)
               (set_mem_brk (mem_brk s + ext) (set_mem (mem s3) s))) s4).
  { unfold s4. rewrite Heq. unfold s1, same_core. st_simpl.
    split_and!; try done. by rewrite He. }
  rewrite <- He in Htags, Hout.
  pose proof (Repr_extend s (mem s3) H Ls ext HR Hext Hmod Hbrk Htags Hout) as HR4.
  apply (Repr_core _ _ _ _ Hcore) in HR4.
  assert (HP : PreCoalesce s4 H (end_ s) ext [] Ls).
  { constructor; rewrite ?app_nil_r; try apply HI; try done.
    intros k (L & Hk & Hx).
    destruct (R_idx _ _ _ HR k L _ Hk Hx) as (sz & Hin & ? & _).
    destruct (Repr_addr_range _ _ _ _ HR Hin) as (? & ? & ? & ? & ?).
    cbn [blk_addr blk_size fst snd] in *. lia. }
  destruct (coalesce_correct _ _ _ _ _ _ _ _ _ _ _ HP Hspec)
    as (s' & Ls' & Hco & -> & HI' & Hsame & Hm & _ & Hal).
  exists s', Ls'. rewrite <- He. fold s4 in Hco |- *.
  destruct Hsame as (Hh' & He' & Hb' & Hx').
  assert (Hr : r ≠ NULL).
  { pose proof (I_repr _ _ _ HI') as HR'.
    assert (Hin : (r, total, true) ∈ H1' ++ (r, total, true) :: H2').
    { apply elem_of_app. right. by left. }
    destruct (Repr_addr_range _ _ _ _ HR' Hin) as (? & _).
    cbn [blk_addr fst snd] in *. clia. }
  assert (heap s4 = heap s) by (unfold s4; rewrite Heq; reflexivity).
  assert (end_ s4 = end_ s + ext) by (unfold s4; st_simpl; lia).
  assert (mem_brk s4 = mem_brk s + ext) by (unfold s4; rewrite Heq; reflexivity).
  assert (mem_max_addr s4 = mem_max_addr s)
    by (unfold s4; rewrite Heq; reflexivity).
  split_and!; try done; try congruence.
  intros x Hx. rewrite (Hal x Hx). by rewrite app_nil_r.
Qed.

(** * malloc *)

Lemma same_core_set_mallocs v s : same_core s (set_mallocs v s).
Proof. by repeat split. Qed.

Lemma same_core_set_extends v s : same_core s (set_extends v s).
Proof. by repeat split. Qed.

Lemma Inv_last s H Ls :
  Inv s H Ls → ∃ H0 t tsz tf, H = H0 ++ [(t, tsz, tf)].
Proof.
  intros HI. pose proof (I_nonempty _ _ _ HI) as Hne.
  destruct (last H) as [[[t tsz] tf]|] eqn:Hl.
  - apply last_Some in Hl as [H0 ->]. eauto.
  - by apply last_None in Hl.
Qed.

Lemma extend_size_spec s H0 t tsz tf Ls asize :
  Repr s (H0 ++ [(t, tsz, tf)]) Ls →
  extend_size asize s =
  Some (if tf then size_t (asize - tsz) else max asize CHUNKSIZE).
Proof.
  intros HR.
  assert (Hin : (t, tsz, tf) ∈ H0 ++ [(t, tsz, tf)]).
  { apply elem_of_app. right. by left. }
  destruct (Repr_addr_range _ _ _ _ HR Hin) as (? & _).
  destruct (Repr_tags _ _ _ _ _ _ HR Hin) as (Hsz & Hfr & _).
  cbn [blk_addr fst snd] in *.
  pose proof (R_chain _ _ _ HR) as Hc.
  pose proof HR as HR'. rewrite <- (app_nil_r (H0 ++ _)) in HR'.
  pose proof (Repr_prev_blk s _ [] Ls (end_ s) HR' Hc) as Hp.
  rewrite last_snoc in Hp.
  change (default NULL (blk_addr <$> Some (t, tsz, tf))) with t in Hp.
  unfold extend_size. rewrite Hp. rewrite decide_False by clia.
  rewrite Hfr, Hsz. by destruct tf.
Qed.

Lemma mem_sbrk_fails ext s :
  mem_max_addr s < 2 ^ 64 - 1 → 0 ≤ mem_brk s ≤ mem_max_addr s →
  (mem_sbrk ext s).1 = SBRK_FAIL ↔ ¬ (mem_brk s + ext ≤ mem_max_addr s).
Proof.
  intros. unfold mem_sbrk. case_decide; simpl; [|done].
  split; [unfold SBRK_FAIL; lia|done].
Qed.

Lemma malloc_correct s H Ls fuel n :
  Inv s H Ls → 0 < n → n + 63 < 2 ^ 64 → enough_fuel fuel Ls →
  ∃ p s',
    malloc fuel n s = Some (p, s') ∧
    ((p = NULL ∧ s' = malloc_failed s ∧ extension_fails fuel n s) ∨
     (p ≠ NULL ∧ ¬ extension_fails fuel n s ∧
      ∃ H' Ls' sz,
        Inv s' H' Ls' ∧ (p - HSIZE, sz, false) ∈ H' ∧ alloc_size n ≤ sz ∧
        (∀ x, blk_freed x = false → x ∈ H → x ∈ H') ∧
        heap s' = heap s ∧ mem_max_addr s' = mem_max_addr s)).
Proof.
  intros HI Hn Hnmax Hfuel.
  destruct (alloc_size_bounds n) as [Has Hamod]; [lia|lia|].
  set (asize := alloc_size n) in *.
  set (s0 := set_mallocs (int (mallocs s + 1)) s).
  pose proof (Inv_core s s0 H Ls (same_core_set_mallocs _ s) HI) as HI0.
  pose proof (I_repr _ _ _ HI0) as HR0.
  assert (Hff : ∀ st, same_core s st →
            find_fit_seg fuel asize st = Some (find_fit_spec s Ls asize)).
  { intros st Hst. 
    rewrite (find_fit_seg_spec fuel st H Ls asize); [|by eapply Repr_core, HI|clia|done].
    unfold find_fit_spec. f_equal.
    destruct Hst as (Hm & _).
    induction (concat _) as [|x L IH]; [done|]. simpl. unfold get_size.
    rewrite Hm, IH. done. }
  unfold malloc. fold s0. rewrite decide_False by lia. fold asize.
  rewrite (Hff s0 (same_core_set_mallocs _ s)). cbn [mbind option_bind].
  assert (HNULL : find_fit_spec s Ls asize = NULL ↔
            ∀ k x, members Ls k x → get_size s x < asize).
  { apply (find_fit_spec_NULL s H Ls asize (I_repr _ _ _ HI)). clia. }
  unfold find_fit_spec in *.
  set (r := first_fit s (concat (drop (Z.to_nat (class_of_spec asize)) Ls)) asize)
    in *.
  pose proof (R_brk _ _ _ HR0) as Hbrk. pose proof (R_max _ _ _ HR0) as Hmax.
  pose proof (R_heap _ _ _ HR0) as Hheap. pose proof (R_end _ _ _ HR0) as Hend.
  pose proof (chain_le _ _ _ (R_size _ _ _ HR0) (R_chain _ _ _ HR0)) as Hle.
  destruct (decide (r ≠ NULL)) as [Hr|Hr].
  - (* a fit *)
    destruct (first_fit_elem _ _ _ Hr) as [Hrin Hrsz]. fold r in Hrin, Hrsz.
    change (first_fit s _ asize) with r in Hrsz.
    apply members_drop in Hrin as (k & _ & L & Hk & HrL).
    destruct (R_idx _ _ _ HR0 k L r Hk HrL) as (sz & Hin & Hsz48 & _).
    assert (Hsz : get_size s r = sz).
    { by destruct (Repr_tags _ _ _ _ _ _ (I_repr _ _ _ HI) Hin) as (? & _). }
    rewrite Hsz in Hrsz.
    apply list_elem_of_split in Hin as (H1 & H2 & ->).
    destruct (split_correct s0 H1 r sz H2 Ls asize HI0) as (s' & Ls' & Hsp & Hsame & HI');
      [clia|done|].
    rewrite Hsp. cbn [mbind option_bind].
    assert (Hrin : (r, sz, true) ∈ H1 ++ (r, sz, true) :: H2).
    { apply elem_of_app. right. by left. }
    destruct (Repr_addr_range _ _ _ _ HR0 Hrin) as (? & _).
    cbn [blk_addr fst snd] in *.
    exists (r + HSIZE), s'. split; [done|]. right.
    split; [clia|]. split.
    { intros [Hmiss _]. change (alloc_size n) with asize in Hmiss.
      rewrite (Hff s) in Hmiss by (by repeat split).
      by apply (inj Some) in Hmiss. }
    replace (r + HSIZE - HSIZE) with r by lia.
    eexists _, Ls', (if decide (sz - asize < HSIZE + FSIZE) then sz else asize).
    split; [exact HI'|]. split_and!.
    + apply elem_of_middle. left. case_decide; by left.
    + case_decide; lia.
    + intros x Hx [?|[->|?]%elem_of_cons]%elem_of_app; [|done|];
        apply elem_of_middle; right; apply elem_of_app; auto.
    + by destruct Hsame as (-> & _).
    + by destruct Hsame as (_ & _ & _ & ->).
  - (* no fit: the heap grows *)
    assert (Hr0 : r = NULL) by (by destruct (decide (r = NULL)); [|destruct Hr]).
    assert (Hsmall : ∀ b sz, (b, sz, true) ∈ H → sz < asize).
    { intros b sz Hin.
      destruct (I_all _ _ _ HI b sz Hin) as (k & _ & Hm).
      pose proof (proj1 HNULL Hr0 k b Hm) as Hlt.
      by destruct (Repr_tags _ _ _ _ _ _ (I_repr _ _ _ HI) Hin) as (<- & _). }
    destruct (Inv_last _ _ _ HI) as (H0 & t & tsz & tf & ->).
    assert (Htin : (t, tsz, tf) ∈ H0 ++ [(t, tsz, tf)]).
    { apply elem_of_app. right. by left. }
    pose proof (R_size _ _ _ HR0) as Hso. rewrite Forall_forall in Hso.
    destruct (Hso _ Htin) as [Htpos Htmod]. cbn [blk_size fst snd] in *.
    rewrite (extend_size_spec s0 H0 t tsz tf Ls asize HR0).
    cbn [mbind option_bind].
    set (ext := if tf then size_t (asize - tsz) else max asize CHUNKSIZE).
    assert (Hext : 0 < ext ∧ ext mod 16 = 0 ∧
              (if tf then tsz + ext = asize else asize ≤ ext)).
    { unfold ext. destruct tf.
      - pose proof (Hsmall t tsz Htin).
        rewrite size_t_small by lia. split_and!; [lia|zlia|lia].
      - unfold max, CHUNKSIZE. case_decide; split_and!; try lia; zlia. }
    destruct Hext as (Hext0 & Hextmod & Hextsz).
    assert (Hes : extend_size asize s = Some ext).
    { by rewrite (extend_size_spec s H0 t tsz tf Ls asize (I_repr _ _ _ HI)). }
    destruct (decide (mem_brk s0 + ext ≤ mem_max_addr s0)) as [Hok|Hfail].
    + (* the host extends the heap *)
      destruct (coalesce_spec (H0 ++ [(t, tsz, tf)]) (end_ s0) ext [])
        as [[H1' [[r' total] f]] H2'] eqn:Hspec.
      destruct (extend_heap_correct s0 _ Ls ext H1' r' total f H2' HI0)
        as (s1 & Ls1 & Hex & -> & Hr' & HI1 & Hh1 & He1 & Hb1 & Hx1 & _ & Hal);
        try done.
      { destruct tf; [right|left].
        - exists (t, tsz, true). by rewrite last_snoc.
        - clia. }
      rewrite Hex. cbn [mbind option_bind]. rewrite decide_False by done.
      assert (Htot : H2' = [] ∧ asize ≤ total ∧
                (tf = true → total = asize)).
      { unfold coalesce_spec in Hspec. rewrite last_snoc in Hspec.
        cbn [head negb andb blk_freed blk_addr blk_size fst snd from_option id]
          in Hspec.
        destruct tf; cbn [negb andb] in Hspec; injection Hspec as <- <- <- <-;
          split_and!; try done; lia. }
      destruct Htot as (-> & Htot & _).
      destruct (split_correct s1 H1' r' total [] Ls1 asize HI1)
        as (s' & Ls' & Hsp & Hsame & HI'); [clia|done|].
      rewrite Hsp. cbn [mbind option_bind].
      exists (r' + HSIZE), s'. split; [done|]. right.
      assert (Hrin : (r', total, true) ∈ H1' ++ [(r', total, true)]).
      { apply elem_of_app. right. by left. }
      destruct (Repr_addr_range _ _ _ _ (I_repr _ _ _ HI1) Hrin) as (? & _).
      cbn [blk_addr fst snd] in *.
      split; [clia|]. split.
      { intros (_ & ext' & Hes' & Hsf). change (alloc_size n) with asize in Hes'.
        rewrite Hes in Hes'.
        apply (inj Some) in Hes' as <-.
        apply mem_sbrk_fails in Hsf; [done|apply HI|].
        pose proof (R_brk _ _ _ (I_repr _ _ _ HI)).
        pose proof (R_heap _ _ _ (I_repr _ _ _ HI)).
        pose proof (R_end _ _ _ (I_repr _ _ _ HI)).
        pose proof (chain_le _ _ _ (R_size _ _ _ (I_repr _ _ _ HI))
                      (R_chain _ _ _ (I_repr _ _ _ HI))). lia. }
      replace (r' + HSIZE - HSIZE) with r' by lia.
      eexists _, Ls', (if decide (total - asize < HSIZE + FSIZE) then total else asize).
      split; [exact HI'|]. split_and!.
      * apply elem_of_middle. left. case_decide; by left.
      * case_decide; lia.
      * intros x Hx Hin. apply elem_of_middle. right.
        apply (Hal x Hx) in Hin. done.
      * destruct Hsame as (-> & _). done.
      * destruct Hsame as (_ & _ & _ & ->). done.
    + (* the host refuses *)
      rewrite (extend_heap_fail ext s0 Hfail). cbn [mbind option_bind].
      rewrite decide_True by done.
      exists NULL, (malloc_failed s). split; [done|]. left.
      split; [done|]. split; [done|]. split.
      * change (alloc_size n) with asize.
        rewrite (Hff s) by (by repeat split). by rewrite Hr0.
      * exists ext. split; [done|].
        apply mem_sbrk_fails; [apply HI| |done].
        pose proof (R_brk _ _ _ (I_repr _ _ _ HI)).
        pose proof (R_heap _ _ _ (I_repr _ _ _ HI)).
        pose proof (R_end _ _ _ (I_repr _ _ _ HI)).
        pose proof (chain_le _ _ _ (R_size _ _ _ (I_repr _ _ _ HI))
                      (R_chain _ _ _ (I_repr _ _ _ HI))). lia.
Qed.

(** * mm_init *)

(** The state in which [mm_init] tests the first byte of the new chunk. *)
Lemma mm_init_test s0 :
  mem_brk s0 + alloc_size CHUNKSIZE ≤ mem_max_addr s0 →
  load_char (mem s0) (mem_brk s0) = -1 →
  ∃ s, mm_init s0 = Some (false, s).
Proof.
  intros Hok Hff. unfold mm_init, mem_sbrk. st_simpl. unfold init_classes.
  st_simpl. rewrite decide_True by done. st_simpl.
  unfold read_char. st_simpl.
  rewrite decide_True by (rewrite alloc_size_CHUNKSIZE; lia).
  cbn [mbind option_bind]. rewrite decide_True by done. eauto.
Qed.

Lemma mm_init_correct s0 :
  host_ok s0 → load_char (mem s0) (mem_brk s0) ≠ -1 →
  ∃ s Ls,
    mm_init s0 = Some (true, s) ∧
    Inv s [(mem_brk s0, alloc_size CHUNKSIZE, true)] Ls ∧
    heap s = mem_brk s0 ∧ mem_max_addr s = mem_max_addr s0.
Proof.
  intros (Hpos & Hfit & Hmax) Hff.
  unfold mm_init, mem_sbrk. st_simpl. unfold init_classes. st_simpl.
  rewrite decide_True by done. st_simpl.
  unfold read_char. st_simpl.
  rewrite decide_True by (rewrite alloc_size_CHUNKSIZE; lia).
  cbn [mbind option_bind]. rewrite decide_False by done.
  rewrite alloc_size_CHUNKSIZE in *.
  set (h := mem_brk s0) in *.
  set (sC := set_heap h
               (set_end (h + 2096)
                  (set_heap_brk h
                     (set_mem_brk (h + 2096)
                        (set_heap_brk NULL
                           (set_end NULL
                              (set_extends 0
                                 (set_mallocs 0
                                    (set_frees 0
                                       (set_flp_list
                                          (replicate (Z.to_nat CLASSNUM) NULL)
                                          s0)))))))))).
  destruct (retag_mem h 2096 true sC) as (Ht & Hout & Heq); [lia|done|].
  remember (set_free h true (set_size h 2096 sC)) as s3 eqn:E3.
  set (s5 := put_prev h NULL (put_next h NULL s3)).
  set (Ls0 := replicate (Z.to_nat CLASSNUM) ([] : list Z)).
  assert (HR5 : Repr s5 [(h, 2096, true)] Ls0).
  { unfold s5. rewrite Heq. unfold sC. constructor; st_simpl; try done; try lia.
    - by repeat constructor.
    - constructor; [|done]. destruct Ht as (T1 & T2 & T3 & T4).
      unfold tags_ok in *. cbn [blk_addr blk_size blk_freed fst snd] in *.
      mem_simp. done.
    - unfold Ls0, CLASSNUM. simpl. by repeat constructor.
    - unfold Ls0, CLASSNUM. simpl. repeat constructor.
    - intros k L b Hk Hb. unfold Ls0 in Hk.
      apply lookup_replicate in Hk as [-> _]. by apply elem_of_nil in Hb. }
  destruct (Repr_add_members s5 _ Ls0 h 2096 HR5)
    as (s & Ls & Hadd & HR & Hsame & _ & Hmem).
  { by left. }
  { clia. }
  { intros k (L & Hk & Hb). unfold Ls0 in Hk.
    apply lookup_replicate in Hk as [-> _]. by apply elem_of_nil in Hb. }
  exists s, Ls.
  assert (Hh3 : heap s3 = h) by (rewrite Heq; reflexivity).
  split_and!.
  - change (heap (set_size h 2096 sC)) with h. rewrite <- E3, !Hh3.
    fold s5. rewrite Hadd. done.
  - constructor; [done| | |by repeat constructor|done].
    + intros b sz [= -> ->]%list_elem_of_singleton.
      exists 6%nat. split; [done|]. apply Hmem. by right.
    + intros x y ->%list_elem_of_singleton ->%list_elem_of_singleton Ha.
      cbn [blk_addr blk_size fst snd] in Ha. lia.
  - destruct Hsame as (-> & _). unfold s5. rewrite Heq. reflexivity.
  - destruct Hsame as (_ & _ & _ & ->). unfold s5. rewrite Heq. reflexivity.
Qed.

(** * The heap walk reads the abstract heap *)

Lemma heap_walk_spec s H1 H2 Ls a :
  Repr s (H1 ++ H2) Ls → chain (heap s) H1 a → H2 ≠ [] →
  heap_walk (length H2) s a = H2.
Proof.
  revert H1 a. induction H2 as [|x H2 IH]; intros H1 a HR Hc1 Hne; [done|].
  destruct (Repr_chain_mid _ _ _ _ _ HR) as [Hc1' Hc2].
  assert (blk_addr x = a) as Hax by (by eapply chain_det).
  assert (Hx : x ∈ H1 ++ x :: H2) by (apply elem_of_app; right; left).
  destruct (Repr_addr_range _ _ _ _ HR Hx) as (? & _).
  destruct x as [[b sz] f]. cbn [blk_addr blk_size fst snd] in *. subst b.
  destruct (Repr_tags _ _ _ _ _ _ HR Hx) as (Hsz & Hfr & _).
  destruct (Repr_next_blk _ _ _ _ _ HR) as [Hn Hn'].
  cbn [blk_addr blk_size fst snd] in *.
  cbn [length heap_walk]. rewrite decide_False by clia.
  rewrite Hsz, Hfr, Hn. f_equal.
  destruct H2 as [|y H2]; [done|].
  cbn [head fmap option_fmap option_map from_option id] in Hn' |- *.
  rewrite (IH (H1 ++ [(a, sz, f)])); [done| |  |done].
  - by rewrite <- app_assoc.
  - apply chain_app. exists a. split; [done|]. simpl. split; [done|].
    cbn [blk_size fst snd]. lia.
Qed.

Lemma Inv_heap_walk s H Ls :
  Inv s H Ls → heap_walk (length H) s (heap s) = H.
Proof.
  intros HI. apply (heap_walk_spec s [] H Ls); [apply HI|done|apply HI].
Qed.

(** * The count of the checker *)

Lemma get_count_loop_spec fuel s h p L c :
  dseg (mem s) h p L NULL → (length L < fuel)%nat →
  get_count_loop fuel s h (int c) = Some (int (c + Z.of_nat (length L))).
Proof.
  revert h p fuel c. induction L as [|x L IH]; intros h p fuel c Hd Hf.
  - simpl in Hd. subst h. destruct fuel; [simpl in Hf; lia|].
    cbn [get_count_loop]. rewrite decide_False by (by intros Hn; apply Hn).
    simpl. by rewrite Z.add_0_r.
  - destruct fuel; [simpl in Hf; lia|]. simpl in Hd, Hf.
    destruct Hd as (-> & Hn & _ & Hd).
    cbn [get_count_loop]. rewrite decide_True by done.
    unfold get_next. rewrite int_add_l.
    rewrite (IH _ _ _ (c + 1) Hd) by lia. do 2 f_equal.
    cbn [length]. lia.
Qed.

Lemma get_FL_count_from_spec n fuel s Ls class c :
  Forall2 (λ h L, dseg (mem s) h NULL L NULL) (flp_list s) Ls →
  enough_fuel fuel Ls → 0 ≤ class →
  class + Z.of_nat n = Z.of_nat (length Ls) →
  get_FL_count_from n fuel s class (int c) =
  Some (int (c + Z.of_nat (length (concat (drop (Z.to_nat class) Ls))))).
Proof.
  intros HL Hfuel. revert class c.
  induction n as [|n IH]; intros class c Hc Hn.
  - rewrite drop_ge by lia. simpl. by rewrite Z.add_0_r.
  - cbn [get_FL_count_from]. unfold get_count, flp_get.
    rewrite decide_True by done.
    pose proof (Forall2_length _ _ _ HL) as Hlen.
    destruct (lookup_lt_is_Some_2 (flp_list s) (Z.to_nat class)) as [h Hh]; [lia|].
    destruct (Forall2_lookup_l _ _ _ _ _ HL Hh) as (L & HLk & Hd).
    rewrite Hh. cbn [mbind option_bind].
    change 0 with (int 0) at 1.
    rewrite (get_count_loop_spec fuel s h NULL L 0 Hd).
    2: { unfold enough_fuel in Hfuel. rewrite Forall_lookup in Hfuel.
         by eapply Hfuel. }
    cbn [mbind option_bind]. rewrite int_add_l, int_add_r.
    rewrite IH by lia.
    replace (Z.to_nat (class + 1)) with (S (Z.to_nat class)) by lia.
    rewrite (drop_S _ _ _ HLk). cbn [concat]. rewrite length_app.
    do 2 f_equal. lia.
Qed.

Lemma get_FL_count_spec fuel s H Ls :
  Repr s H Ls → enough_fuel fuel Ls → get_FL_count fuel s = Some (frees s).
Proof.
  intros HR Hfuel. unfold get_FL_count. change 0 with (int 0) at 2.
  rewrite (get_FL_count_from_spec _ fuel s Ls 0 0); [|apply HR|done|done|].
  - rewrite (R_frees _ _ _ HR). done.
  - rewrite (Repr_Ls_length _ _ _ HR). done.
Qed.

(** * Fuel *)

Lemma enough_fuel_exists (Ls : list (list Z)) : ∃ fuel, enough_fuel fuel Ls.
Proof.
  induction Ls as [|L Ls [fuel IH]].
  - exists O. constructor.
  - exists (S (length L) + fuel)%nat. constructor; [lia|].
    eapply Forall_impl; [done|]. simpl. intros. lia.
Qed.

Lemma enough_fuel_mono fuel fuel' Ls :
  (fuel ≤ fuel')%nat → enough_fuel fuel Ls → enough_fuel fuel' Ls.
Proof.
  intros ? Hf. eapply Forall_impl; [done|]. simpl. intros. lia.
Qed.

Lemma find_fit_in_mono fuel fuel' s h asize r :
  (fuel ≤ fuel')%nat →
  find_fit_in fuel s h asize = Some r → find_fit_in fuel' s h asize = Some r.
Proof.
  revert fuel' h. induction fuel as [|fuel IH]; intros fuel' h Hle; [done|].
  destruct fuel' as [|fuel']; [lia|]. cbn [find_fit_in].
  repeat case_decide; try done. apply IH. lia.
Qed.

Lemma find_fit_from_mono n fuel fuel' s class asize r :
  (fuel ≤ fuel')%nat →
  find_fit_from n fuel s class asize = Some r →
  find_fit_from n fuel' s class asize = Some r.
Proof.
  intros Hle. revert class. induction n as [|n IH]; intros class; [done|].
  cbn [find_fit_from]. destruct (flp_get s class) as [h|]; [|done].
  cbn [mbind option_bind].
  destruct (find_fit_in fuel s h asize) as [r0|] eqn:E; [|done].
  rewrite (find_fit_in_mono _ _ _ _ _ _ Hle E). cbn [mbind option_bind].
  case_decide; [done|]. apply IH.
Qed.

Lemma find_fit_seg_mono fuel fuel' asize s r :
  (fuel ≤ fuel')%nat →
  find_fit_seg fuel asize s = Some r → find_fit_seg fuel' asize s = Some r.
Proof.
  intros Hle. unfold find_fit_seg. destruct (map_to_class asize); [|done].
  cbn [mbind option_bind]. by apply find_fit_from_mono.
Qed.

Lemma malloc_mono fuel fuel' n s res :
  (fuel ≤ fuel')%nat →
  malloc fuel n s = Some res → malloc fuel' n s = Some res.
Proof.
  intros Hle. unfold malloc. case_decide; [done|].
  destruct (find_fit_seg fuel _ _) as [r|] eqn:E; [|done].
  by rewrite (find_fit_seg_mono _ _ _ _ _ Hle E).
Qed.

(** * Every public operation preserves the invariant *)

Lemma Inv_payload_write s H Ls b sz m' :
  Inv s H Ls → (b, sz, false) ∈ H →
  (∀ x, ¬ (b + HSIZE ≤ x < b + sz - FSIZE) → m' x = mem s x) →
  Inv (set_mem m' s) H Ls.
Proof.
  intros HI Hin Hout. pose proof (I_repr _ _ _ HI) as HR.
  pose proof (Inv_not_member _ _ _ _ _ HI Hin) as Hnot.
  pose proof (R_tags _ _ _ HR) as Ht. rewrite Forall_forall in Ht.
  pose proof (R_size _ _ _ HR) as Hsz. rewrite Forall_forall in Hsz.
  pose proof (I_min _ _ _ HI) as Hmin. rewrite Forall_forall in Hmin.
  specialize (Ht _ Hin). specialize (Hsz _ Hin). specialize (Hmin _ Hin).
  cbn [blk_size fst snd] in Hmin.
  apply list_elem_of_split in Hin as (H1 & H2 & ->).
  destruct (Repr_chain_mid _ _ _ _ _ HR) as [Hc1 Hc2].
  cbn [blk_addr blk_size fst snd] in *.
  destruct HI as [_ Hall Hadj Hmin' Hne].
  constructor; try done.
  apply (Repr_replace s m' H1 [(b, sz, false)] [(b, sz, false)] H2 Ls b (b + sz));
    try done.
  - by constructor.
  - constructor; [|done]. destruct Ht as (T1 & T2 & T3 & T4).
    unfold tags_ok in *. cbn [blk_addr blk_size blk_freed fst snd] in *.
    rewrite (load64_ext (mem s) m'), (load_bool_ext (mem s) m'),
      (load64_ext (mem s) m'), (load_bool_ext (mem s) m'); [done|..];
      intros; apply Hout; clia.
  - intros x Hx. apply Hout. clia.
  - intros x L ->%list_elem_of_singleton [k Hk]%list_elem_of_lookup Hx.
    apply (Hnot k). by exists L.
Qed.

Lemma alloc_ok_filter A H H' p :
  alloc_ok A H →
  (∀ b sz, (b, sz, false) ∈ H → b ≠ p - HSIZE → (b, sz, false) ∈ H') →
  alloc_ok (filter (λ q, q ≠ p) A) H'.
Proof.
  intros HA Hsub q [Hq Hin]%list_elem_of_filter.
  destruct (HA q Hin) as (sz & Hb). exists sz. apply Hsub; [done|lia].
Qed.

Lemma malloc_preserves s H Ls A fuel n p s' :
  Inv s H Ls → alloc_ok A H → 0 ≤ n → n + 63 < 2 ^ 64 →
  malloc fuel n s = Some (p, s') →
  ∃ H' Ls',
    Inv s' H' Ls' ∧ alloc_ok (if decide (p = NULL) then A else p :: A) H' ∧
    (∀ x, blk_freed x = false → x ∈ H → x ∈ H') ∧
    (p ≠ NULL → ∃ sz, (p - HSIZE, sz, false) ∈ H' ∧ alloc_size n ≤ sz).
Proof.
  intros HI HA Hn0 Hnmax Hm.
  destruct (decide (n = 0)) as [->|Hn].
  - unfold malloc in Hm. rewrite decide_True in Hm by done.
    injection Hm as <- <-. exists H, Ls. rewrite decide_True by done.
    split_and!; [|done|done|done].
    by apply (Inv_core s), HI; repeat split.
  - destruct (enough_fuel_exists Ls) as [fuel0 Hf0].
    pose proof (malloc_mono fuel (fuel `max` fuel0)%nat n s _ ltac:(lia) Hm) as Hm'.
    destruct (malloc_correct s H Ls (fuel `max` fuel0)%nat n HI)
      as (p' & s'' & Hm'' & Hcase); [lia|done| |].
    { eapply enough_fuel_mono; [|done]. lia. }
    rewrite Hm' in Hm''. injection Hm'' as <- <-.
    destruct Hcase as [(-> & -> & _)|(Hp & _ & H' & Ls' & sz & HI' & Hin & Hsz & Hal & _)].
    + exists H, Ls. rewrite decide_True by done. split_and!; [|done|done|done].
      by apply (Inv_core s), HI; repeat split.
    + exists H', Ls'. rewrite decide_False by done. split_and!; [done| |done|eauto].
      intros q [->|Hq]%elem_of_cons; [eauto|].
      destruct (HA q Hq) as (sz' & Hq'). exists sz'. by apply Hal.
Qed.

Lemma free_preserves s H Ls A p s' :
  Inv s H Ls → alloc_ok A H → p = NULL ∨ p ∈ A →
  free p s = Some s' →
  ∃ H' Ls', Inv s' H' Ls' ∧ alloc_ok (filter (λ q, q ≠ p) A) H'.
Proof.
  intros HI HA [->|Hp] Hf.
  - unfold free in Hf. rewrite decide_True in Hf by done. injection Hf as <-.
    exists H, Ls. split; [done|]. apply (alloc_ok_filter A H); [done|auto].
  - destruct (HA p Hp) as (sz & Hin).
    destruct (free_correct s H Ls p sz HI Hin)
      as (H1 & H2 & s'' & Ls' & H1' & r & total & H2' & -> & _ & Hf' & HI' & _ & _ & Hal).
    rewrite Hf in Hf'. injection Hf' as <-.
    exists (H1' ++ (r, total, true) :: H2'), Ls'. split; [done|].
    apply (alloc_ok_filter A (H1 ++ (p - HSIZE, sz, false) :: H2)); [done|].
    intros b sz' Hb Hne.
    assert (Hb' : (b, sz', false) ∈ H1 ++ H2).
    { rewrite !elem_of_app, elem_of_cons in Hb. rewrite elem_of_app.
      destruct Hb as [?|[[= -> _]|?]]; [by left|done|by right]. }
    apply (Hal (b, sz', false)) in Hb'; [|done].
    rewrite !elem_of_app, elem_of_cons. rewrite elem_of_app in Hb'. tauto.
Qed.

Lemma write_preserves s H Ls A p m' :
  Inv s H Ls → alloc_ok A H → p ∈ A →
  (∀ x, ¬ (p ≤ x < p + payload_size s p) → m' x = mem s x) →
  Inv (set_mem m' s) H Ls.
Proof.
  intros HI HA Hp Hout. destruct (HA p Hp) as (sz & Hin).
  apply (Inv_payload_write s H Ls (p - HSIZE) sz); [done|done|].
  intros x Hx. apply Hout. unfold payload_size.
  destruct (Repr_tags _ _ _ _ _ _ (I_repr _ _ _ HI) Hin) as (-> & _). clia.
Qed.

Lemma calloc_preserves s H Ls A fuel nmemb size p s' :
  Inv s H Ls → alloc_ok A H → size_t (size * nmemb) + 63 < 2 ^ 64 →
  calloc fuel nmemb size s = Some (p, s') →
  ∃ H' Ls',
    Inv s' H' Ls' ∧ alloc_ok (if decide (p = NULL) then A else p :: A) H'.
Proof.
  intros HI HA Hn Hc. unfold calloc in Hc.
  pose proof (size_t_range (size * nmemb)) as Hr.
  set (n := size_t (size * nmemb)) in *.
  destruct (malloc fuel n s) as [[ptr s1]|] eqn:Hm; [|done].
  cbn [mbind option_bind] in Hc.
  destruct (malloc_preserves s H Ls A fuel n ptr s1 HI HA) as
    (H' & Ls' & HI' & HA' & _ & Hnew); [lia|done|done|].
  exists H', Ls'. destruct (decide (ptr ≠ NULL)) as [Hptr|Hptr];
    injection Hc as <- <-.
  - rewrite decide_False in * by done. split; [|done].
    destruct (Hnew Hptr) as (sz & Hin & Hsz).
    apply (Inv_payload_write s1 H' Ls' (ptr - HSIZE) sz); [done|done|].
    intros x Hx. apply memset_other.
    destruct (alloc_size_bounds n) as [? _]; [lia|lia|]. clia.
  - assert (ptr = NULL) as -> by (by destruct (decide (ptr = NULL)); [|destruct Hptr]).
    rewrite decide_True in * by done. done.
Qed.

(** The moving part of [realloc]: allocate, copy, free the old block. *)
Lemma realloc_move s H Ls A fuel oldptr size len newptr s' :
  Inv s H Ls → alloc_ok A H → oldptr ∈ A →
  0 < size → size + 63 < 2 ^ 64 → len ≤ alloc_size size - HSIZE - FSIZE →
  ('(np, s1) ← malloc fuel size s;
   if decide (np = NULL) then Some (NULL, s1)
   else
     let s1 := set_mem (memcpy (mem s1) np oldptr len) s1 in
     s2 ← free oldptr s1; Some (np, s2)) = Some (newptr, s') →
  ∃ H' Ls',
    Inv s' H' Ls' ∧
    alloc_ok (if decide (newptr = NULL) then A
              else filter (λ q, q ≠ oldptr) (newptr :: A)) H'.
Proof.
  intros HI HA Hold Hsz Hmax Hlen Hrun.
  destruct (malloc fuel size s) as [[np s1]|] eqn:Hm; [|done].
  cbn [mbind option_bind] in Hrun.
  destruct (malloc_preserves s H Ls A fuel size np s1 HI HA) as
    (H1 & Ls1 & HI1 & HA1 & _ & Hnew); [lia|done|done|].
  destruct (decide (np = NULL)) as [->|Hnp].
  - injection Hrun as <- <-. exists H1, Ls1. rewrite decide_True by done.
    done.
  - destruct (Hnew Hnp) as (sz & Hin & Hsz').
    cbv zeta in Hrun.
    set (s1' := set_mem (memcpy (mem s1) np oldptr len) s1) in *.
    assert (HI1' : Inv s1' H1 Ls1).
    { apply (Inv_payload_write s1 H1 Ls1 (np - HSIZE) sz); [done|done|].
      intros x Hx. apply memcpy_other. clia. }
    destruct (free oldptr s1') as [s2|] eqn:Hf; [|done].
    cbn [mbind option_bind] in Hrun. injection Hrun as <- <-.
    rewrite decide_False by done.
    eapply (free_preserves s1' H1 Ls1 (np :: A)); [done|done| |done].
    right. by right.
Qed.

Lemma realloc_preserves s H Ls A fuel oldptr size newptr s' :
  Inv s H Ls → alloc_ok A H → oldptr = NULL ∨ oldptr ∈ A →
  0 ≤ size → size + 63 < 2 ^ 64 →
  realloc fuel oldptr size s = Some (newptr, s') →
  ∃ H' Ls', Inv s' H' Ls' ∧ alloc_ok (realloc_live s A oldptr size newptr) H'.
Proof.
  intros HI HA Hold Hsz Hmax Hr. unfold realloc in Hr. unfold realloc_live.
  destruct (decide (int size < 0)); [injection Hr as <- <-; eauto|].
  destruct (decide (size = 0)) as [->|Hn0].
  { destruct (free oldptr s) as [s1|] eqn:Hf; [|done].
    cbn [mbind option_bind] in Hr. injection Hr as <- <-.
    by eapply free_preserves. }
  destruct (decide (oldptr = NULL)) as [->|Hnn].
  { destruct (malloc_preserves s H Ls A fuel size newptr s' HI HA)
      as (H' & Ls' & ? & ? & _); [done..|]. eauto. }
  destruct Hold as [?|Hold]; [done|].
  destruct (HA oldptr Hold) as (osz & Hin).
  destruct (Repr_tags _ _ _ _ _ _ (I_repr _ _ _ HI) Hin) as (Hosz & _).
  pose proof (I_min _ _ _ HI) as Hmin. rewrite Forall_forall in Hmin.
  specialize (Hmin _ Hin). cbn [blk_size fst snd] in Hmin.
  destruct (Repr_addr_range _ _ _ _ (I_repr _ _ _ HI) Hin) as (? & ? & _).
  cbn [blk_addr blk_size fst snd] in *.
  rewrite Hosz in *.
  destruct (alloc_size_bounds size) as [Has _]; [lia|lia|].
  destruct (decide (alloc_size size = osz)); [injection Hr as <- <-; eauto|].
  destruct (decide (alloc_size size < osz)).
  - apply (realloc_move s H Ls A fuel oldptr size
             (size_t (size_t (alloc_size size - HSIZE) - FSIZE)) newptr s');
      [done|done|done|lia|done| |exact Hr].
    rewrite (size_t_small (alloc_size size - HSIZE)) by clia.
    rewrite size_t_small by clia. lia.
  - apply (realloc_move s H Ls A fuel oldptr size
             (size_t (size_t (osz - HSIZE) - FSIZE)) newptr s');
      [done|done|done|lia|done| |exact Hr].
    rewrite (size_t_small (osz - HSIZE)) by clia.
    rewrite size_t_small by clia. lia.
Qed.

(** * The invariant holds in every reachable state *)

Lemma reachable_Inv s A :
  reachable s A → ∃ H Ls, Inv s H Ls ∧ alloc_ok A H.
Proof.
  induction 1 as [s0 s Hhost Hinit
                 |s A fuel n p s' _ (H & Ls & HI & HA) Hn Hmax Hm
                 |s A p s' _ (H & Ls & HI & HA) Hp Hf
                 |s A fuel nmemb size p s' _ (H & Ls & HI & HA) Hmax Hc
                 |s A fuel oldptr size newptr s' _ (H & Ls & HI & HA) Hold Hsz Hmax Hr
                 |s A p m' _ (H & Ls & HI & HA) Hp Hout].
  - destruct (decide (load_char (mem s0) (mem_brk s0) = -1)) as [Hff|Hff].
    + destruct (mm_init_test s0) as (s1 & Hi); [apply Hhost|done|]. congruence.
    + destruct (mm_init_correct s0 Hhost Hff) as (s1 & Ls & Hi & HI & _).
      rewrite Hinit in Hi. injection Hi as <-.
      eexists _, Ls. split; [done|]. by intros q ?%elem_of_nil.
  - destruct (malloc_preserves s H Ls A fuel n p s' HI HA)
      as (H' & Ls' & ? & ? & _); eauto.
  - destruct (free_preserves s H Ls A p s' HI HA) as (H' & Ls' & ? & ?); eauto.
  - destruct (calloc_preserves s H Ls A fuel nmemb size p s' HI HA)
      as (H' & Ls' & ? & ?); eauto.
  - destruct (realloc_preserves s H Ls A fuel oldptr size newptr s' HI HA)
      as (H' & Ls' & ? & ?); eauto.
  - exists H, Ls. split; [|done]. by eapply write_preserves.
Qed.

(** * The example states *)

Lemma host0_ok : host_ok host0.
Proof.
  unfold host_ok. rewrite alloc_size_CHUNKSIZE. unfold host0. st_simpl. lia.
Qed.

Lemma st_init_eq : mm_init host0 = Some (true, st_init).
Proof.
  destruct (mm_init_correct host0) as (s & Ls & E & _).
  - exact host0_ok.
  - vm_compute. discriminate.
  - unfold st_init. rewrite E. reflexivity.
Qed.

Lemma st_init_reachable : reachable st_init [].
Proof. exact (reach_init host0 st_init host0_ok st_init_eq). Qed.

Lemma st_m_eq : malloc 8 100 st_init = Some (4128, st_m).
Proof.
  assert (fst <$> malloc 8 100 st_init = Some 4128) as E
    by (vm_compute; reflexivity).
  unfold st_m. destruct (malloc 8 100 st_init) as [[p s']|]; [|discriminate].
  injection E as ->. reflexivity.
Qed.

Lemma st_m_reachable : reachable st_m [4128].
Proof.
  exact (reach_malloc st_init [] 8 100 4128 st_m st_init_reachable
           ltac:(lia) ltac:(lia) st_m_eq).
Qed.

(** * The run of blocks a coalescing merges *)

Lemma coalesce_spec_run H1 c cs H2 H1' r total f H2' :
  coalesce_spec H1 c cs H2 = (H1', (r, total, f), H2') →
  ∃ M x0,
    H1 ++ (c, cs, true) :: H2 = H1' ++ M ++ H2' ∧
    (c, cs, true) ∈ M ∧ Forall (λ x, blk_freed x = true) M ∧
    head M = Some x0 ∧ blk_addr x0 = r ∧
    total = total_size M.
Proof.
  unfold coalesce_spec.
  destruct H1 as [|p H1 _] using rev_ind; destruct H2 as [|n H2].
  - cbn. intros [= <- <- <- <- <-]. exists [(c, cs, true)], (c, cs, true).
    split_and!; try done.
    + apply elem_of_cons; by left.
    + by repeat constructor.
    + unfold total_size, blk_size; cbn; lia.
  - cbn [last head default negb andb]. destruct (blk_freed n) eqn:Fn; cbn.
    + intros [= <- <- <- <- <-]. exists [(c, cs, true); n], (c, cs, true).
      split_and!; try done.
      * apply elem_of_cons; by left.
      * by repeat constructor.
      * unfold total_size, blk_size; cbn; lia.
    + intros [= <- <- <- <- <-]. exists [(c, cs, true)], (c, cs, true).
      split_and!; try done.
      * apply elem_of_cons; by left.
      * by repeat constructor.
      * unfold total_size, blk_size; cbn; lia.
  - rewrite last_snoc. cbn [head default negb andb].
    rewrite removelast_last. destruct (blk_freed p) eqn:Fp; cbn.
    + intros [= <- <- <- <- <-]. exists [p; (c, cs, true)], p.
      split_and!; try done.
      * by rewrite <- app_assoc.
      * apply elem_of_cons; right; apply elem_of_cons; by left.
      * by repeat constructor.
      * unfold total_size, blk_size; cbn; lia.
    + intros [= <- <- <- <- <-]. exists [(c, cs, true)], (c, cs, true).
      split_and!; try done.
      * apply elem_of_cons; by left.
      * by repeat constructor.
      * unfold total_size, blk_size; cbn; lia.
  - rewrite last_snoc. cbn [head default negb andb tail].
    rewrite removelast_last.
    destruct (blk_freed p) eqn:Fp; destruct (blk_freed n) eqn:Fn; cbn.
    + intros [= <- <- <- <- <-]. exists [p; (c, cs, true); n], p.
      split_and!; try done.
      * by rewrite <- app_assoc.
      * apply elem_of_cons; right; apply elem_of_cons; by left.
      * by repeat constructor.
      * unfold total_size, blk_size; cbn; lia.
    + intros [= <- <- <- <- <-]. exists [p; (c, cs, true)], p.
      split_and!; try done.
      * by rewrite <- app_assoc.
      * apply elem_of_cons; right; apply elem_of_cons; by left.
      * by repeat constructor.
      * unfold total_size, blk_size; cbn; lia.
    + intros [= <- <- <- <- <-]. exists [(c, cs, true); n], (c, cs, true).
      split_and!; try done.
      * apply elem_of_cons; by left.
      * by repeat constructor.
      * unfold total_size, blk_size; cbn; lia.
    + intros [= <- <- <- <- <-]. exists [(c, cs, true)], (c, cs, true).
      split_and!; try done.
      * apply elem_of_cons; by left.
      * by repeat constructor.
      * unfold total_size, blk_size; cbn; lia.
Qed.

(** * Counting the members of the index *)

Lemma NoDup_concat_idx (Ls : list (list Z)) :
  Forall NoDup Ls →
  (∀ (i j : nat) Li Lj x,
     Ls !! i = Some Li → Ls !! j = Some Lj → x ∈ Li → x ∈ Lj → i = j) →
  NoDup (concat Ls).
Proof.
  induction Ls as [|L Ls IH]; intros Hnd Hinj; cbn; [constructor|].
  apply Forall_cons in Hnd as [HL Hnd].
  apply NoDup_app. split_and!; [done| |].
  - intros x Hx [l [Hl Hin]]%elem_of_concat.
    apply list_elem_of_lookup in Hin as [j Hj].
    specialize (Hinj O (S j) L l x eq_refl Hj Hx Hl). discriminate.
  - apply IH; [done|]. intros i j Li Lj x Hi Hj Hxi Hxj.
    specialize (Hinj (S i) (S j) Li Lj x Hi Hj Hxi Hxj). lia.
Qed.

Lemma chain_length_bound a H e :
  chain a H e → Forall (λ x, MINCLASSSIZE ≤ blk_size x) H →
  MINCLASSSIZE * Z.of_nat (length H) ≤ e - a.
Proof.
  revert a. induction H as [|x H IH]; intros a Hc Hm; cbn in Hc.
  - subst. cbn. lia.
  - destruct Hc as [<- Hc]. apply Forall_cons in Hm as [Hx Hm].
    specialize (IH _ Hc Hm). cbn [length]. unfold MINCLASSSIZE in *. lia.
Qed.

Lemma index_count_bound s H Ls :
  Inv s H Ls →
  MINCLASSSIZE * Z.of_nat (length (concat Ls)) ≤ mem_brk s - heap s.
Proof.
  intros I. pose proof (I_repr _ _ _ I) as R.
  assert (NoDup (concat Ls)) as Hnd.
  { apply NoDup_concat_idx; [exact (R_nodup _ _ _ R)|].
    intros i j Li Lj x Hi Hj Hxi Hxj.
    exact (Repr_bucket_inj s H Ls i j Li Lj x R Hi Hj Hxi Hxj). }
  assert (concat Ls ⊆+ blk_addr <$> H) as Hsub.
  { apply NoDup_submseteq; [done|]. intros x [l [Hl Hin]]%elem_of_concat.
    apply list_elem_of_lookup in Hin as [k Hk].
    destruct (R_idx _ _ _ R k l x Hk Hl) as (sz & Hsz & _).
    apply list_elem_of_fmap. by exists (x, sz, true). }
  apply submseteq_length in Hsub. rewrite length_fmap in Hsub.
  pose proof (chain_length_bound _ _ _ (R_chain _ _ _ R) (I_min _ _ _ I)).
  rewrite <- (R_end _ _ _ R). unfold MINCLASSSIZE in *. lia.
Qed.

(** * Fuel *)

Lemma extension_fails_mono fuel fuel' n s :
  (fuel ≤ fuel')%nat → extension_fails fuel n s → extension_fails fuel' n s.
Proof.
  intros Hle [Hf Hext]. split; [|done].
  by apply (find_fit_seg_mono fuel fuel').
Qed.

Lemma max_Zmax a b : max a b = Z.max a b.
Proof. unfold max. case_decide; lia. Qed.

(** * Free blocks and members of the index *)

Lemma Inv_free_member s H Ls b sz :
  Inv s H Ls → (b, sz, true) ∈ H →
  ∃ k : nat, members Ls k b ∧ map_to_class sz = Some (Z.of_nat k) ∧
             get_size s b = sz.
Proof.
  intros I Hb. destruct (I_all _ _ _ I b sz Hb) as (k & Hk & Hm).
  exists k. split_and!; [done|done|].
  by destruct (Repr_tags s H Ls b sz true (I_repr _ _ _ I) Hb).
Qed.

Lemma Repr_member_free s H Ls (k : nat) b :
  Repr s H Ls → members Ls k b →
  ∃ sz, (b, sz, true) ∈ H ∧ MINCLASSSIZE ≤ sz ∧
        map_to_class sz = Some (Z.of_nat k) ∧ get_size s b = sz.
Proof.
  intros R (L & HL & Hb).
  destruct (R_idx _ _ _ R k L b HL Hb) as (sz & Hsz & Hmin & Hc).
  exists sz. split_and!; try done.
  by destruct (Repr_tags s H Ls b sz true R Hsz).
Qed.

(** * Initialisation *)

Lemma mm_init_first_byte s0 :
  mem_brk s0 + alloc_size CHUNKSIZE ≤ mem_max_addr s0 →
  load_char (mem s0) (mem_brk s0) = -1 →
  ∃ s, mm_init s0 = Some (false, s) ∧
       mem_brk s = mem_brk s0 + alloc_size CHUNKSIZE.
Proof.
  intros Hok Hff. unfold mm_init, mem_sbrk. st_simpl. unfold init_classes.
  st_simpl. rewrite decide_True by done. st_simpl.
  unfold read_char. st_simpl.
  rewrite decide_True by (rewrite alloc_size_CHUNKSIZE; lia).
  cbn [mbind option_bind]. rewrite decide_True by done. eexists. split; [reflexivity|]. reflexivity.
Qed.

(** * Searches that miss *)

Lemma extension_fails_enough s H Ls fuel fuel1 n :
  Repr s H Ls → 32 ≤ alloc_size n < 2 ^ 64 → enough_fuel fuel Ls →
  extension_fails fuel1 n s → extension_fails fuel n s.
Proof.
  intros R Ha Hf [Hmiss Hext]. split; [|done].
  rewrite (find_fit_seg_spec fuel s H Ls _ R Ha Hf). f_equal.
  apply (find_fit_seg_mono fuel1 (Nat.max fuel1 fuel)) in Hmiss; [|lia].
  rewrite (find_fit_seg_spec _ s H Ls _ R Ha) in Hmiss.
  - by injection Hmiss.
  - apply (enough_fuel_mono fuel); [lia|done].
Qed.

Lemma same_core_malloc_failed s : same_core s (malloc_failed s).
Proof. unfold same_core, malloc_failed. by split_and!. Qed.

Lemma find_fit_seg_result s H Ls fuel asize r :
  Repr s H Ls → 32 ≤ asize < 2 ^ 64 →
  find_fit_seg fuel asize s = Some r → r = find_fit_spec s Ls asize.
Proof.
  intros R Ha E. destruct (enough_fuel_exists Ls) as [fuel0 Hf0].
  apply (find_fit_seg_mono fuel (Nat.max fuel fuel0)) in E; [|lia].
  rewrite (find_fit_seg_spec _ s H Ls asize R Ha) in E.
  - by injection E.
  - apply (enough_fuel_mono fuel0); [lia|done].
Qed.

(** * The coalescer at the end of the heap *)

Lemma coalesce_spec_tail H0 t tsz e ext :
  coalesce_spec (H0 ++ [(t, tsz, true)]) e ext []
  = (H0, (t, tsz + ext, true), []).
Proof.
  unfold coalesce_spec. rewrite last_snoc. cbn. by rewrite removelast_last.
Qed.

(** * The heap checker accepts every state that satisfies the invariant *)

Lemma member_checks s H Ls (k : nat) x :
  Repr s H Ls → members Ls k x →
  check_free_block s x = true ∧
  correct_class s x (Z.of_nat k) = Some true ∧
  hf_consistency s x = true.
Proof.
  intros R Hm.
  destruct (Repr_member_free s H Ls k x R Hm) as (sz & Hin & Hmin & Hc & Hsz).
  destruct (Repr_tags s H Ls x sz true R Hin) as (_ & Hf & Hfs & Hff).
  destruct (Repr_addr_range s H Ls _ R Hin) as (Hpos & _).
  cbn [blk_addr blk_size fst snd] in Hpos.
  split_and!.
  - exact Hf.
  - unfold correct_class. rewrite Hsz, Hc. cbn [mbind option_bind].
    by rewrite bool_decide_eq_true_2.
  - unfold hf_consistency, get_footer. rewrite Hsz.
    rewrite decide_False by (unfold NULL; lia).
    rewrite decide_False by clia.
    rewrite Hfs, Hf, Hff. by rewrite !bool_decide_eq_true_2.
Qed.

Lemma check_list_ok fuel s h p L class :
  dseg (mem s) h p L NULL → (length L < fuel)%nat →
  (∀ x, x ∈ L → check_free_block s x = true ∧
                 correct_class s x class = Some true ∧
                 hf_consistency s x = true) →
  check_list fuel s h class = Some true.
Proof.
  revert h p fuel. induction L as [|x L IH]; intros h p fuel Hd Hf Hgood.
  - simpl in Hd. subst h. destruct fuel; [simpl in Hf; lia|].
    cbn [check_list]. by rewrite decide_False by (by intros Hn; apply Hn).
  - destruct fuel; [simpl in Hf; lia|]. simpl in Hd, Hf.
    destruct Hd as (-> & Hn & _ & Hd).
    destruct (Hgood x) as (G1 & G2 & G3); [by left|].
    cbn [check_list]. rewrite decide_True by done.
    rewrite G1, G2. cbn [negb mbind option_bind]. rewrite G3. cbn [negb].
    eapply IH; [done|lia|]. intros y Hy. apply Hgood. by right.
Qed.

Lemma check_classes_ok n fuel s H Ls class :
  Repr s H Ls → enough_fuel fuel Ls → 0 ≤ class →
  class + Z.of_nat n = Z.of_nat (length Ls) →
  check_classes n fuel s class = Some true.
Proof.
  intros R Hfuel. revert class. induction n as [|n IH]; intros class Hc Hn;
    [done|].
  pose proof (R_lists _ _ _ R) as HL.
  cbn [check_classes]. unfold flp_get. rewrite decide_True by done.
  pose proof (Forall2_length _ _ _ HL) as Hlen.
  destruct (lookup_lt_is_Some_2 (flp_list s) (Z.to_nat class)) as [h Hh]; [lia|].
  destruct (Forall2_lookup_l _ _ _ _ _ HL Hh) as (L & HLk & Hd).
  rewrite Hh. cbn [mbind option_bind].
  rewrite (check_list_ok fuel s h NULL L class Hd).
  - cbn [mbind option_bind]. apply IH; lia.
  - unfold enough_fuel in Hfuel. rewrite Forall_lookup in Hfuel.
    by eapply Hfuel.
  - intros x Hx. replace class with (Z.of_nat (Z.to_nat class)) by lia.
    apply (member_checks s H Ls); [done|]. by exists L.
Qed.

Lemma aligned_iff p :
  0 ≤ p → p + 15 < 2 ^ 64 → aligned p = true ↔ p mod 16 = 0.
Proof.
  intros Hp Hlt. unfold aligned. rewrite size_t_small by lia.
  rewrite bool_decide_eq_true, align_spec by lia. zlia.
Qed.

Lemma block_coalesced s H1 c cs f H2 Ls :
  Inv s (H1 ++ (c, cs, f) :: H2) Ls → correct_coal s c = true.
Proof.
  intros I. pose proof (I_repr _ _ _ I) as R.
  assert ((c, cs, f) ∈ H1 ++ (c, cs, f) :: H2) as Hin.
  { apply elem_of_app. right. by left. }
  destruct (Repr_tags s _ Ls c cs f R Hin) as (_ & Hf & _).
  unfold correct_coal. rewrite Hf. destruct f; [|done]. cbn [negb].
  destruct (coalesce_flags s H1 c cs H2 Ls R) as (_ & _ & -> & ->).
  destruct (Repr_chain_mid _ _ _ _ _ R) as [Hc1 Hc2].
  cbn [blk_addr blk_size fst snd] in Hc1, Hc2.
  pose proof (I_adj _ _ _ I) as Hadj.
  assert (match last H1 with Some p => blk_freed p | None => false end
          = false) as ->.
  { destruct (last H1) as [y|] eqn:El; [|done].
    apply last_Some in El as [H1' ->].
    apply chain_snoc in Hc1 as [_ Hy].
    destruct (blk_freed y) eqn:Fy; [|done]. exfalso.
    apply (Hadj y (c, cs, true)); [| |done|done].
    - apply elem_of_app. left. apply elem_of_app. right. by left.
    - done. }
  destruct (head H2) as [y|] eqn:Eh; [|done].
  destruct H2 as [|y' H2']; [done|]. injection Eh as ->.
  destruct Hc2 as [Hy _].
  destruct (blk_freed y) eqn:Fy; [|done]. exfalso.
  apply (Hadj (c, cs, true) y); [done| |done|done].
  apply elem_of_app. right. right. by left.
Qed.

Lemma check_blocks_ok s H1 H2 Ls a lo hi fuel :
  Inv s (H1 ++ H2) Ls → chain (heap s) H1 a → H2 ≠ [] →
  heap s mod 16 = 0 → lo ≤ heap s → mem_brk s - 1 ≤ hi →
  (length H2 < fuel)%nat →
  check_blocks fuel lo hi s a = Some true.
Proof.
  revert H1 a fuel. induction H2 as [|x H2 IH];
    intros H1 a fuel I Hc1 Hne Hal Hlo Hhi Hf; [done|].
  pose proof (I_repr _ _ _ I) as R.
  destruct (Repr_chain_mid _ _ _ _ _ R) as [Hc1' Hc2].
  assert (blk_addr x = a) as Hax by (by eapply chain_det).
  assert (Hx : x ∈ H1 ++ x :: H2) by (apply elem_of_app; right; left).
  destruct (Repr_addr_range _ _ _ _ R Hx) as (Hpos & Hlt & Hge & Hle & H16).
  pose proof (R_size _ _ _ R) as Hsz.
  apply Forall_app in Hsz as [Hsz1 _].
  destruct (chain_total_mod _ _ _ Hc1 Hsz1) as [Hmod _].
  destruct x as [[b sz] f]. cbn [blk_addr blk_size fst snd] in *. subst b.
  destruct fuel as [|fuel]; [simpl in Hf; lia|]. cbn [check_blocks].
  rewrite (R_end _ _ _ R) in *.
  rewrite bool_decide_eq_true_2 by (unfold NULL; lia).
  rewrite bool_decide_eq_true_2 by lia. cbn [andb].
  unfold in_heap. rewrite !bool_decide_eq_true_2 by lia. cbn [andb negb].
  rewrite (proj2 (aligned_iff a ltac:(lia) ltac:(lia))) by zlia. cbn [negb].
  rewrite (block_coalesced s H1 a sz f H2 Ls I). cbn [negb].
  destruct (Repr_next_blk _ _ _ _ _ R) as [Hn Hn'].
  cbn [blk_addr blk_size fst snd] in Hn, Hn'. rewrite Hn.
  destruct H2 as [|y H2].
  - cbn. destruct fuel as [|fuel]; [simpl in Hf; lia|]. done.
  - cbn [head fmap option_fmap option_map default] in Hn' |- *.
    apply (IH (H1 ++ [(a, sz, f)])); try done.
    + by rewrite <- app_assoc.
    + apply chain_app. exists a. split; [done|]. simpl. split; [done|].
      cbn [blk_size fst snd]. unfold id in Hn'. lia.
    + simpl in Hf |- *. lia.
Qed.

Lemma checkheap_ok s H Ls lo hi fuel :
  Inv s H Ls → heap s mod 16 = 0 → lo ≤ heap s → mem_brk s - 1 ≤ hi →
  enough_fuel fuel Ls → (length H < fuel)%nat →
  mm_checkheap lo hi fuel s = Some true.
Proof.
  intros I Hal Hlo Hhi Hfuel Hlen. pose proof (I_repr _ _ _ I) as R.
  unfold mm_checkheap.
  rewrite (get_FL_count_spec fuel s H Ls R Hfuel). cbn [mbind option_bind].
  rewrite decide_False by (by intros Hn; apply Hn).
  rewrite (check_classes_ok _ fuel s H Ls 0 R Hfuel); [|done|].
  - cbn [mbind option_bind negb].
    apply (check_blocks_ok s [] H Ls); try done. exact (I_nonempty _ _ _ I).
  - rewrite (Repr_Ls_length _ _ _ R). done.
Qed.

(** * The state after a successful initialisation *)

Lemma NoDup_all_equal (l : list Z) b :
  NoDup l → (∀ x, x ∈ l → x = b) → b ∈ l → length l = 1%nat.
Proof.
  intros Hnd Hall Hb. destruct l as [|x [|y l]]; [by apply elem_of_nil in Hb|done|].
  exfalso. apply NoDup_cons in Hnd as [Hx _]. apply Hx.
  rewrite (Hall x), <- (Hall y); [by left|right; by left|by left].
Qed.

Lemma Inv_single_count s b sz Ls :
  Inv s [(b, sz, true)] Ls → Z.of_nat (length (concat Ls)) = 1.
Proof.
  intros I. pose proof (I_repr _ _ _ I) as R.
  assert (NoDup (concat Ls)) as Hnd.
  { apply NoDup_concat_idx; [exact (R_nodup _ _ _ R)|].
    intros i j Li Lj x Hi Hj Hxi Hxj.
    exact (Repr_bucket_inj s _ Ls i j Li Lj x R Hi Hj Hxi Hxj). }
  rewrite (NoDup_all_equal (concat Ls) b); [done|done| |].
  - intros x [l [Hl Hin]]%elem_of_concat.
    apply list_elem_of_lookup in Hin as [k Hk].
    destruct (R_idx _ _ _ R k l x Hk Hl) as (sz' & Hsz & _).
    apply list_elem_of_singleton in Hsz. congruence.
  - destruct (I_all _ _ _ I b sz) as (k & _ & L & Hk & Hin); [by left|].
    apply elem_of_concat. exists L. split; [done|].
    by eapply list_elem_of_lookup_2.
Qed.

(** * A block removed from the index and inserted again *)

Lemma Repr_del_add s H Ls (k : nat) L1 b L2 :
  Repr s H Ls → Ls !! k = Some (L1 ++ b :: L2) →
  ∃ s1 s2,
    del_fl_seg b (get_size s b) s = Some s1 ∧
    add_fl_seg b (get_size s b) s1 = Some s2 ∧
    Repr s2 H (<[k := b :: L1 ++ L2]> Ls) ∧ same_heap s s2.
Proof.
  intros R Hk.
  assert (members Ls k b) as Hm.
  { exists (L1 ++ b :: L2). split; [done|].
    apply elem_of_app. right. by left. }
  destruct (Repr_member_free s H Ls k b R Hm) as (sz & Hin & Hmin & Hc & Hsz).
  destruct (Repr_del s H Ls k L1 b L2 (get_size s b) R Hk)
    as (s1 & Hdel & R1 & Hs1).
  pose proof (R_nodup _ _ _ R) as Hnd. rewrite Forall_lookup in Hnd.
  specialize (Hnd k _ Hk). apply NoDup_app in Hnd as (_ & Hnd1 & Hnd2).
  apply NoDup_cons in Hnd2 as [Hnb2 _].
  assert (k < length Ls)%nat as Hklt by (by eapply lookup_lt_Some).
  destruct (Repr_add s1 H _ b sz R1 Hin Hmin)
    as (k' & L & s2 & Hc' & Hk' & Hadd & R2 & Hs2).
  { intros L' [j Hj]%list_elem_of_lookup Hb.
    destruct (decide (j = k)) as [->|Hne].
    - rewrite list_lookup_insert_eq in Hj by done. injection Hj as <-.
      apply elem_of_app in Hb as [Hb|Hb]; [|done].
      apply (Hnd1 b Hb). by left.
    - rewrite list_lookup_insert_ne in Hj by done.
      assert (j = k); [|done].
      apply (Repr_bucket_inj s H Ls j k L' (L1 ++ b :: L2) b R Hj Hk Hb).
      apply elem_of_app. right. by left. }
  assert (k' = k) as -> by (rewrite Hc in Hc'; injection Hc'; lia).
  rewrite list_lookup_insert_eq in Hk' by done. injection Hk' as <-.
  rewrite list_insert_insert_eq in R2.
  exists s1, s2. rewrite Hsz. split_and!; try done.
  by eapply same_heap_trans.
Qed.

(** * Where the index operations write *)

Lemma in_free_intro H w szw x :
  (w, szw, true) ∈ H → w ≤ x < w + szw → in_free H x.
Proof. intros Hin Hx. by exists w, szw. Qed.

Lemma in_free_app H1 H2 x : in_free (H1 ++ H2) x ↔ in_free H1 x ∨ in_free H2 x.
Proof.
  unfold in_free. split.
  - intros (b & sz & [Hin|Hin]%elem_of_app & Hx); [left|right]; eauto.
  - intros [(b & sz & Hin & Hx)|(b & sz & Hin & Hx)]; exists b, sz;
      (split; [apply elem_of_app; auto|done]).
Qed.

(** The head of a bucket is [NULL] or a free block of the heap. *)
Lemma Repr_head_free s H Ls (k : nat) h :
  Repr s H Ls → flp_list s !! k = Some h →
  h = NULL ∨ ∃ szh, (h, szh, true) ∈ H ∧ MINCLASSSIZE ≤ szh.
Proof.
  intros R Hh.
  destruct (Forall2_lookup_l _ _ _ _ _ (R_lists _ _ _ R) Hh) as (L & HLk & Hd).
  pose proof (dseg_head _ _ _ _ Hd) as Hhead.
  destruct (head L) as [y|] eqn:E; simpl in Hhead; [|by left].
  right. subst h. apply head_elem_of in E.
  destruct (R_idx _ _ _ R k L y HLk E) as (szy & ? & ? & _). eauto.
Qed.

Lemma del_frame s H Ls b size s' :
  Repr s H Ls → (∃ k, members Ls k b) → del_fl_seg b size s = Some s' →
  ∀ x, ¬ in_free H x → mem s' x = mem s x.
Proof.
  intros R (k & L & Hk & Hb) Hdel x Hx.
  apply list_elem_of_split in Hb as (L1 & L2 & ->).
  pose proof (R_lists _ _ _ R) as HL.
  destruct (Forall2_lookup_r _ _ _ _ _ HL Hk) as (h & Hh & Hd).
  assert (Hmem : ∀ y, y ∈ L1 ++ b :: L2 →
            ∃ sz, (y, sz, true) ∈ H ∧ MINCLASSSIZE ≤ sz ∧
                  map_to_class sz = Some (Z.of_nat k)).
  { intros y Hy. by eapply (R_idx _ _ _ R). }
  assert (Hfar : ∀ y o, y ∈ L1 ++ b :: L2 → 0 ≤ o ≤ 24 →
            ¬ (y + o ≤ x < y + o + 8)).
  { intros y o Hy Ho Hr. destruct (Hmem y Hy) as (sz & Hin & Hmin & _).
    apply Hx. apply (in_free_intro H y sz); [done|clia]. }
  assert (Hbm : b ∈ L1 ++ b :: L2) by (apply elem_of_app; right; left).
  destruct (Hmem b Hbm) as (sz & Hin & Hsz & Hc).
  pose proof (R_tags _ _ _ R) as Ht. rewrite Forall_forall in Ht.
  destruct (Ht _ Hin) as (Hsize & _). cbn [blk_addr blk_size fst snd] in Hsize.
  pose proof (lookup_lt_Some _ _ _ Hh) as Hklt.
  rewrite (del_fl_seg_eq size s b k) in Hdel by (by rewrite ?Hsize).
  injection Hdel as <-. st_simpl.
  destruct (dseg_mid _ _ _ _ _ Hd) as [Hprev Hnext].
  set (prev := load64 (mem s) (b + off_prev)) in *.
  set (next := load64 (mem s) (b + off_next)) in *.
  assert (HprevL : prev ≠ NULL → prev ∈ L1 ++ b :: L2).
  { rewrite Hprev. destruct (last L1) eqn:E; simpl; [|done].
    intros _. apply elem_of_app. left. by apply last_elem_of. }
  assert (HnextL : next ≠ NULL → next ∈ L1 ++ b :: L2).
  { rewrite Hnext. destruct (head L2) eqn:E; simpl; [|done].
    intros _. apply elem_of_app. right. right. by apply head_elem_of. }
  pose proof (Hfar b off_prev Hbm ltac:(clia)).
  pose proof (Hfar b off_next Hbm ltac:(clia)).
  destruct (decide (next ≠ NULL)) as [Hn|Hn];
    destruct (decide (prev = NULL)) as [Hp|Hp];
    rewrite ?store64_other; try done.
  - apply (Hfar next off_prev); [by apply HnextL|clia].
  - apply (Hfar prev off_next); [by apply HprevL|clia].
  - apply (Hfar next off_prev); [by apply HnextL|clia].
  - apply (Hfar prev off_next); [by apply HprevL|clia].
Qed.

(** [add_fl_seg] on a state that has the bucket heads of [s0]. *)
Lemma add_frame s0 s H Ls b sz s' :
  Repr s0 H Ls → flp_list s = flp_list s0 →
  add_fl_seg b sz s = Some s' →
  ∀ x, ¬ in_free H x → ¬ (b ≤ x < b + MINCLASSSIZE) → mem s' x = mem s x.
Proof.
  intros R Hfl Hadd x Hx Hxb.
  destruct (map_to_class sz) as [c|] eqn:Hc;
    [|by unfold add_fl_seg in Hadd; rewrite Hc in Hadd].
  destruct (flp_get (set_frees (int (frees s + 1)) s) c) as [h|] eqn:Hget;
    [|by unfold add_fl_seg in Hadd; rewrite Hc in Hadd; cbn in Hadd;
         rewrite Hget in Hadd].
  unfold flp_get in Hget. st_simpl. case_decide as Hc0; [|done].
  rewrite (add_fl_seg_eq b sz s (Z.to_nat c) h) in Hadd
    by (by rewrite ?Z2Nat.id by lia).
  injection Hadd as <-. st_simpl.
  rewrite Hfl in Hget.
  destruct (Repr_head_free s0 H Ls _ h R Hget) as [->|(szh & Hin & Hmin)].
  - rewrite decide_False by (by intros Hn; apply Hn).
    rewrite !store64_other; [done|clia|clia].
  - assert (¬ (h + off_prev ≤ x < h + off_prev + 8)).
    { intros Hr. apply Hx. apply (in_free_intro H h szh); [done|clia]. }
    case_decide; rewrite !store64_other; try done; clia.
Qed.

(** The end of a merge: the tags of the merged block are written and the
    block is inserted. *)
Lemma finish_frame s2 H Ls2 r tot s' :
  Repr s2 H Ls2 → MINCLASSSIZE ≤ tot < 2 ^ 64 → tot mod 16 = 0 →
  add_fl_seg r tot (set_free r true (set_size r tot s2)) = Some s' →
  ∀ x, ¬ in_free H x → ¬ (r ≤ x < r + tot) → mem s' x = mem s2 x.
Proof.
  intros R Htot Hmod Hadd x Hx Hxr.
  destruct (retag_mem r tot true s2) as (_ & Hout & Heq); [clia|done|].
  transitivity (mem (set_free r true (set_size r tot s2)) x);
    [|apply Hout; lia].
  apply (add_frame s2 _ H Ls2 r tot s' R); [by rewrite Heq|done|done|clia].
Qed.

(** * Where the coalescer writes *)

Lemma mod16_add a b : a mod 16 = 0 → b mod 16 = 0 → (a + b) mod 16 = 0.
Proof. zlia. Qed.

Lemma coalesce_none_frame s H1 c cs H2 Ls r s' :
  PreCoalesce s H1 c cs H2 Ls →
  match last H1 with Some p => blk_freed p | None => false end = false →
  match head H2 with Some n => blk_freed n | None => false end = false →
  coalesce c s = Some (r, s') →
  ∀ x, ¬ in_free (H1 ++ (c, cs, true) :: H2) x → mem s' x = mem s x.
Proof.
  intros [HR Hnot Hall Hadj Hmin Hsize] Hpf Hnf Hco x Hx.
  destruct (coalesce_flags _ _ _ _ _ _ HR) as (Hp & Hn & Hpf' & Hnf').
  unfold coalesce in Hco. cbv zeta in Hco.
  rewrite Hpf', Hnf', Hpf, Hnf in Hco. cbn [negb andb] in Hco.
  assert (Hin : (c, cs, true) ∈ H1 ++ (c, cs, true) :: H2).
  { apply elem_of_app. right. by left. }
  assert (Hcs : MINCLASSSIZE ≤ cs).
  { destruct Hsize as [?|(p & Hl & Hf)]; [done|]. rewrite Hl in Hpf. congruence. }
  destruct (add_fl_seg c (get_size s c) s) as [s2|] eqn:Hadd; [|done].
  injection Hco as <- <-.
  apply (add_frame s s _ Ls c _ s2 HR eq_refl Hadd x Hx).
  intros Hr. apply Hx. apply (in_free_intro _ c cs); [done|lia].
Qed.

Lemma coalesce_prev_frame s H1' p ps c cs H2 Ls r s' :
  PreCoalesce s (H1' ++ [(p, ps, true)]) c cs H2 Ls →
  match head H2 with Some n => blk_freed n | None => false end = false →
  coalesce c s = Some (r, s') →
  ∀ x, ¬ in_free ((H1' ++ [(p, ps, true)]) ++ (c, cs, true) :: H2) x →
       mem s' x = mem s x.
Proof.
  intros [HR Hnot Hall Hadj Hmin Hsize] Hnf Hco x Hx.
  destruct (coalesce_flags _ _ _ _ _ _ HR) as (Hp & Hn & Hpf' & Hnf').
  rewrite last_snoc in Hp, Hpf'.
  change (default NULL (blk_addr <$> Some (p, ps, true))) with p in Hp.
  unfold coalesce in Hco. cbv zeta in Hco. rewrite Hpf', Hnf', Hnf, Hp in Hco.
  cbn [negb andb blk_freed snd] in Hco.
  assert (Hpin : (p, ps, true) ∈ (H1' ++ [(p, ps, true)]) ++ (c, cs, true) :: H2).
  { apply elem_of_app. left. apply elem_of_app. right. by left. }
  assert (Hcin : (c, cs, true) ∈ (H1' ++ [(p, ps, true)]) ++ (c, cs, true) :: H2).
  { apply elem_of_app. right. by left. }
  destruct (Repr_tags _ _ _ _ _ _ HR Hpin) as (Hps & _).
  destruct (Repr_tags _ _ _ _ _ _ HR Hcin) as (Hcs & _).
  destruct (Repr_addr_range _ _ _ _ HR Hpin) as (? & ? & ? & ? & ?).
  destruct (Repr_addr_range _ _ _ _ HR Hcin) as (? & ? & ? & ? & ?).
  pose proof (R_size _ _ _ HR) as Hso. rewrite Forall_forall in Hso.
  destruct (Hso _ Hpin) as [_ Hpm]. destruct (Hso _ Hcin) as [_ Hcm].
  destruct (Repr_chain_mid _ _ _ _ _ HR) as [Hc1 Hc2].
  apply chain_snoc in Hc1 as Hc1'. destruct Hc1' as [Hc1' Hpc].
  cbn [blk_addr blk_size fst snd] in *.
  rewrite Hps, Hcs in Hco. rewrite (size_t_small (ps + cs)) in Hco by lia.
  destruct (Hall p ps) as (kp & _ & Hmp).
  { apply elem_of_app. left. apply elem_of_app. right. by left. }
  destruct (Repr_del_members s _ Ls p ps HR (ex_intro _ kp Hmp))
    as (s1 & Ls1 & Hdel & HR1 & _).
  rewrite Hdel in Hco. cbn [mbind option_bind] in Hco.
  assert (Hps48 : MINCLASSSIZE ≤ ps).
  { rewrite Forall_forall in Hmin. apply (Hmin (p, ps, true)).
    apply elem_of_app. left. apply elem_of_app. right. by left. }
  destruct (add_fl_seg p (ps + cs) _) as [s2|] eqn:Hadd; [|done].
  injection Hco as <- <-.
  transitivity (mem s1 x).
  - apply (finish_frame s1 _ Ls1 p (ps + cs) s2 HR1); [clia| |done|done|].
    + by apply mod16_add.
    + intros Hr. apply Hx. destruct (decide (x < c)).
      * apply (in_free_intro _ p ps); [done|lia].
      * apply (in_free_intro _ c cs); [done|lia].
  - exact (del_frame s _ Ls p _ s1 HR (ex_intro _ kp Hmp) Hdel x Hx).
Qed.

Lemma coalesce_next_frame s H1 c cs n ns H2' Ls r s' :
  PreCoalesce s H1 c cs ((n, ns, true) :: H2') Ls →
  match last H1 with Some p => blk_freed p | None => false end = false →
  coalesce c s = Some (r, s') →
  ∀ x, ¬ in_free (H1 ++ (c, cs, true) :: (n, ns, true) :: H2') x →
       mem s' x = mem s x.
Proof.
  intros [HR Hnot Hall Hadj Hmin Hsize] Hpf Hco x Hx.
  destruct (coalesce_flags _ _ _ _ _ _ HR) as (Hp & Hn & Hpf' & Hnf').
  change (default NULL (blk_addr <$> head ((n, ns, true) :: H2'))) with n in Hn.
  unfold coalesce in Hco. cbv zeta in Hco. rewrite Hpf', Hnf', Hpf, Hn in Hco.
  cbn [negb andb blk_freed snd head] in Hco.
  assert (Hnin : (n, ns, true) ∈ H1 ++ (c, cs, true) :: (n, ns, true) :: H2').
  { apply elem_of_app. right. right. by left. }
  assert (Hcin : (c, cs, true) ∈ H1 ++ (c, cs, true) :: (n, ns, true) :: H2').
  { apply elem_of_app. right. by left. }
  destruct (Repr_tags _ _ _ _ _ _ HR Hnin) as (Hns & _).
  destruct (Repr_tags _ _ _ _ _ _ HR Hcin) as (Hcs & _).
  destruct (Repr_addr_range _ _ _ _ HR Hnin) as (? & ? & ? & ? & ?).
  destruct (Repr_addr_range _ _ _ _ HR Hcin) as (? & ? & ? & ? & ?).
  pose proof (R_size _ _ _ HR) as Hso. rewrite Forall_forall in Hso.
  destruct (Hso _ Hnin) as [_ Hnm]. destruct (Hso _ Hcin) as [_ Hcm].
  destruct (Repr_chain_mid _ _ _ _ _ HR) as [Hc1 Hc2].
  simpl in Hc2. destruct Hc2 as [Hnc Hc2].
  cbn [blk_addr blk_size fst snd] in *.
  rewrite Hns, Hcs in Hco. rewrite (size_t_small (cs + ns)) in Hco by lia.
  destruct (Hall n ns) as (kn & _ & Hmn).
  { apply elem_of_app. right. by left. }
  destruct (Repr_del_members s _ Ls n ns HR (ex_intro _ kn Hmn))
    as (s1 & Ls1 & Hdel & HR1 & _).
  rewrite Hdel in Hco. cbn [mbind option_bind] in Hco.
  assert (Hns48 : MINCLASSSIZE ≤ ns).
  { rewrite Forall_forall in Hmin. apply (Hmin (n, ns, true)).
    apply elem_of_app. right. by left. }
  destruct (add_fl_seg c (cs + ns) _) as [s2|] eqn:Hadd; [|done].
  injection Hco as <- <-.
  transitivity (mem s1 x).
  - apply (finish_frame s1 _ Ls1 c (cs + ns) s2 HR1); [clia| |done|done|].
    + by apply mod16_add.
    + intros Hr. apply Hx. destruct (decide (x < n)).
      * apply (in_free_intro _ c cs); [done|lia].
      * apply (in_free_intro _ n ns); [done|lia].
  - exact (del_frame s _ Ls n _ s1 HR (ex_intro _ kn Hmn) Hdel x Hx).
Qed.

Lemma coalesce_both_frame s H1' p ps c cs n ns H2' Ls r s' :
  PreCoalesce s (H1' ++ [(p, ps, true)]) c cs ((n, ns, true) :: H2') Ls →
  coalesce c s = Some (r, s') →
  ∀ x, ¬ in_free ((H1' ++ [(p, ps, true)]) ++
                  (c, cs, true) :: (n, ns, true) :: H2') x →
       mem s' x = mem s x.
Proof.
  intros [HR Hnot Hall Hadj Hmin Hsize] Hco x Hx.
  destruct (coalesce_flags _ _ _ _ _ _ HR) as (Hp & Hn & Hpf' & Hnf').
  rewrite last_snoc in Hp, Hpf'.
  change (default NULL (blk_addr <$> Some (p, ps, true))) with p in Hp.
  change (default NULL (blk_addr <$> head ((n, ns, true) :: H2'))) with n in Hn.
  unfold coalesce in Hco. cbv zeta in Hco. rewrite Hpf', Hnf', Hp, Hn in Hco.
  cbn [negb andb blk_freed snd head] in Hco.
  set (H := (H1' ++ [(p, ps, true)]) ++ (c, cs, true) :: (n, ns, true) :: H2') in *.
  assert (Hpin : (p, ps, true) ∈ H).
  { apply elem_of_app. left. apply elem_of_app. right. by left. }
  assert (Hcin : (c, cs, true) ∈ H).
  { apply elem_of_app. right. by left. }
  assert (Hnin : (n, ns, true) ∈ H).
  { apply elem_of_app. right. right. by left. }
  destruct (Repr_tags _ _ _ _ _ _ HR Hpin) as (Hps & _).
  destruct (Repr_tags _ _ _ _ _ _ HR Hcin) as (Hcs & _).
  destruct (Repr_tags _ _ _ _ _ _ HR Hnin) as (Hns & _).
  destruct (Repr_addr_range _ _ _ _ HR Hpin) as (? & ? & ? & ? & ?).
  destruct (Repr_addr_range _ _ _ _ HR Hcin) as (? & ? & ? & ? & ?).
  destruct (Repr_addr_range _ _ _ _ HR Hnin) as (? & ? & ? & ? & ?).
  pose proof (R_size _ _ _ HR) as Hso. rewrite Forall_forall in Hso.
  destruct (Hso _ Hpin) as [_ Hpm]. destruct (Hso _ Hcin) as [_ Hcm].
  destruct (Hso _ Hnin) as [_ Hnm].
  destruct (Repr_chain_mid _ _ _ _ _ HR) as [Hc1 Hc2].
  apply chain_snoc in Hc1 as Hc1'. destruct Hc1' as [Hc1' Hpc].
  simpl in Hc2. destruct Hc2 as [Hnc Hc2].
  cbn [blk_addr blk_size fst snd] in *.
  rewrite Hps, Hcs, Hns in Hco. rewrite (size_t_small (ps + cs)) in Hco by lia.
  rewrite (size_t_small (ps + cs + ns)) in Hco by lia.
  destruct (Hall n ns) as (kn & _ & Hmn).
  { apply elem_of_app. right. by left. }
  destruct (Hall p ps) as (kp & _ & Hmp).
  { apply elem_of_app. left. apply elem_of_app. right. by left. }
  destruct (Repr_del_members s _ Ls n ns HR (ex_intro _ kn Hmn))
    as (s1 & Ls1 & Hdel1 & HR1 & Hsame1 & _ & Hmem1).
  rewrite Hdel1 in Hco. cbn [mbind option_bind] in Hco.
  assert (Hmp1 : members Ls1 kp p) by (apply Hmem1; split; [done|lia]).
  destruct (Repr_del_members s1 _ Ls1 p (get_size s1 p) HR1 (ex_intro _ kp Hmp1))
    as (s2 & Ls2 & Hdel2 & HR2 & _).
  rewrite Hdel2 in Hco. cbn [mbind option_bind] in Hco.
  assert (Hps48 : MINCLASSSIZE ≤ ps).
  { rewrite Forall_forall in Hmin. apply (Hmin (p, ps, true)).
    apply elem_of_app. left. apply elem_of_app. right. by left. }
  destruct (add_fl_seg p (ps + cs + ns) _) as [s3|] eqn:Hadd; [|done].
  injection Hco as <- <-.
  transitivity (mem s2 x); [|transitivity (mem s1 x)].
  - apply (finish_frame s2 _ Ls2 p (ps + cs + ns) s3 HR2); [clia| |done|done|].
    + by apply mod16_add; [apply mod16_add|].
    + intros Hr. apply Hx. destruct (decide (x < c)); [|destruct (decide (x < n))].
      * apply (in_free_intro _ p ps); [done|lia].
      * apply (in_free_intro _ c cs); [done|lia].
      * apply (in_free_intro _ n ns); [done|lia].
  - exact (del_frame s1 _ Ls1 p _ s2 HR1 (ex_intro _ kp Hmp1) Hdel2 x Hx).
  - exact (del_frame s _ Ls n _ s1 HR (ex_intro _ kn Hmn) Hdel1 x Hx).
Qed.

Lemma coalesce_frame s H1 c cs H2 Ls r s' :
  PreCoalesce s H1 c cs H2 Ls → coalesce c s = Some (r, s') →
  ∀ x, ¬ in_free (H1 ++ (c, cs, true) :: H2) x → mem s' x = mem s x.
Proof.
  intros HP Hco.
  destruct (last H1) as [[[p ps] pf]|] eqn:Hl;
    [apply last_Some in Hl as [H1'' ->]; destruct pf|];
    (destruct H2 as [|[[n ns] nf] H2'']; [|destruct nf]).
  - by eapply coalesce_prev_frame.
  - by eapply coalesce_both_frame.
  - by eapply coalesce_prev_frame.
  - eapply coalesce_none_frame; [done|by rewrite last_snoc|done|done].
  - eapply coalesce_next_frame; [done|by rewrite last_snoc|done].
  - eapply coalesce_none_frame; [done|by rewrite last_snoc|done|done].
  - eapply coalesce_none_frame; [done|by rewrite Hl|done|done].
  - eapply coalesce_next_frame; [done|by rewrite Hl|done].
  - eapply coalesce_none_frame; [done|by rewrite Hl|done|done].
Qed.

(** * Where free writes *)

Lemma in_free_flip H1 c sz f H2 x :
  in_free (H1 ++ (c, sz, true) :: H2) x →
  in_free (H1 ++ (c, sz, f) :: H2) x ∨ c ≤ x < c + sz.
Proof.
  intros (b & szb & Hin & Hx).
  apply elem_of_app in Hin as [Hin|[[= -> ->]|Hin]%elem_of_cons].
  - left. exists b, szb. split; [|done]. apply elem_of_app. by left.
  - by right.
  - left. exists b, szb. split; [|done]. apply elem_of_app. right. by right.
Qed.

Lemma free_frame s H Ls ptr sz s' :
  Inv s H Ls → (ptr - HSIZE, sz, false) ∈ H → free ptr s = Some s' →
  ∀ x, ¬ in_free H x → ¬ (ptr - HSIZE ≤ x < ptr - HSIZE + sz) →
       mem s' x = mem s x.
Proof.
  intros HI Hin Hfree x Hx Hxb. pose proof (I_repr _ _ _ HI) as HR.
  pose proof (Inv_not_member _ _ _ _ _ HI Hin) as Hnot.
  destruct (Repr_addr_range _ _ _ _ HR Hin) as (Hpos & _).
  pose proof (R_tags _ _ _ HR) as Ht. rewrite Forall_forall in Ht.
  pose proof (R_size _ _ _ HR) as Hsz. rewrite Forall_forall in Hsz.
  specialize (Ht _ Hin). specialize (Hsz _ Hin).
  apply list_elem_of_split in Hin as (H1 & H2 & ->).
  set (c := ptr - HSIZE) in *. cbn [blk_addr fst snd] in Hpos.
  destruct (set_free_mem c sz false true s Ht Hsz) as (Htags & Hout & Heq).
  pose proof (Inv_PreCoalesce s _ H1 c sz false H2 Ls HI Hnot Htags Hout) as HP.
  rewrite <- Heq in HP.
  unfold free in Hfree. rewrite decide_False in Hfree by (unfold c in *; clia).
  fold c in Hfree.
  destruct (coalesce c (set_free c true s)) as [[r s2]|] eqn:Hco; [|done].
  cbn [mbind option_bind] in Hfree. injection Hfree as <-.
  rewrite (coalesce_frame _ H1 c sz H2 Ls r s2 HP Hco x).
  - by apply Hout.
  - intros [Hf|Hf]%(in_free_flip _ _ _ false); [by apply Hx|by apply Hxb].
Qed.

(** * Where split_block writes *)

Lemma split_frame s H1 b sz H2 Ls len s' :
  Inv s (H1 ++ (b, sz, true) :: H2) Ls →
  MINCLASSSIZE ≤ len ≤ sz → len mod 16 = 0 →
  split_block b len s = Some s' →
  ∀ x, ¬ in_free (H1 ++ (b, sz, true) :: H2) x → mem s' x = mem s x.
Proof.
  intros [HR Hall Hadj Hmin Hne] Hlen Hmod Hsp x Hx.
  assert (Hbin : (b, sz, true) ∈ H1 ++ (b, sz, true) :: H2).
  { apply elem_of_app. right. by left. }
  assert (Hxb : ¬ (b ≤ x < b + sz)).
  { intros Hr. apply Hx. by apply (in_free_intro _ b sz). }
  destruct (Repr_tags _ _ _ _ _ _ HR Hbin) as (Hsz & _).
  destruct (Repr_addr_range _ _ _ _ HR Hbin) as (? & ? & ? & ? & ?).
  pose proof (R_size _ _ _ HR) as Hso. rewrite Forall_forall in Hso.
  destruct (Hso _ Hbin) as [_ Hszmod].
  cbn [blk_addr blk_size fst snd] in *.
  destruct (Hall b sz Hbin) as (kb & _ & Hmb).
  unfold split_block in Hsp. rewrite Hsz in Hsp.
  rewrite (size_t_small (sz - len)) in Hsp by clia.
  rewrite (size_t_small (HSIZE + FSIZE)) in Hsp by clia.
  destruct (Repr_del_members s _ Ls b sz HR (ex_intro _ kb Hmb))
    as (s1 & Ls1 & Hdel & HR1 & Hsame1 & _ & Hmem1).
  pose proof (del_frame s _ Ls b _ s1 HR (ex_intro _ kb Hmb) Hdel x Hx) as Hd.
  rewrite Hdel in Hsp. cbn [mbind option_bind] in Hsp.
  destruct (decide (sz - len < HSIZE + FSIZE)) as [Hrem|Hrem].
  - injection Hsp as <-.
    pose proof (R_tags _ _ _ HR1) as Ht. rewrite Forall_forall in Ht.
    pose proof (R_size _ _ _ HR1) as Hso1. rewrite Forall_forall in Hso1.
    destruct (set_free_mem b sz true false s1 (Ht _ Hbin) (Hso1 _ Hbin))
      as (_ & Hout & _).
    rewrite Hout by done. done.
  - destruct (retag_mem b len false s1) as (Ht3 & Hout3 & Heq3); [clia|done|].
    remember (set_free b false (set_size b len s1)) as s3 eqn:E3.
    assert (Hnb : next_blk s3 b = b + len).
    { unfold next_blk, get_size. destruct Ht3 as (Hl & _).
      cbn [blk_addr blk_size fst snd] in Hl. rewrite Hl.
      rewrite decide_False by clia.
      destruct Hsame1 as (_ & He1 & _).
      rewrite Heq3. st_simpl. rewrite decide_False by clia. done. }
    rewrite Hnb in Hsp. rewrite decide_False in Hsp by clia.
    destruct (retag_mem (b + len) (sz - len) true s3) as (Ht5 & Hout5 & Heq5);
      [clia|zlia|].
    remember (set_free (b + len) true (set_size (b + len) (sz - len) s3))
      as s5 eqn:E5.
    assert (Hfl : flp_list s5 = flp_list s1).
    { rewrite Heq5. st_simpl. rewrite Heq3. reflexivity. }
    rewrite (add_frame s1 s5 _ Ls1 (b + len) (sz - len) s' HR1 Hfl Hsp x Hx)
      by clia.
    rewrite Hout5 by clia. rewrite Hout3 by clia. done.
Qed.

(** * Where extend_heap writes *)

Lemma extend_heap_frame s H Ls ext r s' :
  Inv s H Ls → 0 < ext → ext mod 16 = 0 →
  mem_brk s + ext ≤ mem_max_addr s →
  (MINCLASSSIZE ≤ ext ∨ ∃ p, last H = Some p ∧ blk_freed p = true) →
  extend_heap ext s = Some (r, s') →
  ∀ x, ¬ in_free H x → x < end_ s → mem s' x = mem s x.
Proof.
  intros HI Hext Hmod Hbrk Hsize Hex x Hx Hxe.
  pose proof (I_repr _ _ _ HI) as HR.
  pose proof (R_end _ _ _ HR) as He. pose proof (R_max _ _ _ HR) as Hmax.
  pose proof (R_heap _ _ _ HR) as Hheap.
  pose proof (chain_le _ _ _ (R_size _ _ _ HR) (R_chain _ _ _ HR)) as Hle.
  unfold extend_heap, mem_sbrk in Hex. st_simpl.
  rewrite decide_True in Hex by done. rewrite decide_False in Hex by clia.
  set (s1 := set_heap_brk (mem_brk s)
               (set_mem_brk (mem_brk s + ext)
                  (set_extends (int (extends s + 1)) s))) in *.
  destruct (retag_mem (mem_brk s) ext true s1) as (Htags & Hout & Heq);
    [clia|done|].
  remember (set_free (mem_brk s) true (set_size (mem_brk s) ext s1)) as s3 eqn:E3.
  set (s4 := set_end (mem_brk s + ext) s3) in *.
  assert (Hcore : same_core
            (set_end (end_ s + ext)
               (set_mem_brk (mem_brk s + ext) (set_mem (mem s3) s))) s4).
  { unfold s4. rewrite Heq. unfold s1, same_core. st_simpl.
    split_and!; try done. by rewrite He. }
  rewrite <- He in Htags, Hout.
  pose proof (Repr_extend s (mem s3) H Ls ext HR Hext Hmod Hbrk Htags Hout) as HR4.
  apply (Repr_core _ _ _ _ Hcore) in HR4.
  assert (HP : PreCoalesce s4 H (end_ s) ext [] Ls).
  { constructor; rewrite ?app_nil_r; try apply HI; try done.
    intros k (L & Hk & Hxx).
    destruct (R_idx _ _ _ HR k L _ Hk Hxx) as (sz & Hin & ? & _).
    destruct (Repr_addr_range _ _ _ _ HR Hin) as (? & ? & ? & ? & ?).
    cbn [blk_addr blk_size fst snd] in *. lia. }
  rewrite <- He in Hex.
  rewrite (coalesce_frame s4 H (end_ s) ext [] Ls r s' HP Hex x).
  - change (mem s4) with (mem s3). apply Hout. lia.
  - intros [Hf|Hf]%in_free_app; [done|].
    destruct Hf as (b & szb & [= -> ->]%list_elem_of_singleton & Hr). lia.
Qed.

(** * malloc, exactly *)

Lemma split_result_alloc H1 b sz H2 asize x :
  blk_freed x = false →
  x ∈ H1 ++ (if decide (sz - asize < HSIZE + FSIZE)
             then [(b, sz, false)]
             else [(b, asize, false); (b + asize, sz - asize, true)]) ++ H2 ↔
  x ∈ H1 ++ H2 ∨
  x = (b, if decide (sz - asize < HSIZE + FSIZE) then sz else asize, false).
Proof.
  intros Hx. rewrite elem_of_middle. case_decide.
  - rewrite list_elem_of_singleton. tauto.
  - rewrite elem_of_pair. split; [|tauto].
    intros [[->| ->]|?]; [tauto|done|tauto].
Qed.

Lemma malloc_exact s H Ls fuel n p s' :
  Inv s H Ls → 0 < n → n + 63 < 2 ^ 64 → enough_fuel fuel Ls →
  malloc fuel n s = Some (p, s') → p ≠ NULL →
  ∃ H' Ls' sz,
    Inv s' H' Ls' ∧ (p - HSIZE, sz, false) ∈ H' ∧ alloc_size n ≤ sz ∧
    (∀ x, blk_freed x = false →
          x ∈ H' ↔ x ∈ H ∨ x = (p - HSIZE, sz, false)) ∧
    (∀ sz0, (p - HSIZE, sz0, false) ∉ H) ∧
    (∀ x, ¬ in_free H x → x < end_ s → mem s' x = mem s x) ∧
    heap s' = heap s ∧ end_ s ≤ end_ s' ∧
    sz < alloc_size n + HSIZE + FSIZE.
Proof.
  intros HI Hn Hnmax Hfuel Hm Hpn.
  destruct (alloc_size_bounds n) as [Has Hamod]; [lia|lia|].
  set (asize := alloc_size n) in *.
  set (s0 := set_mallocs (int (mallocs s + 1)) s).
  pose proof (Inv_core s s0 H Ls (same_core_set_mallocs _ s) HI) as HI0.
  pose proof (I_repr _ _ _ HI0) as HR0.
  pose proof (I_repr _ _ _ HI) as HR.
  assert (Hff : find_fit_seg fuel asize s0 = Some (find_fit_spec s0 Ls asize)).
  { apply (find_fit_seg_spec fuel s0 H Ls asize HR0); [clia|done]. }
  unfold malloc in Hm. fold s0 in Hm. rewrite decide_False in Hm by lia.
  fold asize in Hm. rewrite Hff in Hm. cbn [mbind option_bind] in Hm.
  assert (HNULL : find_fit_spec s0 Ls asize = NULL ↔
            ∀ k x, members Ls k x → get_size s0 x < asize).
  { apply (find_fit_spec_NULL s0 H Ls asize HR0). clia. }
  unfold find_fit_spec in *.
  set (r := first_fit s0 (concat (drop (Z.to_nat (class_of_spec asize)) Ls)) asize)
    in *.
  pose proof (R_brk _ _ _ HR0) as Hbrk. pose proof (R_max _ _ _ HR0) as Hmax.
  pose proof (R_heap _ _ _ HR0) as Hheap. pose proof (R_end _ _ _ HR0) as Hend.
  pose proof (chain_le _ _ _ (R_size _ _ _ HR0) (R_chain _ _ _ HR0)) as Hle.
  destruct (decide (r ≠ NULL)) as [Hr|Hr].
  - (* a fit *)
    destruct (first_fit_elem _ _ _ Hr) as [Hrin Hrsz]. fold r in Hrin, Hrsz.
    change (first_fit s0 _ asize) with r in Hrsz.
    apply members_drop in Hrin as (k & _ & L & Hk & HrL).
    destruct (R_idx _ _ _ HR0 k L r Hk HrL) as (sz & Hin & Hsz48 & _).
    assert (Hsz : get_size s0 r = sz).
    { by destruct (Repr_tags _ _ _ _ _ _ HR0 Hin) as (? & _). }
    rewrite Hsz in Hrsz. pose proof Hin as Hin0.
    apply list_elem_of_split in Hin as (H1 & H2 & ->).
    destruct (split_correct s0 H1 r sz H2 Ls asize HI0)
      as (s2 & Ls' & Hsp & Hsame & HI'); [clia|done|].
    pose proof (split_frame s0 H1 r sz H2 Ls asize s2 HI0 ltac:(clia) Hamod Hsp)
      as Hfr.
    rewrite Hsp in Hm. cbn [mbind option_bind] in Hm. injection Hm as <- <-.
    replace (r + HSIZE - HSIZE) with r by lia.
    eexists _, Ls', (if decide (sz - asize < HSIZE + FSIZE) then sz else asize).
    split; [exact HI'|]. split_and!.
    + apply elem_of_middle. left. case_decide; by left.
    + case_decide; lia.
    + intros x Hx. rewrite (split_result_alloc _ _ _ _ _ _ Hx).
      rewrite !elem_of_app, elem_of_cons. split; [tauto|].
      intros [[?|[->|?]]|?]; [tauto|done|tauto|tauto].
    + intros sz0 Hin'.
      pose proof (chain_addr_inj _ _ _ _ _ (R_size _ _ _ HR0) (R_chain _ _ _ HR0)
                    Hin' Hin0 eq_refl). congruence.
    + intros x Hx _. by apply Hfr.
    + by destruct Hsame as (-> & _).
    + destruct Hsame as (_ & -> & _). done.
    + case_decide; clia.
  - (* no fit: the heap grows *)
    assert (Hr0 : r = NULL) by (by destruct (decide (r = NULL)); [|destruct Hr]).
    assert (Hsmall : ∀ b sz, (b, sz, true) ∈ H → sz < asize).
    { intros b sz Hin.
      destruct (I_all _ _ _ HI b sz Hin) as (k & _ & Hmm).
      pose proof (proj1 HNULL Hr0 k b Hmm) as Hlt.
      by destruct (Repr_tags _ _ _ _ _ _ HR0 Hin) as (<- & _). }
    destruct (Inv_last _ _ _ HI) as (H0 & t & tsz & tf & ->).
    assert (Htin : (t, tsz, tf) ∈ H0 ++ [(t, tsz, tf)]).
    { apply elem_of_app. right. by left. }
    pose proof (R_size _ _ _ HR0) as Hso. rewrite Forall_forall in Hso.
    destruct (Hso _ Htin) as [Htpos Htmod]. cbn [blk_size fst snd] in *.
    pose proof (R_chain _ _ _ HR0) as Hch.
    apply chain_snoc in Hch as [_ Htend]. cbn [blk_addr blk_size fst snd] in Htend.
    rewrite (extend_size_spec s0 H0 t tsz tf Ls asize HR0) in Hm.
    cbn [mbind option_bind] in Hm.
    set (ext := if tf then size_t (asize - tsz) else max asize CHUNKSIZE) in *.
    assert (Hext : 0 < ext ∧ ext mod 16 = 0 ∧
              (if tf then tsz + ext = asize else asize ≤ ext)).
    { unfold ext. destruct tf.
      - pose proof (Hsmall t tsz Htin).
        rewrite size_t_small by lia. split_and!; [lia|zlia|lia].
      - unfold max, CHUNKSIZE. case_decide; split_and!; try lia; zlia. }
    destruct Hext as (Hext0 & Hextmod & Hextsz).
    destruct (decide (mem_brk s0 + ext ≤ mem_max_addr s0)) as [Hok|Hfail].
    + destruct (coalesce_spec (H0 ++ [(t, tsz, tf)]) (end_ s0) ext [])
        as [[H1' [[r' total] f]] H2'] eqn:Hspec.
      assert (Hsize : MINCLASSSIZE ≤ ext ∨
                ∃ p, last (H0 ++ [(t, tsz, tf)]) = Some p ∧ blk_freed p = true).
      { destruct tf; [right|left].
        - exists (t, tsz, true). by rewrite last_snoc.
        - clia. }
      destruct (extend_heap_correct s0 _ Ls ext H1' r' total f H2' HI0)
        as (s1 & Ls1 & Hex & -> & Hr' & HI1 & Hh1 & He1 & Hb1 & Hx1 & _ & Hal);
        try done.
      pose proof (extend_heap_frame s0 _ Ls ext r' s1 HI0 Hext0 Hextmod Hok
                    Hsize Hex) as Hfr1.
      rewrite Hex in Hm. cbn [mbind option_bind] in Hm.
      rewrite decide_False in Hm by done.
      assert (Htot : H2' = [] ∧ asize ≤ total ∧
                (if tf then H1' = H0 ∧ r' = t ∧ total = tsz + ext
                 else H1' = H0 ++ [(t, tsz, false)] ∧ r' = end_ s0)).
      { unfold coalesce_spec in Hspec. rewrite last_snoc in Hspec.
        cbn [head negb andb blk_freed blk_addr blk_size fst snd from_option id]
          in Hspec.
        destruct tf; cbn [negb andb] in Hspec; rewrite ?removelast_last in Hspec;
          injection Hspec as <- <- <- <-; split_and!; try done; lia. }
      destruct Htot as (-> & Htot & Hshape).
      destruct (split_correct s1 H1' r' total [] Ls1 asize HI1)
        as (s2 & Ls' & Hsp & Hsame & HI'); [clia|done|].
      pose proof (split_frame s1 H1' r' total [] Ls1 asize s2 HI1 ltac:(clia)
                    Hamod Hsp) as Hfr2.
      rewrite Hsp in Hm. cbn [mbind option_bind] in Hm. injection Hm as <- <-.
      replace (r' + HSIZE - HSIZE) with r' by lia.
      eexists _, Ls', (if decide (total - asize < HSIZE + FSIZE) then total else asize).
      split; [exact HI'|]. split_and!.
      * apply elem_of_middle. left. case_decide; by left.
      * case_decide; lia.
      * intros x Hx. rewrite (split_result_alloc _ _ _ _ _ _ Hx).
        rewrite (Hal x Hx). tauto.
      * intros sz0 Hin'. destruct tf.
        -- destruct Hshape as (_ & -> & _).
           pose proof (chain_addr_inj _ _ _ _ _ (R_size _ _ _ HR0)
                         (R_chain _ _ _ HR0) Hin' Htin eq_refl). congruence.
        -- destruct Hshape as (_ & ->).
           destruct (Repr_addr_range _ _ _ _ HR0 Hin') as (_ & _ & _ & ? & ?).
           cbn [blk_addr blk_size fst snd] in *. lia.
      * intros x Hx Hxe. rewrite Hfr2; [by apply Hfr1|].
        intros [Hf|Hf]%in_free_app.
        -- apply Hx. destruct tf.
           ++ destruct Hshape as (-> & _). apply in_free_app. by left.
           ++ destruct Hshape as (-> & _). done.
        -- destruct Hf as (b & szb & [= -> ->]%list_elem_of_singleton & Hrg).
           destruct tf.
           ++ destruct Hshape as (_ & -> & ->). apply Hx.
              apply (in_free_intro _ t tsz); [done|].
              change (end_ s0) with (end_ s) in Htend. lia.
           ++ destruct Hshape as (_ & ->).
              change (end_ s0) with (end_ s) in Hrg. lia.
      * destruct Hsame as (-> & _). done.
      * destruct Hsame as (_ & -> & _). rewrite He1.
        change (end_ s0) with (end_ s). lia.
      * case_decide; clia.
    + rewrite (extend_heap_fail ext s0 Hfail) in Hm. cbn [mbind option_bind] in Hm.
      rewrite decide_True in Hm by done. injection Hm as <- <-. done.
Qed.

(** * The steps of an application, with what they keep *)

Lemma alloc_not_free s H Ls b sz x :
  Repr s H Ls → (b, sz, false) ∈ H → b ≤ x < b + sz →
  ¬ in_free H x ∧ x < end_ s.
Proof.
  intros R Hin Hx. split.
  - intros (w & szw & Hw & Hxw).
    destruct (chain_disjoint _ _ _ _ _ (R_size _ _ _ R) (R_chain _ _ _ R) Hin Hw)
      as [?|Hd]; [done|]. cbn [blk_addr blk_size fst snd] in Hd. lia.
  - destruct (Repr_addr_range _ _ _ _ R Hin) as (_ & _ & _ & Hle & _).
    cbn [blk_addr blk_size fst snd] in Hle. lia.
Qed.

Lemma malloc_step s H Ls A fuel n p s' :
  Inv s H Ls → alloc_ok A H → all_held A H → 0 ≤ n → n + 63 < 2 ^ 64 →
  malloc fuel n s = Some (p, s') →
  ∃ H' Ls',
    Inv s' H' Ls' ∧
    alloc_ok (if decide (p = NULL) then A else p :: A) H' ∧
    all_held (if decide (p = NULL) then A else p :: A) H' ∧
    (p ≠ NULL →
     (p ∉ A) ∧ ∃ sz, (p - HSIZE, sz, false) ∈ H' ∧ alloc_size n ≤ sz) ∧
    (∀ b sz, (b, sz, false) ∈ H →
       (b, sz, false) ∈ H' ∧ ∀ x, b ≤ x < b + sz → mem s' x = mem s x) ∧
    heap s' = heap s ∧ end_ s ≤ end_ s' ∧
    (∀ sz, (p - HSIZE, sz, false) ∈ H' → p ≠ NULL →
           sz < alloc_size n + HSIZE + FSIZE).
Proof.
  intros HI HA HE Hn0 Hnmax Hm. pose proof (I_repr _ _ _ HI) as R.
  assert (Hsame : ∀ st, same_core s st →
    ∃ H' Ls',
      Inv st H' Ls' ∧ alloc_ok A H' ∧ all_held A H' ∧
      (∀ b sz, (b, sz, false) ∈ H →
         (b, sz, false) ∈ H' ∧ ∀ x, b ≤ x < b + sz → mem st x = mem s x) ∧
      heap st = heap s ∧ end_ s ≤ end_ st).
  { intros st Hst. exists H, Ls. split_and!; try done.
    - by apply (Inv_core s).
    - intros b sz Hin. split; [done|]. intros x _.
      destruct Hst as (-> & _). done.
    - by destruct Hst as (_ & _ & _ & _ & _ & -> & _).
    - destruct Hst as (_ & _ & _ & _ & _ & _ & ->). lia. }
  destruct (decide (n = 0)) as [->|Hn].
  { unfold malloc in Hm. rewrite decide_True in Hm by done.
    injection Hm as <- <-. rewrite decide_True by done.
    destruct (Hsame _ (same_core_set_mallocs (int (mallocs s + 1)) s))
      as (H' & Ls' & ? & ? & ? & ? & ? & ?).
    exists H', Ls'. split_and!; done. }
  destruct (enough_fuel_exists Ls) as [fuel0 Hf0].
  pose proof (malloc_mono fuel (fuel `max` fuel0)%nat n s _ ltac:(lia) Hm) as Hm'.
  assert (enough_fuel (fuel `max` fuel0)%nat Ls) as HF
    by (eapply enough_fuel_mono; [|done]; lia).
  destruct (decide (p = NULL)) as [->|Hp].
  { destruct (malloc_correct s H Ls _ n HI ltac:(lia) Hnmax HF)
      as (p' & s'' & Hm'' & Hcase).
    rewrite Hm' in Hm''. injection Hm'' as <- <-.
    destruct Hcase as [(_ & -> & _)|(? & _)]; [|done].
    destruct (Hsame _ (same_core_malloc_failed s))
      as (H' & Ls' & ? & ? & ? & ? & ? & ?).
    exists H', Ls'. split_and!; done. }
  destruct (malloc_exact s H Ls _ n p s' HI ltac:(lia) Hnmax HF Hm' Hp)
    as (H' & Ls' & sz & HI' & Hin & Hsz & Hex & Hfresh & Hfr & Hh & He & Hup).
  exists H', Ls'. split_and!; try done.
  - intros q [->|Hq]%elem_of_cons; [eauto|].
    destruct (HA q Hq) as (szq & Hq'). exists szq.
    apply (Hex (q - HSIZE, szq, false)); [done|by left].
  - intros b szb Hb.
    destruct (proj1 (Hex (b, szb, false) eq_refl) Hb) as [Hb'|[= -> ->]].
    + right. by apply (HE b szb).
    + replace (p - HSIZE + HSIZE) with p by lia. by left.
  - intros _. split; [|eauto]. intros Hq.
    destruct (HA p Hq) as (sz0 & Hq'). by apply (Hfresh sz0).
  - intros b szb Hb. split; [apply (Hex (b, szb, false)); [done|by left]|].
    intros x Hx. destruct (alloc_not_free s H Ls b szb x R Hb Hx).
    by apply Hfr.
  - intros sz0 Hin0 _.
    pose proof (I_repr _ _ _ HI') as R'.
    pose proof (chain_addr_inj _ _ _ _ _ (R_size _ _ _ R') (R_chain _ _ _ R')
                  Hin0 Hin eq_refl) as E.
    injection E as ->. done.
Qed.

Lemma free_step s H Ls A p s' :
  Inv s H Ls → alloc_ok A H → all_held A H → p = NULL ∨ p ∈ A →
  free p s = Some s' →
  ∃ H' Ls',
    Inv s' H' Ls' ∧
    alloc_ok (filter (λ q, q ≠ p) A) H' ∧
    all_held (filter (λ q, q ≠ p) A) H' ∧
    (∀ b sz, (b, sz, false) ∈ H → b ≠ p - HSIZE →
       (b, sz, false) ∈ H' ∧ ∀ x, b ≤ x < b + sz → mem s' x = mem s x) ∧
    heap s' = heap s ∧ end_ s' = end_ s.
Proof.
  intros HI HA HE [->|Hp] Hf; pose proof (I_repr _ _ _ HI) as R.
  - unfold free in Hf. rewrite decide_True in Hf by done. injection Hf as <-.
    exists H, Ls. split_and!; try done.
    + apply (alloc_ok_filter A H); [done|auto].
    + intros b sz Hb. apply list_elem_of_filter. split; [|by apply (HE b sz)].
      destruct (Repr_addr_range _ _ _ _ R Hb) as (? & _).
      cbn [blk_addr fst snd] in *. clia.
  - destruct (HA p Hp) as (sz & Hin).
    pose proof (free_frame s H Ls p sz s' HI Hin Hf) as Hfr.
    destruct (free_correct s H Ls p sz HI Hin)
      as (H1 & H2 & s'' & Ls' & H1' & r & total & H2' & -> & _ & Hf' & HI'
          & Hsame & _ & Hal).
    rewrite Hf in Hf'. injection Hf' as <-.
    assert (Hkeep : ∀ b sz', (b, sz', false) ∈ H1 ++ (p - HSIZE, sz, false) :: H2 →
              b ≠ p - HSIZE → (b, sz', false) ∈ H1' ++ (r, total, true) :: H2').
    { intros b sz' Hb Hne.
      assert (Hb' : (b, sz', false) ∈ H1 ++ H2).
      { rewrite !elem_of_app, elem_of_cons in Hb. rewrite elem_of_app.
        destruct Hb as [?|[[= -> _]|?]]; [by left|done|by right]. }
      apply (Hal (b, sz', false)) in Hb'; [|done].
      rewrite !elem_of_app, elem_of_cons. rewrite elem_of_app in Hb'. tauto. }
    exists (H1' ++ (r, total, true) :: H2'), Ls'. split_and!; try done.
    + apply (alloc_ok_filter A (H1 ++ (p - HSIZE, sz, false) :: H2)); done.
    + intros b sz' Hb.
      assert (Hb' : (b, sz', false) ∈ H1 ++ H2).
      { apply (Hal (b, sz', false)); [done|].
        rewrite !elem_of_app, elem_of_cons in Hb. rewrite elem_of_app.
        destruct Hb as [?|[[= ]|?]]; tauto. }
      destruct (Repr_around _ _ _ _ _ _ R Hb') as (Hb'' & H16 & Hd).
      destruct (Repr_addr_range _ _ _ _ R Hin) as (_ & _ & _ & _ & ?).
      cbn [blk_addr blk_size fst snd] in *.
      apply list_elem_of_filter. split; [clia|by apply (HE b sz')].
    + intros b sz' Hb Hne. split; [by apply Hkeep|]. intros x Hx.
      destruct (alloc_not_free s _ Ls b sz' x R Hb Hx) as [Hnf _].
      apply Hfr; [done|].
      destruct (chain_disjoint _ _ _ _ _ (R_size _ _ _ R) (R_chain _ _ _ R) Hb Hin)
        as [[= ? _]|Hd]; [done|]. cbn [blk_addr blk_size fst snd] in Hd. lia.
    + by destruct Hsame as (-> & _).
    + by destruct Hsame as (_ & -> & _).
Qed.

Lemma blocks_apart s H Ls b sz b' sz' f f' :
  Repr s H Ls → (b, sz, f) ∈ H → (b', sz', f') ∈ H → b ≠ b' →
  b + sz ≤ b' ∨ b' + sz' ≤ b.
Proof.
  intros R Hb Hb' Hne.
  destruct (chain_disjoint _ _ _ _ _ (R_size _ _ _ R) (R_chain _ _ _ R) Hb Hb')
    as [[= ? _]|Hd]; [done|]. cbn [blk_addr blk_size fst snd] in Hd. lia.
Qed.

Lemma calloc_step s H Ls A fuel nmemb size p s' :
  Inv s H Ls → alloc_ok A H → all_held A H →
  size_t (size * nmemb) + 63 < 2 ^ 64 →
  calloc fuel nmemb size s = Some (p, s') →
  ∃ H' Ls',
    Inv s' H' Ls' ∧
    alloc_ok (if decide (p = NULL) then A else p :: A) H' ∧
    all_held (if decide (p = NULL) then A else p :: A) H' ∧
    (p ≠ NULL →
     (p ∉ A) ∧
     (∃ sz, (p - HSIZE, sz, false) ∈ H' ∧
            alloc_size (size_t (size * nmemb)) ≤ sz) ∧
     ∀ x, p ≤ x < p + size_t (size * nmemb) → mem s' x = 0) ∧
    (∀ b sz, (b, sz, false) ∈ H →
       (b, sz, false) ∈ H' ∧ ∀ x, b ≤ x < b + sz → mem s' x = mem s x) ∧
    heap s' = heap s ∧ end_ s ≤ end_ s'.
Proof.
  intros HI HA HE Hn Hc. unfold calloc in Hc.
  pose proof (size_t_range (size * nmemb)) as Hr.
  set (n := size_t (size * nmemb)) in *.
  destruct (malloc fuel n s) as [[ptr s1]|] eqn:Hm; [|done].
  cbn [mbind option_bind] in Hc.
  destruct (malloc_step s H Ls A fuel n ptr s1 HI HA HE) as
    (H' & Ls' & HI' & HA' & HE' & Hnew & Hkeep & Hh & He & _); [lia|done|done|].
  exists H', Ls'. destruct (decide (ptr ≠ NULL)) as [Hptr|Hptr];
    injection Hc as <- <-.
  - rewrite decide_False in * by done.
    destruct (Hnew Hptr) as (Hfresh & sz & Hin & Hsz).
    destruct (alloc_size_bounds n) as [Hab _]; [lia|lia|].
    pose proof (I_repr _ _ _ HI') as R'.
    split_and!; try done.
    + apply (Inv_payload_write s1 H' Ls' (ptr - HSIZE) sz); [done|done|].
      intros x Hx. apply memset_other. clia.
    + intros _. split_and!; [done|eauto|].
      intros x Hx. st_simpl. unfold memset. by rewrite decide_True.
    + intros b szb Hb. destruct (Hkeep b szb Hb) as [Hb' Hmem].
      split; [done|]. intros x Hx. st_simpl. rewrite <- (Hmem x Hx).
      apply memset_other.
      assert (b ≠ ptr - HSIZE) as Hne.
      { intros ->. apply Hfresh.
        replace ptr with (ptr - HSIZE + HSIZE) by lia. by apply (HE _ szb). }
      destruct (blocks_apart s1 H' Ls' b szb (ptr - HSIZE) sz _ _ R' Hb' Hin Hne);
        clia.
  - assert (ptr = NULL) as -> by (by destruct (decide (ptr = NULL)); [|destruct Hptr]).
    rewrite decide_True in * by done. done.
Qed.

Lemma write_step s H Ls A p m' :
  Inv s H Ls → alloc_ok A H → p ∈ A →
  (∀ x, ¬ (p ≤ x < p + payload_size s p) → m' x = mem s x) →
  Inv (set_mem m' s) H Ls ∧
  ∀ b sz, (b, sz, false) ∈ H → b ≠ p - HSIZE →
          ∀ x, b ≤ x < b + sz → m' x = mem s x.
Proof.
  intros HI HA Hp Hout. split; [by eapply write_preserves|].
  intros b sz Hb Hne x Hx. apply Hout.
  destruct (HA p Hp) as (szp & Hin). pose proof (I_repr _ _ _ HI) as R.
  unfold payload_size.
  destruct (Repr_tags _ _ _ _ _ _ R Hin) as (-> & _).
  destruct (blocks_apart s H Ls b sz (p - HSIZE) szp _ _ R Hb Hin Hne); clia.
Qed.

(** The common end of the two moving branches of [realloc]. *)
Lemma move_step s H Ls A fuel oldptr osz size len newptr s' :
  Inv s H Ls → alloc_ok A H → all_held A H →
  oldptr ∈ A → (oldptr - HSIZE, osz, false) ∈ H →
  0 < size → size + 63 < 2 ^ 64 →
  0 ≤ len ≤ alloc_size size - HSIZE - FSIZE → len ≤ osz - HSIZE - FSIZE →
  ('(np, s1) ← malloc fuel size s;
   if decide (np = NULL) then Some (NULL, s1)
   else
     let s1 := set_mem (memcpy (mem s1) np oldptr len) s1 in
     s2 ← free oldptr s1; Some (np, s2)) = Some (newptr, s') →
  ∃ H' Ls',
    Inv s' H' Ls' ∧
    alloc_ok (if decide (newptr = NULL) then A
              else filter (λ q, q ≠ oldptr) (newptr :: A)) H' ∧
    all_held (if decide (newptr = NULL) then A
              else filter (λ q, q ≠ oldptr) (newptr :: A)) H' ∧
    (newptr ≠ NULL →
     (newptr ∉ A) ∧
     (∃ sz, (newptr - HSIZE, sz, false) ∈ H' ∧ alloc_size size ≤ sz) ∧
     ∀ i, 0 ≤ i < len → mem s' (newptr + i) = mem s (oldptr + i)) ∧
    (∀ b sz, (b, sz, false) ∈ H → b ≠ oldptr - HSIZE ∨ newptr = NULL →
       (b, sz, false) ∈ H' ∧ ∀ x, b ≤ x < b + sz → mem s' x = mem s x) ∧
    heap s' = heap s ∧ end_ s ≤ end_ s'.
Proof.
  intros HI HA HE Hold Hoin Hsz Hmax Hlen Hlen' Hrun.
  destruct (malloc fuel size s) as [[np s1]|] eqn:Hm; [|done].
  cbn [mbind option_bind] in Hrun.
  destruct (malloc_step s H Ls A fuel size np s1 HI HA HE) as
    (H1 & Ls1 & HI1 & HA1 & HE1 & Hnew & Hkeep1 & Hh1 & He1 & _); [lia|done|done|].
  destruct (decide (np = NULL)) as [->|Hnp].
  - injection Hrun as <- <-. exists H1, Ls1. rewrite decide_True by done.
    split_and!; try done. intros b sz Hb _. by apply Hkeep1.
  - destruct (Hnew Hnp) as (Hfresh & sz & Hin & Hsz').
    cbv zeta in Hrun.
    set (s1' := set_mem (memcpy (mem s1) np oldptr len) s1) in *.
    pose proof (I_repr _ _ _ HI1) as R1.
    assert (HI1' : Inv s1' H1 Ls1).
    { apply (Inv_payload_write s1 H1 Ls1 (np - HSIZE) sz); [done|done|].
      intros x Hx. apply memcpy_other. clia. }
    destruct (free oldptr s1') as [s2|] eqn:Hf; [|done].
    cbn [mbind option_bind] in Hrun. injection Hrun as <- <-.
    rewrite decide_False by done.
    destruct (free_step s1' H1 Ls1 (np :: A) oldptr s2 HI1' HA1 HE1)
      as (H2 & Ls2 & HI2 & HA2 & HE2 & Hkeep2 & Hh2 & He2);
      [right; by right|done|].
    assert (Hne : np - HSIZE ≠ oldptr - HSIZE).
    { intros E. apply Hfresh. by replace np with oldptr by lia. }
    exists H2, Ls2. split_and!; try done.
    + intros _. split_and!; [done| |].
      * exists sz. split; [|done]. by apply Hkeep2.
      * intros i Hi. destruct (Hkeep2 _ _ Hin Hne) as [_ Hmem2].
        rewrite Hmem2 by clia. unfold s1'. st_simpl. unfold memcpy.
        rewrite decide_True by lia.
        replace (oldptr + (np + i - np)) with (oldptr + i) by lia.
        destruct (Hkeep1 _ _ Hoin) as [_ Hmem1]. apply Hmem1. clia.
    + intros b szb Hb [Hbne|?]; [|done].
      destruct (Hkeep1 b szb Hb) as [Hb1 Hmem1].
      destruct (Hkeep2 b szb Hb1 Hbne) as [Hb2 Hmem2].
      split; [done|]. intros x Hx. rewrite (Hmem2 x Hx), <- (Hmem1 x Hx).
      unfold s1'. st_simpl. apply memcpy_other.
      assert (b ≠ np - HSIZE) as Hbn.
      { intros ->. apply Hfresh.
        replace np with (np - HSIZE + HSIZE) by lia. by apply (HE _ szb). }
      destruct (blocks_apart s1 H1 Ls1 b szb (np - HSIZE) sz _ _ R1 Hb1 Hin Hbn);
        clia.
    + rewrite Hh2. exact Hh1.
    + rewrite He2. exact He1.
Qed.

Lemma realloc_step s H Ls A fuel oldptr size newptr s' :
  Inv s H Ls → alloc_ok A H → all_held A H →
  oldptr = NULL ∨ oldptr ∈ A → 0 ≤ size → size + 63 < 2 ^ 64 →
  realloc fuel oldptr size s = Some (newptr, s') →
  ∃ H' Ls',
    Inv s' H' Ls' ∧
    alloc_ok (realloc_live s A oldptr size newptr) H' ∧
    all_held (realloc_live s A oldptr size newptr) H' ∧
    (newptr ≠ NULL →
     (∃ sz, (newptr - HSIZE, sz, false) ∈ H' ∧ alloc_size size ≤ sz) ∧
     (oldptr ≠ NULL →
      ∀ i, 0 ≤ i < Z.min size (payload_size s oldptr) →
           mem s' (newptr + i) = mem s (oldptr + i))) ∧
    (∀ b sz, (b, sz, false) ∈ H →
       b ≠ oldptr - HSIZE ∨ (newptr = NULL ∧ size ≠ 0) →
       (b, sz, false) ∈ H' ∧ ∀ x, b ≤ x < b + sz → mem s' x = mem s x) ∧
    heap s' = heap s ∧ end_ s ≤ end_ s'.
Proof.
  intros HI HA HE Hold Hsz Hmax Hr. unfold realloc in Hr. unfold realloc_live.
  destruct (decide (int size < 0)).
  { injection Hr as <- <-. exists H, Ls. split_and!; try done; lia. }
  destruct (decide (size = 0)) as [->|Hn0].
  { destruct (free oldptr s) as [s1|] eqn:Hf; [|done].
    cbn [mbind option_bind] in Hr. injection Hr as <- <-.
    destruct (free_step s H Ls A oldptr s1 HI HA HE Hold Hf)
      as (H' & Ls' & ? & ? & ? & Hkeep & ? & He).
    exists H', Ls'. split_and!; try done; try lia.
    intros b sz Hb [Hne|[_ ?]]; [|done]. by apply Hkeep. }
  destruct (decide (oldptr = NULL)) as [->|Hnn].
  { destruct (malloc_step s H Ls A fuel size newptr s' HI HA HE Hsz Hmax Hr)
      as (H' & Ls' & ? & ? & ? & Hnew & Hkeep & ? & ? & _).
    exists H', Ls'. split_and!; try done.
    - intros Hp. destruct (Hnew Hp) as (_ & ?). done.
    - intros b sz Hb _. by apply Hkeep. }
  destruct Hold as [?|Hold]; [done|].
  destruct (HA oldptr Hold) as (osz & Hin).
  destruct (Repr_tags _ _ _ _ _ _ (I_repr _ _ _ HI) Hin) as (Hosz & _).
  pose proof (I_min _ _ _ HI) as Hmin. rewrite Forall_forall in Hmin.
  specialize (Hmin _ Hin). cbn [blk_size fst snd] in Hmin.
  destruct (Repr_addr_range _ _ _ _ (I_repr _ _ _ HI) Hin) as (? & ? & _).
  cbn [blk_addr blk_size fst snd] in *.
  unfold payload_size. rewrite Hosz in *.
  destruct (alloc_size_bounds size) as [Has _]; [lia|lia|].
  destruct (decide (alloc_size size = osz)) as [Heq|Hneq].
  { injection Hr as <- <-. exists H, Ls. split_and!; try done; try lia.
    intros _. split; [|done]. exists osz. split; [done|lia]. }
  assert (Hmove : ∀ len,
    0 ≤ len ≤ alloc_size size - HSIZE - FSIZE → len ≤ osz - HSIZE - FSIZE →
    Z.min size (osz - HSIZE - FSIZE) ≤ len →
    ('(np, s1) ← malloc fuel size s;
     if decide (np = NULL) then Some (NULL, s1)
     else
       let s1 := set_mem (memcpy (mem s1) np oldptr len) s1 in
       s2 ← free oldptr s1; Some (np, s2)) = Some (newptr, s') →
    ∃ H' Ls',
      Inv s' H' Ls' ∧
      alloc_ok (if decide (newptr = NULL) then A
                else filter (λ q, q ≠ oldptr) (newptr :: A)) H' ∧
      all_held (if decide (newptr = NULL) then A
                else filter (λ q, q ≠ oldptr) (newptr :: A)) H' ∧
      (newptr ≠ NULL →
       (∃ sz, (newptr - HSIZE, sz, false) ∈ H' ∧ alloc_size size ≤ sz) ∧
       (oldptr ≠ NULL →
        ∀ i, 0 ≤ i < Z.min size (osz - HSIZE - FSIZE) →
             mem s' (newptr + i) = mem s (oldptr + i))) ∧
      (∀ b sz, (b, sz, false) ∈ H →
         b ≠ oldptr - HSIZE ∨ (newptr = NULL ∧ size ≠ 0) →
         (b, sz, false) ∈ H' ∧ ∀ x, b ≤ x < b + sz → mem s' x = mem s x) ∧
      heap s' = heap s ∧ end_ s ≤ end_ s').
  { intros len Hl1 Hl2 Hl3 Hrun.
    destruct (move_step s H Ls A fuel oldptr osz size len newptr s' HI HA HE
                Hold Hin ltac:(lia) Hmax Hl1 Hl2 Hrun)
      as (H' & Ls' & ? & ? & ? & Hnew & Hkeep & ? & ?).
    exists H', Ls'. split_and!; try done.
    - intros Hp. destruct (Hnew Hp) as (_ & ? & Hcopy). split; [done|].
      intros _ i Hi. apply Hcopy. lia.
    - intros b sz Hb Hc. apply Hkeep; [done|]. tauto. }
  destruct (decide (alloc_size size < osz)).
  - apply (Hmove (size_t (size_t (alloc_size size - HSIZE) - FSIZE)));
      [| | |exact Hr];
      rewrite (size_t_small (alloc_size size - HSIZE)) by clia;
      rewrite size_t_small by clia; clia.
  - apply (Hmove (size_t (size_t (osz - HSIZE) - FSIZE)));
      [| | |exact Hr];
      rewrite (size_t_small (osz - HSIZE)) by clia;
      rewrite size_t_small by clia; clia.
Qed.

(** * The blocks marked allocated are the blocks the application holds *)

Lemma reachable_exact s A :
  reachable s A → ∃ H Ls, Inv s H Ls ∧ alloc_ok A H ∧ all_held A H.
Proof.
  induction 1 as [s0 s Hhost Hinit
                 |s A fuel n p s' _ (H & Ls & HI & HA & HE) Hn Hmax Hm
                 |s A p s' _ (H & Ls & HI & HA & HE) Hp Hf
                 |s A fuel nmemb size p s' _ (H & Ls & HI & HA & HE) Hmax Hc
                 |s A fuel oldptr size newptr s' _ (H & Ls & HI & HA & HE)
                    Hold Hsz Hmax Hr
                 |s A p m' _ (H & Ls & HI & HA & HE) Hp Hout].
  - destruct (decide (load_char (mem s0) (mem_brk s0) = -1)) as [Hff|Hff].
    + destruct (mm_init_test s0) as (s1 & Hi); [apply Hhost|done|]. congruence.
    + destruct (mm_init_correct s0 Hhost Hff) as (s1 & Ls & Hi & HI & _).
      rewrite Hinit in Hi. injection Hi as <-.
      eexists _, Ls. split_and!; [done| |].
      * by intros q ?%elem_of_nil.
      * by intros b sz [= ]%list_elem_of_singleton.
  - destruct (malloc_step s H Ls A fuel n p s' HI HA HE Hn Hmax Hm)
      as (H' & Ls' & ? & ? & ? & _). eauto.
  - destruct (free_step s H Ls A p s' HI HA HE Hp Hf)
      as (H' & Ls' & ? & ? & ? & _). eauto.
  - destruct (calloc_step s H Ls A fuel nmemb size p s' HI HA HE Hmax Hc)
      as (H' & Ls' & ? & ? & ? & _). eauto.
  - destruct (realloc_step s H Ls A fuel oldptr size newptr s' HI HA HE Hold
                Hsz Hmax Hr) as (H' & Ls' & ? & ? & ? & _). eauto.
  - exists H, Ls. split_and!; [by eapply write_preserves|done|done].
Qed.

(** With no pointer held, the heap is one free block. *)
Lemma all_free_single s H Ls :
  Inv s H Ls → (∀ x, x ∈ H → blk_freed x = true) →
  H = [(heap s, end_ s - heap s, true)].
Proof.
  intros I Hfree. pose proof (I_repr _ _ _ I) as R.
  pose proof (R_chain _ _ _ R) as Hc.
  destruct H as [|[[b sz] f] [|[[b' sz'] f'] H]]; [by destruct (I_nonempty _ _ _ I)| |].
  - simpl in Hc. cbn [blk_addr blk_size fst snd] in Hc. destruct Hc as [-> <-].
    assert (f = true) as -> by (apply (Hfree (heap s, sz, f)); by left).
    do 2 f_equal. f_equal. lia.
  - exfalso. simpl in Hc. cbn [blk_addr blk_size fst snd] in Hc.
    destruct Hc as (Hb & Hb' & _).
    apply (I_adj _ _ _ I (b, sz, f) (b', sz', f')).
    + by left.
    + right. by left.
    + cbn [blk_addr blk_size fst snd]. lia.
    + split; apply Hfree; [by left|right; by left].
Qed.

(** * More example states *)

Lemma st_m2_eq : malloc 8 200 st_m = Some (4288, st_m2).
Proof.
  assert (fst <$> malloc 8 200 st_m = Some 4288) as E
    by (vm_compute; reflexivity).
  unfold st_m2. destruct (malloc 8 200 st_m) as [[p s']|]; [|discriminate].
  injection E as ->. reflexivity.
Qed.

Lemma st_m2_reachable : reachable st_m2 [4288; 4128].
Proof.
  exact (reach_malloc st_m [4128] 8 200 4288 st_m2 st_m_reachable
           ltac:(lia) ltac:(lia) st_m2_eq).
Qed.

Lemma st_f_eq : free 4128 st_m = Some st_f.
Proof.
  assert ((λ _, tt) <$> free 4128 st_m = Some tt) as E
    by (vm_compute; reflexivity).
  unfold st_f. destruct (free 4128 st_m); [reflexivity|discriminate].
Qed.

Lemma st_f_reachable : reachable st_f [].
Proof.
  exact (reach_free st_m [4128] 4128 st_f st_m_reachable
           (or_intror (list_elem_of_here 4128 [])) st_f_eq).
Qed.

Lemma st_f2_eq : free 4128 st_m2 = Some st_f2.
Proof.
  assert ((λ _, tt) <$> free 4128 st_m2 = Some tt) as E
    by (vm_compute; reflexivity).
  unfold st_f2. destruct (free 4128 st_m2); [reflexivity|discriminate].
Qed.



(** * From blocks to payloads *)

Lemma payload_kept s s' H H' Ls Ls' q sz :
  Repr s H Ls → Repr s' H' Ls' →
  (q - HSIZE, sz, false) ∈ H → (q - HSIZE, sz, false) ∈ H' →
  (∀ x, q - HSIZE ≤ x < q - HSIZE + sz → mem s' x = mem s x) →
  payload_size s' q = payload_size s q ∧
  get_freed s' (q - HSIZE) = false ∧
  ∀ x, q ≤ x < q + payload_size s q → mem s' x = mem s x.
Proof.
  intros R R' Hin Hin' Hmem.
  destruct (Repr_tags _ _ _ _ _ _ R Hin) as (Hs & _).
  destruct (Repr_tags _ _ _ _ _ _ R' Hin') as (Hs' & Hf' & _).
  unfold payload_size. rewrite Hs, Hs'. split_and!; [done|done|].
  intros x Hx. apply Hmem. clia.
Qed.

Lemma payload_of_block s H Ls p sz :
  Repr s H Ls → (p - HSIZE, sz, false) ∈ H →
  payload_size s p = sz - HSIZE - FSIZE ∧ get_freed s (p - HSIZE) = false.
Proof.
  intros R Hin. destruct (Repr_tags _ _ _ _ _ _ R Hin) as (Hs & Hf & _).
  unfold payload_size. by rewrite Hs.
Qed.

(** * The search reads the memory and the bucket heads only *)

Lemma find_fit_in_core fuel s s' h asize :
  mem s' = mem s → find_fit_in fuel s' h asize = find_fit_in fuel s h asize.
Proof.
  intros Hm. revert h. induction fuel as [|fuel IH]; intros h; [done|].
  cbn [find_fit_in]. unfold get_size, get_next. rewrite Hm.
  repeat case_decide; try done.
Qed.

Lemma find_fit_from_core n fuel s s' class asize :
  mem s' = mem s → flp_list s' = flp_list s →
  find_fit_from n fuel s' class asize = find_fit_from n fuel s class asize.
Proof.
  intros Hm Hf. revert class. induction n as [|n IH]; intros class; [done|].
  cbn [find_fit_from]. unfold flp_get. rewrite Hf.
  destruct (decide (0 ≤ class)); [|done].
  destruct (flp_list s !! Z.to_nat class) as [h|]; [|done].
  cbn [mbind option_bind]. rewrite (find_fit_in_core fuel s s' h asize Hm).
  destruct (find_fit_in fuel s h asize) as [r|]; [|done].
  cbn [mbind option_bind]. case_decide; [done|]. apply IH.
Qed.

Lemma find_fit_seg_core fuel asize s s' :
  mem s' = mem s → flp_list s' = flp_list s →
  find_fit_seg fuel asize s' = find_fit_seg fuel asize s.
Proof.
  intros Hm Hf. unfold find_fit_seg.
  destruct (map_to_class asize) as [c|]; [|done]. cbn [mbind option_bind].
  by apply find_fit_from_core.
Qed.

(** * The members of the index are the free blocks of the heap *)

Lemma chain_NoDup_addr a H e :
  Forall size_ok H → chain a H e → NoDup (blk_addr <$> H).
Proof.
  revert a. induction H as [|x H IH]; intros a Hsz Hc; [constructor|].
  apply Forall_cons in Hsz as [Hx Hsz]. simpl in Hc. destruct Hc as [Hax Hc].
  cbn [fmap list_fmap]. apply NoDup_cons. split; [|by eapply IH].
  intros (y & Hy & Hin)%list_elem_of_fmap.
  destruct (chain_elem_range _ _ _ _ Hsz Hc Hin) as (Hge & _).
  destruct Hx as [Hpos _]. lia.
Qed.

Lemma total_size_chain a H e : chain a H e → total_size H = e - a.
Proof.
  revert a. induction H as [|x H IH]; intros a Hc; simpl in Hc.
  - subst. unfold total_size. simpl. lia.
  - destruct Hc as [<- Hc]. unfold total_size in *. cbn [foldr].
    rewrite (IH _ Hc). lia.
Qed.

Lemma index_is_free_blocks s H Ls :
  Inv s H Ls →
  (∀ b, b ∈ concat Ls ↔ ∃ sz, (b, sz, true) ∈ H) ∧
  length (concat Ls) = length (filter (λ x, blk_freed x = true) H).
Proof.
  intros I. pose proof (I_repr _ _ _ I) as R.
  assert (∀ b, b ∈ concat Ls ↔ ∃ sz, (b, sz, true) ∈ H) as Hiff.
  { intros b. split.
    - intros [l [Hl Hin]]%elem_of_concat.
      apply list_elem_of_lookup in Hin as [k Hk].
      destruct (R_idx _ _ _ R k l b Hk Hl) as (sz & Hsz & _). eauto.
    - intros [sz Hin]. destruct (I_all _ _ _ I b sz Hin) as (k & _ & L & Hk & Hb).
      apply elem_of_concat. exists L. split; [done|].
      by eapply list_elem_of_lookup_2. }
  split; [done|].
  rewrite <- (length_fmap blk_addr (filter _ H)).
  apply Permutation_length, NoDup_Permutation.
  - apply NoDup_concat_idx; [exact (R_nodup _ _ _ R)|].
    intros i j Li Lj x Hi Hj Hxi Hxj.
    exact (Repr_bucket_inj s H Ls i j Li Lj x R Hi Hj Hxi Hxj).
  - apply (sublist_NoDup _ (blk_addr <$> H)).
    + exact (chain_NoDup_addr _ _ _ (R_size _ _ _ R) (R_chain _ _ _ R)).
    + by apply fmap_sublist, sublist_filter.
  - intros b. rewrite Hiff. split.
    + intros [sz Hin]. apply list_elem_of_fmap. exists (b, sz, true).
      split; [done|]. by apply list_elem_of_filter.
    + intros ([[b' sz] f] & -> & [Hf Hin]%list_elem_of_filter)%list_elem_of_fmap.
      cbn in Hf. subst f. by exists sz.
Qed.

Lemma st_f2_reachable : reachable st_f2 [4288].
Proof.
  exact (reach_free st_m2 [4288; 4128] 4128 st_f2 st_m2_reachable
           (or_intror (list_elem_of_further 4128 4288 [4128]
                         (list_elem_of_here 4128 []))) st_f2_eq).
Qed.

Lemma st_full_eq : malloc 8 2040 st_init = Some (4128, st_full).
Proof.
  assert (fst <$> malloc 8 2040 st_init = Some 4128) as E
    by (vm_compute; reflexivity).
  unfold st_full.
  destruct (malloc 8 2040 st_init) as [[p s']|]; [|discriminate].
  injection E as ->. reflexivity.
Qed.

Lemma st_full_reachable : reachable st_full [4128].
Proof.
  exact (reach_malloc st_init [] 8 2040 4128 st_full st_init_reachable
           ltac:(lia) ltac:(lia) st_full_eq).
Qed.

(** * A malloc that misses in the index *)

(** The run of [malloc] after a miss: the size it passes to [extend_heap],
    and what the extension and the split leave. *)
Lemma malloc_miss_run s H0 t tsz tf Ls fuel n :
  Inv s (H0 ++ [(t, tsz, tf)]) Ls → 0 < n → n + 63 < 2 ^ 64 →
  find_fit_seg fuel (alloc_size n) s = Some NULL →
  let asize := alloc_size n in
  let ext := if tf then asize - tsz else Z.max asize CHUNKSIZE in
  let s0 := set_mallocs (int (mallocs s + 1)) s in
  let r := if tf then t else mem_brk s in
  0 < ext ∧
  extend_size asize s = Some ext ∧
  malloc fuel n s =
    ('(b, s1) ← extend_heap ext s0;
     if decide (b = NULL) then Some (NULL, s1)
     else s2 ← split_block b asize s1; Some (b + HSIZE, s2)) ∧
  (mem_max_addr s < mem_brk s + ext →
     malloc fuel n s = Some (NULL, malloc_failed s)) ∧
  (mem_brk s + ext ≤ mem_max_addr s →
     ∃ s1 Ls1 s' Ls',
       extend_heap ext s0 = Some (r, s1) ∧
       mem_brk s1 = mem_brk s + ext ∧
       Inv s1 (H0 ++ (if tf then [(t, asize, true)]
                      else [(t, tsz, false); (mem_brk s, ext, true)])) Ls1 ∧
       malloc fuel n s = Some (r + HSIZE, s') ∧
       mem_brk s' = mem_brk s + ext ∧
       Inv s' (H0 ++ (if tf then [(t, asize, false)]
                      else (t, tsz, false) ::
                           if decide (ext - asize < HSIZE + FSIZE)
                           then [(mem_brk s, ext, false)]
                           else [(mem_brk s, asize, false);
                                 (mem_brk s + asize, ext - asize, true)])) Ls').
Proof.
  intros HI Hn Hnmax Hmiss asize ext s0 r.
  destruct (alloc_size_bounds n) as [Has Hamod]; [lia|lia|].
  fold asize in Has, Hamod, Hmiss.
  pose proof (I_repr _ _ _ HI) as HR.
  pose proof (Inv_core s s0 _ Ls (same_core_set_mallocs _ s) HI) as HI0.
  pose proof (I_repr _ _ _ HI0) as HR0.
  assert (Htin : (t, tsz, tf) ∈ H0 ++ [(t, tsz, tf)]).
  { apply elem_of_app. right. apply elem_of_cons. by left. }
  pose proof (R_size _ _ _ HR) as Hso. rewrite Forall_forall in Hso.
  destruct (Hso _ Htin) as [Htpos Htmod]. cbn [blk_size fst snd] in Htpos, Htmod.
  assert (tf = true → tsz < asize) as Hsmall.
  { intros ->.
    apply (find_fit_seg_result s (H0 ++ [(t, tsz, true)]) Ls) in Hmiss;
      [|done|lia].
    symmetry in Hmiss.
    rewrite (find_fit_spec_NULL s (H0 ++ [(t, tsz, true)]) Ls _ HR) in Hmiss
      by lia.
    destruct (Inv_free_member s _ Ls t tsz HI Htin) as (k & Hm & _ & <-).
    by apply (Hmiss k). }
  assert (Hext : 0 < ext ∧ ext mod 16 = 0 ∧
            (if tf then tsz + ext = asize else asize ≤ ext)).
  { unfold ext. destruct tf.
    - specialize (Hsmall eq_refl). split_and!; [lia|zlia|lia].
    - unfold CHUNKSIZE. split_and!; [lia| |lia].
      destruct (Z.max_spec asize 2048) as [[_ ->]|[_ ->]]; [done|done]. }
  destruct Hext as (Hext0 & Hextmod & Hextsz).
  assert (Hes : ∀ st, Repr st (H0 ++ [(t, tsz, tf)]) Ls →
            extend_size asize st = Some ext).
  { intros st Rst. rewrite (extend_size_spec st H0 t tsz tf Ls asize Rst).
    f_equal. unfold ext. destruct tf; [|apply max_Zmax].
    specialize (Hsmall eq_refl). apply size_t_small. lia. }
  assert (Hrun : malloc fuel n s =
            ('(b, s1) ← extend_heap ext s0;
             if decide (b = NULL) then Some (NULL, s1)
             else s2 ← split_block b asize s1; Some (b + HSIZE, s2))).
  { unfold malloc. fold s0. rewrite decide_False by lia. fold asize.
    rewrite (find_fit_seg_core fuel asize s s0 eq_refl eq_refl), Hmiss.
    cbn [mbind option_bind]. rewrite decide_False by (intros Hc; by apply Hc).
    rewrite (Hes s0 HR0). cbn [mbind option_bind]. done. }
  split_and!; [done|by apply Hes|done| |].
  - intros Hfail. rewrite Hrun.
    rewrite (extend_heap_fail ext s0) by (change (mem_brk s0) with (mem_brk s);
      change (mem_max_addr s0) with (mem_max_addr s); lia).
    cbn [mbind option_bind]. by rewrite decide_True by done.
  - intros Hok.
    pose proof (R_end _ _ _ HR) as Hend.
    assert (coalesce_spec (H0 ++ [(t, tsz, tf)]) (end_ s0) ext []
            = (if tf then H0 else H0 ++ [(t, tsz, false)],
               (r, if tf then asize else ext, true), [])) as Hspec.
    { unfold r. destruct tf.
      - rewrite coalesce_spec_tail. by rewrite Hextsz.
      - unfold coalesce_spec. rewrite last_snoc. cbn. by rewrite <- Hend. }
    assert (MINCLASSSIZE ≤ ext
            ∨ ∃ p, last (H0 ++ [(t, tsz, tf)]) = Some p ∧ blk_freed p = true)
      as Hcase.
    { destruct tf; [right|left].
      - exists (t, tsz, true). by rewrite last_snoc.
      - unfold MINCLASSSIZE. lia. }
    destruct (extend_heap_correct s0 _ Ls ext _ _ _ _ _ HI0 Hext0 Hextmod Hok
                Hcase Hspec)
      as (s1 & Ls1 & Hex & _ & Hr' & HI1 & Hh1 & He1 & Hb1 & _).
    change (mem_brk s0) with (mem_brk s) in Hb1.
    destruct (split_correct s1 _ r _ [] Ls1 asize HI1)
      as (s' & Ls' & Hsp & Hsame & HI'); [destruct tf; clia|done|].
    exists s1, Ls1, s', Ls'. split_and!.
    + done.
    + done.
    + destruct tf; [done|]. by rewrite <- app_assoc in HI1.
    + rewrite Hrun, Hex. cbn [mbind option_bind].
      rewrite decide_False by done. rewrite Hsp. done.
    + destruct Hsame as (_ & _ & -> & _). done.
    + unfold r in HI'. destruct tf.
      * rewrite decide_True in HI' by clia. done.
      * rewrite <- app_assoc in HI'. rewrite app_nil_r in HI'. exact HI'.
Qed.

(** * Splitting *)

(** C1, as stated, fails: the initial block of 2096 bytes split at 2048
    bytes leaves a remainder of 48 bytes, which is below
    [header + footer + 16 = 64]; the block is not consumed whole, a free
    block of 48 bytes is carved, and [malloc(2000)] after [mm_init] does
    exactly this. *)
Lemma split_block_carves_48 :
  split_at_2048 = Some [(4096, 2048, false); (6144, 48, true)] ∧
  malloc_2000 = Some (4128, [(4096, 2048, false); (6144, 48, true)]) ∧
  alloc_size 2000 = 2048 ∧
  2096 - 2048 < HSIZE + FSIZE + 16 ∧
  48 < min_block_spec.
Proof. vm_compute. split_and!; reflexivity. Qed.

(** C1 (amended): in every reachable state the heap walk yields blocks
    whose sizes are multiples of 16 and at least [header + footer = 48]
    bytes, and [split_block] on a free block of the heap consumes the whole
    block exactly when the remainder is below [header + footer = 48];
    otherwise it carves the remainder as a free block. *)
Theorem split_block_threshold s A :
  reachable s A →
  ∃ H Ls,
    Inv s H Ls ∧ heap_walk (length H) s (heap s) = H ∧
    Forall (λ x, HSIZE + FSIZE ≤ blk_size x ∧ blk_size x mod 16 = 0) H ∧
    ∀ H1 b sz H2 len,
      H = H1 ++ (b, sz, true) :: H2 →
      HSIZE + FSIZE ≤ len ≤ sz → len mod 16 = 0 →
      ∃ s' Ls',
        split_block b len s = Some s' ∧
        Inv s' (H1 ++ (if decide (sz - len < HSIZE + FSIZE)
                       then [(b, sz, false)]
                       else [(b, len, false); (b + len, sz - len, true)])
                   ++ H2) Ls'.
Proof.
  intros Hr. destruct (reachable_Inv s A Hr) as (H & Ls & I & _).
  exists H, Ls. split_and!; [done|by eapply Inv_heap_walk| |].
  - pose proof (I_min _ _ _ I) as Hmin.
    pose proof (R_size _ _ _ (I_repr _ _ _ I)) as Hsz.
    rewrite Forall_forall in Hmin. rewrite Forall_forall in Hsz.
    apply Forall_forall. intros x Hx.
    specialize (Hmin x Hx). destruct (Hsz x Hx) as [_ Hmod].
    unfold MINCLASSSIZE, HSIZE, FSIZE in *. split; [lia|done].
  - intros H1 b sz H2 len -> Hlen Hmod.
    destruct (split_correct s H1 b sz H2 Ls len I) as (s' & Ls' & E & _ & I');
      [unfold MINCLASSSIZE, HSIZE, FSIZE in *; lia|done|].
    by exists s', Ls'.
Qed.

Lemma split_block_threshold_witness :
  reachable st_init [] ∧
  ∃ H Ls,
    Inv st_init H Ls ∧ heap_walk (length H) st_init (heap st_init) = H ∧
    Forall (λ x, HSIZE + FSIZE ≤ blk_size x ∧ blk_size x mod 16 = 0) H ∧
    ∀ H1 b sz H2 len,
      H = H1 ++ (b, sz, true) :: H2 →
      HSIZE + FSIZE ≤ len ≤ sz → len mod 16 = 0 →
      ∃ s' Ls',
        split_block b len st_init = Some s' ∧
        Inv s' (H1 ++ (if decide (sz - len < HSIZE + FSIZE)
                       then [(b, sz, false)]
                       else [(b, len, false); (b + len, sz - len, true)])
                   ++ H2) Ls'.
Proof.
  split; [exact st_init_reachable|].
  apply (split_block_threshold st_init []). exact st_init_reachable.
Defined.

(** * Removal from the index *)

(** C2, as stated, fails: with a free block of 64 bytes in bucket 1 and a
    free block of 1968 bytes at 4224 in bucket 5, the block at 4224 is
    resized to 64 bytes and then removed with its original size, 1968, as
    argument. The removal classifies by the size field, 64: it clears the
    head of bucket 1 and leaves the block at the head of bucket 5. *)
Lemma del_fl_seg_ignores_size_argument :
  del_after_resize =
    Some ([0; 4096; 0; 0; 0; 4224; 0; 0; 0; 0; 0; 0; 0; 0; 0; 0],
          [0; 0; 0; 0; 0; 4224; 0; 0; 0; 0; 0; 0; 0; 0; 0; 0]) ∧
  map_to_class 1968 = Some 5 ∧ map_to_class 64 = Some 1.
Proof. vm_compute. split_and!; reflexivity. Qed.

(** C2 (amended): [del_fl_seg] does not read its size argument; it
    classifies by the size field the block has when it is called. In every
    reachable state the size field of each member of a bucket is of the
    class of that bucket, so a removal, whatever size is passed, unlinks the
    block from the bucket that holds it and leaves the other buckets and
    all blocks as they are. *)
Theorem del_fl_seg_by_block_size s A :
  reachable s A →
  (∀ block size size' s0,
     del_fl_seg block size s0 = del_fl_seg block size' s0) ∧
  ∃ H Ls,
    Inv s H Ls ∧
    ∀ (k : nat) L1 b L2 size,
      Ls !! k = Some (L1 ++ b :: L2) →
      map_to_class (get_size s b) = Some (Z.of_nat k) ∧
      ∃ s', del_fl_seg b size s = Some s' ∧
            Repr s' H (<[k := L1 ++ L2]> Ls).
Proof.
  intros Hr. split; [reflexivity|].
  destruct (reachable_Inv s A Hr) as (H & Ls & I & _).
  exists H, Ls. split; [done|]. intros k L1 b L2 size Hk.
  pose proof (I_repr _ _ _ I) as R. split.
  - destruct (Repr_member_free s H Ls k b R) as (sz & _ & _ & Hc & ->);
      [|done].
    exists (L1 ++ b :: L2). split; [done|].
    apply elem_of_app. right. apply elem_of_cons. by left.
  - destruct (Repr_del s H Ls k L1 b L2 size R Hk) as (s' & E & R' & _).
    by exists s'.
Qed.

Lemma del_fl_seg_by_block_size_witness :
  reachable st_init [] ∧
  (∀ block size size' s0,
     del_fl_seg block size s0 = del_fl_seg block size' s0) ∧
  ∃ H Ls,
    Inv st_init H Ls ∧
    ∀ (k : nat) L1 b L2 size,
      Ls !! k = Some (L1 ++ b :: L2) →
      map_to_class (get_size st_init b) = Some (Z.of_nat k) ∧
      ∃ s', del_fl_seg b size st_init = Some s' ∧
            Repr s' H (<[k := L1 ++ L2]> Ls).
Proof.
  split; [exact st_init_reachable|].
  apply (del_fl_seg_by_block_size st_init []). exact st_init_reachable.
Defined.

(** * The sign test of realloc *)

(** C3: the sign test of [realloc] converts the size to a 32-bit [int].
    The size [2^31], which is not negative as a signed 64-bit integer, is
    rejected: [realloc] returns [NULL] and leaves the state as it is,
    whatever the pointer. The size [2^63], which is negative as a signed
    64-bit integer, passes the test. *)
Theorem realloc_sign_test_is_32_bit (fuel : nat) (p : Z) (s : state) :
  realloc fuel p (2 ^ 31) s = Some (NULL, s) ∧
  0 ≤ long (2 ^ 31) ∧ int (2 ^ 31) < 0 ∧
  long (2 ^ 63) < 0 ∧ ¬ int (2 ^ 63) < 0.
Proof.
  split; [|vm_compute; split_and!; congruence].
  unfold realloc. rewrite decide_True; [done|]. by vm_compute.
Qed.

(** * Initialisation *)

(** C4: [mm_init] does not test the pointer that the host returns, it
    tests the byte this pointer points to. When the host grants the
    extension and the first byte of the new area is [0xFF], [mm_init]
    returns false although the break has moved by [alloc_size(2048)]. *)
Theorem mm_init_tests_first_byte s0 :
  mem_brk s0 + alloc_size CHUNKSIZE ≤ mem_max_addr s0 →
  load_char (mem s0) (mem_brk s0) = -1 →
  (mem_sbrk (alloc_size CHUNKSIZE) s0).1 = mem_brk s0 ∧
  ∃ s, mm_init s0 = Some (false, s) ∧
       mem_brk s = mem_brk s0 + alloc_size CHUNKSIZE.
Proof.
  intros Hok Hff. split; [|by apply mm_init_first_byte].
  unfold mem_sbrk. by rewrite decide_True.
Qed.

Lemma mm_init_tests_first_byte_witness :
  mem_brk host_ff + alloc_size CHUNKSIZE ≤ mem_max_addr host_ff ∧
  load_char (mem host_ff) (mem_brk host_ff) = -1 ∧
  (mem_sbrk (alloc_size CHUNKSIZE) host_ff).1 = mem_brk host_ff ∧
  ∃ s, mm_init host_ff = Some (false, s) ∧
       mem_brk s = mem_brk host_ff + alloc_size CHUNKSIZE.
Proof.
  split; [vm_compute; discriminate|]. split; [reflexivity|].
  apply (mm_init_tests_first_byte host_ff); [vm_compute; discriminate|].
  reflexivity.
Defined.

(** * The size-class map *)

(** C6, as stated, fails: the source has no lower clamp, so a size below
    32 is mapped to a negative class. *)
Lemma map_to_class_not_clamped_below :
  map_to_class 1 = Some (-5) ∧ map_to_class 1 ≠ Some (class_of_spec 1).
Proof. split; [reflexivity|]. vm_compute. discriminate. Qed.

(** C6 (amended): for every size [S] of at least 32 bytes the map returns
    [clamp(floor(log2 S) - 5, 0, 15)], a class between 0 and 15; for all
    sizes from 1 on, it returns [min(floor(log2 S) - 5, 15)], which is
    never above 15. *)
Theorem map_to_class_clamp (S : Z) :
  1 ≤ S < 2 ^ 64 →
  map_to_class S = Some (Z.min (Z.log2 S - 5) 15) ∧
  Z.min (Z.log2 S - 5) 15 ≤ 15 ∧
  (32 ≤ S →
   map_to_class S = Some (class_of_spec S) ∧ 0 ≤ class_of_spec S ≤ 15).
Proof.
  intros HS. split; [apply map_to_class_spec; lia|]. split; [lia|].
  intros H32. rewrite map_to_class_spec by lia.
  pose proof (Z.log2_le_mono 32 S). change (Z.log2 32) with 5 in *.
  unfold class_of_spec, clamp. split; [f_equal|]; lia.
Qed.

Lemma map_to_class_clamp_witness :
  1 ≤ 2096 < 2 ^ 64 ∧
  map_to_class 2096 = Some (Z.min (Z.log2 2096 - 5) 15) ∧
  Z.min (Z.log2 2096 - 5) 15 ≤ 15 ∧
  (32 ≤ 2096 →
   map_to_class 2096 = Some (class_of_spec 2096) ∧
   0 ≤ class_of_spec 2096 ≤ 15).
Proof. split; [lia|apply (map_to_class_clamp 2096); lia]. Defined.

(** * The placement search *)

(** C5: in every reachable state and for every block size [asize] from 32
    on, [find_fit_seg] terminates and returns the first block of size at
    least [asize] met when the buckets are scanned from [class_of(asize)]
    upward, each from head to tail. The result is [NULL] exactly when no
    free block of the heap has size at least [asize], and every block of a
    bucket below [class_of(asize)] is smaller than [asize]. *)
Theorem find_fit_seg_first_fit s A asize :
  reachable s A → 32 ≤ asize < 2 ^ 64 →
  ∃ H Ls,
    Inv s H Ls ∧
    (∃ fuel0, ∀ fuel, (fuel0 ≤ fuel)%nat →
       find_fit_seg fuel asize s = Some (find_fit_spec s Ls asize)) ∧
    (∀ fuel r, find_fit_seg fuel asize s = Some r →
       r = find_fit_spec s Ls asize) ∧
    (find_fit_spec s Ls asize = NULL ↔
     ∀ b sz, (b, sz, true) ∈ H → sz < asize) ∧
    (find_fit_spec s Ls asize ≠ NULL →
     ∃ sz, (find_fit_spec s Ls asize, sz, true) ∈ H ∧ asize ≤ sz) ∧
    (∀ (k : nat) b sz,
       members Ls k b → (b, sz, true) ∈ H →
       Z.of_nat k < class_of_spec asize → sz < asize).
Proof.
  intros Hr Ha. destruct (reachable_Inv s A Hr) as (H & Ls & I & _).
  pose proof (I_repr _ _ _ I) as R.
  destruct (enough_fuel_exists Ls) as [fuel0 Hf0].
  exists H, Ls. split_and!; [done| | | | |].
  - exists fuel0. intros fuel Hle.
    apply (find_fit_seg_spec fuel s H Ls asize R Ha).
    by apply (enough_fuel_mono fuel0).
  - intros fuel r E.
    apply (find_fit_seg_mono fuel (Nat.max fuel fuel0)) in E; [|lia].
    rewrite (find_fit_seg_spec _ s H Ls asize R Ha) in E.
    + by injection E.
    + apply (enough_fuel_mono fuel0); [lia|done].
  - rewrite (find_fit_spec_NULL s H Ls asize R Ha). split.
    + intros Hall b sz Hb.
      destruct (Inv_free_member s H Ls b sz I Hb) as (k & Hm & _ & <-).
      by apply (Hall k).
    + intros Hall k x Hm.
      destruct (Repr_member_free s H Ls k x R Hm) as (sz & Hsz & _ & _ & <-).
      by apply (Hall x).
  - intros Hne. unfold find_fit_spec in *.
    destruct (first_fit_elem s _ asize Hne) as [Hin Hge].
    apply members_drop in Hin as (k & _ & Hm).
    destruct (Repr_member_free s H Ls k _ R Hm) as (sz & Hsz & _ & _ & E).
    exists sz. split; [done|lia].
  - intros k b sz Hm Hb Hlt.
    destruct (Repr_member_free s H Ls k b R Hm) as (sz' & Hsz' & Hmin & Hc & _).
    assert (sz' = sz) as ->.
    { pose proof (chain_addr_inj _ _ _ (b, sz', true) (b, sz, true)
                    (R_size _ _ _ R) (R_chain _ _ _ R) Hsz' Hb eq_refl).
      congruence. }
    destruct (class_of_spec_range asize Ha) as [Hca _].
    destruct (decide (sz < asize)) as [|Hge]; [done|].
    destruct (Repr_addr_range s H Ls (b, sz, true) R Hb) as (_ & Hlt64 & _).
    unfold blk_addr, blk_size in Hlt64. cbn in Hlt64.
    destruct (Repr_addr_range s H Ls (b, sz, true) R Hb) as (Hpos & _).
    unfold blk_addr in Hpos. cbn in Hpos.
    pose proof (map_to_class_mono asize sz (class_of_spec asize) (Z.of_nat k)
                  ltac:(lia) ltac:(lia) Hca Hc).
    lia.
Qed.

Lemma find_fit_seg_first_fit_witness :
  reachable st_init [] ∧ 32 ≤ 64 < 2 ^ 64 ∧
  ∃ H Ls,
    Inv st_init H Ls ∧
    (∃ fuel0, ∀ fuel, (fuel0 ≤ fuel)%nat →
       find_fit_seg fuel 64 st_init = Some (find_fit_spec st_init Ls 64)) ∧
    (∀ fuel r, find_fit_seg fuel 64 st_init = Some r →
       r = find_fit_spec st_init Ls 64) ∧
    (find_fit_spec st_init Ls 64 = NULL ↔
     ∀ b sz, (b, sz, true) ∈ H → sz < 64) ∧
    (find_fit_spec st_init Ls 64 ≠ NULL →
     ∃ sz, (find_fit_spec st_init Ls 64, sz, true) ∈ H ∧ 64 ≤ sz) ∧
    (∀ (k : nat) b sz,
       members Ls k b → (b, sz, true) ∈ H →
       Z.of_nat k < class_of_spec 64 → sz < 64).
Proof.
  split; [exact st_init_reachable|]. split; [lia|].
  apply (find_fit_seg_first_fit st_init [] 64); [exact st_init_reachable|lia].
Defined.

(** * Freeing and coalescing *)

(** C7: in every reachable state, [free] of a pointer the application
    holds succeeds; the freed block and its free neighbours, the run [M],
    are replaced by one block that starts where [M] starts and whose size
    is the sum of the sizes of [M]. In the new state the invariant holds: no
    two adjacent blocks are free, header and footer of the surviving block
    hold its size and the free flag, and the block is a member of exactly
    one bucket, in which it occurs once. *)
Theorem free_coalesces s A p :
  reachable s A → p ∈ A →
  ∃ H1 sz H2 Ls s' H1' M x0 r total H2' Ls',
    Inv s (H1 ++ (p - HSIZE, sz, false) :: H2) Ls ∧
    free p s = Some s' ∧
    H1 ++ (p - HSIZE, sz, true) :: H2 = H1' ++ M ++ H2' ∧
    (p - HSIZE, sz, true) ∈ M ∧
    Forall (λ x, blk_freed x = true) M ∧
    head M = Some x0 ∧ blk_addr x0 = r ∧
    total = total_size M ∧
    Inv s' (H1' ++ (r, total, true) :: H2') Ls' ∧
    heap_walk (length (H1' ++ (r, total, true) :: H2')) s' (heap s')
      = H1' ++ (r, total, true) :: H2' ∧
    no_adjacent_free (H1' ++ (r, total, true) :: H2') ∧
    tags_ok (mem s') (r, total, true) ∧
    (∃ k : nat, ∀ k' : nat, members Ls' k' r ↔ k' = k) ∧
    Forall NoDup Ls'.
Proof.
  intros Hr Hp. destruct (reachable_Inv s A Hr) as (H & Ls & I & HA).
  destruct (HA p Hp) as [sz Hsz].
  destruct (free_correct s H Ls p sz I Hsz)
    as (H1 & H2 & s' & Ls' & H1' & r & total & H2' & -> & Hcs & Hfree & I'
        & _ & Hmem & _).
  destruct (coalesce_spec_run _ _ _ _ _ _ _ _ _ Hcs)
    as (M & x0 & HM & HcM & HfM & Hhd & Hx0 & Htot).
  pose proof (I_repr _ _ _ I') as R'.
  assert ((r, total, true) ∈ H1' ++ (r, total, true) :: H2') as Hin.
  { apply elem_of_app. right. apply elem_of_cons. by left. }
  exists H1, sz, H2, Ls, s', H1', M, x0, r, total, H2', Ls'.
  split_and!; try done.
  - by eapply Inv_heap_walk.
  - exact (I_adj _ _ _ I').
  - pose proof (R_tags _ _ _ R') as Ht. rewrite Forall_forall in Ht.
    by apply Ht.
  - destruct (I_all _ _ _ I' r total Hin) as (k & Hk & Hm).
    exists k. intros k'. rewrite Hmem, Hk. split.
    + intros [= E]. lia.
    + by intros ->.
  - exact (R_nodup _ _ _ R').
Qed.

Lemma free_coalesces_witness :
  reachable st_m [4128] ∧ 4128 ∈ [4128] ∧
  ∃ H1 sz H2 Ls s' H1' M x0 r total H2' Ls',
    Inv st_m (H1 ++ (4128 - HSIZE, sz, false) :: H2) Ls ∧
    free 4128 st_m = Some s' ∧
    H1 ++ (4128 - HSIZE, sz, true) :: H2 = H1' ++ M ++ H2' ∧
    (4128 - HSIZE, sz, true) ∈ M ∧
    Forall (λ x, blk_freed x = true) M ∧
    head M = Some x0 ∧ blk_addr x0 = r ∧
    total = total_size M ∧
    Inv s' (H1' ++ (r, total, true) :: H2') Ls' ∧
    heap_walk (length (H1' ++ (r, total, true) :: H2')) s' (heap s')
      = H1' ++ (r, total, true) :: H2' ∧
    no_adjacent_free (H1' ++ (r, total, true) :: H2') ∧
    tags_ok (mem s') (r, total, true) ∧
    (∃ k : nat, ∀ k' : nat, members Ls' k' r ↔ k' = k) ∧
    Forall NoDup Ls'.
Proof.
  split; [exact st_m_reachable|].
  split; [apply elem_of_cons; by left|].
  apply (free_coalesces st_m [4128] 4128); [exact st_m_reachable|].
  apply elem_of_cons; by left.
Defined.

(** * Allocation *)

(** C8: in every reachable state and for every request [n] that
    [alloc_size] can hold, [malloc] terminates, and it returns [NULL]
    exactly when [n = 0] or the search misses and the host refuses the
    extension. When it returns [NULL], the memory, the break, the bucket
    heads, the index counter and the heap bounds are those of the state
    before the call; only the call counters have moved. *)
Theorem malloc_null_iff s A n :
  reachable s A → 0 ≤ n → n + 63 < 2 ^ 64 →
  (∃ fuel p s', malloc fuel n s = Some (p, s')) ∧
  ∀ fuel p s', malloc fuel n s = Some (p, s') →
    (p = NULL ↔ n = 0 ∨ ∃ fuel1, extension_fails fuel1 n s) ∧
    (p = NULL → same_core s s').
Proof.
  intros Hr Hn0 Hn. destruct (reachable_Inv s A Hr) as (H & Ls & I & _).
  destruct (decide (n = 0)) as [->|Hnz].
  { assert (∀ fuel, malloc fuel 0 s
                    = Some (NULL, set_mallocs (int (mallocs s + 1)) s)) as E0.
    { intros fuel. unfold malloc. by rewrite decide_True. }
    split; [by exists O, NULL, (set_mallocs (int (mallocs s + 1)) s)|].
    intros fuel p s'. rewrite E0. intros [= <- <-].
    split; [by split; [left|]|]. intros _. apply same_core_set_mallocs. }
  destruct (enough_fuel_exists Ls) as [fuel0 Hf0].
  pose proof (I_repr _ _ _ I) as R.
  pose proof (alloc_size_bounds n Hn0 Hn) as [Hab _].
  split.
  { destruct (malloc_correct s H Ls fuel0 n I ltac:(lia) Hn Hf0)
      as (p & s' & E & _).
    by exists fuel0, p, s'. }
  intros fuel p s' E.
  assert (enough_fuel (Nat.max fuel fuel0) Ls) as HF
    by (apply (enough_fuel_mono fuel0); [lia|done]).
  apply (malloc_mono fuel (Nat.max fuel fuel0)) in E; [|lia].
  destruct (malloc_correct s H Ls _ n I ltac:(lia) Hn HF)
    as (p0 & s0 & E0 & Hcase).
  rewrite E in E0. injection E0 as <- <-.
  destruct Hcase as [(-> & -> & Hfail)|(Hp & Hnf & _)].
  - split; [|intros _; apply same_core_malloc_failed].
    split; [|done]. intros _. right. by eexists.
  - split; [|done]. split; [done|]. intros [?|[fuel1 Hfail]]; [done|].
    destruct Hnf.
    apply (extension_fails_enough s H Ls _ fuel1 n R); [lia|done|done].
Qed.

Lemma malloc_null_iff_witness :
  reachable st_init [] ∧ 0 ≤ 100 ∧ 100 + 63 < 2 ^ 64 ∧
  (∃ fuel p s', malloc fuel 100 st_init = Some (p, s')) ∧
  ∀ fuel p s', malloc fuel 100 st_init = Some (p, s') →
    (p = NULL ↔ 100 = 0 ∨ ∃ fuel1, extension_fails fuel1 100 st_init) ∧
    (p = NULL → same_core st_init s').
Proof.
  split; [exact st_init_reachable|]. split; [lia|]. split; [lia|].
  apply (malloc_null_iff st_init [] 100); [exact st_init_reachable|lia|lia].
Defined.

(** * Extension of the heap *)

(** C9: in every reachable state, when the search of [malloc(n)] for
    [asize = alloc_size(n)] misses, [malloc] passes to [extend_heap]
    exactly [asize - tail.size] bytes if the last block of the heap is free
    and exactly [max(asize, 2048)] bytes if it is allocated: its run is the
    run of [extend_heap] on that size followed by the split of the block
    returned. The request is positive. When the host refuses it, [malloc]
    returns NULL. When the host grants it, the break moves by exactly that
    amount; with a free tail [extend_heap] returns the tail, now one free
    block of size exactly [asize], which [malloc] hands out whole; with an
    allocated tail it returns the new block at the old break, which
    [malloc] splits at [asize]. *)
Theorem malloc_extension_request s A fuel n :
  reachable s A → 0 < n → n + 63 < 2 ^ 64 →
  find_fit_seg fuel (alloc_size n) s = Some NULL →
  ∃ H0 t tsz tf Ls ext,
    Inv s (H0 ++ [(t, tsz, tf)]) Ls ∧
    ext = (if tf then alloc_size n - tsz
           else Z.max (alloc_size n) CHUNKSIZE) ∧
    0 < ext ∧
    extend_size (alloc_size n) s = Some ext ∧
    malloc fuel n s =
      ('(b, s1) ← extend_heap ext (set_mallocs (int (mallocs s + 1)) s);
       if decide (b = NULL) then Some (NULL, s1)
       else s2 ← split_block b (alloc_size n) s1; Some (b + HSIZE, s2)) ∧
    (mem_max_addr s < mem_brk s + ext →
       malloc fuel n s = Some (NULL, malloc_failed s)) ∧
    (mem_brk s + ext ≤ mem_max_addr s →
       ∃ s1 Ls1 s' Ls',
         extend_heap ext (set_mallocs (int (mallocs s + 1)) s)
           = Some (if tf then t else mem_brk s, s1) ∧
         mem_brk s1 = mem_brk s + ext ∧
         Inv s1 (H0 ++ (if tf then [(t, alloc_size n, true)]
                        else [(t, tsz, false); (mem_brk s, ext, true)])) Ls1 ∧
         malloc fuel n s = Some ((if tf then t else mem_brk s) + HSIZE, s') ∧
         mem_brk s' = mem_brk s + ext ∧
         Inv s' (H0 ++ (if tf then [(t, alloc_size n, false)]
                        else (t, tsz, false) ::
                             if decide (ext - alloc_size n < HSIZE + FSIZE)
                             then [(mem_brk s, ext, false)]
                             else [(mem_brk s, alloc_size n, false);
                                   (mem_brk s + alloc_size n,
                                    ext - alloc_size n, true)])) Ls').
Proof.
  intros Hr Hn0 Hn Hmiss.
  destruct (reachable_Inv s A Hr) as (H & Ls & I & _).
  destruct (Inv_last s H Ls I) as (H0 & t & tsz & tf & ->).
  destruct (malloc_miss_run s H0 t tsz tf Ls fuel n I Hn0 Hn Hmiss)
    as (Hpos & Hes & Hrun & Hfail & Hok).
  exists H0, t, tsz, tf, Ls,
    (if tf then alloc_size n - tsz else Z.max (alloc_size n) CHUNKSIZE).
  split_and!; try done.
Qed.

Lemma malloc_extension_request_witness :
  reachable st_init [] ∧ 0 < 3000 ∧ 3000 + 63 < 2 ^ 64 ∧
  find_fit_seg 8 (alloc_size 3000) st_init = Some NULL ∧
  ∃ H0 t tsz tf Ls ext,
    Inv st_init (H0 ++ [(t, tsz, tf)]) Ls ∧
    ext = (if tf then alloc_size 3000 - tsz
           else Z.max (alloc_size 3000) CHUNKSIZE) ∧
    0 < ext ∧
    extend_size (alloc_size 3000) st_init = Some ext ∧
    malloc 8 3000 st_init =
      ('(b, s1) ← extend_heap ext
                    (set_mallocs (int (mallocs st_init + 1)) st_init);
       if decide (b = NULL) then Some (NULL, s1)
       else s2 ← split_block b (alloc_size 3000) s1; Some (b + HSIZE, s2)) ∧
    (mem_max_addr st_init < mem_brk st_init + ext →
       malloc 8 3000 st_init = Some (NULL, malloc_failed st_init)) ∧
    (mem_brk st_init + ext ≤ mem_max_addr st_init →
       ∃ s1 Ls1 s' Ls',
         extend_heap ext (set_mallocs (int (mallocs st_init + 1)) st_init)
           = Some (if tf then t else mem_brk st_init, s1) ∧
         mem_brk s1 = mem_brk st_init + ext ∧
         Inv s1 (H0 ++ (if tf then [(t, alloc_size 3000, true)]
                        else [(t, tsz, false);
                              (mem_brk st_init, ext, true)])) Ls1 ∧
         malloc 8 3000 st_init
           = Some ((if tf then t else mem_brk st_init) + HSIZE, s') ∧
         mem_brk s' = mem_brk st_init + ext ∧
         Inv s' (H0 ++ (if tf then [(t, alloc_size 3000, false)]
                        else (t, tsz, false) ::
                             if decide (ext - alloc_size 3000 < HSIZE + FSIZE)
                             then [(mem_brk st_init, ext, false)]
                             else [(mem_brk st_init, alloc_size 3000, false);
                                   (mem_brk st_init + alloc_size 3000,
                                    ext - alloc_size 3000, true)])) Ls').
Proof.
  split; [exact st_init_reachable|]. split; [lia|]. split; [lia|].
  split; [vm_compute; reflexivity|].
  apply (malloc_extension_request st_init [] 8 3000);
    [exact st_init_reachable|lia|lia|vm_compute; reflexivity].
Defined.

(** * The index counter *)

(** C10: in every reachable state, that is between any two public calls,
    the counter [frees] is the number of members of the sixteen buckets, as
    an [int], and exactly so while the heap is below [48 * 2^31] bytes; the
    count of the checker, [get_FL_count], terminates with the same value.
    The size field of every member of a bucket is of the class of that
    bucket, as it was when the block was inserted, so a removal unlinks the
    block from the bucket that holds it, leaves all sizes as they are and
    decrements the counter. *)
Theorem frees_counts_index s A :
  reachable s A →
  ∃ H Ls,
    Inv s H Ls ∧ length Ls = Z.to_nat CLASSNUM ∧
    frees s = int (Z.of_nat (length (concat Ls))) ∧
    (mem_brk s - heap s < MINCLASSSIZE * 2 ^ 31 →
     frees s = Z.of_nat (length (concat Ls))) ∧
    (∃ fuel0, ∀ fuel, (fuel0 ≤ fuel)%nat →
       get_FL_count fuel s = Some (frees s)) ∧
    (∀ (k : nat) b,
       members Ls k b → map_to_class (get_size s b) = Some (Z.of_nat k)) ∧
    (∀ (k : nat) L1 b L2,
       Ls !! k = Some (L1 ++ b :: L2) →
       ∃ s', del_fl_seg b (get_size s b) s = Some s' ∧
             Repr s' H (<[k := L1 ++ L2]> Ls) ∧
             frees s' = int (frees s - 1)).
Proof.
  intros Hr. destruct (reachable_Inv s A Hr) as (H & Ls & I & _).
  pose proof (I_repr _ _ _ I) as R.
  exists H, Ls. split_and!; [done| | | | | |].
  - by eapply Repr_Ls_length.
  - exact (R_frees _ _ _ R).
  - intros Hsmall. rewrite (R_frees _ _ _ R). apply int_small.
    pose proof (index_count_bound s H Ls I). unfold MINCLASSSIZE in *. lia.
  - destruct (enough_fuel_exists Ls) as [fuel0 Hf0]. exists fuel0.
    intros fuel Hle. apply (get_FL_count_spec fuel s H Ls R).
    by apply (enough_fuel_mono fuel0).
  - intros k b Hm.
    by destruct (Repr_member_free s H Ls k b R Hm) as (sz & _ & _ & Hc & ->).
  - intros k L1 b L2 Hk.
    destruct (Repr_del s H Ls k L1 b L2 (get_size s b) R Hk)
      as (s' & E & R' & _).
    exists s'. split_and!; [done|done|].
    rewrite (R_frees _ _ _ R'), (R_frees _ _ _ R), int_sub_l. f_equal.
    rewrite (concat_insert_length Ls k (L1 ++ b :: L2)) by done.
    rewrite !length_app. cbn [length]. lia.
Qed.

Lemma frees_counts_index_witness :
  reachable st_m [4128] ∧
  ∃ H Ls,
    Inv st_m H Ls ∧ length Ls = Z.to_nat CLASSNUM ∧
    frees st_m = int (Z.of_nat (length (concat Ls))) ∧
    (mem_brk st_m - heap st_m < MINCLASSSIZE * 2 ^ 31 →
     frees st_m = Z.of_nat (length (concat Ls))) ∧
    (∃ fuel0, ∀ fuel, (fuel0 ≤ fuel)%nat →
       get_FL_count fuel st_m = Some (frees st_m)) ∧
    (∀ (k : nat) b,
       members Ls k b →
       map_to_class (get_size st_m b) = Some (Z.of_nat k)) ∧
    (∀ (k : nat) L1 b L2,
       Ls !! k = Some (L1 ++ b :: L2) →
       ∃ s', del_fl_seg b (get_size st_m b) st_m = Some s' ∧
             Repr s' H (<[k := L1 ++ L2]> Ls) ∧
             frees s' = int (frees st_m - 1)).
Proof.
  split; [exact st_m_reachable|].
  apply (frees_counts_index st_m [4128]). exact st_m_reachable.
Defined.

(** * Further properties: sizes and classes *)

(** X1: [align] rounds up to the next multiple of 16: the result is a
    multiple of 16, it is the least one that is not below the argument, and
    [aligned] holds exactly of the multiples of 16. *)
Theorem align_rounds_up x :
  0 ≤ x → x + 15 < 2 ^ 64 →
  align x mod 16 = 0 ∧ x ≤ align x < x + 16 ∧
  (∀ y, x ≤ y → y mod 16 = 0 → align x ≤ y) ∧
  (align x = x ↔ x mod 16 = 0) ∧
  (aligned x = true ↔ x mod 16 = 0).
Proof.
  intros Hx Hlt. destruct (align_bounds x Hx Hlt) as [Hb Hm].
  split_and!; [done|lia|lia| | |by apply aligned_iff].
  - intros y Hy Hym. zlia.
  - split; [intros E; by rewrite <- E|]. intros Hxm. zlia.
Qed.

Lemma align_rounds_up_witness :
  0 ≤ 2001 ∧ 2001 + 15 < 2 ^ 64 ∧
  align 2001 mod 16 = 0 ∧ 2001 ≤ align 2001 < 2001 + 16 ∧
  (∀ y, 2001 ≤ y → y mod 16 = 0 → align 2001 ≤ y) ∧
  (align 2001 = 2001 ↔ 2001 mod 16 = 0) ∧
  (aligned 2001 = true ↔ 2001 mod 16 = 0).
Proof.
  split; [lia|]. split; [lia|]. apply (align_rounds_up 2001); lia.
Defined.

(** X2: for a request [n] that [alloc_size] can hold, the block size is
    [n] plus the 48 bytes of header and footer, rounded up to a multiple of
    16: it leaves at least [n] bytes of payload and wastes fewer than 16. *)
Theorem alloc_size_fits n :
  0 ≤ n → n + 63 < 2 ^ 64 →
  alloc_size n = 16 * ((n + 63) / 16) ∧
  alloc_size n mod 16 = 0 ∧
  n ≤ alloc_size n - HSIZE - FSIZE < n + 16 ∧
  MINCLASSSIZE ≤ alloc_size n.
Proof.
  intros Hn Hlt. destruct (alloc_size_bounds n Hn Hlt) as [Hb Hm].
  split_and!; [|done|clia|clia|clia].
  unfold alloc_size, HSIZE, FSIZE.
  rewrite (size_t_small (n + 32)) by lia.
  rewrite (size_t_small (n + 32 + 16)) by lia.
  rewrite align_spec by lia. f_equal. f_equal. lia.
Qed.

Lemma alloc_size_fits_witness :
  0 ≤ 2000 ∧ 2000 + 63 < 2 ^ 64 ∧
  alloc_size 2000 = 16 * ((2000 + 63) / 16) ∧
  alloc_size 2000 mod 16 = 0 ∧
  2000 ≤ alloc_size 2000 - HSIZE - FSIZE < 2000 + 16 ∧
  MINCLASSSIZE ≤ alloc_size 2000.
Proof.
  split; [lia|]. split; [lia|]. apply (alloc_size_fits 2000); lia.
Defined.

(** X3: [alloc_size] does not guard against overflow: for the 63 largest
    values of [size_t] the sum wraps around and the block size is at most
    48 bytes, far below the request. *)
Theorem alloc_size_wraps n :
  2 ^ 64 - 63 ≤ n < 2 ^ 64 →
  alloc_size n ≤ 48 ∧ alloc_size n mod 16 = 0 ∧ alloc_size n < n.
Proof.
  intros Hn. unfold alloc_size, align, size_t, HSIZE, FSIZE, ALIGNMENT.
  zlia.
Qed.

Lemma alloc_size_wraps_witness :
  2 ^ 64 - 63 ≤ 2 ^ 64 - 1 < 2 ^ 64 ∧
  alloc_size (2 ^ 64 - 1) ≤ 48 ∧ alloc_size (2 ^ 64 - 1) mod 16 = 0 ∧
  alloc_size (2 ^ 64 - 1) < 2 ^ 64 - 1.
Proof. split; [lia|]. apply (alloc_size_wraps (2 ^ 64 - 1)). lia. Defined.

(** X4: [log2Floor] is the integer logarithm: for a non-zero 64-bit [s]
    it returns the [r] with [2^r <= s < 2^(r+1)]; at [0] the count of
    leading zeros, and so the result, is undefined. *)
Theorem log2Floor_is_log2 s :
  0 < s < 2 ^ 64 →
  log2Floor 0 = None ∧
  ∃ r, log2Floor s = Some r ∧ 0 ≤ r < 64 ∧ 2 ^ r ≤ s < 2 ^ (r + 1).
Proof.
  intros Hs. split; [reflexivity|]. exists (Z.log2 s).
  split; [by apply log2Floor_spec|]. split; [by apply log2_bounds|].
  pose proof (Z.log2_spec s ltac:(lia)). unfold Z.succ in *. lia.
Qed.

Lemma log2Floor_is_log2_witness :
  0 < 2096 < 2 ^ 64 ∧
  log2Floor 0 = None ∧
  ∃ r, log2Floor 2096 = Some r ∧ 0 ≤ r < 64 ∧ 2 ^ r ≤ 2096 < 2 ^ (r + 1).
Proof. split; [lia|]. apply (log2Floor_is_log2 2096). lia. Defined.

(** X5: the size classes are ranges of powers of two and the map is
    monotone: for sizes from 32 on, class [k < 15] holds the sizes in
    [2^(k+5), 2^(k+6)), class 15 holds every size from [2^20] on, and a
    larger size is never in a smaller class. *)
Theorem size_class_ranges s1 s2 :
  32 ≤ s1 ≤ s2 → s2 < 2 ^ 64 →
  ∃ k1 k2,
    map_to_class s1 = Some k1 ∧ map_to_class s2 = Some k2 ∧
    0 ≤ k1 ≤ k2 ∧ k2 ≤ 15 ∧
    2 ^ (k1 + 5) ≤ s1 ∧ (k1 < 15 → s1 < 2 ^ (k1 + 6)).
Proof.
  intros H1 H2.
  exists (Z.min (Z.log2 s1 - 5) 15), (Z.min (Z.log2 s2 - 5) 15).
  rewrite !map_to_class_spec by lia.
  pose proof (Z.log2_le_mono 32 s1 ltac:(lia)) as L1.
  pose proof (Z.log2_le_mono s1 s2 ltac:(lia)) as L2.
  change (Z.log2 32) with 5 in L1.
  pose proof (Z.log2_spec s1 ltac:(lia)) as [Ha Hb]. unfold Z.succ in Hb.
  split_and!; try done; try lia.
  - destruct (decide (Z.log2 s1 - 5 ≤ 15)).
    + rewrite Z.min_l by lia. by replace (Z.log2 s1 - 5 + 5) with (Z.log2 s1) by lia.
    + rewrite Z.min_r by lia.
      pose proof (Z.pow_le_mono_r 2 (15 + 5) (Z.log2 s1) ltac:(lia) ltac:(lia)).
      lia.
  - intros Hk. rewrite Z.min_l by lia.
    by replace (Z.log2 s1 - 5 + 6) with (Z.log2 s1 + 1) by lia.
Qed.

Lemma size_class_ranges_witness :
  32 ≤ 64 ≤ 2096 ∧ 2096 < 2 ^ 64 ∧
  ∃ k1 k2,
    map_to_class 64 = Some k1 ∧ map_to_class 2096 = Some k2 ∧
    0 ≤ k1 ≤ k2 ∧ k2 ≤ 15 ∧
    2 ^ (k1 + 5) ≤ 64 ∧ (k1 < 15 → 64 < 2 ^ (k1 + 6)).
Proof.
  split; [lia|]. split; [lia|]. apply (size_class_ranges 64 2096); lia.
Defined.

(** * Further properties: the heap checker *)

(** X6: the allocator passes its own checker: in every reachable state
    whose first block is 16-byte aligned and lies within the bounds the
    host reports, [mm_checkheap] terminates and returns true. *)
Theorem mm_checkheap_accepts s A lo hi :
  reachable s A → heap s mod 16 = 0 → lo ≤ heap s → mem_brk s - 1 ≤ hi →
  ∃ fuel0, ∀ fuel, (fuel0 ≤ fuel)%nat →
    mm_checkheap lo hi fuel s = Some true.
Proof.
  intros Hr Hal Hlo Hhi. destruct (reachable_Inv s A Hr) as (H & Ls & I & _).
  destruct (enough_fuel_exists Ls) as [fuel0 Hf0].
  exists (Nat.max fuel0 (S (length H))). intros fuel Hle.
  apply (checkheap_ok s H Ls); try done; [|lia].
  apply (enough_fuel_mono fuel0); [lia|done].
Qed.

Lemma mm_checkheap_accepts_witness :
  reachable st_m [4128] ∧ heap st_m mod 16 = 0 ∧ 4096 ≤ heap st_m ∧
  mem_brk st_m - 1 ≤ 6191 ∧
  ∃ fuel0, ∀ fuel, (fuel0 ≤ fuel)%nat →
    mm_checkheap 4096 6191 fuel st_m = Some true.
Proof.
  split; [exact st_m_reachable|]. split; [reflexivity|].
  split; [vm_compute; discriminate|]. split; [vm_compute; discriminate|].
  apply (mm_checkheap_accepts st_m [4128] 4096 6191);
    [exact st_m_reachable|reflexivity|vm_compute; discriminate
    |vm_compute; discriminate].
Defined.

(** * Further properties: walking the heap *)

(** X7: [next_blk] and [prev_blk] step through the blocks of the heap and
    are inverse to each other: for two consecutive blocks [x], [y] of a
    reachable heap, [next_blk x = y] and [prev_blk y = x]; the first block
    has no predecessor, the last block has no successor, and the successor
    of [NULL] is [NULL]. *)
Theorem blk_navigation s A :
  reachable s A →
  ∃ H Ls,
    Inv s H Ls ∧
    prev_blk s (heap s) = NULL ∧ next_blk s NULL = NULL ∧
    (∀ H1 x, H = H1 ++ [x] → next_blk s (blk_addr x) = NULL) ∧
    (∀ H1 x y H2, H = H1 ++ x :: y :: H2 →
       next_blk s (blk_addr x) = blk_addr y ∧
       prev_blk s (blk_addr y) = blk_addr x ∧
       prev_blk s (next_blk s (blk_addr x)) = blk_addr x ∧
       next_blk s (prev_blk s (blk_addr y)) = blk_addr y).
Proof.
  intros Hr. destruct (reachable_Inv s A Hr) as (H & Ls & I & _).
  pose proof (I_repr _ _ _ I) as R.
  exists H, Ls. split_and!; [done| |done| |].
  - by rewrite (Repr_prev_blk s [] H Ls (heap s) R).
  - intros H1 x ->. by destruct (Repr_next_blk s H1 x [] Ls R) as [-> _].
  - intros H1 x y H2 ->.
    destruct (Repr_next_blk s H1 x (y :: H2) Ls R) as [Hn _].
    cbn in Hn.
    assert (Repr s ((H1 ++ [x]) ++ y :: H2) Ls) as R'
      by (by rewrite <- app_assoc).
    destruct (Repr_chain_mid _ _ _ _ _ R') as [Hc _].
    pose proof (Repr_prev_blk s (H1 ++ [x]) (y :: H2) Ls (blk_addr y) R' Hc)
      as Hp.
    rewrite last_snoc in Hp. cbn in Hp.
    split_and!; [done|done|by rewrite Hn|by rewrite Hp].
Qed.

Lemma blk_navigation_witness :
  reachable st_m [4128] ∧
  ∃ H Ls,
    Inv st_m H Ls ∧
    prev_blk st_m (heap st_m) = NULL ∧ next_blk st_m NULL = NULL ∧
    (∀ H1 x, H = H1 ++ [x] → next_blk st_m (blk_addr x) = NULL) ∧
    (∀ H1 x y H2, H = H1 ++ x :: y :: H2 →
       next_blk st_m (blk_addr x) = blk_addr y ∧
       prev_blk st_m (blk_addr y) = blk_addr x ∧
       prev_blk st_m (next_blk st_m (blk_addr x)) = blk_addr x ∧
       next_blk st_m (prev_blk st_m (blk_addr y)) = blk_addr y).
Proof.
  split; [exact st_m_reachable|].
  apply (blk_navigation st_m [4128]). exact st_m_reachable.
Defined.

(** X8: header and footer of every block of a reachable heap agree:
    [get_footer] finds the footer at the end of the block, the footer holds
    the size and the flag of the header, [get_header] leads back from the
    footer to the header, and [hf_consistency] returns true. *)
Theorem footer_header_round_trip s A :
  reachable s A →
  ∃ H Ls,
    Inv s H Ls ∧
    ∀ b sz f, (b, sz, f) ∈ H →
      get_size s b = sz ∧ get_freed s b = f ∧
      get_footer s b = b + sz - FSIZE ∧
      get_size s (get_footer s b) = sz ∧
      get_freed s (get_footer s b) = f ∧
      get_header s (get_footer s b) = b ∧
      hf_consistency s b = true.
Proof.
  intros Hr. destruct (reachable_Inv s A Hr) as (H & Ls & I & _).
  pose proof (I_repr _ _ _ I) as R.
  exists H, Ls. split; [done|]. intros b sz f Hin.
  destruct (Repr_tags s H Ls b sz f R Hin) as (Hs & Hf & Hfs & Hff).
  destruct (Repr_addr_range s H Ls _ R Hin) as (Hpos & _ & _ & _ & H16).
  cbn [blk_addr blk_size fst snd] in Hpos, H16.
  assert (get_footer s b = b + sz - FSIZE) as Hfoot
    by (unfold get_footer; by rewrite Hs).
  rewrite Hfoot. split_and!; try done.
  - unfold get_header. rewrite Hfs. lia.
  - unfold hf_consistency. rewrite Hfoot.
    rewrite decide_False by (unfold NULL; lia).
    rewrite decide_False by clia.
    rewrite Hs, Hfs, Hf, Hff. by rewrite !bool_decide_eq_true_2.
Qed.

Lemma footer_header_round_trip_witness :
  reachable st_m [4128] ∧
  ∃ H Ls,
    Inv st_m H Ls ∧
    ∀ b sz f, (b, sz, f) ∈ H →
      get_size st_m b = sz ∧ get_freed st_m b = f ∧
      get_footer st_m b = b + sz - FSIZE ∧
      get_size st_m (get_footer st_m b) = sz ∧
      get_freed st_m (get_footer st_m b) = f ∧
      get_header st_m (get_footer st_m b) = b ∧
      hf_consistency st_m b = true.
Proof.
  split; [exact st_m_reachable|].
  apply (footer_header_round_trip st_m [4128]). exact st_m_reachable.
Defined.

(** * Further properties: the index *)

(** X9: [get_count] returns the length of the bucket of a class, as an
    [int], once the fuel exceeds that length; for a class outside
    [0, 16) it reads outside [flp_list] and has no defined result. *)
Theorem get_count_is_length s A :
  reachable s A →
  ∃ H Ls,
    Inv s H Ls ∧
    (∀ (k : nat) L fuel,
       Ls !! k = Some L → (length L < fuel)%nat →
       get_count fuel s (Z.of_nat k) = Some (int (Z.of_nat (length L)))) ∧
    (∀ fuel c, c < 0 ∨ CLASSNUM ≤ c → get_count fuel s c = None).
Proof.
  intros Hr. destruct (reachable_Inv s A Hr) as (H & Ls & I & _).
  pose proof (I_repr _ _ _ I) as R.
  exists H, Ls. split_and!; [done| |].
  - intros k L fuel Hk Hf. unfold get_count, flp_get.
    rewrite decide_True by lia. rewrite Nat2Z.id.
    destruct (Forall2_lookup_r _ _ _ _ _ (R_lists _ _ _ R) Hk)
      as (h & Hh & Hd).
    rewrite Hh. cbn [mbind option_bind]. change 0 with (int 0) at 1.
    by rewrite (get_count_loop_spec fuel s h NULL L 0 Hd Hf).
  - intros fuel c Hc. unfold get_count, flp_get.
    case_decide; [|done].
    rewrite lookup_ge_None_2; [done|].
    rewrite (R_len _ _ _ R). unfold CLASSNUM in *. lia.
Qed.

Lemma get_count_is_length_witness :
  reachable st_m [4128] ∧
  ∃ H Ls,
    Inv st_m H Ls ∧
    (∀ (k : nat) L fuel,
       Ls !! k = Some L → (length L < fuel)%nat →
       get_count fuel st_m (Z.of_nat k) = Some (int (Z.of_nat (length L)))) ∧
    (∀ fuel c, c < 0 ∨ CLASSNUM ≤ c → get_count fuel st_m c = None).
Proof.
  split; [exact st_m_reachable|].
  apply (get_count_is_length st_m [4128]). exact st_m_reachable.
Defined.

(** X10: insertion is at the head. A block of the index that is removed
    with [del_fl_seg] and inserted again with [add_fl_seg] becomes the head
    of its bucket; the rest of the bucket keeps its order, the other
    buckets, the blocks of the heap and the counter [frees] are as
    before. *)
Theorem del_add_moves_to_head s A :
  reachable s A →
  ∃ H Ls,
    Inv s H Ls ∧
    ∀ (k : nat) L1 b L2,
      Ls !! k = Some (L1 ++ b :: L2) →
      ∃ s1 s2,
        del_fl_seg b (get_size s b) s = Some s1 ∧
        add_fl_seg b (get_size s b) s1 = Some s2 ∧
        Repr s2 H (<[k := b :: L1 ++ L2]> Ls) ∧
        flp_list s2 !! k = Some b ∧
        frees s2 = frees s.
Proof.
  intros Hr. destruct (reachable_Inv s A Hr) as (H & Ls & I & _).
  pose proof (I_repr _ _ _ I) as R.
  exists H, Ls. split; [done|]. intros k L1 b L2 Hk.
  destruct (Repr_del_add s H Ls k L1 b L2 R Hk)
    as (s1 & s2 & Hdel & Hadd & R2 & _).
  assert (k < length Ls)%nat as Hklt by (by eapply lookup_lt_Some).
  exists s1, s2. split_and!; [done|done|done| |].
  - assert (<[k := b :: L1 ++ L2]> Ls !! k = Some (b :: L1 ++ L2)) as Hk2
      by (by rewrite list_lookup_insert_eq).
    destruct (Forall2_lookup_r _ _ _ _ _ (R_lists _ _ _ R2) Hk2)
      as (h & Hh & Hd).
    simpl in Hd. destruct Hd as (-> & _). done.
  - rewrite (R_frees _ _ _ R2), (R_frees _ _ _ R). f_equal.
    rewrite (concat_insert_length Ls k (L1 ++ b :: L2)) by done.
    cbn [length]. rewrite !length_app. cbn [length]. lia.
Qed.

Lemma del_add_moves_to_head_witness :
  reachable st_m [4128] ∧
  ∃ H Ls,
    Inv st_m H Ls ∧
    ∀ (k : nat) L1 b L2,
      Ls !! k = Some (L1 ++ b :: L2) →
      ∃ s1 s2,
        del_fl_seg b (get_size st_m b) st_m = Some s1 ∧
        add_fl_seg b (get_size st_m b) s1 = Some s2 ∧
        Repr s2 H (<[k := b :: L1 ++ L2]> Ls) ∧
        flp_list s2 !! k = Some b ∧
        frees s2 = frees st_m.
Proof.
  split; [exact st_m_reachable|].
  apply (del_add_moves_to_head st_m [4128]). exact st_m_reachable.
Defined.

(** * Further properties: initialisation *)

(** X11: on a host that grants the initial extension and whose first new
    byte is not [0xFF], [mm_init] returns true whatever the allocator held
    before: the heap is one free block of 2096 bytes at the old break, the
    break has moved by 2096 bytes, the block is the only member of the
    index, in class 6, and the counter [frees] is 1. *)
Theorem mm_init_success s0 :
  host_ok s0 → load_char (mem s0) (mem_brk s0) ≠ -1 →
  ∃ s Ls,
    mm_init s0 = Some (true, s) ∧
    Inv s [(mem_brk s0, 2096, true)] Ls ∧
    heap_walk 1 s (heap s) = [(mem_brk s0, 2096, true)] ∧
    heap s = mem_brk s0 ∧ end_ s = mem_brk s0 + 2096 ∧
    mem_brk s = mem_brk s0 + 2096 ∧
    members Ls 6 (mem_brk s0) ∧ frees s = 1.
Proof.
  intros Hok Hff.
  destruct (mm_init_correct s0 Hok Hff) as (s & Ls & E & I & Hh & _).
  rewrite alloc_size_CHUNKSIZE in I. pose proof (I_repr _ _ _ I) as R.
  pose proof (R_chain _ _ _ R) as Hc. simpl in Hc.
  cbn [blk_addr blk_size fst snd] in Hc. destruct Hc as [_ Hc].
  exists s, Ls. split_and!; try done.
  - exact (Inv_heap_walk s _ Ls I).
  - rewrite <- Hc, Hh. done.
  - rewrite <- (R_end _ _ _ R), <- Hc, Hh. done.
  - destruct (I_all _ _ _ I (mem_brk s0) 2096) as (k & Hk & Hm); [by left|].
    assert (k = 6%nat) as ->; [|done].
    change (map_to_class 2096) with (Some 6) in Hk. injection Hk. lia.
  - rewrite (R_frees _ _ _ R), (Inv_single_count s _ _ Ls I). done.
Qed.

Lemma mm_init_success_witness :
  host_ok host0 ∧ load_char (mem host0) (mem_brk host0) ≠ -1 ∧
  ∃ s Ls,
    mm_init host0 = Some (true, s) ∧
    Inv s [(mem_brk host0, 2096, true)] Ls ∧
    heap_walk 1 s (heap s) = [(mem_brk host0, 2096, true)] ∧
    heap s = mem_brk host0 ∧ end_ s = mem_brk host0 + 2096 ∧
    mem_brk s = mem_brk host0 + 2096 ∧
    members Ls 6 (mem_brk host0) ∧ frees s = 1.
Proof.
  split; [exact host0_ok|]. split; [vm_compute; discriminate|].
  apply (mm_init_success host0); [exact host0_ok|vm_compute; discriminate].
Defined.

(** * Further properties: the pointers an application holds *)

(** X12: in every reachable state the payloads the application holds are
    safe: each lies inside the heap, between the header of its block and
    the break, at a multiple of 16 bytes from the start of the heap, in a
    block marked allocated, and the blocks of two different pointers do not
    overlap. *)
Theorem live_payloads_safe s A :
  reachable s A →
  (∀ p, p ∈ A →
     heap s + HSIZE ≤ p ∧ 0 ≤ payload_size s p ∧
     p + payload_size s p + FSIZE ≤ mem_brk s ∧
     (p - heap s) mod 16 = 0 ∧ (heap s mod 16 = 0 → p mod 16 = 0) ∧
     get_freed s (p - HSIZE) = false) ∧
  (∀ p q, p ∈ A → q ∈ A → p ≠ q →
     p + payload_size s p + FSIZE + HSIZE ≤ q ∨
     q + payload_size s q + FSIZE + HSIZE ≤ p).
Proof.
  intros Hr. destruct (reachable_Inv s A Hr) as (H & Ls & I & HA).
  pose proof (I_repr _ _ _ I) as R.
  pose proof (R_size _ _ _ R) as Hsz.
  pose proof (I_min _ _ _ I) as Hmin. rewrite Forall_forall in Hmin.
  assert (∀ p, p ∈ A → ∃ sz, (p - HSIZE, sz, false) ∈ H ∧
            payload_size s p = sz - HSIZE - FSIZE ∧ MINCLASSSIZE ≤ sz) as Hblk.
  { intros p Hp. destruct (HA p Hp) as [sz Hin]. exists sz.
    destruct (Repr_tags s H Ls _ sz false R Hin) as (Hs & _).
    unfold payload_size. rewrite Hs. split_and!; [done|done|].
    exact (Hmin _ Hin). }
  split.
  - intros p Hp. destruct (Hblk p Hp) as (sz & Hin & -> & Hm).
    destruct (Repr_tags s H Ls _ sz false R Hin) as (_ & Hf & _).
    destruct (Repr_addr_range s H Ls _ R Hin) as (_ & _ & Hge & Hle & _).
    destruct (chain_elem _ _ _ _ Hsz (R_chain _ _ _ R) Hin)
      as (H1 & H2 & -> & Hc1 & _).
    apply Forall_app in Hsz as [Hsz1 _].
    destruct (chain_total_mod _ _ _ Hc1 Hsz1) as [Hmod _].
    rewrite (R_end _ _ _ R) in Hle.
    cbn [blk_addr blk_size fst snd] in *.
    split_and!; [clia|clia|clia|clia| |done]. intros Hal. clia.
  - intros p q Hp Hq Hne.
    destruct (Hblk p Hp) as (szp & Hinp & -> & _).
    destruct (Hblk q Hq) as (szq & Hinq & -> & _).
    destruct (chain_disjoint _ _ _ _ _ Hsz (R_chain _ _ _ R) Hinp Hinq)
      as [[= E]|Hd]; [lia|].
    cbn [blk_addr blk_size fst snd] in Hd. clia.
Qed.

Lemma live_payloads_safe_witness :
  reachable st_m [4128] ∧
  (∀ p, p ∈ [4128] →
     heap st_m + HSIZE ≤ p ∧ 0 ≤ payload_size st_m p ∧
     p + payload_size st_m p + FSIZE ≤ mem_brk st_m ∧
     (p - heap st_m) mod 16 = 0 ∧ (heap st_m mod 16 = 0 → p mod 16 = 0) ∧
     get_freed st_m (p - HSIZE) = false) ∧
  (∀ p q, p ∈ [4128] → q ∈ [4128] → p ≠ q →
     p + payload_size st_m p + FSIZE + HSIZE ≤ q ∨
     q + payload_size st_m q + FSIZE + HSIZE ≤ p).
Proof.
  split; [exact st_m_reachable|].
  apply (live_payloads_safe st_m [4128]). exact st_m_reachable.
Defined.

(** * Further properties: what the public operations keep *)

(** X13: a successful [malloc(n)] returns a pointer the application does
    not hold yet, to a block marked allocated whose payload has at least
    [n] and fewer than [n + 64] bytes; every payload the application holds
    keeps its size and its contents, the heap keeps its start and the break
    does not move back. *)
Theorem malloc_returns_fresh_block s A fuel n p s' :
  reachable s A → 0 < n → n + 63 < 2 ^ 64 →
  malloc fuel n s = Some (p, s') → p ≠ NULL →
  (p ∉ A) ∧ n ≤ payload_size s' p < n + 64 ∧
  get_freed s' (p - HSIZE) = false ∧
  (∀ q, q ∈ A →
     payload_size s' q = payload_size s q ∧
     get_freed s' (q - HSIZE) = false ∧
     ∀ x, q ≤ x < q + payload_size s q → mem s' x = mem s x) ∧
  heap s' = heap s ∧ mem_brk s ≤ mem_brk s'.
Proof.
  intros Hr Hn Hmax Hm Hp.
  destruct (reachable_exact s A Hr) as (H & Ls & I & HA & HE).
  destruct (malloc_step s H Ls A fuel n p s' I HA HE ltac:(lia) Hmax Hm)
    as (H' & Ls' & I' & _ & _ & Hnew & Hkeep & Hh & He & Hup).
  pose proof (I_repr _ _ _ I) as R. pose proof (I_repr _ _ _ I') as R'.
  destruct (Hnew Hp) as (Hfresh & sz & Hin & Hsz).
  destruct (payload_of_block s' H' Ls' p sz R' Hin) as [Hps Hpf].
  destruct (alloc_size_bounds n ltac:(lia) Hmax) as [Hab _].
  pose proof (Hup sz Hin Hp).
  split_and!; [done|clia|clia|done| |done|].
  - intros q Hq. destruct (HA q Hq) as (szq & Hqin).
    destruct (Hkeep _ _ Hqin) as [Hqin' Hmem].
    exact (payload_kept s s' H H' Ls Ls' q szq R R' Hqin Hqin' Hmem).
  - by rewrite <- (R_end _ _ _ R), <- (R_end _ _ _ R').
Qed.

Lemma malloc_returns_fresh_block_witness :
  reachable st_m [4128] ∧ 0 < 200 ∧ 200 + 63 < 2 ^ 64 ∧
  malloc 8 200 st_m = Some (4288, st_m2) ∧ 4288 ≠ NULL ∧
  (4288 ∉ [4128]) ∧ 200 ≤ payload_size st_m2 4288 < 200 + 64 ∧
  get_freed st_m2 (4288 - HSIZE) = false ∧
  (∀ q, q ∈ [4128] →
     payload_size st_m2 q = payload_size st_m q ∧
     get_freed st_m2 (q - HSIZE) = false ∧
     ∀ x, q ≤ x < q + payload_size st_m q → mem st_m2 x = mem st_m x) ∧
  heap st_m2 = heap st_m ∧ mem_brk st_m ≤ mem_brk st_m2.
Proof.
  split; [exact st_m_reachable|]. split; [lia|]. split; [lia|].
  split; [exact st_m2_eq|]. split; [discriminate|].
  apply (malloc_returns_fresh_block st_m [4128] 8 200 4288 st_m2);
    [exact st_m_reachable|lia|lia|exact st_m2_eq|discriminate].
Defined.

(** X14: [free] of a pointer the application holds leaves every other
    payload it holds as it is, in size, flag and contents, and does not move
    the bounds of the heap; [free(NULL)] changes nothing. *)
Theorem free_keeps_other_payloads s A p s' :
  reachable s A → p ∈ A → free p s = Some s' →
  free NULL s = Some s ∧
  (∀ q, q ∈ A → q ≠ p →
     payload_size s' q = payload_size s q ∧
     get_freed s' (q - HSIZE) = false ∧
     ∀ x, q ≤ x < q + payload_size s q → mem s' x = mem s x) ∧
  heap s' = heap s ∧ mem_brk s' = mem_brk s.
Proof.
  intros Hr Hp Hf.
  destruct (reachable_exact s A Hr) as (H & Ls & I & HA & HE).
  destruct (free_step s H Ls A p s' I HA HE (or_intror Hp) Hf)
    as (H' & Ls' & I' & _ & _ & Hkeep & Hh & He).
  pose proof (I_repr _ _ _ I) as R. pose proof (I_repr _ _ _ I') as R'.
  split_and!; [done| |done|].
  - intros q Hq Hne. destruct (HA q Hq) as (szq & Hqin).
    destruct (Hkeep _ _ Hqin ltac:(lia)) as [Hqin' Hmem].
    exact (payload_kept s s' H H' Ls Ls' q szq R R' Hqin Hqin' Hmem).
  - by rewrite <- (R_end _ _ _ R), <- (R_end _ _ _ R').
Qed.

Lemma free_keeps_other_payloads_witness :
  reachable st_m2 [4288; 4128] ∧ 4128 ∈ [4288; 4128] ∧
  free 4128 st_m2 = Some st_f2 ∧
  free NULL st_m2 = Some st_m2 ∧
  (∀ q, q ∈ [4288; 4128] → q ≠ 4128 →
     payload_size st_f2 q = payload_size st_m2 q ∧
     get_freed st_f2 (q - HSIZE) = false ∧
     ∀ x, q ≤ x < q + payload_size st_m2 q → mem st_f2 x = mem st_m2 x) ∧
  heap st_f2 = heap st_m2 ∧ mem_brk st_f2 = mem_brk st_m2.
Proof.
  split; [exact st_m2_reachable|].
  split; [apply elem_of_cons; right; apply elem_of_cons; by left|].
  split; [exact st_f2_eq|].
  apply (free_keeps_other_payloads st_m2 [4288; 4128] 4128 st_f2);
    [exact st_m2_reachable
    |apply elem_of_cons; right; apply elem_of_cons; by left
    |exact st_f2_eq].
Defined.





(** * Further properties: no block is lost *)

(** X17: in every reachable state the blocks marked allocated are exactly
    the blocks of the pointers the application holds: each held pointer is
    the payload of an allocated block of the heap walk, and each allocated
    block of the heap walk is the block of a held pointer. *)
Theorem allocated_blocks_are_held s A :
  reachable s A →
  ∃ H Ls,
    Inv s H Ls ∧ heap_walk (length H) s (heap s) = H ∧
    (∀ p, p ∈ A → ∃ sz, (p - HSIZE, sz, false) ∈ H) ∧
    (∀ b sz, (b, sz, false) ∈ H → b + HSIZE ∈ A).
Proof.
  intros Hr. destruct (reachable_exact s A Hr) as (H & Ls & I & HA & HE).
  exists H, Ls. split_and!; [done|by eapply Inv_heap_walk|done|done].
Qed.

Lemma allocated_blocks_are_held_witness :
  reachable st_m2 [4288; 4128] ∧
  ∃ H Ls,
    Inv st_m2 H Ls ∧ heap_walk (length H) st_m2 (heap st_m2) = H ∧
    (∀ p, p ∈ [4288; 4128] → ∃ sz, (p - HSIZE, sz, false) ∈ H) ∧
    (∀ b sz, (b, sz, false) ∈ H → b + HSIZE ∈ [4288; 4128]).
Proof.
  split; [exact st_m2_reachable|].
  apply (allocated_blocks_are_held st_m2 [4288; 4128]). exact st_m2_reachable.
Defined.

(** X18: when the application has freed everything it was given, the
    heap is again one free block, from its start to the break, and that
    block is the only member of the index. *)
Theorem all_freed_one_block s :
  reachable s [] →
  heap_walk 1 s (heap s) = [(heap s, mem_brk s - heap s, true)] ∧
  frees s = 1 ∧
  ∃ Ls, Inv s [(heap s, mem_brk s - heap s, true)] Ls.
Proof.
  intros Hr. destruct (reachable_exact s [] Hr) as (H & Ls & I & _ & HE).
  assert (H = [(heap s, end_ s - heap s, true)]) as ->.
  { apply (all_free_single s H Ls I). intros [[b sz] [|]] Hx; [done|].
    by apply HE, elem_of_nil in Hx. }
  pose proof (I_repr _ _ _ I) as R. rewrite (R_end _ _ _ R) in *.
  split_and!.
  - exact (Inv_heap_walk s _ Ls I).
  - rewrite (R_frees _ _ _ R), (Inv_single_count s _ _ Ls I). done.
  - by exists Ls.
Qed.

Lemma all_freed_one_block_witness :
  reachable st_f [] ∧
  heap_walk 1 st_f (heap st_f) = [(heap st_f, mem_brk st_f - heap st_f, true)] ∧
  frees st_f = 1 ∧
  ∃ Ls, Inv st_f [(heap st_f, mem_brk st_f - heap st_f, true)] Ls.
Proof.
  split; [exact st_f_reachable|].
  apply (all_freed_one_block st_f). exact st_f_reachable.
Defined.

(** * Further properties: placement and overflow *)

(** X19: [malloc] places the request in the block the search finds and
    grows the heap only on a miss: when [find_fit_seg] returns a block for
    [alloc_size(n)], [malloc(n)] returns the payload of that block and the
    break stays where it is. *)
Theorem malloc_uses_fit s A fuel n r :
  reachable s A → 0 < n → n + 63 < 2 ^ 64 →
  find_fit_seg fuel (alloc_size n) s = Some r → r ≠ NULL →
  ∃ s', malloc fuel n s = Some (r + HSIZE, s') ∧
        mem_brk s' = mem_brk s ∧ heap s' = heap s.
Proof.
  intros Hr Hn Hmax Hfit Hrn.
  destruct (reachable_Inv s A Hr) as (H & Ls & I & _).
  destruct (alloc_size_bounds n ltac:(lia) Hmax) as [Hab Hmod].
  set (s0 := set_mallocs (int (mallocs s + 1)) s).
  pose proof (Inv_core s s0 H Ls (same_core_set_mallocs _ s) I) as I0.
  pose proof (I_repr _ _ _ I0) as R0. pose proof (I_repr _ _ _ I) as R.
  assert (find_fit_seg fuel (alloc_size n) s0 = Some r) as Hfit0.
  { rewrite <- Hfit. apply find_fit_seg_core; reflexivity. }
  assert (32 ≤ alloc_size n < 2 ^ 64) as Hrange by clia.
  pose proof (find_fit_seg_result s0 H Ls fuel _ r R0 Hrange Hfit0) as Er.
  unfold find_fit_spec in Er.
  destruct (first_fit_elem s0 _ (alloc_size n) ltac:(by rewrite <- Er))
    as [Hin Hge].
  rewrite <- Er in Hin, Hge.
  apply members_drop in Hin as (k & _ & Hm).
  destruct (Repr_member_free s0 H Ls k r R0 Hm) as (sz & Hrin & _ & _ & Hsz).
  rewrite Hsz in Hge.
  apply list_elem_of_split in Hrin as (H1 & H2 & ->).
  destruct (split_correct s0 H1 r sz H2 Ls (alloc_size n) I0)
    as (s' & Ls' & Hsp & Hsame & _); [clia|done|].
  exists s'. unfold malloc. fold s0. rewrite decide_False by lia.
  rewrite Hfit0. cbn [mbind option_bind]. rewrite decide_True by done.
  rewrite Hsp. cbn [mbind option_bind].
  destruct Hsame as (Hh & _ & Hb & _). done.
Qed.

Lemma malloc_uses_fit_witness :
  reachable st_m [4128] ∧ 0 < 200 ∧ 200 + 63 < 2 ^ 64 ∧
  find_fit_seg 8 (alloc_size 200) st_m = Some 4256 ∧ 4256 ≠ NULL ∧
  ∃ s', malloc 8 200 st_m = Some (4256 + HSIZE, s') ∧
        mem_brk s' = mem_brk st_m ∧ heap s' = heap st_m.
Proof.
  split; [exact st_m_reachable|]. split; [lia|]. split; [lia|].
  split; [vm_compute; reflexivity|]. split; [discriminate|].
  apply (malloc_uses_fit st_m [4128] 8 200 4256);
    [exact st_m_reachable|lia|lia|vm_compute; reflexivity|discriminate].
Defined.

(** X20: [malloc] does not reject sizes close to the largest [size_t]:
    for [n] from [2^64 - 63] to [2^64 - 32] the block size wraps around to
    0 or 16, and the search counts the leading zeros of 0 or reads
    [flp_list] at index -1, so the call has no defined result, in any
    state. *)
Theorem malloc_overflow_undefined fuel n s :
  2 ^ 64 - 63 ≤ n ≤ 2 ^ 64 - 32 →
  (alloc_size n = 0 ∨ alloc_size n = 16) ∧ malloc fuel n s = None.
Proof.
  intros Hn.
  assert (alloc_size n = 0 ∨ alloc_size n = 16) as Ha.
  { unfold alloc_size, HSIZE, FSIZE.
    assert (size_t (size_t (n + 32) + 16) = (n + 48) mod 2 ^ 64) as ->.
    { unfold size_t. rewrite Zplus_mod_idemp_l. f_equal. lia. }
    unfold align, ALIGNMENT, size_t.
    destruct (decide (n + 48 < 2 ^ 64)).
    - left. rewrite (Z.mod_small (n + 48)) by lia.
      replace ((n + 48 + 16 - 1) mod 2 ^ 64) with (n + 63 - 2 ^ 64) by zlia.
      rewrite Z.div_small by lia. done.
    - replace ((n + 48) mod 2 ^ 64) with (n + 48 - 2 ^ 64) by zlia.
      rewrite (Z.mod_small (n + 48 - 2 ^ 64 + 16 - 1)) by lia.
      destruct (decide (n + 48 - 2 ^ 64 = 0)) as [E|E].
      + left. rewrite E. done.
      + right.
        replace ((n + 48 - 2 ^ 64 + 16 - 1) / 16) with 1 by zlia. done. }
  split; [done|]. unfold malloc. rewrite decide_False by lia.
  destruct Ha as [-> | ->]; reflexivity.
Qed.

Lemma malloc_overflow_undefined_witness :
  2 ^ 64 - 63 ≤ 2 ^ 64 - 40 ≤ 2 ^ 64 - 32 ∧
  (alloc_size (2 ^ 64 - 40) = 0 ∨ alloc_size (2 ^ 64 - 40) = 16) ∧
  malloc 8 (2 ^ 64 - 40) st_m = None.
Proof.
  split; [lia|]. apply (malloc_overflow_undefined 8 (2 ^ 64 - 40) st_m). lia.
Defined.

(** * Further properties: the shape of the heap *)

(** X21: the blocks tile the heap: in every reachable state the heap walk
    starts at [heap], each block starts where the block before it ends, the
    last block ends at the break, which is [end], and the sizes add up to
    the size of the heap. *)
Theorem heap_is_tiled s A :
  reachable s A →
  ∃ H Ls,
    Inv s H Ls ∧ heap_walk (length H) s (heap s) = H ∧
    chain (heap s) H (mem_brk s) ∧ end_ s = mem_brk s ∧
    total_size H = mem_brk s - heap s ∧
    Forall (λ x, heap s ≤ blk_addr x ∧
                 blk_addr x + blk_size x ≤ mem_brk s ∧
                 (blk_addr x - heap s) mod 16 = 0) H.
Proof.
  intros Hr. destruct (reachable_Inv s A Hr) as (H & Ls & I & _).
  pose proof (I_repr _ _ _ I) as R. pose proof (R_chain _ _ _ R) as Hc.
  pose proof (R_size _ _ _ R) as Hsz.
  rewrite (R_end _ _ _ R) in Hc.
  exists H, Ls. split_and!; [done|by eapply Inv_heap_walk|done|apply R| |].
  - by apply total_size_chain.
  - apply Forall_forall. intros x Hx.
    destruct (chain_elem _ _ _ _ Hsz Hc Hx) as (H1 & H2 & -> & Hc1 & _ & ? & ?).
    apply Forall_app in Hsz as [Hsz1 _].
    destruct (chain_total_mod _ _ _ Hc1 Hsz1) as [Hmod _]. done.
Qed.

Lemma heap_is_tiled_witness :
  reachable st_m2 [4288; 4128] ∧
  ∃ H Ls,
    Inv st_m2 H Ls ∧ heap_walk (length H) st_m2 (heap st_m2) = H ∧
    chain (heap st_m2) H (mem_brk st_m2) ∧ end_ st_m2 = mem_brk st_m2 ∧
    total_size H = mem_brk st_m2 - heap st_m2 ∧
    Forall (λ x, heap st_m2 ≤ blk_addr x ∧
                 blk_addr x + blk_size x ≤ mem_brk st_m2 ∧
                 (blk_addr x - heap st_m2) mod 16 = 0) H.
Proof.
  split; [exact st_m2_reachable|].
  apply (heap_is_tiled st_m2 [4288; 4128]). exact st_m2_reachable.
Defined.

(** X22: the index holds exactly the free blocks: in every reachable
    state a block is a member of some bucket if and only if it is a free
    block of the heap walk, each free block is a member of the bucket of
    the class of its size and of no other, and the counter [frees] is the
    number of free blocks of the heap walk, as an [int]. *)
Theorem index_holds_free_blocks s A :
  reachable s A →
  ∃ H Ls,
    Inv s H Ls ∧ heap_walk (length H) s (heap s) = H ∧
    (∀ b, (∃ k, members Ls k b) ↔ ∃ sz, (b, sz, true) ∈ H) ∧
    (∀ b sz, (b, sz, true) ∈ H →
       ∃ k : nat, map_to_class sz = Some (Z.of_nat k) ∧ members Ls k b ∧
                  ∀ k', members Ls k' b → k' = k) ∧
    frees s =
      int (Z.of_nat (length (filter (λ x, blk_freed x = true) H))).
Proof.
  intros Hr. destruct (reachable_Inv s A Hr) as (H & Ls & I & _).
  pose proof (I_repr _ _ _ I) as R.
  destruct (index_is_free_blocks s H Ls I) as [Hiff Hlen].
  exists H, Ls. split_and!; [done|by eapply Inv_heap_walk| | |].
  - intros b. rewrite <- Hiff. split.
    + intros (k & L & Hk & Hb). apply elem_of_concat. exists L.
      split; [done|]. by eapply list_elem_of_lookup_2.
    + intros [L [Hb [k Hk]%list_elem_of_lookup]]%elem_of_concat.
      exists k, L. done.
  - intros b sz Hin. destruct (I_all _ _ _ I b sz Hin) as (k & Hk & Hm).
    exists k. split_and!; [done|done|].
    intros k' (L' & Hk' & Hb'). destruct Hm as (L & HkL & Hb).
    exact (Repr_bucket_inj s H Ls k' k L' L b R Hk' HkL Hb' Hb).
  - rewrite (R_frees _ _ _ R), Hlen. done.
Qed.

Lemma index_holds_free_blocks_witness :
  reachable st_f2 [4288] ∧
  ∃ H Ls,
    Inv st_f2 H Ls ∧ heap_walk (length H) st_f2 (heap st_f2) = H ∧
    (∀ b, (∃ k, members Ls k b) ↔ ∃ sz, (b, sz, true) ∈ H) ∧
    (∀ b sz, (b, sz, true) ∈ H →
       ∃ k : nat, map_to_class sz = Some (Z.of_nat k) ∧ members Ls k b ∧
                  ∀ k', members Ls k' b → k' = k) ∧
    frees st_f2 =
      int (Z.of_nat (length (filter (λ x, blk_freed x = true) H))).
Proof.
  split; [exact st_f2_reachable|].
  apply (index_holds_free_blocks st_f2 [4288]). exact st_f2_reachable.
Defined.

(** * Further properties: writing tags and growing the heap *)

(** X23: [set_size] followed by [set_free] writes a complete pair of tags:
    afterwards the header and the footer of the block both hold the new
    size and the new flag, whatever the memory held before, [get_footer]
    and [get_header] lead from one to the other, [hf_consistency] holds
    (for a block not at address 0), and no byte outside the block has
    changed. *)
Theorem set_size_set_free_tags b n f s :
  0 < n < 2 ^ 64 → n mod 16 = 0 → b ≠ NULL → b + n - FSIZE ≠ NULL →
  let s' := set_free b f (set_size b n s) in
  get_size s' b = n ∧ get_freed s' b = f ∧
  get_footer s' b = b + n - FSIZE ∧
  get_size s' (get_footer s' b) = n ∧
  get_freed s' (get_footer s' b) = f ∧
  get_header s' (get_footer s' b) = b ∧
  hf_consistency s' b = true ∧
  (∀ x, ¬ (b ≤ x < b + n) → mem s' x = mem s x).
Proof.
  intros Hn Hmod Hb Hfoot s'.
  destruct (retag_mem b n f s Hn Hmod) as ((Hs & Hf & Hfs & Hff) & Hout & _).
  fold s' in Hs, Hf, Hfs, Hff, Hout.
  cbn [blk_addr blk_size blk_freed fst snd] in Hs, Hf, Hfs, Hff.
  assert (get_size s' b = n) as Es by exact Hs.
  assert (get_freed s' b = f) as Ef by exact Hf.
  assert (get_footer s' b = b + n - FSIZE) as Eft
    by (unfold get_footer; by rewrite Es).
  assert (get_size s' (b + n - FSIZE) = n) as Efs by exact Hfs.
  assert (get_freed s' (b + n - FSIZE) = f) as Eff by exact Hff.
  rewrite Eft. split_and!; try done.
  - unfold get_header. rewrite Efs. unfold_consts. lia.
  - unfold hf_consistency. rewrite Eft.
    rewrite decide_False by done. rewrite decide_False by done.
    rewrite Es, Efs, Ef, Eff. by rewrite !bool_decide_eq_true_2.
Qed.

Lemma set_size_set_free_tags_witness :
  0 < 64 < 2 ^ 64 ∧ 64 mod 16 = 0 ∧ 4096 ≠ NULL ∧ 4096 + 64 - FSIZE ≠ NULL ∧
  let s' := set_free 4096 false (set_size 4096 64 host_ff) in
  get_size s' 4096 = 64 ∧ get_freed s' 4096 = false ∧
  get_footer s' 4096 = 4096 + 64 - FSIZE ∧
  get_size s' (get_footer s' 4096) = 64 ∧
  get_freed s' (get_footer s' 4096) = false ∧
  get_header s' (get_footer s' 4096) = 4096 ∧
  hf_consistency s' 4096 = true ∧
  (∀ x, ¬ (4096 ≤ x < 4096 + 64) → mem s' x = mem host_ff x).
Proof.
  assert (0 < 64 < 2 ^ 64) as H1 by lia.
  assert (64 mod 16 = 0) as H2 by reflexivity.
  assert (4096 ≠ NULL) as H3 by (unfold NULL; lia).
  assert (4096 + 64 - FSIZE ≠ NULL) as H4 by (unfold NULL, FSIZE; lia).
  refine (conj H1 (conj H2 (conj H3 (conj H4 _)))).
  exact (set_size_set_free_tags 4096 64 false host_ff H1 H2 H3 H4).
Defined.

(** X24: [extend_heap] on a reachable heap, asked for a multiple of 16 of
    at least 48 bytes. When the host cannot grant the bytes it returns NULL
    and changes nothing but the counter of extensions. When the host grants
    them and the last block of the heap is allocated, it returns the old
    break: the heap is the old heap followed by one new free block of
    exactly the requested size, the invariant holds again, and the break
    has moved up by the requested size. *)
Theorem extend_heap_appends s A ext :
  reachable s A → MINCLASSSIZE ≤ ext → ext mod 16 = 0 →
  ∃ H Ls,
    Inv s H Ls ∧
    (mem_max_addr s < mem_brk s + ext →
       extend_heap ext s = Some (NULL, set_extends (int (extends s + 1)) s)) ∧
    (mem_brk s + ext ≤ mem_max_addr s →
       ∀ x, last H = Some x → blk_freed x = false →
         ∃ s' Ls',
           extend_heap ext s = Some (mem_brk s, s') ∧
           Inv s' (H ++ [(mem_brk s, ext, true)]) Ls' ∧
           heap s' = heap s ∧ mem_brk s' = mem_brk s + ext ∧
           end_ s' = mem_brk s').
Proof.
  intros Hr Hext Hmod.
  destruct (reachable_Inv s A Hr) as (H & Ls & I & _).
  pose proof (I_repr _ _ _ I) as R.
  exists H, Ls. split_and!; [done| |].
  - intros Hfail. unfold extend_heap, mem_sbrk. st_simpl.
    rewrite decide_False by lia. by rewrite decide_True by done.
  - intros Hfit x Hlast Hx.
    assert (coalesce_spec H (end_ s) ext [] = (H, (end_ s, ext, true), []))
      as Hspec.
    { unfold coalesce_spec. rewrite Hlast, Hx. done. }
    destruct (extend_heap_correct s H Ls ext _ _ _ _ _ I
                ltac:(clia) Hmod Hfit (or_introl Hext) Hspec)
      as (s' & Ls' & He & _ & _ & I' & Hh & Hend & Hbrk & _).
    rewrite (R_end _ _ _ R) in He, I', Hend.
    exists s', Ls'. split_and!; try done. lia.
Qed.

Lemma extend_heap_appends_witness :
  reachable st_full [4128] ∧ MINCLASSSIZE ≤ 2048 ∧ 2048 mod 16 = 0 ∧
  ∃ H Ls,
    Inv st_full H Ls ∧
    (mem_max_addr st_full < mem_brk st_full + 2048 →
       extend_heap 2048 st_full =
         Some (NULL, set_extends (int (extends st_full + 1)) st_full)) ∧
    (mem_brk st_full + 2048 ≤ mem_max_addr st_full →
       ∀ x, last H = Some x → blk_freed x = false →
         ∃ s' Ls',
           extend_heap 2048 st_full = Some (mem_brk st_full, s') ∧
           Inv s' (H ++ [(mem_brk st_full, 2048, true)]) Ls' ∧
           heap s' = heap st_full ∧ mem_brk s' = mem_brk st_full + 2048 ∧
           end_ s' = mem_brk s').
Proof.
  pose proof st_full_reachable as Hr.
  assert (MINCLASSSIZE ≤ 2048) as H1 by (unfold MINCLASSSIZE; lia).
  assert (2048 mod 16 = 0) as H2 by reflexivity.
  refine (conj Hr (conj H1 (conj H2 _))).
  exact (extend_heap_appends st_full [4128] 2048 Hr H1 H2).
Defined.

(** * Further properties: initialisation on a host without room *)

(** X25: when the host cannot grant the initial chunk of
    [alloc_size(CHUNKSIZE) = 2096] bytes, [mem_sbrk] returns the sentinel
    [(void * )-1] and [mm_init] reads a byte through it before any test of
    the pointer: it has no defined result, and in particular it does not
    return false. *)
Theorem mm_init_refused_undefined s0 :
  mem_max_addr s0 < mem_brk s0 + alloc_size CHUNKSIZE →
  mem_brk s0 < 2 ^ 64 →
  alloc_size CHUNKSIZE = 2096 ∧
  (mem_sbrk (alloc_size CHUNKSIZE) s0).1 = SBRK_FAIL ∧
  mm_init s0 = None.
Proof.
  intros Hfail Hbrk. split; [apply alloc_size_CHUNKSIZE|]. split.
  - unfold mem_sbrk. by rewrite decide_False by lia.
  - unfold mm_init, mem_sbrk. st_simpl. unfold init_classes. st_simpl.
    rewrite decide_False by lia. st_simpl.
    unfold read_char. st_simpl.
    rewrite decide_False by (unfold SBRK_FAIL; lia). done.
Qed.

Lemma mm_init_refused_undefined_witness :
  mem_max_addr host_small < mem_brk host_small + alloc_size CHUNKSIZE ∧
  mem_brk host_small < 2 ^ 64 ∧
  alloc_size CHUNKSIZE = 2096 ∧
  (mem_sbrk (alloc_size CHUNKSIZE) host_small).1 = SBRK_FAIL ∧
  mm_init host_small = None.
Proof.
  assert (mem_max_addr host_small
          < mem_brk host_small + alloc_size CHUNKSIZE) as H1
    by (vm_compute; reflexivity).
  assert (mem_brk host_small < 2 ^ 64) as H2 by (vm_compute; reflexivity).
  refine (conj H1 (conj H2 _)).
  exact (mm_init_refused_undefined host_small H1 H2).
Defined.
